(** * Ascription engine of poascribe (scripts/poascribe.py)

    A shallow embedding of the ascription codec, the history
    reconstructor, the ascription writer and the selector combinator,
    followed by the properties established about them.

    Python text is a list of characters, unicode text with the characters
    of code below 256, Python integers are [Z] (string
    positions included, since [find] answers -1), a Python exception is an
    outcome of the result monad [Res], and a [while] loop is a fixpoint
    over fuel whose exhaustion is the outcome [NoFuel]. *)

From Stdlib Require Import ZArith Ascii String List Lia Bool Arith.
From stdpp Require Import base list gmap strings.
Import ListNotations.
Open Scope Z_scope.

(** ** Python values used by the script *)

Definition str := list ascii.

Definition lit (s : string) : str := list_ascii_of_string s.

(** Exceptions the modelled code can raise. *)
Inductive exn :=
| NameError
| IndexError
| ValueError
| TypeError
| SelectorError.

(** Outcome of a computation: a value, an exception, or a loop that did
    not finish within the fuel given. *)
Inductive Res (A : Type) :=
| Ok (a : A)
| Raise (e : exn)
| NoFuel.
Arguments Ok {A} a.
Arguments Raise {A} e.
Arguments NoFuel {A}.

Definition bind {A B} (r : Res A) (k : A -> Res B) : Res B :=
  match r with
  | Ok a => k a
  | Raise e => Raise e
  | NoFuel => NoFuel
  end.

Notation "x <- r ;; k" := (bind r (fun x => k))
  (at level 100, r at next level, right associativity).

Module Py.

Definition len (s : str) : Z := Z.of_nat (length s).

(** [s.startswith(p)] *)
Fixpoint startswith (s p : str) {struct p} : bool :=
  match p, s with
  | [], _ => true
  | _ :: _, [] => false
  | c :: p', d :: s' => Ascii.eqb c d && startswith s' p'
  end.

(** [sub in s] *)
Fixpoint contains (sub s : str) : bool :=
  startswith s sub ||
  match s with
  | [] => false
  | _ :: t => contains sub t
  end.

(** Offset of the first occurrence of [sub] in [s]. *)
Fixpoint find_nat (sub s : str) : option nat :=
  if startswith s sub then Some 0%nat
  else match s with
       | [] => None
       | _ :: t => option_map S (find_nat sub t)
       end.

(** Python's normalisation of a slice bound against a length [n]. *)
Definition clamp (n i : Z) : Z :=
  let i' := if i <? 0 then i + n else i in
  Z.max 0 (Z.min n i').

(** [s[a:b]] *)
Definition slice (s : str) (a b : Z) : str :=
  let a' := clamp (len s) a in
  let b' := clamp (len s) b in
  firstn (Z.to_nat (b' - a')) (skipn (Z.to_nat a') s).

(** [s[a:]] *)
Definition slice_from (s : str) (a : Z) : str :=
  skipn (Z.to_nat (clamp (len s) a)) s.

(** [s[:b]] *)
Definition slice_to (s : str) (b : Z) : str :=
  firstn (Z.to_nat (clamp (len s) b)) s.

(** [s.find(sub, start)]: -1 when there is no occurrence at or after
    [start], or when [start] lies beyond the end of [s]. *)
Definition find (s sub : str) (start : Z) : Z :=
  let start' := if start <? 0 then Z.max 0 (start + len s) else start in
  if len s <? start' then -1
  else match find_nat sub (skipn (Z.to_nat start') s) with
       | Some k => start' + Z.of_nat k
       | None => -1
       end.

(** [s.split(c)] for a one-character separator. *)
Fixpoint split (c : ascii) (s : str) : list str :=
  match s with
  | [] => [[]]
  | d :: t =>
      if Ascii.eqb d c then [] :: split c t
      else match split c t with
           | [] => [[d]]
           | w :: ws => (d :: w) :: ws
           end
  end.

(** [s.split(c, 1)] *)
Fixpoint split1 (c : ascii) (s : str) : list str :=
  match s with
  | [] => [[]]
  | d :: t =>
      if Ascii.eqb d c then [[]; t]
      else match split1 c t with
           | [] => [[d]]
           | w :: ws => (d :: w) :: ws
           end
  end.

(** [sep.join(l)] *)
Fixpoint join (sep : str) (l : list str) : str :=
  match l with
  | [] => []
  | [x] => x
  | x :: rest => x ++ sep ++ join sep rest
  end.

(** [c.isspace()] for a character of a unicode text: of the characters
    with a code below 256, the blank, the controls 9 to 13 and 28 to 31,
    the next-line control 133 and the no-break space 160. *)
Definition isspace (c : ascii) : bool :=
  let n := nat_of_ascii c in
  (n =? 32)%nat || ((9 <=? n)%nat && (n <=? 13)%nat)
  || ((28 <=? n)%nat && (n <=? 31)%nat) || (n =? 133)%nat || (n =? 160)%nat.

Fixpoint lstrip (s : str) : str :=
  match s with
  | c :: t => if isspace c then lstrip t else s
  | [] => []
  end.

(** [s.strip()] *)
Definition strip (s : str) : str := rev (lstrip (rev (lstrip s))).

(** [s.replace(c, "", 1)] for a one-character [c]. *)
Fixpoint replace1 (c : ascii) (s : str) : str :=
  match s with
  | [] => []
  | d :: t => if Ascii.eqb d c then t else d :: replace1 c t
  end.

Definition isdigit (c : ascii) : bool :=
  let n := nat_of_ascii c in (48 <=? n)%nat && (n <=? 57)%nat.

(** [c.isdigit()] for a character of a unicode text: of the characters
    with a code below 256, the decimal digits and the superscripts of 1, 2
    and 3. *)
Definition isdigit_text (c : ascii) : bool :=
  let n := nat_of_ascii c in
  isdigit c || (n =? 178)%nat || (n =? 179)%nat || (n =? 185)%nat.

(** [c.isalpha()] for a character of a unicode text: of the characters
    with a code below 256, the letters A to Z and a to z, the ordinal
    indicators, the micro sign and the accented letters. *)
Definition isalpha_text (c : ascii) : bool :=
  let n := nat_of_ascii c in
  ((65 <=? n)%nat && (n <=? 90)%nat) || ((97 <=? n)%nat && (n <=? 122)%nat)
  || (n =? 170)%nat || (n =? 181)%nat || (n =? 186)%nat
  || ((192 <=? n)%nat && (n <=? 214)%nat) || ((216 <=? n)%nat && (n <=? 246)%nat)
  || ((248 <=? n)%nat && (n <=? 255)%nat).

Definition digit_val (c : ascii) : Z := Z.of_nat (nat_of_ascii c) - 48.

Definition digits_val (s : str) : Z :=
  fold_left (fun acc c => 10 * acc + digit_val c) s 0.

(** [int(s)]: surrounding blanks and one sign are accepted, at least one
    digit is required; anything else is a ValueError. *)
Definition int (s : str) : Res Z :=
  match strip s with
  | [] => Raise ValueError
  | c :: t =>
      let '(neg, ds) :=
        if Ascii.eqb c "-" then (true, t)
        else if Ascii.eqb c "+" then (false, t)
        else (false, c :: t) in
      match ds with
      | [] => Raise ValueError
      | _ => if forallb isdigit ds
             then Ok (if neg : bool then - digits_val ds else digits_val ds)
             else Raise ValueError
      end
  end.

Definition digit_char (d : Z) : ascii := ascii_of_nat (Z.to_nat (48 + d)).

Definition is_ascii (c : ascii) : bool := (nat_of_ascii c <? 128)%nat.

(** [str(s)] for a text: with the default encoding, a character that is
    not ASCII is a UnicodeEncodeError, which is a ValueError. *)
Definition str_of_text (s : str) : Res str :=
  if forallb is_ascii s then Ok s else Raise ValueError.

Fixpoint digits_of (fuel : nat) (n : Z) (acc : str) : str :=
  match fuel with
  | O => acc
  | S fuel' =>
      let acc' := digit_char (n mod 10) :: acc in
      if n <? 10 then acc' else digits_of fuel' (n / 10) acc'
  end.

(** [str(n)] for an integer. *)
Definition str_of_int (n : Z) : str :=
  if n <? 0 then "-"%char :: digits_of (S (Z.to_nat (- n))) (- n) []
  else digits_of (S (Z.to_nat n)) n [].

(** [s * n] *)
Definition mul (s : str) (n : Z) : str := concat (repeat s (Z.to_nat n)).

End Py.

(** ** Messages and their fields *)

(** Names of the message attributes the script reads through [msg.get]. *)
Inductive field :=
| F_msgctxt
| F_msgid
| F_msgid_plural
| F_msgstr
| F_msgctxt_previous
| F_msgid_previous
| F_msgid_plural_previous
| F_manual_comment
| F_auto_comment.

#[global] Instance field_eq_dec : EqDecision field.
Proof. solve_decision. Defined.

(** What [msg.get(field)] can answer: [None], one text, or a list of
    texts. *)
Inductive fval :=
| VNone
| VStr (s : str)
| VSeq (l : list str).

#[global] Instance fval_eq_dec : EqDecision fval.
Proof. solve_decision. Defined.

(** Modelled from the spec: the classes Message and MessageUnsafe of
    pology.file.message are not under src/.  A message carries its identity
    (context and id), the tracked mutable fields, the ordered free-form
    comment lines, and the two flags fuzzy and obsolete; copying a message
    with [MessageUnsafe(msg)] copies every attribute, so a copy is the same
    record value. *)
Record Message := mkMessage {
  msgctxt : option str;
  msgid : str;
  msgid_plural : option str;
  msgstr : list str;
  msgctxt_previous : option str;
  msgid_previous : option str;
  msgid_plural_previous : option str;
  manual_comment : list str;
  auto_comment : list str;
  fuzzy : bool;
  obsolete : bool
}.

#[global] Instance Message_eq_dec : EqDecision Message.
Proof. solve_decision. Defined.

Definition of_opt (o : option str) : fval :=
  match o with
  | Some s => VStr s
  | None => VNone
  end.

(** [msg.get(field)] *)
Definition get (msg : Message) (f : field) : fval :=
  match f with
  | F_msgctxt => of_opt (msgctxt msg)
  | F_msgid => VStr (msgid msg)
  | F_msgid_plural => of_opt (msgid_plural msg)
  | F_msgstr => VSeq (msgstr msg)
  | F_msgctxt_previous => of_opt (msgctxt_previous msg)
  | F_msgid_previous => of_opt (msgid_previous msg)
  | F_msgid_plural_previous => of_opt (msgid_plural_previous msg)
  | F_manual_comment => VSeq (manual_comment msg)
  | F_auto_comment => VSeq (auto_comment msg)
  end.

(** [setattr(msg, field, value)] for a field holding [None] or one text;
    the other fields are left as they are. *)
Definition set_single (msg : Message) (f : field) (v : option str) : Message :=
  match f with
  | F_msgctxt =>
      mkMessage v (msgid msg) (msgid_plural msg) (msgstr msg)
        (msgctxt_previous msg) (msgid_previous msg) (msgid_plural_previous msg)
        (manual_comment msg) (auto_comment msg) (fuzzy msg) (obsolete msg)
  | F_msgid_plural =>
      mkMessage (msgctxt msg) (msgid msg) v (msgstr msg)
        (msgctxt_previous msg) (msgid_previous msg) (msgid_plural_previous msg)
        (manual_comment msg) (auto_comment msg) (fuzzy msg) (obsolete msg)
  | F_msgctxt_previous =>
      mkMessage (msgctxt msg) (msgid msg) (msgid_plural msg) (msgstr msg)
        v (msgid_previous msg) (msgid_plural_previous msg)
        (manual_comment msg) (auto_comment msg) (fuzzy msg) (obsolete msg)
  | F_msgid_previous =>
      mkMessage (msgctxt msg) (msgid msg) (msgid_plural msg) (msgstr msg)
        (msgctxt_previous msg) v (msgid_plural_previous msg)
        (manual_comment msg) (auto_comment msg) (fuzzy msg) (obsolete msg)
  | F_msgid_plural_previous =>
      mkMessage (msgctxt msg) (msgid msg) (msgid_plural msg) (msgstr msg)
        (msgctxt_previous msg) (msgid_previous msg) v
        (manual_comment msg) (auto_comment msg) (fuzzy msg) (obsolete msg)
  | _ => msg
  end.

(** [setattr(msg, field, value)] for a field holding a list of texts. *)
Definition set_multiple (msg : Message) (f : field) (v : list str) : Message :=
  match f with
  | F_msgstr =>
      mkMessage (msgctxt msg) (msgid msg) (msgid_plural msg) v
        (msgctxt_previous msg) (msgid_previous msg) (msgid_plural_previous msg)
        (manual_comment msg) (auto_comment msg) (fuzzy msg) (obsolete msg)
  | F_manual_comment =>
      mkMessage (msgctxt msg) (msgid msg) (msgid_plural msg) (msgstr msg)
        (msgctxt_previous msg) (msgid_previous msg) (msgid_plural_previous msg)
        v (auto_comment msg) (fuzzy msg) (obsolete msg)
  | F_auto_comment =>
      mkMessage (msgctxt msg) (msgid msg) (msgid_plural msg) (msgstr msg)
        (msgctxt_previous msg) (msgid_previous msg) (msgid_plural_previous msg)
        (manual_comment msg) v (fuzzy msg) (obsolete msg)
  | _ => msg
  end.

(** [msg.flag.add("fuzzy")] / [msg.flag.remove("fuzzy")] *)
Definition set_fuzzy (msg : Message) (b : bool) : Message :=
  mkMessage (msgctxt msg) (msgid msg) (msgid_plural msg) (msgstr msg)
    (msgctxt_previous msg) (msgid_previous msg) (msgid_plural_previous msg)
    (manual_comment msg) (auto_comment msg) b (obsolete msg).

(** [msg.obsolete = b] *)
Definition set_obsolete (msg : Message) (b : bool) : Message :=
  mkMessage (msgctxt msg) (msgid msg) (msgid_plural msg) (msgstr msg)
    (msgctxt_previous msg) (msgid_previous msg) (msgid_plural_previous msg)
    (manual_comment msg) (auto_comment msg) (fuzzy msg) b.

(** Modelled from the spec: [Message()] of pology.file.message is not under
    src/.  A new message has no context, an empty id, no tracked text, no
    comments and neither flag. *)
Definition Message_new : Message :=
  mkMessage None [] None [] None None None [] [] false false.

(** Modelled from the spec: the attribute [key] of pology.file.message is
    not under src/.  Two messages are the same catalog entry when their
    identity fields (context and id, the fields of [_id_fields]) agree. *)
Definition key (msg : Message) : option str * str := (msgctxt msg, msgid msg).

(** Modelled from the spec: the method [state()] of pology.file.message is
    not under src/.  It tells apart translated, fuzzy and untranslated
    messages, each current or obsolete, with the codes the script names
    [_st_tran], [_st_fuzzy], [_st_untran], [_st_otran], [_st_ofuzzy] and
    [_st_ountran]. *)
Definition state (msg : Message) : str :=
  (if obsolete msg then lit "O" else []) ++
  (if fuzzy msg then lit "F"
   else if existsb (fun s => negb (bool_decide (s = []))) (msgstr msg)
        then lit "T" else lit "U").

(** Modelled from the spec: the class Catalog of pology.file.catalog is not
    under src/.  A catalog is the ordered list of its messages; [msg in cat]
    and [cat[msg]] go by the message key, and [add_last] appends. *)
Definition Catalog := list Message.

Definition cat_get (cat : Catalog) (msg : Message) : option Message :=
  List.find (fun m => bool_decide (key m = key msg)) cat.

Definition cat_in (msg : Message) (cat : Catalog) : bool :=
  match cat_get cat msg with
  | Some _ => true
  | None => false
  end.

Definition add_last (cat : Catalog) (msg : Message) : Catalog := cat ++ [msg].

(** ** Field groups *)

Definition _id_fields : list field := [F_msgctxt; F_msgid].
Definition _nonid_fields : list field := [F_msgid_plural; F_msgstr].
Definition _fields_previous : list field :=
  [F_msgctxt_previous; F_msgid_previous; F_msgid_plural_previous].
Definition _fields_current : list field :=
  [F_msgctxt; F_msgid; F_msgid_plural].
Definition _fields_comment : list field := [F_manual_comment; F_auto_comment].
Definition _nonid_fields_tracked : list field :=
  [] ++ _nonid_fields ++ _fields_previous ++ [F_manual_comment].
Definition _multiple_fields : list field := [] ++ [F_msgstr] ++ _fields_comment.
Definition _nonid_fields_eq_nonfuzzy : list field :=
  [] ++ _nonid_fields ++ [F_manual_comment].
Definition _nonid_fields_eq_fuzzy : list field :=
  [] ++ _nonid_fields_eq_nonfuzzy ++ _fields_previous.

(** [field in fields] *)
Definition field_in (f : field) (fs : list field) : bool :=
  existsb (fun g => bool_decide (f = g)) fs.

(** ** Field separator codec *)

Definition _trsep_head : str := lit "|".
Definition _trsep_head_ext : str := lit "~".
Definition _trsep_mod_none : str := lit "x".
Definition _trsep_mod_eq : str := lit "e".

Definition field_separator_head (length : Z) : str :=
  _trsep_head ++ Py.mul _trsep_head_ext length.

(** The texts of one field that the separator search looks into: nothing
    for [None], the text itself, or every item of a list. *)
Definition values_of (v : fval) : list str :=
  match v with
  | VNone => []
  | VStr s => [s]
  | VSeq l => l
  end.

(** One pass of the two nested [for] loops of [needed_separator_length]:
    whether [sephead] occurs in some value of some tracked field (the loops
    leave with [goodsep = False] at the first occurrence). *)
Definition sephead_occurs (sephead : str) (msg : Message) : bool :=
  existsb (fun f => existsb (Py.contains sephead) (values_of (get msg f)))
    _nonid_fields_tracked.

(** The [while not goodsep] loop, entered with the current [seplen]. *)
Fixpoint needed_separator_length_loop (fuel : nat) (msg : Message) (seplen : Z)
  : Res Z :=
  match fuel with
  | O => NoFuel
  | S fuel' =>
      let seplen := seplen + 1 in
      let sephead := field_separator_head seplen in
      if sephead_occurs sephead msg
      then needed_separator_length_loop fuel' msg seplen
      else Ok seplen
  end.

(** Every text the search looks into, and a number of rounds after which
    the loop has stopped: one more than the longest of them. *)
Definition tracked_values (msg : Message) : list str :=
  flat_map (fun f => values_of (get msg f)) _nonid_fields_tracked.

Definition longest (l : list str) : nat :=
  fold_right (fun s n => Nat.max (length s) n) 0%nat l.

Definition needed_separator_length (msg : Message) : Res Z :=
  needed_separator_length_loop (S (longest (tracked_values msg))) msg 0.

Definition has_nonid_diff (pmsg msg : Message) : bool :=
  existsb (fun f =>
    let msg_value :=
      if negb (fuzzy msg) && field_in f _fields_previous
      then VNone (* previous values ignored without the fuzzy flag *)
      else get msg f in
    let pmsg_value := get pmsg f in
    negb (bool_decide (msg_value = pmsg_value)))
  _nonid_fields_tracked.

Definition nl : ascii := "010"%char.

Definition get_as_sequence (msg : Message) (f : field) (asc : bool) : list str :=
  if negb asc && negb (fuzzy msg) && field_in f _fields_previous
  then [] (* previous fields ignored on live messages without the fuzzy flag *)
  else
    match get msg f with
    | VNone => []
    | VStr s => [s]
    | VSeq l =>
        if field_in f _fields_comment
        then match l with
             | [] => []
             | _ => [Py.join [nl] l] (* one newline-delimited entry *)
             end
        else l
    end.

Definition set_from_sequence (msg_seq : list str) (msg : Message) (f : field)
  : Message :=
  if negb (field_in f _multiple_fields)
  then set_single msg f (match msg_seq with [] => None | v :: _ => Some v end)
  else if field_in f _fields_comment
       then set_multiple msg f
              (match msg_seq with [] => [] | v :: _ => Py.split nl v end)
       else set_multiple msg f msg_seq.

(** The texts a write encodes: the live message's tracked fields as
    [add_nonid] reads them. *)
Definition encoded_values (msg : Message) : list str :=
  flat_map (fun f => get_as_sequence msg f false) _nonid_fields_tracked.

(** A separator length that is safe for the texts [vals] and minimal. *)
Definition marker_safe_minimal (vals : list str) (L : Z) : Prop :=
  1 <= L /\
  (forall v, In v vals -> Py.contains (field_separator_head L) v = false) /\
  (forall L', 1 <= L' < L ->
     exists v, In v vals /\ Py.contains (field_separator_head L') v = true).

(** ** Time stamps *)

(** Python's aware [datetime]: civil date and time of day with the offset
    from UTC in minutes ([_TZInfo] keeps hours and minutes). *)
Record datetime := mkDatetime {
  dt_year : Z;
  dt_month : Z;
  dt_day : Z;
  dt_hour : Z;
  dt_minute : Z;
  dt_second : Z;
  dt_utcoffset : Z
}.

#[global] Instance datetime_eq_dec : EqDecision datetime.
Proof. solve_decision. Defined.

Module Datetime.

Definition is_leap (y : Z) : bool :=
  ((y mod 4 =? 0) && negb (y mod 100 =? 0)) || (y mod 400 =? 0).

Definition days_in_month (y m : Z) : Z :=
  if m =? 2 then (if is_leap y then 29 else 28)
  else if (m =? 4) || (m =? 6) || (m =? 9) || (m =? 11) then 30
  else 31.

(** The checks of the [datetime.datetime] constructor; the offset of the
    time zone is not looked at. *)
Definition constructible (d : datetime) : bool :=
  (1 <=? dt_year d) && (dt_year d <=? 9999) &&
  (1 <=? dt_month d) && (dt_month d <=? 12) &&
  (1 <=? dt_day d) && (dt_day d <=? days_in_month (dt_year d) (dt_month d)) &&
  (0 <=? dt_hour d) && (dt_hour d <=? 23) &&
  (0 <=? dt_minute d) && (dt_minute d <=? 59) &&
  (0 <=? dt_second d) && (dt_second d <=? 59).

(** Whether [datetime.timedelta(hours=h, minutes=m)] can be made, for
    [minutes] the sum of both in minutes: its days keep within 999999999
    either way, or it is an OverflowError. *)
Definition timedelta_ok (minutes : Z) : bool :=
  (-999999999 <=? minutes / 1440) && (minutes / 1440 <=? 999999999).

(** What [utcoffset()] has to answer when the datetime is compared or
    formatted: less than a day, or it is a ValueError. *)
Definition offset_ok (d : datetime) : bool :=
  (-1440 <? dt_utcoffset d) && (dt_utcoffset d <? 1440).

(** A datetime that can be made, compared and formatted. *)
Definition valid (d : datetime) : bool :=
  (1 <=? dt_year d) && (dt_year d <=? 9999) &&
  (1 <=? dt_month d) && (dt_month d <=? 12) &&
  (1 <=? dt_day d) && (dt_day d <=? days_in_month (dt_year d) (dt_month d)) &&
  (0 <=? dt_hour d) && (dt_hour d <=? 23) &&
  (0 <=? dt_minute d) && (dt_minute d <=? 59) &&
  (0 <=? dt_second d) && (dt_second d <=? 59) &&
  (-1440 <? dt_utcoffset d) && (dt_utcoffset d <? 1440).

(** Days from 1970-01-01 to a civil date. *)
Definition days_from_civil (y m d : Z) : Z :=
  let y' := if m <=? 2 then y - 1 else y in
  let era := y' / 400 in
  let yoe := y' - era * 400 in
  let doy := (153 * (if 2 <? m then m - 3 else m + 9) + 2) / 5 + d - 1 in
  let doe := yoe * 365 + yoe / 4 - yoe / 100 + doy in
  era * 146097 + doe - 719468.

(** The instant an aware datetime denotes, in seconds; Python orders and
    compares aware datetimes by it. *)
Definition utc (d : datetime) : Z :=
  days_from_civil (dt_year d) (dt_month d) (dt_day d) * 86400
  + dt_hour d * 3600 + dt_minute d * 60 + dt_second d
  - dt_utcoffset d * 60.

(** [d1 <= d2] *)
Definition le (d1 d2 : datetime) : bool := utc d1 <=? utc d2.

Definition pad2 (n : Z) : str :=
  if n <? 10 then "0"%char :: Py.str_of_int n else Py.str_of_int n.

(** [dt.strftime("%Y-%m-%d %H:%M:%S%z")]; Python 2 refuses years before
    1900, and [%z] asks for the offset. *)
Definition strftime (d : datetime) : Res str :=
  if dt_year d <? 1900 then Raise ValueError
  else if negb (offset_ok d) then Raise ValueError
  else
    let off := dt_utcoffset d in
    Ok (Py.str_of_int (dt_year d) ++ lit "-" ++ pad2 (dt_month d) ++ lit "-"
        ++ pad2 (dt_day d) ++ lit " " ++ pad2 (dt_hour d) ++ lit ":"
        ++ pad2 (dt_minute d) ++ lit ":" ++ pad2 (dt_second d)
        ++ (if off <? 0 then lit "-" else lit "+")
        ++ pad2 (Z.abs off / 60) ++ pad2 (Z.abs off mod 60)).

End Datetime.

(** [format_datetime(dt, wsec=True)] for a datetime with a time zone. *)
Definition format_datetime (dt : datetime) : Res str := Datetime.strftime dt.

(** The pieces the regular expressions of [_parse_date_rxs] are made of:
    [ *], [(\d+)], [()], one literal character, and [([+-]\d+)]. *)
Inductive rx_item :=
| RxSpaces
| RxDigits
| RxEmpty
| RxLit (c : ascii)
| RxSigned.

Module Rx.

Fixpoint run (p : ascii -> bool) (s : str) : nat :=
  match s with
  | c :: t => if p c then S (run p t) else O
  | [] => O
  end.

(** Greedy repetition with backtracking: the continuation is tried on
    the longest run first, then on shorter ones down to [lo]. *)
Fixpoint first_down {A} (k : nat -> option A) (lo n : nat) : option A :=
  match k n with
  | Some r => Some r
  | None =>
      match n with
      | O => None
      | S n' => if (n' <? lo)%nat then None else first_down k lo n'
      end
  end.

Definition is_space (c : ascii) : bool := Ascii.eqb c " ".
Definition is_sign (c : ascii) : bool := Ascii.eqb c "+" || Ascii.eqb c "-".

(** Match of a whole text against an anchored pattern; the captured
    groups on success.  The closing [$] is met at the end of the text and
    in front of a line break that ends the text. *)
Fixpoint matches (pat : list rx_item) (s : str) {struct pat} : option (list str) :=
  match pat with
  | [] => match s with
          | [] => Some []
          | [c] => if Ascii.eqb c nl then Some [] else None
          | _ => None
          end
  | RxSpaces :: pat' =>
      first_down (fun k => matches pat' (skipn k s)) 0 (run is_space s)
  | RxDigits :: pat' =>
      match run Py.isdigit s with
      | O => None
      | n => first_down
               (fun k => option_map (cons (firstn k s)) (matches pat' (skipn k s)))
               1 n
      end
  | RxEmpty :: pat' => option_map (cons []) (matches pat' s)
  | RxLit c :: pat' =>
      match s with
      | d :: t => if Ascii.eqb c d then matches pat' t else None
      | [] => None
      end
  | RxSigned :: pat' =>
      match s with
      | d :: t =>
          if is_sign d then
            match run Py.isdigit t with
            | O => None
            | n => first_down
                     (fun k => option_map (cons (d :: firstn k t))
                                 (matches pat' (skipn k t)))
                     1 n
            end
          else None
      | [] => None
      end
  end.

End Rx.

Definition _rx_date : list rx_item :=
  [RxSpaces; RxDigits; RxLit "-"; RxDigits; RxLit "-"; RxDigits].
Definition _rx_hm : list rx_item := [RxSpaces; RxDigits; RxLit ":"; RxDigits].

Definition _parse_date_rxs : list (list rx_item) :=
  [ _rx_date ++ _rx_hm ++ [RxLit ":"; RxDigits; RxSpaces; RxSigned; RxSpaces];
    _rx_date ++ _rx_hm ++ [RxEmpty; RxSpaces; RxSigned; RxSpaces];
    _rx_date ++ _rx_hm ++ [RxLit ":"; RxDigits; RxSpaces];
    _rx_date ++ _rx_hm ++ [RxSpaces];
    _rx_date ++ [RxSpaces];
    [RxSpaces; RxDigits; RxLit "-"; RxDigits; RxSpaces];
    [RxSpaces; RxDigits; RxSpaces] ].

(** [int(x or 0)] on one captured group. *)
Definition group_int (x : str) : Res Z :=
  match x with
  | [] => Ok 0
  | _ => Py.int x
  end.

Fixpoint group_ints (l : list str) : Res (list Z) :=
  match l with
  | [] => Ok []
  | x :: t => n <- group_int x ;; ns <- group_ints t ;; Ok (n :: ns)
  end.

(** [parse_datetime(dstr)]: the first pattern that matches gives the
    groups; missing month and day default to 1, the rest to 0.  The time
    zone is made first, then the datetime; what either refuses is given
    as a ValueError. *)
Definition parse_datetime (dstr : str) : Res datetime :=
  match List.find (fun rx => match Rx.matches rx dstr with Some _ => true | None => false end)
          _parse_date_rxs with
  | None => Raise ValueError
  | Some rx =>
      match Rx.matches rx dstr with
      | None => Raise ValueError
      | Some groups =>
          pgroups <- group_ints groups ;;
          let pgroups := pgroups ++ repeat 1 (3 - length pgroups)%nat in
          let pgroups := pgroups ++ repeat 0 (7 - length pgroups)%nat in
          match pgroups with
          | [year; month; day; hour; minute; second; off] =>
              let offhr := off / 100 in
              let offmin := off mod 100 in
              let dt := mkDatetime year month day hour minute second
                          (offhr * 60 + offmin) in
              if Datetime.timedelta_ok (offhr * 60 + offmin)
                 && Datetime.constructible dt
              then Ok dt else Raise ValueError
          | _ => Raise ValueError
          end
      end
  end.

(** ** Configuration *)

(** The part of the ascription configuration the engine reads: the known
    users. *)
Record Config := mkConfig {
  users : list str
}.

Definition UFUZZ : str := lit "fuzzy".

(** ** Ascription comments: parsing *)

Definition _atag_sep : ascii := "/"%char.
Definition _mark_fuzz : ascii := "f"%char.
Definition _mark_obs : ascii := "o"%char.
Definition ATYPE_MOD : str := lit "modified".
Definition ATYPE_REV : str := lit "reviewed".
Definition fld_sep : str := lit ":".

(** One parsed ascription,
    [(user, type, tag, date, seplen, isfuzzy, isobsolete)]. *)
Record asc_tuple := mkAsc {
  t_user : str;
  t_type : str;
  t_tag : str;
  t_date : datetime;
  t_seplen : Z;
  t_isfuzz : bool;
  t_isobs : bool
}.

(** The reasons [asc_parse_ascriptions] gives when it skips a comment. *)
Inductive parse_warning :=
| WNoType
| WDescriptors
| WUserString
| WUnknownUser
| WDateString
| WSeparatorLength.

(** The local variables that live across the iterations of the loop of
    [asc_parse_ascriptions]: the two state flags ([None] while unbound),
    the tuples collected, and the warnings issued so far. *)
Record parse_state := mkParseState {
  isfuzz : option bool;
  isobs : option bool;
  ascripts : list asc_tuple;
  warnings : list (parse_warning * str)
}.

Definition warn (st : parse_state) (w : parse_warning) (cmnt : str) : parse_state :=
  mkParseState (isfuzz st) (isobs st) (ascripts st) (warnings st ++ [(w, cmnt)]).

(** [x in l] for texts. *)
Definition str_in (x : str) (l : list str) : bool :=
  existsb (fun y => bool_decide (x = y)) l.

(** What the loop body has read from a comment when it reaches the state
    flags: user, type, tag, date, and what is left of [lst]. *)
Record comment_head := mkHead {
  h_user : str;
  h_type : str;
  h_tag : str;
  h_date : datetime;
  h_rest : list str
}.

(** First half of the body of the [for cmnt in amsg.auto_comment] loop, up
    to the parsed date: the reason the comment is skipped for, or what was
    read. *)
Definition asc_comment_head (config : Config) (cmnt : str)
  : Res (parse_warning + comment_head) :=
  let p := Py.find cmnt fld_sep 0 in
  if p <? 0 then Ok (inl WNoType)
  else
    let atype := Py.strip (Py.slice_to cmnt p) in
    let atag : str := [] in
    let lst := Py.split1 _atag_sep atype in
    let '(atype, atag) :=
      match lst with
      | [l0; l1] => (Py.strip l0, Py.strip l1)
      | _ => (atype, atag)
      end in
    let lst := Py.split "|" (Py.slice_from cmnt (p + 1)) in
    if (length lst <? 2)%nat || (3 <? length lst)%nat
    then Ok (inl WDescriptors)
    else
      match lst with
      | [] => Raise IndexError
      | l0 :: lst =>
          let auser := Py.strip l0 in
          if bool_decide (auser = []) then Ok (inl WUserString)
          else if negb (str_in auser (users config))
          then Ok (inl WUnknownUser)
          else
            match lst with
            | [] => Raise IndexError
            | l1 :: lst =>
                let datestr := Py.strip l1 in
                match parse_datetime datestr with
                | Raise _ | NoFuel => Ok (inl WDateString)
                | Ok date => Ok (inr (mkHead auser atype atag date lst))
                end
            end
      end.

(** [ascripts.append((auser, atype, atag, date, seplen, isfuzz, isobs))]:
    reading a flag that was never assigned is a NameError. *)
Definition asc_append (st : parse_state) (h : comment_head)
    (isfuzz2 isobs2 : option bool) (seplen : Z) : Res parse_state :=
  match isfuzz2, isobs2 with
  | Some f, Some o =>
      Ok (mkParseState isfuzz2 isobs2
            (ascripts st ++ [mkAsc (h_user h) (h_type h) (h_tag h) (h_date h) seplen f o])
            (warnings st))
  | _, _ => Raise NameError
  end.

(** Second half of the loop body: the state flags, the separator length
    and the tuple. *)
Definition asc_comment_state (st : parse_state) (h : comment_head) (cmnt : str)
  : Res parse_state :=
  (* States are reset only on modification ascriptions,
     in order to keep them for the following review ascriptions. *)
  let '(isfuzz1, isobs1) :=
    if bool_decide (h_type h = ATYPE_MOD)
    then (Some false, Some false)
    else (isfuzz st, isobs st) in
  match h_rest h with
  | [] => asc_append st h isfuzz1 isobs1 0
  | l2 :: _ =>
      let tmp := Py.strip l2 in
      let '(isfuzz2, tmp) :=
        if Py.contains [_mark_fuzz] tmp
        then (Some true, Py.replace1 _mark_fuzz tmp)
        else (isfuzz1, tmp) in
      let '(isobs2, tmp) :=
        if Py.contains [_mark_obs] tmp
        then (Some true, Py.replace1 _mark_obs tmp)
        else (isobs1, tmp) in
      match tmp with
      | [] => asc_append st h isfuzz2 isobs2 0
      | _ =>
          match Py.int tmp with
          | Ok seplen => asc_append st h isfuzz2 isobs2 seplen
          | _ => Ok (warn (mkParseState isfuzz2 isobs2 (ascripts st) (warnings st))
                       WSeparatorLength cmnt)
          end
      end
  end.

(** The body of the [for cmnt in amsg.auto_comment] loop. *)
Definition asc_parse_comment (config : Config) (st : parse_state) (cmnt : str)
  : Res parse_state :=
  r <- asc_comment_head config cmnt ;;
  match r with
  | inl w => Ok (warn st w cmnt)
  | inr h => asc_comment_state st h cmnt
  end.

Fixpoint asc_parse_loop (config : Config) (st : parse_state) (cmnts : list str)
  : Res parse_state :=
  match cmnts with
  | [] => Ok st
  | cmnt :: rest =>
      st' <- asc_parse_comment config st cmnt ;;
      asc_parse_loop config st' rest
  end.

Definition parse_state_init : parse_state := mkParseState None None [] [].

(** [asc_parse_ascriptions(amsg, acat, config)], with the warnings it
    attaches to the message. *)
Definition asc_parse_ascriptions_w (amsg : Message) (config : Config)
  : Res (list asc_tuple * list (parse_warning * str)) :=
  st <- asc_parse_loop config parse_state_init (auto_comment amsg) ;;
  Ok (ascripts st, warnings st).

Definition asc_parse_ascriptions (amsg : Message) (config : Config)
  : Res (list asc_tuple) :=
  r <- asc_parse_ascriptions_w amsg config ;; Ok (fst r).

(** ** Ascriptions and the reconstruction of one record *)

(** The class [_Ascription]; an attribute the code may leave unassigned
    stays [None].  The message and the type are assigned on every
    ascription the code builds. *)
Record Ascription := mkAscription {
  a_rmsg : option Message;
  a_msg : Message;
  a_user : option str;
  a_type : str;
  a_tag : str;
  a_date : option datetime;
  a_slen : option Z;
  a_fuzz : option bool;
  a_obs : option bool;
  a_pos : option Z
}.

Definition set_a_msg (a : Ascription) (m : Message) : Ascription :=
  mkAscription (a_rmsg a) m (a_user a) (a_type a) (a_tag a) (a_date a)
    (a_slen a) (a_fuzz a) (a_obs a) (a_pos a).

Definition set_a_pos (a : Ascription) (p : Z) : Ascription :=
  mkAscription (a_rmsg a) (a_msg a) (a_user a) (a_type a) (a_tag a) (a_date a)
    (a_slen a) (a_fuzz a) (a_obs a) (Some p).

(** Truth value of [a.slen]: set and not zero. *)
Definition has_slen (a : Ascription) : bool :=
  match a_slen a with
  | Some n => negb (n =? 0)
  | None => false
  end.

Definition slen_of (a : Ascription) : Z :=
  match a_slen a with
  | Some n => n
  | None => 0
  end.

(** [l[i]] for a non-negative index. *)
Definition nth_res {A} (l : list A) (i : Z) : Res A :=
  if i <? 0 then Raise IndexError
  else match nth_error l (Z.to_nat i) with
       | Some x => Ok x
       | None => Raise IndexError
       end.

(** [l[i] = x] for [0 <= i < len(l)]. *)
Fixpoint list_set {A} (l : list A) (i : nat) (x : A) : list A :=
  match l, i with
  | [], _ => []
  | _ :: t, O => x :: t
  | y :: t, S i' => y :: list_set t i' x
  end.

(** [l.extend([x] * (i - len(l) + 1))] when [i >= len(l)]. *)
Definition extend_to {A} (l : list A) (i : nat) (x : A) : list A :=
  if (length l <=? i)%nat then l ++ repeat x (i - length l + 1) else l.

(** One step of the decoder over the stored text [aval] of item [i]:
    [spos] holds the cursor of every item, [pvals] the values decoded so
    far for every item.  The answer is the decoded value ([None] for an
    absent item) with the two tables as the call leaves them. *)
Definition amsg_step_value (aval shead stail : str)
    (spos : list Z) (pvals : list (list (option str))) (i : nat)
  : Res (option str * list Z * list (list (option str))) :=
  let spos := extend_to spos i 0 in
  let pvals := extend_to pvals i [] in
  p0 <- nth_res spos (Z.of_nat i) ;;
  let p1 := Py.find aval shead p0 in
  let p2 := Py.find aval stail (p1 + 1) in
  let p2 := if p2 <? 0 then Py.len aval else p2 in
  let spos := list_set spos i (p2 + Py.len stail) in
  let mods := Py.slice aval (p1 + Py.len shead) p2 in
  pvals_i <- nth_res pvals (Z.of_nat i) ;;
  pval <-
    (if Py.contains _trsep_mod_eq mods then
       let q1 := Py.find mods _trsep_mod_eq 0 + Py.len _trsep_mod_eq in
       let q2 := q1 + Z.of_nat (Rx.run Py.isdigit_text (Py.slice_from mods q1)) in
       nrev <- Py.int (Py.slice mods q1 q2) ;;
       nth_res pvals_i nrev
     else if Py.contains _trsep_mod_none mods then Ok None
     else Ok (Some (Py.slice aval p0 p1))) ;;
  let pvals := list_set pvals i (pvals_i ++ [pval]) in
  Ok (pval, spos, pvals).

(** The cursors and decoded values of every tracked field. *)
Record decode_state := mkDecodeState {
  spos : field -> list Z;
  pvals : field -> list (list (option str))
}.

Definition decode_state_init : decode_state :=
  mkDecodeState (fun _ => [0]) (fun _ => [[]]).

Definition upd {A} (m : field -> A) (f : field) (x : A) : field -> A :=
  fun g => if bool_decide (g = f) then x else m g.

(** The loop [for i in range(len(amsg_seq))] for one field: decodes one
    value from every item and fills [pmsg_seq]. *)
Fixpoint decode_items (shead : str) (amsg_seq : list str) (i : nat)
    (sp : list Z) (pv : list (list (option str))) (pmsg_seq : list str)
  : Res (list str * list Z * list (list (option str))) :=
  match amsg_seq with
  | [] => Ok (pmsg_seq, sp, pv)
  | aval :: rest =>
      r <- amsg_step_value aval shead [nl] sp pv i ;;
      let '(pval, sp, pv) := r in
      (* no early exit on None: every cursor has to advance *)
      let pmsg_seq :=
        match pval with
        | Some v => list_set (extend_to pmsg_seq i []) i v
        | None => pmsg_seq
        end in
      decode_items shead rest (S i) sp pv pmsg_seq
  end.

(** The loop [for field in _nonid_fields_tracked] of the reconstruction. *)
Fixpoint decode_fields (shead : str) (amsg : Message) (fields : list field)
    (ds : decode_state) (pmsg : Message) : Res (Message * decode_state) :=
  match fields with
  | [] => Ok (pmsg, ds)
  | f :: rest =>
      let amsg_seq := get_as_sequence amsg f true in
      r <- decode_items shead amsg_seq 0 (spos ds f) (pvals ds f) [] ;;
      let '(pmsg_seq, sp, pv) := r in
      let ds := mkDecodeState (upd (spos ds) f sp) (upd (pvals ds) f pv) in
      decode_fields shead amsg rest ds (set_from_sequence pmsg_seq pmsg f)
  end.

(** [history[-1]] *)
Definition last_res {A} (l : list A) : Res A :=
  match rev l with
  | x :: _ => Ok x
  | [] => Raise IndexError
  end.

(** The body of [for asc in asc_parse_ascriptions(...)]. *)
Definition asc_collect_step (amsg : Message) (asc : asc_tuple)
    (history : list Ascription) (ds : decode_state)
  : Res (list Ascription * decode_state) :=
  r <- (if negb (t_seplen asc =? 0) then
          (* separator existing, reconstruct the fields *)
          let shead := field_separator_head (t_seplen asc) in
          let pmsg := mkMessage (msgctxt amsg) (msgid amsg) None [] None None None
                        [] [] false false in
          decode_fields shead amsg _nonid_fields_tracked ds pmsg
        else
          a <- last_res history ;; (* must exist *)
          Ok (a_msg a, ds)) ;;
  let '(pmsg, ds) := r in
  let pmsg := set_fuzzy pmsg (t_isfuzz asc) in
  let pmsg := set_obsolete pmsg (t_isobs asc) in
  let a := mkAscription (Some amsg) pmsg (Some (t_user asc))
             (t_type asc) (t_tag asc) (Some (t_date asc))
             (Some (t_seplen asc)) (Some (t_isfuzz asc)) (Some (t_isobs asc))
             None in
  Ok (history ++ [a], ds).

Fixpoint asc_collect_loop (amsg : Message) (ascs : list asc_tuple)
    (history : list Ascription) (ds : decode_state)
  : Res (list Ascription * decode_state) :=
  match ascs with
  | [] => Ok (history, ds)
  | asc :: rest =>
      r <- asc_collect_step amsg asc history ds ;;
      asc_collect_loop amsg rest (fst r) (snd r)
  end.

(** The sort key [(x[0].date, x[1])]. *)
Definition date_key (a : Ascription) : Z :=
  match a_date a with
  | Some d => Datetime.utc d
  | None => 0
  end.

Definition key_le (x y : Ascription * nat) : bool :=
  (date_key (fst x) <? date_key (fst y)) ||
  ((date_key (fst x) =? date_key (fst y)) && (snd x <=? snd y)%nat).

Fixpoint insert_sorted (x : Ascription * nat) (l : list (Ascription * nat))
  : list (Ascription * nat) :=
  match l with
  | [] => [x]
  | y :: t => if key_le x y then x :: y :: t else y :: insert_sorted x t
  end.

(** [history_ord.sort(key=...)]: the keys are pairwise different, so every
    sort gives the same list. *)
Definition sort_ord (l : list (Ascription * nat)) : list (Ascription * nat) :=
  fold_right insert_sorted [] l.

(** The history of one ascription message in the order of its comments,
    before it is sorted. *)
Definition asc_collect_history_unsorted (amsg : Message) (config : Config)
  : Res (list Ascription) :=
  ascs <- asc_parse_ascriptions amsg config ;;
  r <- asc_collect_loop amsg ascs [] decode_state_init ;;
  Ok (fst r).

(** Sort by date and put in reverse; entries with the same time stamp keep
    their order. *)
Definition sort_history (history : list Ascription) : list Ascription :=
  let history_ord := combine history (seq 0 (length history)) in
  map fst (rev (sort_ord history_ord)).

(** Whether the date of an ascription can be compared. *)
Definition comparable (a : Ascription) : bool :=
  match a_date a with
  | Some d => Datetime.offset_ok d
  | None => true
  end.

(** The sort compares the keys of every entry once there are two of
    them, and comparing two dates asks both for their offsets. *)
Definition asc_collect_history_single (amsg : Message) (config : Config)
  : Res (list Ascription) :=
  history <- asc_collect_history_unsorted amsg config ;;
  if (2 <=? length history)%nat && negb (forallb comparable history)
  then Raise ValueError
  else Ok (sort_history history).

(** ** The ascription writer *)

(** The inner loop of [add_nonid] over [rhistory]: the number, counted
    among the ascriptions that carry a separator, of the first one whose
    message has the value [v] at item [i] of field [f]. *)
Fixpoint find_i_eq (rhistory : list Ascription) (f : field) (i : nat) (v : str)
    (nmod : Z) (i_eq : option Z) : option Z :=
  match rhistory with
  | [] => i_eq
  | a :: rest =>
      if negb (has_slen a) then find_i_eq rest f i v nmod i_eq
      else
        let i_eq :=
          match i_eq with
          | Some _ => i_eq
          | None =>
              let msg_seq_p := get_as_sequence (a_msg a) f true in
              match nth_error msg_seq_p i with
              | Some vp => if bool_decide (v = vp) then Some nmod else None
              | None => None
              end
          end in
        find_i_eq rest f i v (nmod + 1) i_eq
  end.

(** What [add_nonid] adds to item [i]: the new value before the separator,
    a reference to an equal earlier value, or the absence mark. *)
Definition add_token (shead : str) (rhistory : list Ascription) (f : field)
    (msg_seq : list str) (i : nat) : str :=
  match nth_error msg_seq i with
  | Some v =>
      match find_i_eq rhistory f i v 0 None with
      | None => v ++ shead
      | Some i_eq => shead ++ _trsep_mod_eq ++ Py.str_of_int i_eq
      end
  | None => shead ++ _trsep_mod_none
  end.

(** The loop [for i in range(len(amsg_seq))] of [add_nonid]. *)
Fixpoint add_items (shead : str) (rhistory : list Ascription) (f : field)
    (msg_seq : list str) (amsg_seq : list str) (i : nat) : list str :=
  match amsg_seq with
  | [] => []
  | aval :: rest =>
      let add := add_token shead rhistory f msg_seq i in
      let aval := match aval with [] => aval | _ => aval ++ [nl] end in
      (aval ++ add) :: add_items shead rhistory f msg_seq rest (S i)
  end.

(** The padding given to an item that did not exist at the earlier
    writes: one absence mark per ascription carrying a separator. *)
Definition padnone_of (rhistory : list Ascription) : str :=
  let nones := map (fun x => field_separator_head (slen_of x) ++ _trsep_mod_none)
                 (List.filter has_slen rhistory) in
  Py.join [nl] nones.

(** The body of the loop [for field in _nonid_fields_tracked] of
    [add_nonid], from the stored items [amsg_seq] of the field to the items
    stored after the write. *)
Definition add_nonid_items (msg : Message) (slen : Z) (rhistory : list Ascription)
    (f : field) (amsg_seq : list str) : list str :=
  let shead := field_separator_head slen in
  let padnone := padnone_of rhistory in
  let msg_seq := get_as_sequence msg f false in
  (* Expand items to length in new message. *)
  let amsg_seq := amsg_seq ++ repeat padnone (length msg_seq - length amsg_seq) in
  (* Add to items. *)
  add_items shead rhistory f msg_seq amsg_seq 0.

Definition add_nonid (amsg msg : Message) (slen : Z) (rhistory : list Ascription)
  : Message :=
  fold_left
    (fun amsg f =>
       let amsg_seq := get_as_sequence amsg f true in
       set_from_sequence (add_nonid_items msg slen rhistory f amsg_seq) amsg f)
    _nonid_fields_tracked amsg.

(** [asc_append_field(msg, field, value)] *)
Definition asc_append_field (msg : Message) (fld value : str) : Res Message :=
  value <- Py.str_of_text value ;;
  let stext := fld ++ fld_sep ++ lit " " ++ value in
  Ok (set_multiple msg F_auto_comment (auto_comment msg ++ [stext])).

(** The catalog with the entry of [amsg]'s key replaced by [amsg]; the
    writer changes the ascription message where it sits in the catalog. *)
Fixpoint cat_put (cat : Catalog) (amsg : Message) : Catalog :=
  match cat with
  | [] => []
  | m :: rest =>
      if bool_decide (key m = key amsg) then amsg :: rest
      else m :: cat_put rest amsg
  end.

(** The loop [for atag in atags or [""]]. *)
Fixpoint append_tag_lines (amsg : Message) (atype : str) (atags : list str)
    (modstr_wsep modstr : str) (first : bool) : Res Message :=
  match atags with
  | [] => Ok amsg
  | atag :: rest =>
      let fld := match atag with
                 | [] => atype
                 | _ => atype ++ [_atag_sep] ++ atag
                 end in
      amsg <- asc_append_field amsg fld (if first then modstr_wsep else modstr) ;;
      append_tag_lines amsg atype rest modstr_wsep modstr false
  end.

(** [ascribe_msg_any] on the ascription message itself, once it has been
    created or retrieved. *)
Definition ascribe_amsg (msg amsg : Message) (atype : str) (atags : list str)
    (user : str) (config : Config) (dt : datetime) : Res Message :=
  (* Reconstruct historical messages, from first to last. *)
  history <- asc_collect_history_single amsg config ;;
  let rhistory := rev history in
  (* Do any of non-ID elements differ to last historical message? *)
  let '(hasdiff_state, hasdiff_nonid) :=
    match rev rhistory with
    | last :: _ =>
        (negb (bool_decide (state (a_msg last) = state msg)),
         has_nonid_diff (a_msg last) msg)
    | [] => (true, true)
    end in
  let hasdiff := hasdiff_nonid || hasdiff_state in
  (* Add ascription comment. *)
  dtstr <- format_datetime dt ;;
  let modstr := user ++ lit " | " ++ dtstr in
  seplen <- (if hasdiff && hasdiff_nonid then needed_separator_length msg
             else Ok 0) ;;
  let modstr_wsep :=
    if hasdiff then
      let wsep := (if hasdiff_nonid then Py.str_of_int seplen else [])
                  ++ (if obsolete msg then [_mark_obs] else [])
                  ++ (if fuzzy msg then [_mark_fuzz] else []) in
      match wsep with
      | [] => modstr
      | _ => modstr ++ lit " | " ++ wsep
      end
    else modstr in
  amsg <- append_tag_lines amsg atype
            (match atags with [] => [[]] | _ => atags end)
            modstr_wsep modstr true ;;
  (* Add non-ID fields. *)
  let amsg := if hasdiff_nonid then add_nonid amsg msg seplen rhistory else amsg in
  (* Update state. *)
  let amsg := set_fuzzy amsg (fuzzy msg) in
  let amsg := set_obsolete amsg (obsolete msg) in
  Ok amsg.

Definition ascribe_msg_any (msg : Message) (acat : Catalog) (atype : str)
    (atags : list str) (user : str) (config : Config) (dt : datetime)
  : Res Catalog :=
  (* Create or retrieve ascription message. *)
  let '(acat, amsg) :=
    match cat_get acat msg with
    | None =>
        (* Copy ID elements of the original message. *)
        let amsg := mkMessage (msgctxt msg) (msgid msg) None [] None None None
                      [] [] false false in
        (add_last acat amsg, amsg)
    | Some amsg => (acat, amsg)
    end in
  amsg <- ascribe_amsg msg amsg atype atags user config dt ;;
  Ok (cat_put acat amsg).

Definition ascribe_msg_mod (msg : Message) (acat : Catalog) (user : str)
    (config : Config) (_dt_start : datetime) : Res Catalog :=
  ascribe_msg_any msg acat ATYPE_MOD [] user config _dt_start.

Definition ascribe_msg_rev (msg : Message) (acat : Catalog) (tags : list str)
    (user : str) (config : Config) (_dt_start : datetime) : Res Catalog :=
  ascribe_msg_any msg acat ATYPE_REV tags user config _dt_start.

(** Whether two messages are equal from the ascription viewpoint. *)
Definition asc_eq (msg1 msg2 : Message) : bool :=
  if negb (bool_decide (state msg1 = state msg2)) then false
  else
    let check_fields :=
      if fuzzy msg1 then _nonid_fields_eq_fuzzy else _nonid_fields_eq_nonfuzzy in
    forallb (fun f => bool_decide (get msg1 f = get msg2 f)) check_fields.

(** Whether second message may be considered derived from first by
    merging. *)
Definition merge_modified (msg1 msg2 : Message) : Res bool :=
  (* Manual comments do not change on merge. *)
  if negb (bool_decide (manual_comment msg1 = manual_comment msg2)) then Ok false
  else
    (* Current and previous original fields may have changed on merge,
       depending on whether both messages are fuzzy, or only one, and which. *)
    let fields_ok :=
      if bool_decide (fuzzy msg1 = fuzzy msg2) then
        let fields := if fuzzy msg1 then _fields_previous else _fields_current in
        forallb (fun f => bool_decide (get msg1 f = get msg2 f)) fields
      else
        let fields := if fuzzy msg1 then combine _fields_previous _fields_current
                      else combine _fields_current _fields_previous in
        forallb (fun ff => bool_decide (get msg1 (fst ff) = get msg2 (snd ff))) fields in
    if negb fields_ok then Ok false
    else
      (* Translation does not change on merge,
         except for multiplication/reduction when plurality differs. *)
      let plural1 := match msgid_plural msg1 with None => false | Some _ => true end in
      let plural2 := match msgid_plural msg2 with None => false | Some _ => true end in
      if bool_decide (plural1 = plural2) then
        Ok (bool_decide (msgstr msg1 = msgstr msg2))
      else if negb (fuzzy msg1) && negb (fuzzy msg2) then
        (* Plurality cannot change between two non-fuzzy messages. *)
        Ok false
      else if plural1 then
        (* Reduction to non-plural. *)
        s1 <- nth_res (msgstr msg1) 0 ;;
        s2 <- nth_res (msgstr msg2) 0 ;;
        Ok (bool_decide (s1 = s2))
      else
        (* Multiplication to plural. *)
        match msgstr msg2 with
        | [] => Ok true
        | _ =>
            s1 <- nth_res (msgstr msg1) 0 ;;
            Ok (forallb (fun s => bool_decide (s = s1)) (msgstr msg2))
        end.

(** ** History across pivots *)

(** [a.date <= before.date]: the two datetimes are asked for their
    offsets. *)
Definition date_le (d1 d2 : option datetime) : Res bool :=
  match d1, d2 with
  | Some x, Some y =>
      if Datetime.offset_ok x && Datetime.offset_ok y
      then Ok (Datetime.le x y)
      else Raise ValueError
  | _, _ => Raise TypeError
  end.

(** The loop collecting the ascriptions not younger than [before]. *)
Fixpoint collect_before (before : option Ascription) (l : list Ascription)
  : Res (list Ascription) :=
  match l with
  | [] => Ok []
  | a :: rest =>
      keep <- match before with
              | None => Ok true
              | Some b => date_le (a_date a) (a_date b)
              end ;;
      history <- collect_before before rest ;;
      Ok (if keep : bool then a :: history else history)
  end.

(** Truth value of a text attribute that may be [None]. *)
Definition nonempty (o : option str) : bool :=
  match o with
  | Some (_ :: _) => true
  | _ => false
  end.

(** [asc_collect_history_w]; the set [seenmsg] is shared by all the calls
    of one reconstruction, so it is handed back with the history.  The
    recursion is on fuel. *)
Fixpoint asc_collect_history_w (fuel : nat) (msg : Message) (acat : Catalog)
    (config : Config) (before : option Ascription)
    (seenmsg : gset (option str * str)) (shallow : bool)
  : Res (list Ascription * gset (option str * str)) :=
  match fuel with
  | O => NoFuel
  | S fuel' =>
      (* Avoid circular paths. *)
      if bool_decide (key msg ∈ seenmsg) then Ok ([], seenmsg)
      else
        let seenmsg := seenmsg ∪ {[ key msg ]} in
        (* Collect history from current ascription message. *)
        history <- match cat_get acat msg with
                   | Some amsg =>
                       h <- asc_collect_history_single amsg config ;;
                       collect_before before h
                   | None => Ok []
                   end ;;
        if shallow then Ok (history, seenmsg)
        else
          (* Continue into the past by pivoting around earliest message
             if fuzzy. *)
          let amsg := match rev history with
                      | a :: _ => a_msg a
                      | [] => msg
                      end in
          if fuzzy amsg && nonempty (msgid_previous amsg) then
            let pmsg := mkMessage (msgctxt_previous amsg)
                          (match msgid_previous amsg with Some s => s | None => [] end)
                          None [] None None None [] [] false false in
            (* All ascriptions beyond the pivot must be older than the
               oldest so far. *)
            let after := match rev history with
                         | a :: _ => Some a
                         | [] => before
                         end in
            r <- asc_collect_history_w fuel' pmsg acat config after seenmsg false ;;
            Ok (history ++ fst r, snd r)
          else Ok (history, seenmsg)
  end.

(** The records of the catalog whose identity has not been visited. *)
Definition unseen (acat : Catalog) (seenmsg : gset (option str * str)) : nat :=
  length (List.filter (fun m => negb (bool_decide (key m ∈ seenmsg))) acat).

(** Whether the reconstruction pivots around a message: it is fuzzy and
    has a previous id. *)
Definition pivotable (msg : Message) : bool :=
  fuzzy msg && nonempty (msgid_previous msg).

(** The message the previous identity of [amsg] stands for. *)
Definition previous_identity (amsg : Message) : Message :=
  mkMessage (msgctxt_previous amsg)
    (match msgid_previous amsg with Some s => s | None => [] end)
    None [] None None None [] [] false false.

(** The number of calls a reconstruction over [acat] can nest: one per
    record of the catalog, one for a live message without a record, and one
    for the call that ends the chain. *)
Definition pivot_fuel (acat : Catalog) : nat := length acat + 2.

(** Equip ascriptions with position markers. *)
Fixpoint assign_positions (history : list Ascription) (pos : Z) : list Ascription :=
  match history with
  | [] => []
  | a :: rest => set_a_pos a pos :: assign_positions rest (pos + 1)
  end.

(** The ascription put in front of the history of a message that is not
    ascribed: modified by an unknown user. *)
Definition unascribed (msg : Message) : Ascription :=
  mkAscription None msg None ATYPE_MOD [] None None None None None.

Definition user_is (a : Ascription) (u : str) : bool :=
  bool_decide (a_user a = Some u).

(** Eliminate clean merges from history. *)
Fixpoint eliminate_clean_merges (history : list Ascription) : Res (list Ascription) :=
  match history with
  | [] => Raise IndexError
  | [a] => Ok (if negb (user_is a UFUZZ) then [a] else [])
  | a :: ((ao :: _) as rest) =>
      keep <- (if negb (user_is a UFUZZ) then Ok true
               else m <- merge_modified (a_msg ao) (a_msg a) ;; Ok (negb m)) ;;
      history_r <- eliminate_clean_merges rest ;;
      Ok (if keep : bool then a :: history_r else history_r)
  end.

Section History.

(** Modelled from the spec: the attribute [inv] of pology.file.message and
    the differencer [msg_ediff] of pology.misc.diff are not under src/.
    [inv msg] is what two messages are compared by under the history
    filter; [msg_ediff old new addrem] is the message [new] becomes when
    its texts are replaced by the chosen segments of the difference from
    [old]. *)
Context {Inv : Type} `{EqDecision Inv}.
Variable inv : Message -> Inv.
Variable msg_ediff : Message -> Message -> str -> Message.

Definition flt (hfilter : str -> str) (msg : Message) : Message :=
  set_multiple msg F_msgstr (map hfilter (msgstr msg)).

(** The loop eliminating contiguous modifications equal under the
    filter, over the history from oldest to newest. *)
Fixpoint eliminate_equal (hfilter : str -> str) (history : list Ascription)
    (a_prevmod : option Ascription) : list Ascription :=
  match history with
  | [] => []
  | a :: rest =>
      if negb (bool_decide (a_type a = ATYPE_MOD))
         || match a_prevmod with
            | None => true
            | Some p => negb (bool_decide (inv (flt hfilter (a_msg a)) = inv (a_msg p)))
            end
      then
        let a_prevmod :=
          if bool_decide (a_type a = ATYPE_MOD)
          then Some (set_a_msg a (flt hfilter (a_msg a)))
          else a_prevmod in
        a :: eliminate_equal hfilter rest a_prevmod
      else eliminate_equal hfilter rest a_prevmod
  end.

(** The loop reducing the history to segments of differences.  [done]
    holds the ascriptions already visited, newest first; [a_nextmod] is
    the place in [done] of the modification visited last, whose message
    [msg_ediff] changes where it stands. *)
Fixpoint reduce_loop (addrem : str) (todo done : list Ascription)
    (a_nextmod : option nat) : list Ascription :=
  match todo with
  | [] => done
  | a :: rest =>
      if bool_decide (a_type a = ATYPE_MOD) then
        let done :=
          match a_nextmod with
          | Some j =>
              match nth_error done j with
              | Some n => list_set done j
                            (set_a_msg n (msg_ediff (a_msg a) (a_msg n) addrem))
              | None => done
              end
          | None => done
          end in
        reduce_loop addrem rest (done ++ [a]) (Some (length done))
      else reduce_loop addrem rest (done ++ [a]) a_nextmod
  end.

(** What the specification says the reduction does, with the direction
    the code has: a modification is set against the nearest older
    modification, the one found first further down the history. *)
Fixpoint reduce_to_diff (addrem : str) (history : list Ascription)
  : list Ascription :=
  match history with
  | [] => []
  | a :: rest =>
      (if bool_decide (a_type a = ATYPE_MOD) then
         match List.find (fun o => bool_decide (a_type o = ATYPE_MOD)) rest with
         | Some o => set_a_msg a (msg_ediff (a_msg o) (a_msg a) addrem)
         | None => a
         end
       else a) :: reduce_to_diff addrem rest
  end.

Definition asc_collect_history (fuel : nat) (msg : Message) (acat : Catalog)
    (config : Config) (nomrg : bool) (hfilter : option (str -> str))
    (shallow : bool) (addrem : option str) : Res (list Ascription) :=
  r <- asc_collect_history_w fuel msg acat config None ∅ shallow ;;
  let history := fst r in
  (* If the message is not ascribed,
     add it in front as modified by unknown user. *)
  let history :=
    match history with
    | [] => [unascribed msg]
    | a :: _ => if negb (asc_eq msg (a_msg a)) then unascribed msg :: history
                else history
    end in
  (* Equip ascriptions with position markers. *)
  let history := assign_positions history 1 in
  (* Eliminate clean merges from history. *)
  history <- (if nomrg then eliminate_clean_merges history else Ok history) ;;
  (* Eliminate contiguous chain of modifications equal under the filter. *)
  let history :=
    match hfilter with
    | Some h => rev (eliminate_equal h (rev history) None)
    | None => history
    end in
  (* Reduce history to particular segments of diffs between modifications. *)
  let history :=
    match addrem with
    | Some ((_ :: _) as ar) => reduce_loop ar history [] None
    | _ => history
    end in
  Ok history.

End History.

(** ** Selectors *)

(** What a selector answers: [True]/[False] for a plain selector, a
    1-based index into the history (0 for no match) for a history selector;
    [None] is the initial result of a compound history selector. *)
Inductive pyres :=
| RBool (b : bool)
| RInt (n : Z)
| RNone.

Definition truthy (r : pyres) : bool :=
  match r with
  | RBool b => b
  | RInt n => negb (n =? 0)
  | RNone => false
  end.

(** The arguments [(msg, cat, history, config)] of a selector. *)
Record sel_args := mkArgs {
  s_msg : Message;
  s_cat : Catalog;
  s_history : list Ascription;
  s_config : Config
}.

Section Selectors.

(** Whatever a call of a selector can observe and change besides its
    arguments (caches, reports); a selector is called with the state the
    previous call left. *)
Variable World : Type.

Definition selector := sel_args -> World -> pyres * World.

(** A selector factory gets the arguments of the specification. *)
Definition factory := list str -> Res selector.

(** The registry [xm_selector_factories]: name to factory and whether
    the selector can be used as history selector. *)
Variable xm_selector_factories : str -> option (factory * bool).

Definition negate_selector (sel : selector) : selector :=
  fun a w => let '(r, w') := sel a w in (RBool (negb (truthy r)), w').

(** The first character that cannot be part of a selector name, ":"
    when there is none. *)
Fixpoint find_argsep (selspec : str) : ascii :=
  match selspec with
  | [] => ":"%char
  | c :: rest =>
      if negb (Py.isalpha_text c || Py.isdigit_text c
               || Ascii.eqb c "_" || Ascii.eqb c "-")
      then c
      else find_argsep rest
  end.

(** The body of the loop [for selspec in selspecs]. *)
Definition build_component (selspec : str) (hist : bool) : Res selector :=
  let argsep := find_argsep selspec in
  let lst := Py.split argsep selspec in
  match lst with
  | [] => Raise IndexError
  | sname :: sargs =>
      let '(sname, negated) :=
        match sname with
        | c :: rest => if Ascii.eqb c "n" then (rest, true) else (sname, false)
        | [] => (sname, false)
        end in
      match xm_selector_factories sname with
      | None => Raise SelectorError (* unknown selector *)
      | Some (sfactory, can_hist) =>
          if hist && negb can_hist then Raise SelectorError
          else if hist && negated then Raise SelectorError
          else
            sel <- sfactory sargs ;;
            Ok (if negated : bool then negate_selector sel else sel)
      end
  end.

Fixpoint build_components (selspecs : list str) (hist : bool)
  : Res (list selector) :=
  match selspecs with
  | [] => Ok []
  | selspec :: rest =>
      sel <- build_component selspec hist ;;
      sels <- build_components rest hist ;;
      Ok (sel :: sels)
  end.

(** The loop of the compound selector, entered with the result so far. *)
Fixpoint cselector_loop (selectors : list selector) (res : pyres)
    (a : sel_args) (w : World) : pyres * World :=
  match selectors with
  | [] => (res, w)
  | sel :: rest =>
      let '(res, w') := sel a w in
      if negb (truthy res) then (res, w')
      else cselector_loop rest res a w'
  end.

Definition cselector (res0 : pyres) (selectors : list selector) : selector :=
  fun a w => cselector_loop selectors res0 a w.

(** Build compound selector out of list of specifications. *)
Definition build_selector (selspecs : list str) (hist : bool) : Res selector :=
  selectors <- build_components selspecs hist ;;
  let res0 := if hist then RNone else RBool false in
  Ok (cselector res0 selectors).

(** Python's [A(x) and B(x)], as the specification words the compound of
    two selectors: [B] is called only when [A] answered a true value, and
    then with the state [A] left. *)
Definition py_and (A B : selector) : selector :=
  fun a w => let '(ra, w1) := A a w in
             if truthy ra then B a w1 else (ra, w1).

(** [all_truthy sels a w w']: called one after the other from the state
    [w], the selectors [sels] all answer a true value and leave [w']. *)
Inductive all_truthy (a : sel_args) : list selector -> World -> World -> Prop :=
| all_truthy_nil w : all_truthy a [] w w
| all_truthy_cons sel sels w w' :
    truthy (fst (sel a w)) = true ->
    all_truthy a sels (snd (sel a w)) w' ->
    all_truthy a (sel :: sels) w w'.

(** What the specification says the compound selector answers: the
    answer of the first component with a false value, no later component
    being called, or else the answer of the last component; [res0] when
    there is no component. *)
Definition first_falsy_or_last (res0 : pyres) (sels : list selector)
    (a : sel_args) (w : World) (out : pyres * World) : Prop :=
  match sels with
  | [] => out = (res0, w)
  | _ => exists pre sel post wk,
           sels = pre ++ sel :: post /\ all_truthy a pre w wk /\
           out = sel a wk /\
           (truthy (fst out) = false \/ post = [])
  end.

End Selectors.

(** The trailing block of a comment, as [asc_comment_state] reads it: the
    text after the second bar, whether it carries the two marks, and what
    is left for the separator length once the marks are taken out. *)
Definition trailing_block (h : comment_head) : str :=
  match h_rest h with
  | [] => []
  | l2 :: _ => Py.strip l2
  end.

Definition has_fuzz_mark (h : comment_head) : bool :=
  Py.contains [_mark_fuzz] (trailing_block h).

Definition block_without_fuzz (h : comment_head) : str :=
  if has_fuzz_mark h then Py.replace1 _mark_fuzz (trailing_block h)
  else trailing_block h.

Definition has_obs_mark (h : comment_head) : bool :=
  Py.contains [_mark_obs] (block_without_fuzz h).

Definition block_digits (h : comment_head) : str :=
  if has_obs_mark h then Py.replace1 _mark_obs (block_without_fuzz h)
  else block_without_fuzz h.

Definition block_seplen (h : comment_head) : Res Z :=
  match block_digits h with
  | [] => Ok 0
  | tmp => Py.int tmp
  end.

(** A computation that came to an end, with a value or an exception. *)
Definition finished {A} (r : Res A) : Prop := r <> NoFuel.

(** The ascriptions a call of [asc_collect_history_w] takes from the
    record of the message itself. *)
Definition own_history (msg : Message) (acat : Catalog) (config : Config)
    (before : option Ascription) : Res (list Ascription) :=
  match cat_get acat msg with
  | Some amsg =>
      h <- asc_collect_history_single amsg config ;;
      collect_before before h
  | None => Ok []
  end.

(** The message around which a call pivots: that of the oldest
    ascription collected, or the message itself. *)
Definition pivot_message (msg : Message) (history : list Ascription) : Message :=
  match rev history with
  | a :: _ => a_msg a
  | [] => msg
  end.

(** The condition under which [asc_collect_history] puts the unascribed
    modification in front. *)
Definition head_missing (msg : Message) (history : list Ascription) : bool :=
  match history with
  | [] => true
  | a :: _ => negb (asc_eq msg (a_msg a))
  end.

(** [not_younger b a]: the comparison [a.date <= b.date] holds. *)
Definition not_younger (b a : Ascription) : Prop :=
  date_le (a_date a) (a_date b) = Ok true.

(** Whether an ascription is a modification. *)
Definition is_mod (a : Ascription) : bool := bool_decide (a_type a = ATYPE_MOD).

(** An ascription made by a user, as opposed to the unascribed head. *)
Definition has_user (a : Ascription) : Prop := a_user a <> None.

(** In the loop reducing a history to differences: the ascriptions
    visited, once the modification visited last (at place [a_nextmod]) has
    been set against the first modification still to come. *)
Definition settle (msg_ediff : Message -> Message -> str -> Message) (addrem : str)
    (done : list Ascription) (a_nextmod : option nat) (todo : list Ascription)
  : list Ascription :=
  match a_nextmod with
  | Some j =>
      match nth_error done j, List.find is_mod todo with
      | Some n, Some o =>
          list_set done j (set_a_msg n (msg_ediff (a_msg o) (a_msg n) addrem))
      | _, _ => done
      end
  | None => done
  end.

(** A text that starts and ends with a visible character, or is empty. *)
Definition visible_ends (s : str) : Prop :=
  match s, rev s with
  | c :: _, d :: _ => Py.isspace c = false /\ Py.isspace d = false
  | _, _ => True
  end.

(** [token_for shead pv tok val]: [tok] is what the encoder stores for the
    value [val] of an item under the separator [shead], [pv] being the
    values of the item at the earlier writes that carried a separator: the
    value before the separator, a reference to an earlier value, or the
    absence mark. *)
Inductive token_for (shead : str) (pv : list (option str)) : str -> option str -> Prop :=
| token_literal (v : str) :
    Py.contains shead v = false ->
    token_for shead pv (v ++ shead) (Some v)
| token_equal (n : Z) (val : option str) :
    0 <= n -> nth_error pv (Z.to_nat n) = Some val ->
    token_for shead pv (shead ++ _trsep_mod_eq ++ Py.str_of_int n) val
| token_none :
    token_for shead pv (shead ++ _trsep_mod_none) None.

(** ** The stored texts in terms of the writes that carried a separator *)

(** A write that carried a separator, as the encoder and the decoder see
    it: the separator length and the message reconstructed for it. *)
Definition modification := (Z * Message)%type.

(** The modifications among the ascriptions of a history. *)
Definition mods_of (history : list Ascription) : list modification :=
  map (fun a => (slen_of a, a_msg a)) (List.filter has_slen history).

(** The number, counting from [n], of the first modification whose
    message has the value [v] at item [i] of field [f]. *)
Fixpoint first_equal (mods : list modification) (f : field) (i : nat) (v : str)
    (n : Z) : option Z :=
  match mods with
  | [] => None
  | m :: rest =>
      match nth_error (get_as_sequence (snd m) f true) i with
      | Some vp => if bool_decide (v = vp) then Some n
                   else first_equal rest f i v (n + 1)
      | None => first_equal rest f i v (n + 1)
      end
  end.

(** The token a modification with the values [msg_seq] of field [f] puts
    on item [i], after the modifications [earlier]. *)
Definition token_after (earlier : list modification) (f : field) (i : nat)
    (shead : str) (msg_seq : list str) : str :=
  match nth_error msg_seq i with
  | Some v =>
      match first_equal earlier f i v 0 with
      | None => v ++ shead
      | Some i_eq => shead ++ _trsep_mod_eq ++ Py.str_of_int i_eq
      end
  | None => shead ++ _trsep_mod_none
  end.

(** The token of the [k]-th modification on item [i] of field [f]. *)
Definition token_at (mods : list modification) (f : field) (i : nat) (k : nat) : str :=
  match nth_error mods k with
  | Some m => token_after (firstn k mods) f i (field_separator_head (fst m))
                (get_as_sequence (snd m) f true)
  | None => []
  end.

Definition tokens_of (mods : list modification) (f : field) (i : nat) : list str :=
  map (token_at mods f i) (seq 0 (length mods)).

(** The stored text of item [i]: its tokens, oldest first, one per line. *)
Definition blob_of (mods : list modification) (f : field) (i : nat) : str :=
  Py.join [nl] (tokens_of mods f i).

(** The number of items of a field: the most any modification had. *)
Definition item_count (mods : list modification) (f : field) : nat :=
  fold_right (fun m n => Nat.max (length (get_as_sequence (snd m) f true)) n) 0%nat mods.

Definition blobs_of (mods : list modification) (f : field) : list str :=
  map (blob_of mods f) (seq 0 (item_count mods f)).

(** The values of item [i] over the modifications, [None] where the item
    was absent. *)
Definition values_at (mods : list modification) (f : field) (i : nat)
  : list (option str) :=
  map (fun m => nth_error (get_as_sequence (snd m) f true) i) mods.

(** The cursor of an item after [k] of its tokens have been decoded. *)
Definition cursor_after (toks : list str) (k : nat) : Z :=
  Py.len (concat (map (fun t => t ++ [nl]) (firstn k toks))).

(** The separator of every modification occurs in none of its values. *)
Definition separators_safe (mods : list modification) : Prop :=
  Forall (fun m => forall f v, In f _nonid_fields_tracked ->
                     In v (get_as_sequence (snd m) f true) ->
                     Py.contains (field_separator_head (fst m)) v = false) mods.

(** ** What the reconstruction of one record yields *)

(** The message the decoder starts a reconstruction from: the identity of
    the ascription message and nothing else. *)
Definition base_message (amsg : Message) : Message :=
  mkMessage (msgctxt amsg) (msgid amsg) None [] None None None [] [] false false.

(** The flags of a parsed ascription put on a message. *)
Definition with_flags (m : Message) (t : asc_tuple) : Message :=
  set_obsolete (set_fuzzy m (t_isfuzz t)) (t_isobs t).

(** The message built from the base by writing the given sequence of
    every tracked field. *)
Definition built (amsg : Message) (seqs : field -> list str) : Message :=
  fold_left (fun p f => set_from_sequence (seqs f) p f) _nonid_fields_tracked
    (base_message amsg).

(** The ascription the decoder makes of a parsed tuple and a message. *)
Definition entry_of (amsg : Message) (t : asc_tuple) (pmsg : Message) : Ascription :=
  mkAscription (Some amsg) pmsg (Some (t_user t)) (t_type t) (t_tag t)
    (Some (t_date t)) (Some (t_seplen t)) (Some (t_isfuzz t)) (Some (t_isobs t))
    None.

Definition entries (amsg : Message) (P : list (asc_tuple * Message))
  : list Ascription :=
  map (fun p => entry_of amsg (fst p) (snd p)) P.

(** The modifications among parsed ascriptions paired with messages. *)
Definition pmods (P : list (asc_tuple * Message)) : list modification :=
  map (fun p => (t_seplen (fst p), snd p))
    (List.filter (fun p => negb (t_seplen (fst p) =? 0)) P).

(** [reconstructs_from amsg prev P]: every message of [P] is what the
    decoder makes at its ascription: built from its own sequences when the
    ascription carries a separator, the message before it otherwise, with
    the flags of the ascription. *)
Fixpoint reconstructs_from (amsg : Message) (prev : option Message)
    (P : list (asc_tuple * Message)) : Prop :=
  match P with
  | [] => True
  | p :: rest =>
      (if t_seplen (fst p) =? 0
       then match prev with
            | Some pm => snd p = with_flags pm (fst p)
            | None => False
            end
       else snd p = with_flags
                      (built amsg (fun f => get_as_sequence (snd p) f true)) (fst p))
      /\ reconstructs_from amsg (Some (snd p)) rest
  end.

(** The state of the decoder after [k] modifications of [mods]: for every
    item of field [f], the cursor is past [k] tokens and the values decoded
    are those of the first [k] modifications. *)
Definition tables_at (mods : list modification) (f : field) (k : nat)
    (sp : list Z) (pv : list (list (option str))) : Prop :=
  forall i, (i < item_count mods f)%nat ->
    nth i sp 0 = cursor_after (tokens_of mods f i) k /\
    nth i pv [] = values_at (firstn k mods) f i.

(** ** Well-formed inputs of the writer *)

(** A text that can stand between the separators of an ascription
    comment: not empty, visible at both ends, without the character
    [sep]. *)
Definition clean_text (sep : ascii) (s : str) : Prop :=
  s <> [] /\ visible_ends s /\ ~ In sep s.

(** A history in the order of its time stamps. *)
Fixpoint chronological (history : list Ascription) : Prop :=
  match history with
  | a :: rest =>
      match rest with
      | b :: _ => date_key a <= date_key b
      | [] => True
      end /\ chronological rest
  | [] => True
  end.

(** The name of the field of an ascription comment: the type, and the tag
    after a slash when there is one. *)
Definition comment_field (atype atag : str) : str :=
  match atag with
  | [] => atype
  | _ => atype ++ [_atag_sep] ++ atag
  end.

(** The trailing block: nothing, or a bar and the block. *)
Definition comment_tail (wsep : str) : str :=
  match wsep with
  | [] => []
  | _ => lit " | " ++ wsep
  end.


(** The trailing block of a comment as the writer composes it. *)
Definition written_block (digits : str) (ob fz : bool) : str :=
  digits ++ (if ob then [_mark_obs] else []) ++ (if fz then [_mark_fuzz] else []).

(** ** What a write records *)

(** The value of a tracked field as a write sees it on the live message:
    previous fields count as absent without the fuzzy flag. *)
Definition tracked_value (msg : Message) (f : field) : fval :=
  if negb (fuzzy msg) && field_in f _fields_previous then VNone else get msg f.

(** The message the decoder builds from the texts a write encodes. *)
Definition snapshot_of (amsg msg : Message) : Message :=
  built amsg (fun f => get_as_sequence msg f false).

(** No line of the translator comments holds a line break. *)
Definition one_line_comments (msg : Message) : Prop :=
  forall s, In s (manual_comment msg) -> ~ In nl s.

(** [atags or [""]] *)
Definition tags_or_default (atags : list str) : list str :=
  match atags with [] => [[]] | _ => atags end.

(** The comments one write appends: one per tag, the first with the
    trailing block. *)
Fixpoint tag_lines (atype : str) (atags : list str) (modstr_wsep modstr : str)
    (first : bool) : list str :=
  match atags with
  | [] => []
  | atag :: rest =>
      (comment_field atype atag ++ fld_sep ++ lit " "
       ++ (if first then modstr_wsep else modstr))
      :: tag_lines atype rest modstr_wsep modstr false
  end.

(** A state flag as the parser leaves it after a comment of type [atype]:
    raised by the mark, lowered by a modification, kept otherwise. *)
Definition flag_after (atype : str) (prev mark : bool) : bool :=
  if mark then true
  else if bool_decide (atype = ATYPE_MOD) then false
  else prev.

Definition flag_or_false (o : option bool) : bool :=
  match o with Some b => b | None => false end.

(** The tuples the parser makes of the comments of one write. *)
Fixpoint tag_tuples (user atype : str) (date : datetime) (atags : list str)
    (seplen : Z) (fz ob pf po : bool) : list asc_tuple :=
  match atags with
  | [] => []
  | atag :: rest =>
      let f := flag_after atype pf fz in
      let o := flag_after atype po ob in
      mkAsc user atype atag date seplen f o
      :: tag_tuples user atype date rest 0 false false f o
  end.

(** Tuples without separator after a message: each takes the message
    before it, with its own flags. *)
Fixpoint chain_flags (prev : Message) (ts : list asc_tuple)
  : list (asc_tuple * Message) :=
  match ts with
  | [] => []
  | t :: rest =>
      let m := with_flags prev t in
      (t, m) :: chain_flags m rest
  end.

(** The state of the parser after comments that gave the tuples [ts]. *)
Definition state_after (st : parse_state) (ts : list asc_tuple) : parse_state :=
  fold_left
    (fun st t => mkParseState (Some (t_isfuzz t)) (Some (t_isobs t))
                   (ascripts st ++ [t]) (warnings st))
    ts st.

(** [record_of config amsg P]: the record [amsg] holds the ascriptions
    [P], oldest first, each with the message it stands for: its comments
    parse to the tuples of [P] without a warning, its tracked fields hold
    the texts of the modifications of [P] under separators that are safe,
    the messages are what the decoder reconstructs, and the time stamps
    do not decrease and can be compared. *)
Definition record_of (config : Config) (amsg : Message)
    (P : list (asc_tuple * Message)) : Prop :=
  asc_parse_loop config parse_state_init (auto_comment amsg) =
    Ok (state_after parse_state_init (map fst P)) /\
  (forall f, In f _nonid_fields_tracked ->
     get_as_sequence amsg f true = blobs_of (pmods P) f) /\
  separators_safe (pmods P) /\
  reconstructs_from amsg None P /\
  chronological (entries amsg P) /\
  Forall (fun p => Datetime.offset_ok (t_date (fst p)) = true) P.

(** A time stamp written and parsed again. *)
Definition read_back (dt : datetime) : Res datetime :=
  s <- format_datetime dt ;; parse_datetime s.

(** ** One write on a record holding the ascriptions [P] *)

(** The two comparisons of the writer with the newest message of the
    record; a record without ascriptions differs in both. *)
Definition differs_nonid (P : list (asc_tuple * Message)) (msg : Message) : bool :=
  match last P with
  | Some p => has_nonid_diff (snd p) msg
  | None => true
  end.

Definition differs_state (P : list (asc_tuple * Message)) (msg : Message) : bool :=
  match last P with
  | Some p => negb (bool_decide (state (snd p) = state msg))
  | None => true
  end.

Definition differs (P : list (asc_tuple * Message)) (msg : Message) : bool :=
  differs_nonid P msg || differs_state P msg.

(** The trailing block of the first comment of the write. *)
Definition write_block (P : list (asc_tuple * Message)) (msg : Message)
    (seplen : Z) : str :=
  written_block (if differs_nonid P msg then Py.str_of_int seplen else [])
    (differs P msg && obsolete msg) (differs P msg && fuzzy msg).

(** The comments the write appends. *)
Definition write_lines (P : list (asc_tuple * Message)) (msg : Message)
    (atype : str) (atags : list str) (user dtstr : str) (seplen : Z) : list str :=
  tag_lines atype (tags_or_default atags)
    ((user ++ lit " | " ++ dtstr) ++ comment_tail (write_block P msg seplen))
    (user ++ lit " | " ++ dtstr) true.

(** The ascriptions the write adds to the record, each with its message:
    the snapshot of the live message when it differs from the newest
    message in a tracked field, the newest message otherwise. *)
Definition write_pairs (amsg : Message) (P : list (asc_tuple * Message))
    (msg : Message) (atype : str) (atags : list str) (user : str)
    (date : datetime) (seplen : Z) : list (asc_tuple * Message) :=
  chain_flags
    (if differs_nonid P msg then snapshot_of amsg msg
     else match last P with
          | Some p => snd p
          | None => base_message amsg
          end)
    (tag_tuples user atype date (tags_or_default atags)
       (if differs_nonid P msg then seplen else 0)
       (differs P msg && fuzzy msg) (differs P msg && obsolete msg)
       (match last P with Some p => t_isfuzz (fst p) | None => false end)
       (match last P with Some p => t_isobs (fst p) | None => false end)).

(** ** Sequences of writes *)

(** One call of [ascribe_msg_any]: the live message, the ascription type,
    the tags, the user and the time stamp. *)
Record write := mkWrite {
  w_msg : Message;
  w_type : str;
  w_tags : list str;
  w_user : str;
  w_date : datetime
}.

(** The calls made one after the other on the ascription catalog. *)
Fixpoint ascribe_all (config : Config) (acat : Catalog) (ws : list write)
  : Res Catalog :=
  match ws with
  | [] => Ok acat
  | w :: rest =>
      acat' <- ascribe_msg_any (w_msg w) acat (w_type w) (w_tags w) (w_user w)
                 config (w_date w) ;;
      ascribe_all config acat' rest
  end.

(** The same on the ascription message itself. *)
Fixpoint ascribe_amsg_all (config : Config) (amsg : Message) (ws : list write)
  : Res Message :=
  match ws with
  | [] => Ok amsg
  | w :: rest =>
      amsg' <- ascribe_amsg (w_msg w) amsg (w_type w) (w_tags w) (w_user w)
                 config (w_date w) ;;
      ascribe_amsg_all config amsg' rest
  end.

(** A write whose comment reads back: type, tags and user can stand in
    their places of the comment, the user is made of ASCII characters and
    known to the configuration, the time stamp is valid and parses to
    itself, and no translator comment of the message holds a line
    break. *)
Definition well_formed (config : Config) (w : write) : Prop :=
  clean_text ":" (w_type w) /\ ~ In "/"%char (w_type w) /\
  (forall atag, In atag (w_tags w) -> atag = [] \/ clean_text ":" atag) /\
  clean_text "|" (w_user w) /\ str_in (w_user w) (users config) = true /\
  Datetime.valid (w_date w) = true /\ read_back (w_date w) = Ok (w_date w) /\
  one_line_comments (w_msg w) /\ forallb Py.is_ascii (w_user w) = true.

(** Writes whose time stamps do not decrease. *)
Fixpoint in_time_order (ws : list write) : Prop :=
  match ws with
  | w :: rest =>
      match rest with
      | w' :: _ => Datetime.utc (w_date w) <= Datetime.utc (w_date w')
      | [] => True
      end /\ in_time_order rest
  | [] => True
  end.

(** The separator length a write takes for its message. *)
Definition seplen_of (msg : Message) : Z :=
  match needed_separator_length msg with
  | Ok n => n
  | _ => 0
  end.

(** The ascriptions of a record after further writes. *)
Fixpoint record_after (amsg : Message) (P : list (asc_tuple * Message))
    (ws : list write) : list (asc_tuple * Message) :=
  match ws with
  | [] => P
  | w :: rest =>
      record_after amsg
        (P ++ write_pairs amsg P (w_msg w) (w_type w) (w_tags w) (w_user w)
                (w_date w) (seplen_of (w_msg w)))
        rest
  end.

(** Every write with each of the tags it is made under, in the order of
    the comments. *)
Definition write_tags (ws : list write) : list (write * str) :=
  flat_map (fun w => map (pair w) (tags_or_default (w_tags w))) ws.

(** What the history keeps of a write under one tag: who, what, when, and
    the message with the values of the tracked fields the live message
    had. *)
Definition records (wt : write * str) (a : Ascription) : Prop :=
  a_user a = Some (w_user (fst wt)) /\ a_type a = w_type (fst wt) /\
  a_tag a = snd wt /\ a_date a = Some (w_date (fst wt)) /\
  forall f, In f _nonid_fields_tracked ->
    get (a_msg a) f = tracked_value (w_msg (fst wt)) f.

(** An ascription seen from the record [amsg]. *)
Definition set_a_rmsg (amsg : Message) (a : Ascription) : Ascription :=
  mkAscription (Some amsg) (a_msg a) (a_user a) (a_type a) (a_tag a) (a_date a)
    (a_slen a) (a_fuzz a) (a_obs a) (a_pos a).

(** An ascription comment without a trailing block. *)
Definition plain_comment (atype atag user dtstr : str) : str :=
  comment_field atype atag ++ fld_sep ++ lit " " ++ user ++ lit " | " ++ dtstr.

(** The state flag an ascription without marks gets: lowered by a
    modification, that of the ascription before it otherwise. *)
Definition flag_kept (atype : str) (prev : bool) : bool :=
  if bool_decide (atype = ATYPE_MOD) then false else prev.

(** [repeats w a atag n]: the ascription [n] is that of the write [w]
    under the tag [atag], without separator, and its message is the
    message of [a] with the flags a comment without marks gives. *)
Definition repeats (w : write) (a : Ascription) (atag : str) (n : Ascription) : Prop :=
  a_user n = Some (w_user w) /\ a_type n = w_type w /\ a_tag n = atag /\
  a_date n = Some (w_date w) /\ a_slen n = Some 0 /\
  a_msg n = set_obsolete
              (set_fuzzy (a_msg a) (flag_kept (w_type w) (fuzzy (a_msg a))))
              (flag_kept (w_type w) (obsolete (a_msg a))).

(** [same_again w a atag n]: the ascription [n] is that of the write [w]
    under the tag [atag], without separator, and its message is the
    message of [a]. *)
Definition same_again (w : write) (a : Ascription) (atag : str) (n : Ascription)
  : Prop :=
  a_user n = Some (w_user w) /\ a_type n = w_type w /\ a_tag n = atag /\
  a_date n = Some (w_date w) /\ a_slen n = Some 0 /\ a_msg n = a_msg a.

(** A write that leaves the state flags to the comment before it: a
    modification is written for a message that is neither fuzzy nor
    obsolete. *)
Definition plain_state (w : write) : Prop :=
  w_type w = ATYPE_MOD -> fuzzy (w_msg w) = false /\ obsolete (w_msg w) = false.

(** A live message whose previous fields are there only while it is
    fuzzy. *)
Definition previous_only_fuzzy (msg : Message) : Prop :=
  fuzzy msg = true \/
  (msgctxt_previous msg = None /\ msgid_previous msg = None /\
   msgid_plural_previous msg = None).

(** As [records], with the very values of the live message. *)
Definition records_exactly (wt : write * str) (a : Ascription) : Prop :=
  a_user a = Some (w_user (fst wt)) /\ a_type a = w_type (fst wt) /\
  a_tag a = snd wt /\ a_date a = Some (w_date (fst wt)) /\
  forall f, In f _nonid_fields_tracked -> get (a_msg a) f = get (w_msg (fst wt)) f.

(** ** Concrete messages and records used in the examples *)

(** A live message that lost its fuzzy flag but kept its previous
    fields: they are searched, yet not encoded. *)
Definition msg_stale_previous : Message :=
  mkMessage None (lit "new id") None [lit "a"]
    None (Some (lit "old|~id")) None [] [] false false.


(** A registry with three selectors over a world that logs the calls:
    [any] answers true, [none] answers false, [log] records its first
    argument and answers true. *)
Definition log_selector (name : str) (r : pyres) : selector (list str) :=
  fun _ w => (r, w ++ [name]).

Definition demo_factories (sname : str) : option (factory (list str) * bool) :=
  if bool_decide (sname = lit "any")
  then Some (fun _ => Ok (log_selector (lit "any") (RBool true)), false)
  else if bool_decide (sname = lit "one")
  then Some (fun _ => Ok (log_selector (lit "one") (RBool false)), false)
  else if bool_decide (sname = lit "log")
  then Some (fun sargs => match sargs with
                          | [x] => Ok (log_selector x (RBool true))
                          | _ => Raise TypeError
                          end, false)
  else if bool_decide (sname = lit "hist")
  then Some (fun _ => Ok (log_selector (lit "hist") (RInt 2)), true)
  else None.

Definition demo_args : sel_args :=
  mkArgs msg_stale_previous [] [] (mkConfig []).

Definition demo_config : Config := mkConfig [lit "alice"; lit "bob"].

(** A record whose only ascription is a review carrying both marks. *)
Definition amsg_review_both_marks : Message :=
  mkMessage None (lit "id") None [] None None None []
    [lit "reviewed: alice | 2020-01-02 10:30:15+0100 | 1of"] false false.

(** A record whose first ascription is a review carrying the fuzzy mark
    only, after a comment that is not an ascription. *)
Definition amsg_review_first : Message :=
  mkMessage None (lit "id") None [] None None None []
    [lit "no ascription here";
     lit "reviewed: alice | 2020-01-02 10:30:15+0100 | 1f"] false false.

(** A modification of a fuzzy message followed by a review without
    marks. *)
Definition amsg_mod_then_review : Message :=
  mkMessage None (lit "id") None [] None None None []
    [lit "modified: alice | 2020-01-02 10:30:15+0100 | 1f";
     lit "reviewed: bob | 2020-01-03 08:00:00+0100"] false false.

(** Two writes to the record of one message: the translation "first" by
    alice, then the translation "second" by bob a day later. *)
Definition msg_first : Message :=
  mkMessage None (lit "greeting") None [lit "first"] None None None [] [] false false.

Definition msg_second : Message :=
  mkMessage None (lit "greeting") None [lit "second"] None None None [] [] false false.

Definition day (n : Z) : datetime := mkDatetime 2020 1 n 10 30 15 60.

Definition acat_two_writes : Res Catalog :=
  acat <- ascribe_msg_mod msg_first [] (lit "alice") demo_config (day 1) ;;
  ascribe_msg_mod msg_second acat (lit "bob") demo_config (day 2).

(** A fuzzy message "A" whose previous id is "B", with its record, and a
    record of "B" that is fuzzy with previous id "A": the previous
    identities form a cycle. *)
Definition msg_A : Message :=
  mkMessage None (lit "A") None [lit "x"] None (Some (lit "B")) None [] [] true false.

Definition rec_A : Message :=
  mkMessage None (lit "A") None [lit "x|~"] None (Some (lit "B|~")) None []
    [lit "modified: alice | 2020-01-02 10:30:15+0100 | 1f"] true false.

Definition rec_B_cycle : Message :=
  mkMessage None (lit "B") None [lit "y|~"] None (Some (lit "A|~")) None []
    [lit "modified: bob | 2020-01-01 10:30:15+0100 | 1f"] true false.

Definition acat_cycle : Catalog := [rec_A; rec_B_cycle].

(** The record of "B" ascribed at the very time stamp of the ascription
    of "A". *)
Definition rec_B_same_time : Message :=
  mkMessage None (lit "B") None [lit "y|~"] None None None []
    [lit "modified: bob | 2020-01-02 10:30:15+0100 | 1"] false false.

Definition acat_same_time : Catalog := [rec_A; rec_B_same_time].

(** A differencer for the examples: the "added" segment of a text that
    extends the old text is what was appended to it. *)
Definition demo_ediff (old new : Message) (addrem : str) : Message :=
  set_multiple new F_msgstr
    (map (fun on => if Py.startswith (snd on) (fst on)
                    then skipn (length (fst on)) (snd on)
                    else snd on)
       (combine (msgstr old) (msgstr new))).

Definition demo_inv (msg : Message) : list str := msgstr msg.

(** A history of two modifications, newest first: the newer translation
    is the older one with a sentence appended. *)
Definition entry_older : Ascription :=
  mkAscription None
    (mkMessage None (lit "id") None [lit "One."] None None None [] [] false false)
    (Some (lit "alice")) ATYPE_MOD [] (Some (day 1)) (Some 1) (Some false)
    (Some false) (Some 2).

Definition entry_newer : Ascription :=
  mkAscription None
    (mkMessage None (lit "id") None [lit "One. Two."] None None None [] [] false false)
    (Some (lit "bob")) ATYPE_MOD [] (Some (day 2)) (Some 1) (Some false)
    (Some false) (Some 1).

(** A translated message that was never ascribed. *)
Definition msg_never_ascribed : Message :=
  mkMessage None (lit "fresh") None [lit "translation"] None None None [] [] false false.

(** Writes to the record of the message "greeting": two modifications,
    then a review of the second translation under two tags. *)
Definition w_first : write :=
  mkWrite msg_first ATYPE_MOD [] (lit "alice") (day 1).

Definition w_second : write :=
  mkWrite msg_second ATYPE_MOD [] (lit "bob") (day 2).

Definition w_review : write :=
  mkWrite msg_second ATYPE_REV [lit "style"; lit "terms"] (lit "alice") (day 3).

(** The modification of a message that kept a previous id without the
    fuzzy flag. *)
Definition w_stale : write :=
  mkWrite msg_stale_previous ATYPE_MOD [] (lit "alice") (day 1).

(** The fuzzy message "A" ascribed as modified, and ascribed as modified
    once more a day later without any change. *)
Definition w_fuzzy : write :=
  mkWrite msg_A ATYPE_MOD [] (lit "alice") (day 1).

Definition w_fuzzy_again : write :=
  mkWrite msg_A ATYPE_MOD [] (lit "bob") (day 2).

(** The record of "greeting" after the two modifications, and the history
    reconstructed from it. *)
Definition rec_two_writes : Message :=
  Eval vm_compute in
    match ascribe_all demo_config [] [w_first; w_second] with
    | Ok [amsg] => amsg
    | _ => Message_new
    end.

Definition history_two_writes : list Ascription :=
  Eval vm_compute in
    match asc_collect_history_single rec_two_writes demo_config with
    | Ok history => history
    | _ => []
    end.

Definition newest_two_writes : Ascription :=
  Eval vm_compute in hd entry_newer history_two_writes.

Definition older_two_writes : list Ascription :=
  Eval vm_compute in tl history_two_writes.

(** ** Further notions about histories *)

(** [distinct_under key prev l]: along [l], no element has the key of the
    element before it, the first one not the key [prev]. *)
Fixpoint distinct_under {K : Type} (key : Ascription -> K) (prev : option K)
    (l : list Ascription) : Prop :=
  match l with
  | [] => True
  | a :: rest =>
      match prev with
      | Some k => key a <> k
      | None => True
      end /\ distinct_under key (Some (key a)) rest
  end.

(** [ordered_by R l]: every element of [l] is in the relation [R] to all
    the elements after it. *)
Fixpoint ordered_by {A : Type} (R : A -> A -> Prop) (l : list A) : Prop :=
  match l with
  | [] => True
  | x :: rest => Forall (R x) rest /\ ordered_by R rest
  end.

(** [entry_from config amsg a]: the ascription [a] is one the decoder
    makes from a comment of the record [amsg]: it refers to the record,
    has a user of the configuration, a time stamp and a separator length,
    and its message has the identity of the record and the flags of the
    ascription. *)
Definition entry_from (config : Config) (amsg : Message) (a : Ascription) : Prop :=
  a_rmsg a = Some amsg /\
  (exists u, a_user a = Some u /\ u <> [] /\ In u (users config)) /\
  a_date a <> None /\ a_slen a <> None /\ a_pos a = None /\
  a_fuzz a = Some (fuzzy (a_msg a)) /\ a_obs a = Some (obsolete (a_msg a)) /\
  msgctxt (a_msg a) = msgctxt amsg /\ msgid (a_msg a) = msgid amsg.

(** ** Time stamps read back *)

(** The datetime [parse_datetime] makes of the text [format_datetime]
    gives for [dt]: the offset is read as a number [+-HHMM] and taken
    apart by floor division, so an offset west of UTC that is not a whole
    number of hours comes back 40 minutes further east. *)
Definition reads_back_as (dt : datetime) : datetime :=
  if (dt_utcoffset dt <? 0) && negb (dt_utcoffset dt mod 60 =? 0)
  then mkDatetime (dt_year dt) (dt_month dt) (dt_day dt) (dt_hour dt)
         (dt_minute dt) (dt_second dt) (dt_utcoffset dt + 40)
  else dt.

(** A text that is empty or starts with a character that [p] rejects. *)
Definition stops (p : ascii -> bool) (s : str) : Prop :=
  match s with
  | [] => True
  | c :: _ => p c = false
  end.

(** ** Users and tags of a selector *)

(** [elstr.replace(" ", "")] *)
Definition remove_spaces (s : str) : str :=
  List.filter (fun c => negb (Ascii.eqb c " ")) s.

(** [parse_fixed_set]: the elements of a comma-separated list, or, when
    the list starts with a tilde, the known elements that are not listed.
    An element that is not known aborts the run.  [knownels] is used for
    membership and for the difference only, so it is taken as a set. *)
Definition parse_fixed_set (elstr : option str) (knownels : gset str)
  : Res (gset str) :=
  match elstr with
  | None => Ok ∅
  | Some [] => Ok ∅
  | Some elstr =>
      let elstr := remove_spaces elstr in
      let '(inverted, elstr) :=
        if Py.startswith elstr (lit "~") then (true, Py.slice_from elstr 1)
        else (false, elstr) in
      let els : gset str := list_to_set (Py.split "," elstr) in
      if forallb (fun el => bool_decide (el ∈ knownels)) (elements els)
      then Ok (if inverted : bool then knownels ∖ els else els)
      else Raise SelectorError
  end.

(** Parse users from comma-separated list, verifying that they exist. *)
Definition parse_users (userstr : option str) (config : Config)
  : Res (gset str) :=
  parse_fixed_set userstr (list_to_set (users config)).

(** Parse tags from comma-separated list, verifying that they exist.
    The set of review tags of the configuration is an argument. *)
Definition parse_tags (tagstr : option str) (review_tags : gset str)
  : Res (gset str) :=
  tags <- parse_fixed_set tagstr review_tags ;;
  Ok (if bool_decide (tags = ∅) then {[ [] ]} else tags).

(** ** History selectors *)

(** [a.user in users]; an unset user is in no set. *)
Definition in_users (users : gset str) (a : Ascription) : bool :=
  match a_user a with
  | Some u => bool_decide (u ∈ users)
  | None => false
  end.

(** [not users or a.user in users] *)
Definition any_or_in (users : gset str) (a : Ascription) : bool :=
  bool_decide (users = ∅) || in_users users a.

(** [not users or a.user not in users] *)
Definition any_or_out (users : gset str) (a : Ascription) : bool :=
  bool_decide (users = ∅) || negb (in_users users a).

Definition is_rev (a : Ascription) : bool := bool_decide (a_type a = ATYPE_REV).

(** The loop [for i in range(len(history))] that sets [hi_sel = i + 1]
    at the first entry that passes the test and breaks; [i] counts the
    entries already passed. *)
Fixpoint first_at (p : Ascription -> bool) (history : list Ascription) (i : Z) : Z :=
  match history with
  | [] => 0
  | a :: rest => if p a then i + 1 else first_at p rest (i + 1)
  end.

(** The test [history[0].user is None] every history selector starts
    with; [k] is the rest of the selector. *)
Definition on_ascribed (history : list Ascription) (k : Res Z) : Res Z :=
  h0 <- nth_res history 0 ;;
  match a_user h0 with
  | None => Ok 0
  | Some _ => k
  end.

(** The selectors get their users and tags through [cached_users] and
    [cached_tags], which keep what [parse_users] and [parse_tags] answered
    at the first call with the same arguments; the sets are not changed
    afterwards, so a selector is given here as parsing them at each call. *)
Section HistorySelectors.

(** The review tags of the configuration. *)
Variable review_tags : gset str.

(** Select last ascription (any, or by users). *)
Definition selector_asc (user_spec : option str) (args : sel_args) : Res Z :=
  on_ascribed (s_history args) (
    users <- parse_users user_spec (s_config args) ;;
    Ok (first_at (any_or_in users) (s_history args) 0)).

(** Select last modification (any or by users). *)
Definition selector_mod (user_spec : option str) (args : sel_args) : Res Z :=
  on_ascribed (s_history args) (
    users <- parse_users user_spec (s_config args) ;;
    Ok (first_at (fun a => nonempty (a_user a) && (is_mod a && any_or_in users a))
          (s_history args) 0)).

(** Select last review (any or by users). *)
Definition selector_rev (user_spec atag_spec : option str) (args : sel_args)
  : Res Z :=
  on_ascribed (s_history args) (
    users <- parse_users user_spec (s_config args) ;;
    atags <- parse_tags atag_spec review_tags ;;
    Ok (first_at (fun a => is_rev a && bool_decide (a_tag a ∈ atags)
                           && any_or_in users a)
          (s_history args) 0)).

(** Whether the ascription cancels further modifications. *)
Definition cancels (amod arev : bool) (musers rmusers atags : gset str)
    (a : Ascription) : bool :=
  ((amod && is_mod a) || (arev && is_rev a && bool_decide (a_tag a ∈ atags)))
  && any_or_in rmusers a && any_or_out musers a.

(** Whether the ascription is an admissible modification. *)
Definition admissible (musers rmusers : gset str) (a : Ascription) : bool :=
  is_mod a && any_or_in musers a && any_or_out rmusers a.

(** Whether an admissible modification cannot be a candidate: made by
    the merging user with only merge-induced differences from the earlier
    message [ae], or, in translation-only mode, without difference in
    translation from it. *)
Definition no_candidate (tronly : bool) (a : Ascription) (ae : option Ascription)
  : Res bool :=
  merged <- (if user_is a UFUZZ then
               match ae with
               | Some e => merge_modified (a_msg e) (a_msg a)
               | None => Ok false
               end
             else Ok false) ;;
  if merged : bool then Ok true
  else Ok (tronly && match ae with
                     | Some e => bool_decide (msgstr (a_msg e) = msgstr (a_msg a))
                     | None => false
                     end).

(** The loop of the worker: [history] is what is left to pass, [hi_sel]
    the selection so far. *)
Fixpoint modax_loop (amod arev tronly : bool) (musers rmusers atags : gset str)
    (history : list Ascription) (i hi_sel : Z) : Res Z :=
  match history with
  | [] => Ok hi_sel
  | a :: rest =>
      if cancels amod arev musers rmusers atags a then Ok hi_sel
      else if admissible musers rmusers a then
        skip <- no_candidate tronly a (hd_error rest) ;;
        modax_loop amod arev tronly musers rmusers atags rest (i + 1)
          (if skip : bool then hi_sel else i + 1)
      else modax_loop amod arev tronly musers rmusers atags rest (i + 1) hi_sel
  end.

(** Worker for builders of *moda* selectors. *)
Definition w_selector_modax (amod arev : bool)
    (muser_spec rmuser_spec atag_spec : option str) (tronly : bool)
    (args : sel_args) : Res Z :=
  on_ascribed (s_history args) (
    musers <- parse_users muser_spec (s_config args) ;;
    rmusers <- parse_users rmuser_spec (s_config args) ;;
    atags <- parse_tags atag_spec review_tags ;;
    modax_loop amod arev tronly musers rmusers atags (s_history args) 0 0).

(** Select first modification (any or by m-users, and not by r-users)
    after last review (any or by r-users, and not by m-users). *)
Definition selector_modar (muser_spec ruser_spec atag_spec : option str)
  : sel_args -> Res Z :=
  w_selector_modax false true muser_spec ruser_spec atag_spec false.

(** Select first modification (any or by m-users, and not by mm-users)
    after last modification (any or by mm-users, and not by m-users). *)
Definition selector_modam (muser_spec mmuser_spec : option str)
  : sel_args -> Res Z :=
  w_selector_modax true false muser_spec mmuser_spec None false.

(** Select first modification (any or by m-users, and not by rm-users)
    after last review or modification. *)
Definition selector_modarm (muser_spec rmuser_spec atag_spec : option str)
  : sel_args -> Res Z :=
  w_selector_modax true true muser_spec rmuser_spec atag_spec false.

(** Select first modification of translation after last review. *)
Definition selector_tmodar (muser_spec ruser_spec atag_spec : option str)
  : sel_args -> Res Z :=
  w_selector_modax false true muser_spec ruser_spec atag_spec true.

(** The loop of [selector_revbm]; [can_select] is set once a
    modification was passed. *)
Fixpoint revbm_loop (rusers musers atags : gset str) (history : list Ascription)
    (i : Z) (can_select : bool) : Z :=
  match history with
  | [] => 0
  | a :: rest =>
      let can_select :=
        if is_mod a && any_or_in musers a && any_or_out rusers a then true
        else can_select in
      if is_rev a && bool_decide (a_tag a ∈ atags)
         && any_or_in rusers a && any_or_out musers a
      then (if can_select then i + 1 else 0)
      else revbm_loop rusers musers atags rest (i + 1) can_select
  end.

(** Select first review (any or by r-users, and not by m-users)
    before last modification (any or by m-users, and not by r-users). *)
Definition selector_revbm (ruser_spec muser_spec atag_spec : option str)
    (args : sel_args) : Res Z :=
  on_ascribed (s_history args) (
    rusers <- parse_users ruser_spec (s_config args) ;;
    musers <- parse_users muser_spec (s_config args) ;;
    atags <- parse_tags atag_spec review_tags ;;
    Ok (revbm_loop rusers musers atags (s_history args) 0 false)).

(** [a.date >= date] *)
Definition date_ge (d : option datetime) (date : datetime) : Res bool :=
  date_le (Some date) d.

(** The loop [for i in range(len(history) - 1, -1, -1)] of
    [selector_modafter], over the reversed history; [i] is the index of
    the first entry of [rhistory] in the history. *)
Fixpoint modafter_loop (users : gset str) (date : datetime)
    (rhistory : list Ascription) (i : Z) : Res Z :=
  match rhistory with
  | [] => Ok 0
  | a :: rest =>
      hit <- (if is_mod a && any_or_in users a then date_ge (a_date a) date
              else Ok false) ;;
      if hit : bool then Ok (i + 1)
      else modafter_loop users date rest (i - 1)
  end.

(** Select first modification (any or by users) at or after given time. *)
Definition selector_modafter (time_spec user_spec : option str)
  : Res (sel_args -> Res Z) :=
  match time_spec with
  | None => Raise SelectorError
  | Some [] => Raise SelectorError
  | Some time_spec =>
      date <- parse_datetime time_spec ;;
      Ok (fun args =>
            on_ascribed (s_history args) (
              users <- parse_users user_spec (s_config args) ;;
              modafter_loop users date (rev (s_history args))
                (Z.of_nat (length (s_history args)) - 1)))
  end.

End HistorySelectors.

(** ** What a history selector answers *)

(** [first_where p history n]: [n] is the 1-based index of the first
    entry of [history] that passes [p], and 0 when no entry does. *)
Definition first_where (p : Ascription -> bool) (history : list Ascription)
    (n : Z) : Prop :=
  (n = 0 /\ Forall (fun a => p a = false) history) \/
  (exists pre a post, history = pre ++ a :: post /\
     n = Z.of_nat (length pre) + 1 /\ p a = true /\
     Forall (fun b => p b = false) pre).

(** [last_where p history n]: the same for the last entry that passes. *)
Definition last_where (p : Ascription -> bool) (history : list Ascription)
    (n : Z) : Prop :=
  (n = 0 /\ Forall (fun a => p a = false) history) \/
  (exists pre a post, history = pre ++ a :: post /\
     n = Z.of_nat (length pre) + 1 /\ p a = true /\
     Forall (fun b => p b = false) post).

(** The entry at index [k] of the history is an admissible modification
    that can be a candidate. *)
Definition candidate_at (tronly : bool) (musers rmusers : gset str)
    (history : list Ascription) (k : nat) : Prop :=
  exists a, nth_error history k = Some a /\
            admissible musers rmusers a = true /\
            no_candidate tronly a (nth_error history (S k)) = Ok false.

(** [last_before cancel cand history n]: of the entries in front of the
    first one that passes [cancel], [n] is the 1-based index of the last
    one that is a candidate, and 0 when none of them is. *)
Definition last_before (cancel : Ascription -> bool) (cand : nat -> Prop)
    (history : list Ascription) (n : Z) : Prop :=
  exists live rest,
    history = live ++ rest /\
    Forall (fun a => cancel a = false) live /\
    match rest with
    | [] => True
    | c :: _ => cancel c = true
    end /\
    ((n = 0 /\ forall k, (k < length live)%nat -> ~ cand k) \/
     (exists k, n = Z.of_nat k + 1 /\ (k < length live)%nat /\ cand k /\
                forall j, (k < j < length live)%nat -> ~ cand j)).

(** The review [selector_revbm] looks for, and the modification that
    has to come in front of it. *)
Definition revbm_review (rusers musers atags : gset str) (a : Ascription) : bool :=
  is_rev a && bool_decide (a_tag a ∈ atags)
  && any_or_in rusers a && any_or_out musers a.

Definition revbm_modification (rusers musers : gset str) (a : Ascription) : bool :=
  is_mod a && any_or_in musers a && any_or_out rusers a.

(** [a.date >= date] where the ascription has a date. *)
Definition dated_from (date : datetime) (a : Ascription) : bool :=
  match a_date a with
  | Some d => Datetime.le date d
  | None => false
  end.

(** The modification [selector_modafter] looks for: by one of the users,
    or by anybody when there are none, and not older than [date]. *)
Definition modified_from (users : gset str) (date : datetime) (a : Ascription)
  : bool :=
  is_mod a && any_or_in users a && dated_from date a.

(** A history whose first entry is an ascription. *)
Definition ascribed (history : list Ascription) : Prop :=
  exists a rest u, history = a :: rest /\ a_user a = Some u.

(** ** A history for the examples *)

(** Newest first: two modifications by bob, the review by alice they
    follow, and the modification by alice that was reviewed. *)
Definition entry_review : Ascription :=
  mkAscription None (a_msg entry_older)
    (Some (lit "alice")) ATYPE_REV [] (Some (day 2)) (Some 1) (Some false)
    (Some false) (Some 3).

Definition entry_second : Ascription :=
  mkAscription None (a_msg entry_newer)
    (Some (lit "bob")) ATYPE_MOD [] (Some (day 3)) (Some 1) (Some false)
    (Some false) (Some 2).

Definition entry_third : Ascription :=
  mkAscription None
    (mkMessage None (lit "id") None [lit "One. Two. Three."] None None None [] []
       false false)
    (Some (lit "bob")) ATYPE_MOD [] (Some (day 4)) (Some 1) (Some false)
    (Some false) (Some 1).

Definition entry_first : Ascription :=
  mkAscription None (a_msg entry_older)
    (Some (lit "alice")) ATYPE_MOD [] (Some (day 1)) (Some 1) (Some false)
    (Some false) (Some 4).

Definition history_reviewed : list Ascription :=
  [entry_third; entry_second; entry_review; entry_first].

Definition args_reviewed : sel_args :=
  mkArgs (a_msg entry_third) [] history_reviewed demo_config.

(** ** The unascribed head through the later passes *)

Section UnascribedPasses.

Context {Inv : Type} `{EqDecision Inv}.
Variable inv : Message -> Inv.
Variable msg_ediff : Message -> Message -> str -> Message.

(** The modification the filter loop holds in [a_prevmod] when it has
    passed [history], oldest first. *)
Fixpoint prevmod_after (hfilter : str -> str) (history : list Ascription)
    (a_prevmod : option Ascription) : option Ascription :=
  match history with
  | [] => a_prevmod
  | a :: rest =>
      if negb (bool_decide (a_type a = ATYPE_MOD))
         || match a_prevmod with
            | None => true
            | Some p => negb (bool_decide (inv (flt hfilter (a_msg a)) = inv (a_msg p)))
            end
      then
        prevmod_after hfilter rest
          (if bool_decide (a_type a = ATYPE_MOD)
           then Some (set_a_msg a (flt hfilter (a_msg a)))
           else a_prevmod)
      else prevmod_after hfilter rest a_prevmod
  end.

(** What the elimination of clean merges leaves of the history behind
    the unascribed head. *)
Definition after_merges (nomrg : bool) (older : list Ascription)
  : Res (list Ascription) :=
  if nomrg then
    match older with
    | [] => Ok []
    | _ => eliminate_clean_merges older
    end
  else Ok older.

(** What the history filter leaves of the history behind the head. *)
Definition filtered (hfilter : option (str -> str)) (older : list Ascription)
  : list Ascription :=
  match hfilter with
  | Some f => rev (eliminate_equal inv f (rev older) None)
  | None => older
  end.

(** Whether the history filter leaves the unascribed head of [msg] in
    front of [older]: there is no filter, or no modification was left of
    [older], or the newest one left has, under the filter, another
    invariant than [msg]. *)
Definition head_kept (hfilter : option (str -> str)) (msg : Message)
    (older : list Ascription) : bool :=
  match hfilter with
  | None => true
  | Some f =>
      match prevmod_after f (rev older) None with
      | None => true
      | Some p => negb (bool_decide (inv (flt f msg) = inv (a_msg p)))
      end
  end.

(** The reduction to differences, when one is asked for. *)
Definition after_reduction (addrem : option str) (history : list Ascription)
  : list Ascription :=
  match addrem with
  | Some ((_ :: _) as ar) => reduce_to_diff msg_ediff ar history
  | _ => history
  end.

(** Whether a reduction is asked for. *)
Definition reduces (addrem : option str) : bool :=
  match addrem with
  | Some (_ :: _) => true
  | _ => false
  end.

End UnascribedPasses.

(** A history filter for the examples: the accelerator marker "&" is
    taken out of the translation. *)
Definition no_accel (s : str) : str :=
  List.filter (fun c => negb (Ascii.eqb c "&")) s.

(** The message "greeting" with an accelerator marker in the translation
    ascribed last. *)
Definition msg_accel : Message :=
  mkMessage None (lit "greeting") None [lit "second&"] None None None [] [] false false.

(** * Properties *)

Example py_find_ex : Py.find (lit "ab|~cd") (lit "|~") 0 = 2.
Proof. reflexivity. Qed.
Example py_str_ex : Py.str_of_int 120 = lit "120" /\ Py.int (lit " 12 ") = Ok 12.
Proof. split; reflexivity. Qed.
Example py_split_ex : Py.split "|" (lit " a | b") = [lit " a "; lit " b"].
Proof. reflexivity. Qed.

(** ** Occurrences of one text in another *)

Section Occurrences.

Lemma startswith_app (s p : str) :
  Py.startswith s p = true <-> exists r, s = p ++ r.
Proof.
  revert s; induction p as [|c p IH]; intros s; simpl.
  - split; [intros _; exists s; reflexivity | reflexivity].
  - destruct s as [|d s].
    + split; [discriminate | intros [r Hr]; discriminate].
    + rewrite andb_true_iff, Ascii.eqb_eq, IH. split.
      * intros [-> [r ->]]. eauto.
      * intros [r Hr]. injection Hr as -> ->. eauto.
Qed.

Lemma contains_app (sub s : str) :
  Py.contains sub s = true <-> exists a b, s = a ++ sub ++ b.
Proof.
  induction s as [|d s IH]; simpl.
  - rewrite orb_false_r, startswith_app. split.
    + intros [r Hr]. exists [], r. exact Hr.
    + intros (a & b & H). destruct a; simpl in H; [eauto | discriminate].
  - rewrite orb_true_iff, startswith_app, IH. split.
    + intros [[r Hr] | (a & b & ->)].
      * exists [], r. exact Hr.
      * exists (d :: a), b. reflexivity.
    + intros (a & b & H). destruct a as [|e a]; simpl in H.
      * left. eauto.
      * right. injection H as _ ->. eauto.
Qed.

Lemma contains_length (sub s : str) :
  Py.contains sub s = true -> (length sub <= length s)%nat.
Proof.
  intros (a & b & ->)%contains_app. rewrite !length_app. lia.
Qed.

Lemma contains_false_app (sub s : str) :
  Py.contains sub s = false <-> forall a b, s <> a ++ sub ++ b.
Proof.
  split.
  - intros H a b ->. assert (Py.contains sub (a ++ sub ++ b) = true)
      by (apply contains_app; eauto). congruence.
  - intros H. destruct (Py.contains sub s) eqn:E; [|reflexivity].
    apply contains_app in E as (a & b & ->). exfalso. eapply H; reflexivity.
Qed.

(** An occurrence inside [x ++ c :: r] of a text without [c] lies in [x]
    or in [r]. *)
Lemma contains_around (sub x r : str) (c : ascii) :
  sub <> [] -> ~ In c sub ->
  Py.contains sub (x ++ c :: r) = true ->
  Py.contains sub x = true \/ Py.contains sub r = true.
Proof.
  intros Hne Hc (a & b & H)%contains_app.
  apply app_eq_app in H as [l [[-> H] | [-> H]]].
  - (* the occurrence starts inside x *)
    apply app_eq_app in H as [l' [[-> H] | [-> H]]].
    + destruct l' as [|e l']; simpl in H.
      * left. rewrite app_nil_r. apply contains_app. exists a, [].
        rewrite app_nil_r. reflexivity.
      * exfalso. apply Hc. injection H as <- _.
        apply in_or_app. right. left. reflexivity.
    + left. apply contains_app. exists a, l'. reflexivity.
  - destruct l as [|e l]; simpl in H.
    + destruct sub; [congruence|]. simpl in H. injection H as <- _.
      exfalso. apply Hc. left. reflexivity.
    + injection H as _ ->. right. apply contains_app. eauto.
Qed.

Lemma contains_join (sub : str) (c : ascii) (l : list str) :
  sub <> [] -> ~ In c sub ->
  Py.contains sub (Py.join [c] l) = true ->
  exists x, In x l /\ Py.contains sub x = true.
Proof.
  intros Hne Hc. induction l as [|x l IH].
  - intros H. apply contains_length in H. simpl in H.
    destruct sub; [congruence | simpl in H; lia].
  - destruct l as [|y l].
    + intros H. exists x. split; [left; reflexivity | exact H].
    + change (Py.join [c] (x :: y :: l)) with (x ++ c :: Py.join [c] (y :: l)).
      intros H. apply contains_around in H as [H | H]; try assumption.
      * exists x. split; [left; reflexivity | exact H].
      * destruct (IH H) as (z & Hz & Hz'). exists z. split; [right; exact Hz | exact Hz'].
Qed.

Lemma join_contains (sub : str) (c : ascii) (l : list str) (x : str) :
  In x l -> Py.contains sub x = true ->
  Py.contains sub (Py.join [c] l) = true.
Proof.
  intros Hin (a & b & ->)%contains_app. apply contains_app.
  induction l as [|y l IH]; [destruct Hin|].
  destruct Hin as [-> | Hin].
  - destruct l as [|z l]; simpl.
    + eauto.
    + exists a, (b ++ [c] ++ Py.join [c] (z :: l)).
      rewrite <- !app_assoc. reflexivity.
  - destruct (IH Hin) as (a' & b' & E).
    destruct l as [|z l]; [destruct Hin|].
    change (Py.join [c] (y :: z :: l)) with (y ++ [c] ++ Py.join [c] (z :: l)).
    rewrite E. exists (y ++ [c] ++ a'), b'. rewrite <- !app_assoc. reflexivity.
Qed.

End Occurrences.

(** ** Separator length *)

Section SeparatorLength.

Lemma field_separator_head_length (L : Z) :
  0 <= L -> length (field_separator_head L) = S (Z.to_nat L).
Proof.
  intros HL. unfold field_separator_head, Py.mul. simpl. f_equal.
  induction (Z.to_nat L) as [|n IH]; simpl; [reflexivity | f_equal; exact IH].
Qed.

Lemma field_separator_head_chars (L : Z) (c : ascii) :
  In c (field_separator_head L) -> c = "|"%char \/ c = "~"%char.
Proof.
  unfold field_separator_head, Py.mul. simpl. intros [<- | H]; [left; reflexivity|].
  right. induction (Z.to_nat L) as [|n IH]; simpl in H; [destruct H|].
  destruct H as [<- | H]; [reflexivity | exact (IH H)].
Qed.

Lemma field_separator_head_nonempty (L : Z) : field_separator_head L <> [].
Proof. discriminate. Qed.

Lemma field_separator_head_no_nl (L : Z) : ~ In nl (field_separator_head L).
Proof. intros [H | H]%field_separator_head_chars; discriminate. Qed.

Lemma sephead_occurs_values (sephead : str) (msg : Message) :
  sephead_occurs sephead msg = existsb (Py.contains sephead) (tracked_values msg).
Proof.
  unfold sephead_occurs, tracked_values.
  induction _nonid_fields_tracked as [|f fs IH]; simpl; [reflexivity|].
  rewrite existsb_app, IH. reflexivity.
Qed.

Lemma longest_ge (l : list str) (v : str) :
  In v l -> (length v <= longest l)%nat.
Proof.
  induction l as [|x l IH]; simpl; [intros []|].
  intros [-> | H]; [lia | specialize (IH H); lia].
Qed.

Lemma sephead_occurs_bound (L : Z) (msg : Message) :
  0 <= L -> sephead_occurs (field_separator_head L) msg = true ->
  (Z.to_nat L < longest (tracked_values msg))%nat.
Proof.
  intros HL. rewrite sephead_occurs_values.
  intros (v & Hin & Hv)%existsb_exists.
  apply contains_length in Hv. rewrite field_separator_head_length in Hv by lia.
  apply longest_ge in Hin. lia.
Qed.

(** The loop entered at [k], every shorter marker occurring, stops at the
    first marker that occurs nowhere. *)
Lemma needed_separator_length_loop_spec (msg : Message) (fuel : nat) :
  forall k : Z,
    0 <= k ->
    (longest (tracked_values msg) < fuel + Z.to_nat k)%nat ->
    (forall j, 1 <= j <= k -> sephead_occurs (field_separator_head j) msg = true) ->
    exists L,
      needed_separator_length_loop fuel msg k = Ok L /\ k < L /\
      sephead_occurs (field_separator_head L) msg = false /\
      (forall j, 1 <= j < L -> sephead_occurs (field_separator_head j) msg = true).
Proof.
  induction fuel as [|fuel IH]; intros k Hk Hfuel Hocc.
  - exfalso. destruct (Z.eq_dec k 0) as [-> | Hk0]; [simpl in Hfuel; lia|].
    assert (H := sephead_occurs_bound k msg Hk (Hocc k ltac:(lia))). lia.
  - simpl. destruct (sephead_occurs (field_separator_head (k + 1)) msg) eqn:E.
    + destruct (IH (k + 1)) as (L & HL & Hlt & Hsafe & Hmin); try lia.
      * intros j Hj. destruct (Z.eq_dec j (k + 1)) as [-> | Hne]; [exact E|].
        apply Hocc. lia.
      * exists L. repeat split; try assumption. lia.
    + exists (k + 1). repeat split; [lia | exact E |].
      intros j Hj. apply Hocc. lia.
Qed.

Lemma needed_separator_length_loop_total (msg : Message) (fuel : nat) :
  (longest (tracked_values msg) < fuel)%nat ->
  exists L,
    needed_separator_length_loop fuel msg 0 = Ok L /\ 1 <= L /\
    sephead_occurs (field_separator_head L) msg = false /\
    (forall j, 1 <= j < L -> sephead_occurs (field_separator_head j) msg = true).
Proof.
  intros Hfuel.
  destruct (needed_separator_length_loop_spec msg fuel 0) as (L & H1 & H2 & H3 & H4);
    [lia | simpl; lia | intros j Hj; lia |].
  exists L. repeat split; try assumption. lia.
Qed.

Lemma tracked_marker_safe_minimal (msg : Message) (L : Z) :
  1 <= L ->
  sephead_occurs (field_separator_head L) msg = false ->
  (forall j, 1 <= j < L -> sephead_occurs (field_separator_head j) msg = true) ->
  marker_safe_minimal (tracked_values msg) L.
Proof.
  intros H1 Hsafe Hmin. split; [exact H1|]. split.
  - intros v Hv. rewrite sephead_occurs_values in Hsafe.
    destruct (Py.contains (field_separator_head L) v) eqn:E; [|reflexivity].
    assert (existsb (Py.contains (field_separator_head L)) (tracked_values msg) = true)
      by (apply existsb_exists; eauto). congruence.
  - intros L' HL'. specialize (Hmin L' HL'). rewrite sephead_occurs_values in Hmin.
    apply existsb_exists in Hmin. exact Hmin.
Qed.

(** Each encoded text is a tracked value or the newline-join of the
    manual comment lines. *)
Lemma encoded_values_cases (msg : Message) (v : str) :
  In v (encoded_values msg) ->
  In v (tracked_values msg) \/
  (v = Py.join [nl] (manual_comment msg) /\ manual_comment msg <> []).
Proof.
  unfold encoded_values, tracked_values, get_as_sequence. simpl.
  rewrite !app_nil_r.
  destruct (fuzzy msg), (msgid_plural msg), (msgctxt_previous msg),
    (msgid_previous msg), (msgid_plural_previous msg),
    (manual_comment msg) as [|c cs] eqn:Ec; simpl;
    rewrite ?in_app_iff; simpl; rewrite ?in_app_iff; simpl;
    intuition (try discriminate; auto 10).
Qed.

Lemma encoded_marker_safe (msg : Message) (L : Z) (v : str) :
  sephead_occurs (field_separator_head L) msg = false ->
  In v (encoded_values msg) ->
  Py.contains (field_separator_head L) v = false.
Proof.
  intros Hsafe Hv. rewrite sephead_occurs_values in Hsafe.
  assert (Hall : forall x, In x (tracked_values msg) ->
                      Py.contains (field_separator_head L) x = false).
  { intros x Hx. destruct (Py.contains (field_separator_head L) x) eqn:E; [|reflexivity].
    assert (existsb (Py.contains (field_separator_head L)) (tracked_values msg) = true)
      by (apply existsb_exists; eauto). congruence. }
  destruct (encoded_values_cases msg v Hv) as [Hin | [-> Hne]]; [auto|].
  destruct (Py.contains _ (Py.join _ _)) eqn:E; [|reflexivity].
  apply contains_join in E as (x & Hx & Hc);
    [| apply field_separator_head_nonempty | apply field_separator_head_no_nl].
  rewrite Hall in Hc; [discriminate|].
  unfold tracked_values. simpl. rewrite !in_app_iff. simpl. auto 10.
Qed.


(** C2, as stated, fails: on [msg_stale_previous] the length returned is
    2, although the marker of length 1 occurs in none of the texts this
    write encodes. *)
Lemma needed_separator_length_not_minimal_for_encoded :
  needed_separator_length msg_stale_previous = Ok 2 /\
  encoded_values msg_stale_previous = [lit "a"] /\
  (forall v, In v (encoded_values msg_stale_previous) ->
     Py.contains (field_separator_head 1) v = false) /\
  ~ marker_safe_minimal (encoded_values msg_stale_previous) 2.
Proof.
  split; [reflexivity|]. split; [reflexivity|]. split.
  - intros v [<- | []]. reflexivity.
  - intros (_ & _ & Hmin). destruct (Hmin 1 ltac:(lia)) as (v & [<- | []] & Hv).
    discriminate Hv.
Qed.

(** C2 (amended): the search always stops, whatever fuel beyond the
    longest tracked text it is given, and the length it returns is the
    smallest L >= 1 whose marker occurs in none of the message's tracked
    field values, previous fields included whether or not the message is
    fuzzy; that marker occurs in none of the texts the write encodes. *)
Theorem needed_separator_length_safe_minimal (msg : Message) :
  exists L,
    needed_separator_length msg = Ok L /\
    (forall fuel, (longest (tracked_values msg) < fuel)%nat ->
       needed_separator_length_loop fuel msg 0 = Ok L) /\
    marker_safe_minimal (tracked_values msg) L /\
    (forall v, In v (encoded_values msg) ->
       Py.contains (field_separator_head L) v = false).
Proof.
  destruct (needed_separator_length_loop_total msg (S (longest (tracked_values msg))))
    as (L & HL & H1 & Hsafe & Hmin); [lia|].
  exists L. split; [exact HL|]. split; [|split].
  - intros fuel Hfuel.
    destruct (needed_separator_length_loop_total msg fuel Hfuel)
      as (L' & HL' & H1' & Hsafe' & Hmin').
    rewrite HL'. f_equal.
    destruct (Z.lt_trichotomy L L') as [Hlt | [-> | Hgt]]; [|reflexivity|].
    + rewrite Hmin' in Hsafe by lia. discriminate.
    + rewrite Hmin in Hsafe' by lia. discriminate.
  - apply tracked_marker_safe_minimal; assumption.
  - intros v Hv. eapply encoded_marker_safe; eassumption.
Qed.

End SeparatorLength.

(** ** The compound selector *)

Section SelectorSemantics.

Variable World : Type.
Variable xm_selector_factories : str -> option (factory World * bool).

Lemma cselector_loop_first_falsy_or_last (sels : list (selector World)) :
  forall (sel : selector World) (res : pyres) (a : sel_args) (w : World),
  exists pre s post wk,
    sel :: sels = pre ++ s :: post /\ all_truthy World a pre w wk /\
    cselector_loop World (sel :: sels) res a w = s a wk /\
    (truthy (fst (s a wk)) = false \/ post = []).
Proof.
  induction sels as [|sel' sels IH]; intros sel res a w.
  - exists [], sel, [], w. simpl. split; [reflexivity|]. split; [constructor|].
    destruct (sel a w) as [r w1]. split; [|right; reflexivity].
    destruct (truthy r); reflexivity.
  - simpl. destruct (sel a w) as [r w1] eqn:E.
    destruct (truthy r) eqn:Er; simpl.
    + destruct (IH sel' r a w1) as (pre & s & post & wk & Hs & Hall & Hres & Hlast).
      exists (sel :: pre), s, post, wk. split; [simpl; f_equal; exact Hs|].
      split; [|split; [exact Hres | exact Hlast]].
      constructor; rewrite E; simpl; assumption.
    + exists [], sel, (sel' :: sels), w. split; [reflexivity|].
      split; [constructor|]. rewrite E. split; [reflexivity|]. left. exact Er.
Qed.

(** C9: the compound selector built from specifications calls its
    components from left to right, answers what the first component with
    a false value answered, calling no later one, and otherwise what the
    last one answered; for two components it is Python's
    [A(x) and B(x)]. *)
Theorem build_selector_and_semantics (selspecs : list str) (hist : bool)
    (sels : list (selector World)) :
  build_components World xm_selector_factories selspecs hist = Ok sels ->
  exists csel,
    build_selector World xm_selector_factories selspecs hist = Ok csel /\
    (forall a w,
       first_falsy_or_last World (if hist then RNone else RBool false)
         sels a w (csel a w)) /\
    (forall A B, sels = [A; B] -> forall a w, csel a w = py_and World A B a w).
Proof.
  intros Hb. unfold build_selector. rewrite Hb. simpl.
  eexists. split; [reflexivity|]. split.
  - intros a w. unfold first_falsy_or_last, cselector.
    destruct sels as [|sel sels]; [reflexivity|].
    destruct (cselector_loop_first_falsy_or_last sels sel
                (if hist then RNone else RBool false) a w)
      as (pre & s & post & wk & Hs & Hall & Hres & Hlast).
    exists pre, s, post, wk. rewrite Hres. auto.
  - intros A B -> a w. unfold cselector, py_and. simpl.
    destruct (A a w) as [ra w1]. destruct (truthy ra); simpl; [|reflexivity].
    destruct (B a w1) as [rb w2]. destruct (truthy rb); reflexivity.
Qed.

End SelectorSemantics.

(** The compound of [none] and [log:x] answers false after one call; the
    compound of [any], a negated [none] and [log:x] calls all three. *)
Lemma build_selector_and_semantics_witness :
  exists csel,
    build_selector (list str) demo_factories [lit "one"; lit "log:x"] false = Ok csel /\
    csel demo_args [] = (RBool false, [lit "one"]) /\
    (forall a w,
       csel a w = py_and (list str) (log_selector (lit "one") (RBool false))
                    (log_selector (lit "x") (RBool true)) a w).
Proof.
  destruct (build_selector_and_semantics (list str) demo_factories
              [lit "one"; lit "log:x"] false
              [log_selector (lit "one") (RBool false); log_selector (lit "x") (RBool true)]
              eq_refl) as (csel & Hb & _ & Hand).
  exists csel. split; [exact Hb|]. split.
  - rewrite (Hand _ _ eq_refl). reflexivity.
  - exact (Hand _ _ eq_refl).
Defined.

(** ** Parsing of ascription comments *)

Section Parsing.

Variable config : Config.

Lemma asc_comment_state_cases (st : parse_state) (h : comment_head) (cmnt : str) :
  asc_comment_state st h cmnt =
  let isfuzz1 := if bool_decide (h_type h = ATYPE_MOD) then Some false else isfuzz st in
  let isobs1 := if bool_decide (h_type h = ATYPE_MOD) then Some false else isobs st in
  let isfuzz2 := if has_fuzz_mark h then Some true else isfuzz1 in
  let isobs2 := if has_obs_mark h then Some true else isobs1 in
  match block_seplen h with
  | Ok seplen => asc_append st h isfuzz2 isobs2 seplen
  | _ => Ok (warn (mkParseState isfuzz2 isobs2 (ascripts st) (warnings st))
               WSeparatorLength cmnt)
  end.
Proof.
  unfold asc_comment_state, block_seplen, block_digits, has_obs_mark,
    block_without_fuzz, has_fuzz_mark, trailing_block.
  destruct (bool_decide (h_type h = ATYPE_MOD)); simpl;
    destruct (h_rest h) as [|l2 rest]; simpl; try reflexivity;
    destruct (Py.contains [_mark_fuzz] (Py.strip l2)); simpl;
    match goal with
    | |- context [Py.contains [_mark_obs] ?t] =>
        destruct (Py.contains [_mark_obs] t); simpl
    end;
    match goal with
    | |- context [match ?t with [] => _ | _ :: _ => _ end] =>
        destruct t eqn:?; simpl; try reflexivity
    end;
    match goal with
    | |- context [Py.int ?t] => destruct (Py.int t); reflexivity
    end.
Qed.

(** Comments skipped before the state flags are reached leave the flags
    and the tuples as they were. *)
Lemma asc_parse_loop_skipped (skipped rest : list str) :
  Forall (fun c => exists w, asc_comment_head config c = Ok (inl w)) skipped ->
  forall st, exists ws,
    asc_parse_loop config st (skipped ++ rest) =
    asc_parse_loop config
      (mkParseState (isfuzz st) (isobs st) (ascripts st) (warnings st ++ ws)) rest.
Proof.
  induction 1 as [|c skipped [w Hw] _ IH]; intros st.
  - exists []. rewrite app_nil_r. destruct st; reflexivity.
  - simpl. unfold asc_parse_comment at 1. rewrite Hw. simpl.
    destruct (IH (warn st w c)) as [ws Hws]. rewrite Hws. simpl.
    exists ((w, c) :: ws). rewrite <- app_assoc. reflexivity.
Qed.

Lemma asc_parse_comment_appended (st st' : parse_state) (cmnt : str) (t : asc_tuple) :
  asc_parse_comment config st cmnt = Ok st' ->
  ascripts st' = ascripts st ++ [t] ->
  isfuzz st' = Some (t_isfuzz t) /\ isobs st' = Some (t_isobs t).
Proof.
  unfold asc_parse_comment.
  destruct (asc_comment_head config cmnt) as [[w | h] | |]; simpl; try discriminate.
  - intros [= <-]. simpl. intros E.
    apply (f_equal (@length _)) in E. rewrite length_app in E. simpl in E. lia.
  - rewrite asc_comment_state_cases. cbv zeta.
    destruct (block_seplen h) as [n | |]; unfold asc_append;
      repeat match goal with
      | |- context [match ?o with Some _ => _ | None => _ end] =>
          destruct o eqn:?
      end;
      try discriminate;
      intros [= <-]; simpl; intros E;
      try (apply app_inv_head in E; injection E as <-; simpl; split; reflexivity);
      try (apply (f_equal (@length _)) in E; rewrite length_app in E; simpl in E; lia).
Qed.

End Parsing.

(** C10, as stated, fails: a record whose only ascription comment is a
    review carrying both state marks is parsed without any error, both
    flags having been assigned by the marks. *)
Lemma asc_parse_review_both_marks_ok :
  asc_parse_ascriptions_w amsg_review_both_marks demo_config =
  Ok ([mkAsc (lit "alice") ATYPE_REV [] (mkDatetime 2020 1 2 10 30 15 60) 1 true true],
      []).
Proof. vm_compute. reflexivity. Qed.

(** C10 (amended): the state flags are assigned by a modification line and
    by each mark a line carries.  When the first comment to pass the user
    and date checks is not a modification and its trailing block holds a
    well-formed separator length, parsing raises NameError unless the line
    carries both marks, in which case its tuple is appended with both flags
    set.  A line that is not a modification, carries no mark and follows a
    line whose tuple was appended gets the flags of that tuple. *)
Theorem asc_parse_review_state :
  (forall (config : Config) (amsg : Message) (skipped : list str) (cmnt : str)
          (rest : list str) (h : comment_head) (n : Z),
     auto_comment amsg = skipped ++ cmnt :: rest ->
     Forall (fun c => exists w, asc_comment_head config c = Ok (inl w)) skipped ->
     asc_comment_head config cmnt = Ok (inr h) ->
     h_type h <> ATYPE_MOD ->
     block_seplen h = Ok n ->
     if has_fuzz_mark h && has_obs_mark h
     then exists ws,
            asc_parse_loop config parse_state_init (skipped ++ [cmnt]) =
            Ok (mkParseState (Some true) (Some true)
                  [mkAsc (h_user h) (h_type h) (h_tag h) (h_date h) n true true] ws)
     else asc_parse_ascriptions amsg config = Raise NameError) /\
  (forall (config : Config) (st0 st : parse_state) (prev cmnt : str) (t : asc_tuple)
          (h : comment_head) (n : Z),
     asc_parse_comment config st0 prev = Ok st ->
     ascripts st = ascripts st0 ++ [t] ->
     asc_comment_head config cmnt = Ok (inr h) ->
     h_type h <> ATYPE_MOD ->
     has_fuzz_mark h = false ->
     has_obs_mark h = false ->
     block_seplen h = Ok n ->
     asc_parse_comment config st cmnt =
     Ok (mkParseState (Some (t_isfuzz t)) (Some (t_isobs t))
           (ascripts st ++ [mkAsc (h_user h) (h_type h) (h_tag h) (h_date h) n
                              (t_isfuzz t) (t_isobs t)])
           (warnings st))).
Proof.
  split.
  - intros config amsg skipped cmnt rest h n Hcm Hsk Hh Hty Hn.
    assert (Hstep : forall ws,
              asc_parse_comment config (mkParseState None None [] ws) cmnt =
              if has_fuzz_mark h && has_obs_mark h
              then Ok (mkParseState (Some true) (Some true)
                         [mkAsc (h_user h) (h_type h) (h_tag h) (h_date h) n true true] ws)
              else Raise NameError).
    { intros ws. unfold asc_parse_comment. rewrite Hh. simpl.
      rewrite asc_comment_state_cases. cbv zeta. rewrite Hn.
      rewrite bool_decide_eq_false_2 by exact Hty. simpl.
      destruct (has_fuzz_mark h), (has_obs_mark h); reflexivity. }
    destruct (has_fuzz_mark h && has_obs_mark h) eqn:Emarks.
    + destruct (asc_parse_loop_skipped config skipped [cmnt] Hsk parse_state_init)
        as [ws Hws].
      exists ws. rewrite Hws. simpl. rewrite Hstep. reflexivity.
    + unfold asc_parse_ascriptions, asc_parse_ascriptions_w. rewrite Hcm.
      destruct (asc_parse_loop_skipped config skipped (cmnt :: rest) Hsk parse_state_init)
        as [ws Hws].
      rewrite Hws. simpl. rewrite Hstep. reflexivity.
  - intros config st0 st prev cmnt t h n Hprev Happ Hh Hty Hf Ho Hn.
    destruct (asc_parse_comment_appended config st0 st prev t Hprev Happ) as [Ef Eo].
    unfold asc_parse_comment. rewrite Hh. simpl.
    rewrite asc_comment_state_cases. cbv zeta. rewrite Hn, Hf, Ho, Ef, Eo.
    rewrite bool_decide_eq_false_2 by exact Hty. reflexivity.
Qed.

(** The first ascription of [amsg_review_first] is a review with the fuzzy
    mark only: NameError.  After the modification of a fuzzy message, the
    second comment of [amsg_mod_then_review], a review without marks,
    inherits the fuzzy flag. *)
Lemma asc_parse_review_state_witness :
  asc_parse_ascriptions amsg_review_first demo_config = Raise NameError /\
  asc_parse_comment demo_config
    (mkParseState (Some true) (Some false)
       [mkAsc (lit "alice") ATYPE_MOD [] (mkDatetime 2020 1 2 10 30 15 60) 1 true false] [])
    (lit "reviewed: bob | 2020-01-03 08:00:00+0100") =
  Ok (mkParseState (Some true) (Some false)
        [mkAsc (lit "alice") ATYPE_MOD [] (mkDatetime 2020 1 2 10 30 15 60) 1 true false;
         mkAsc (lit "bob") ATYPE_REV [] (mkDatetime 2020 1 3 8 0 0 60) 0 true false] []).
Proof.
  split.
  - exact (proj1 asc_parse_review_state demo_config amsg_review_first
             [lit "no ascription here"]
             (lit "reviewed: alice | 2020-01-02 10:30:15+0100 | 1f") []
             (mkHead (lit "alice") ATYPE_REV [] (mkDatetime 2020 1 2 10 30 15 60) [lit " 1f"])
             1 eq_refl
             ltac:(constructor; [exists WNoType; reflexivity | constructor])
             eq_refl ltac:(discriminate) eq_refl).
  - exact (proj2 asc_parse_review_state demo_config parse_state_init
             (mkParseState (Some true) (Some false)
                [mkAsc (lit "alice") ATYPE_MOD [] (mkDatetime 2020 1 2 10 30 15 60) 1 true false] [])
             (lit "modified: alice | 2020-01-02 10:30:15+0100 | 1f")
             (lit "reviewed: bob | 2020-01-03 08:00:00+0100")
             (mkAsc (lit "alice") ATYPE_MOD [] (mkDatetime 2020 1 2 10 30 15 60) 1 true false)
             (mkHead (lit "bob") ATYPE_REV [] (mkDatetime 2020 1 3 8 0 0 60) [])
             0 eq_refl eq_refl eq_refl ltac:(discriminate) eq_refl eq_refl eq_refl).
Defined.

(** ** Reading and writing fields as sequences *)

Section Sequences.

Lemma split_nonempty (c : ascii) (s : str) : Py.split c s <> [].
Proof.
  destruct s as [|d t]; simpl; [discriminate|].
  destruct (Ascii.eqb d c); [discriminate|].
  destruct (Py.split c t); discriminate.
Qed.

Lemma join_split (c : ascii) (s : str) : Py.join [c] (Py.split c s) = s.
Proof.
  induction s as [|d t IH]; [reflexivity|]. simpl.
  destruct (Ascii.eqb d c) eqn:E.
  - apply Ascii.eqb_eq in E as ->.
    destruct (Py.split c t) as [|w ws] eqn:Es; [exfalso; eapply split_nonempty; eauto|].
    change (Py.join [c] ([] :: w :: ws)) with ([] ++ [c] ++ Py.join [c] (w :: ws)).
    rewrite IH. reflexivity.
  - destruct (Py.split c t) as [|w ws] eqn:Es; [exfalso; eapply split_nonempty; eauto|].
    destruct ws as [|w' ws].
    + simpl in *. rewrite IH. reflexivity.
    + change (Py.join [c] ((d :: w) :: w' :: ws))
        with (d :: (w ++ [c] ++ Py.join [c] (w' :: ws))).
      change (Py.join [c] (w :: w' :: ws))
        with (w ++ [c] ++ Py.join [c] (w' :: ws)) in IH.
      rewrite IH. reflexivity.
Qed.

Lemma get_as_sequence_short (m : Message) (f : field) (asc : bool) :
  In f _nonid_fields_tracked -> f <> F_msgstr ->
  (length (get_as_sequence m f asc) <= 1)%nat.
Proof.
  intros Hin Hne. unfold get_as_sequence.
  destruct (negb asc && negb (fuzzy m) && field_in f _fields_previous); [simpl; lia|].
  simpl in Hin.
  destruct Hin as [<- | [<- | [<- | [<- | [<- | [<- | []]]]]]]; simpl;
    try congruence;
    try (match goal with |- context [of_opt ?o] => destruct o end; simpl; lia).
  destruct (manual_comment m); simpl; lia.
Qed.

(** Reading back the field just written. *)
Lemma get_set_sequence (m : Message) (f : field) (l : list str) :
  In f _nonid_fields_tracked ->
  (f = F_msgstr \/ (length l <= 1)%nat) ->
  get_as_sequence (set_from_sequence l m f) f true = l.
Proof.
  intros Hin Hlen. simpl in Hin.
  destruct Hin as [<- | [<- | [<- | [<- | [<- | [<- | []]]]]]];
    unfold get_as_sequence, set_from_sequence; simpl;
    try reflexivity;
    try (destruct Hlen as [Hlen | Hlen]; [discriminate|];
         destruct l as [|v [|v' l]]; simpl in *; try reflexivity; lia).
  destruct Hlen as [Hlen | Hlen]; [discriminate|].
  destruct l as [|v [|v' l]]; simpl in *; try reflexivity; [|lia].
  destruct (Py.split nl v) eqn:E; [exfalso; eapply split_nonempty; eauto|].
  rewrite <- E, join_split. reflexivity.
Qed.

(** Writing one field leaves the others as they were. *)
Lemma get_set_sequence_other (m : Message) (f g : field) (l : list str) (asc : bool) :
  In f _nonid_fields_tracked -> f <> g ->
  get_as_sequence (set_from_sequence l m f) g asc = get_as_sequence m g asc.
Proof.
  intros Hin Hne. simpl in Hin.
  destruct Hin as [<- | [<- | [<- | [<- | [<- | [<- | []]]]]]];
    destruct g; try congruence; reflexivity.
Qed.

Lemma set_from_sequence_flags (m : Message) (f : field) (l : list str) :
  fuzzy (set_from_sequence l m f) = fuzzy m /\
  obsolete (set_from_sequence l m f) = obsolete m /\
  auto_comment (set_from_sequence l m f) =
    (if bool_decide (f = F_auto_comment)
     then match l with [] => [] | v :: _ => Py.split nl v end
     else auto_comment m) /\
  msgctxt (set_from_sequence l m f) =
    (if bool_decide (f = F_msgctxt)
     then match l with [] => None | v :: _ => Some v end
     else msgctxt m) /\
  msgid (set_from_sequence l m f) = msgid m.
Proof. destruct f; repeat split; reflexivity. Qed.

End Sequences.

(** ** The encoder *)

Section Encoder.

Variables (msg : Message) (slen : Z) (rhistory : list Ascription).

Lemma add_items_length (shead : str) (f : field) (msg_seq l : list str) (k : nat) :
  length (add_items shead rhistory f msg_seq l k) = length l.
Proof.
  revert k; induction l as [|x l IH]; intros k; simpl; [reflexivity|].
  rewrite IH. reflexivity.
Qed.

Lemma add_items_nth (shead : str) (f : field) (msg_seq l : list str) (k i : nat) :
  nth_error (add_items shead rhistory f msg_seq l k) i =
  option_map
    (fun old => (match old with [] => old | _ => old ++ [nl] end)
                ++ add_token shead rhistory f msg_seq (k + i))
    (nth_error l i).
Proof.
  revert k i; induction l as [|x l IH]; intros k i.
  - destruct i; reflexivity.
  - destruct i as [|i]; simpl.
    + rewrite Nat.add_0_r. reflexivity.
    + rewrite IH. rewrite Nat.add_succ_r. reflexivity.
Qed.

Lemma add_nonid_items_length (f : field) (l : list str) :
  length (add_nonid_items msg slen rhistory f l) =
  Nat.max (length l) (length (get_as_sequence msg f false)).
Proof.
  unfold add_nonid_items. rewrite add_items_length, length_app, repeat_length. lia.
Qed.

Lemma field_in_In (f : field) (fs : list field) :
  field_in f fs = true <-> In f fs.
Proof.
  unfold field_in. rewrite existsb_exists. split.
  - intros (g & Hg & E). apply bool_decide_eq_true_1 in E. congruence.
  - intros Hin. exists f. split; [exact Hin | apply bool_decide_eq_true_2; reflexivity].
Qed.

Lemma add_nonid_fold (fs : list field) :
  NoDup fs -> (forall f, In f fs -> In f _nonid_fields_tracked) ->
  forall (amsg : Message) (f : field),
    In f _nonid_fields_tracked ->
    get_as_sequence
      (fold_left
         (fun amsg f =>
            set_from_sequence
              (add_nonid_items msg slen rhistory f (get_as_sequence amsg f true)) amsg f)
         fs amsg) f true =
    if field_in f fs
    then add_nonid_items msg slen rhistory f (get_as_sequence amsg f true)
    else get_as_sequence amsg f true.
Proof.
  induction 1 as [|g fs Hg Hnd IH]; intros Hall amsg f Hf; [reflexivity|].
  simpl fold_left. rewrite IH by (auto using in_cons).
  destruct (decide (g = f)) as [-> | Hne].
  - destruct (field_in f fs) eqn:E;
      [exfalso; apply Hg, list_elem_of_In, field_in_In; exact E|].
    assert (E' : field_in f (f :: fs) = true) by (apply field_in_In; left; reflexivity).
    rewrite E'.
    apply get_set_sequence; [exact Hf|].
    destruct (decide (f = F_msgstr)) as [-> | Hm]; [left; reflexivity | right].
    rewrite add_nonid_items_length.
    pose proof (get_as_sequence_short amsg f true Hf Hm).
    pose proof (get_as_sequence_short msg f false Hf Hm). lia.
  - rewrite get_set_sequence_other by (auto using in_eq).
    assert (E' : field_in f (g :: fs) = field_in f fs).
    { unfold field_in. simpl. rewrite bool_decide_eq_false_2 by congruence. reflexivity. }
    rewrite E'. reflexivity.
Qed.

Lemma tracked_NoDup : NoDup _nonid_fields_tracked.
Proof. apply (bool_decide_unpack _). reflexivity. Qed.

(** The items of a tracked field after [add_nonid]. *)
Lemma add_nonid_field (amsg : Message) (f : field) :
  In f _nonid_fields_tracked ->
  get_as_sequence (add_nonid amsg msg slen rhistory) f true =
  add_nonid_items msg slen rhistory f (get_as_sequence amsg f true).
Proof.
  intros Hf. unfold add_nonid.
  rewrite add_nonid_fold; [| apply tracked_NoDup | auto | exact Hf].
  assert (E : field_in f _nonid_fields_tracked = true) by (apply field_in_In; exact Hf).
  rewrite E. reflexivity.
Qed.

Lemma add_nonid_untracked (amsg : Message) :
  fuzzy (add_nonid amsg msg slen rhistory) = fuzzy amsg /\
  obsolete (add_nonid amsg msg slen rhistory) = obsolete amsg /\
  auto_comment (add_nonid amsg msg slen rhistory) = auto_comment amsg /\
  msgctxt (add_nonid amsg msg slen rhistory) = msgctxt amsg /\
  msgid (add_nonid amsg msg slen rhistory) = msgid amsg.
Proof. unfold add_nonid. simpl. repeat split. Qed.

End Encoder.

(** C8, as stated, fails: after the two writes of [acat_two_writes] the
    stored translation starts with the token of the first write and ends
    with the token of the second. *)
Lemma tokens_oldest_first :
  acat_two_writes =
  Ok [mkMessage None (lit "greeting") None
        [lit "first|~" ++ [nl] ++ lit "second|~"] None None None []
        [lit "modified: alice | 2020-01-01 10:30:15+0100 | 1";
         lit "modified: bob | 2020-01-02 10:30:15+0100 | 1"] false false].
Proof. vm_compute. reflexivity. Qed.

(** C8 (amended): for every item of a tracked field the encoder appends
    the token of a write to the stored text, after a newline when the
    stored text is not empty; so the token of the most recent write is at
    the back of the stored text and that of the oldest write at the front.
    An item the record did not have yet starts from the padding of absence
    marks. *)
Theorem add_nonid_appends_token (amsg msg : Message) (slen : Z)
    (rhistory : list Ascription) (f : field) (i : nat) (old : str) :
  In f _nonid_fields_tracked ->
  nth_error (get_as_sequence amsg f true
             ++ repeat (padnone_of rhistory)
                  (length (get_as_sequence msg f false)
                   - length (get_as_sequence amsg f true))) i = Some old ->
  nth_error (get_as_sequence (add_nonid amsg msg slen rhistory) f true) i =
  Some ((match old with [] => old | _ => old ++ [nl] end)
        ++ add_token (field_separator_head slen) rhistory f
             (get_as_sequence msg f false) i).
Proof.
  intros Hf Hold. rewrite add_nonid_field by exact Hf.
  unfold add_nonid_items. rewrite add_items_nth, Hold. reflexivity.
Qed.

Lemma add_nonid_appends_token_witness :
  nth_error (get_as_sequence
               (add_nonid
                  (mkMessage None (lit "greeting") None [lit "first|~"]
                     None None None [] [] false false)
                  msg_second 1 [] ) F_msgstr true) 0 =
  Some (lit "first|~" ++ [nl] ++ lit "second|~").
Proof.
  exact (add_nonid_appends_token
           (mkMessage None (lit "greeting") None [lit "first|~"]
              None None None [] [] false false)
           msg_second 1 [] F_msgstr 0%nat (lit "first|~")
           ltac:(simpl; auto) eq_refl).
Defined.

(** ** Every step of the reconstruction of one record comes to an end *)

Section Finished.

Lemma bind_finished {A B} (r : Res A) (k : A -> Res B) :
  finished r -> (forall a, finished (k a)) -> finished (bind r k).
Proof.
  unfold finished. destruct r as [a | e |]; simpl; intros Hr Hk;
    [apply Hk | discriminate | congruence].
Qed.

Ltac fin :=
  repeat first
    [ progress intros
    | apply bind_finished
    | match goal with
      | |- finished (Ok _) => discriminate
      | |- finished (Raise _) => discriminate
      | H : finished ?r |- finished ?r => exact H
      | |- finished (if ?b then _ else _) => destruct b
      | |- finished (match ?x with _ => _ end) => destruct x eqn:?
      end ].

Lemma int_finished (s : str) : finished (Py.int s).
Proof. unfold Py.int. fin. Qed.

Lemma nth_res_finished {A} (l : list A) (i : Z) : finished (nth_res l i).
Proof. unfold nth_res. fin. Qed.

Lemma last_res_finished {A} (l : list A) : finished (last_res l).
Proof. unfold last_res. fin. Qed.

Lemma group_ints_finished (l : list str) : finished (group_ints l).
Proof.
  induction l as [|x l IH]; simpl; [discriminate|].
  apply bind_finished; [unfold group_int; destruct x; [discriminate | apply int_finished]|].
  intros n. apply bind_finished; [exact IH | discriminate].
Qed.

Lemma parse_datetime_finished (s : str) : finished (parse_datetime s).
Proof.
  unfold parse_datetime.
  destruct (List.find _ _); [|discriminate].
  destruct (Rx.matches _ _); [|discriminate].
  apply bind_finished; [apply group_ints_finished|]. intros pg. fin.
Qed.

Lemma asc_comment_head_finished (config : Config) (cmnt : str) :
  finished (asc_comment_head config cmnt).
Proof. unfold asc_comment_head. fin. Qed.

Lemma asc_comment_state_finished (st : parse_state) (h : comment_head) (cmnt : str) :
  finished (asc_comment_state st h cmnt).
Proof.
  rewrite asc_comment_state_cases. cbv zeta. unfold asc_append. fin.
Qed.

Lemma asc_parse_comment_finished (config : Config) (st : parse_state) (cmnt : str) :
  finished (asc_parse_comment config st cmnt).
Proof.
  unfold asc_parse_comment. apply bind_finished; [apply asc_comment_head_finished|].
  intros [w | h]; [discriminate | apply asc_comment_state_finished].
Qed.

Lemma asc_parse_loop_finished (config : Config) (cmnts : list str) (st : parse_state) :
  finished (asc_parse_loop config st cmnts).
Proof.
  revert st; induction cmnts as [|c cmnts IH]; intros st; simpl; [discriminate|].
  apply bind_finished; [apply asc_parse_comment_finished | intros; apply IH].
Qed.

Lemma asc_parse_ascriptions_finished (amsg : Message) (config : Config) :
  finished (asc_parse_ascriptions amsg config).
Proof.
  unfold asc_parse_ascriptions, asc_parse_ascriptions_w.
  repeat (apply bind_finished; [|intros; try discriminate]).
  apply asc_parse_loop_finished.
Qed.

Lemma amsg_step_value_finished aval shead stail sp pv i :
  finished (amsg_step_value aval shead stail sp pv i).
Proof.
  unfold amsg_step_value.
  apply bind_finished; [apply nth_res_finished | intros p0].
  apply bind_finished; [apply nth_res_finished | intros pvi].
  apply bind_finished; [| intros; discriminate].
  destruct (Py.contains _trsep_mod_eq _).
  - apply bind_finished; [apply int_finished | intros; apply nth_res_finished].
  - fin.
Qed.

Lemma decode_items_finished shead amsg_seq :
  forall i sp pv pmsg_seq, finished (decode_items shead amsg_seq i sp pv pmsg_seq).
Proof.
  induction amsg_seq as [|aval rest IH]; intros; simpl; [discriminate|].
  apply bind_finished; [apply amsg_step_value_finished|].
  intros [[pval sp'] pv']. apply IH.
Qed.

Lemma decode_fields_finished shead amsg fields :
  forall ds pmsg, finished (decode_fields shead amsg fields ds pmsg).
Proof.
  induction fields as [|f rest IH]; intros; simpl; [discriminate|].
  apply bind_finished; [apply decode_items_finished|].
  intros [[pmsg_seq sp'] pv']. apply IH.
Qed.

Lemma asc_collect_step_finished amsg asc history ds :
  finished (asc_collect_step amsg asc history ds).
Proof.
  unfold asc_collect_step. apply bind_finished.
  - destruct (negb _); [apply decode_fields_finished|].
    apply bind_finished; [apply last_res_finished | intros; discriminate].
  - intros [pmsg ds']. discriminate.
Qed.

Lemma asc_collect_loop_finished amsg ascs :
  forall history ds, finished (asc_collect_loop amsg ascs history ds).
Proof.
  induction ascs as [|asc rest IH]; intros; simpl; [discriminate|].
  apply bind_finished; [apply asc_collect_step_finished | intros; apply IH].
Qed.

Lemma asc_collect_history_single_sorted (amsg : Message) (config : Config)
    (h : list Ascription) :
  asc_collect_history_single amsg config = Ok h ->
  exists h0, asc_collect_history_unsorted amsg config = Ok h0 /\
             h = sort_history h0 /\
             ((length h0 < 2)%nat \/ forallb comparable h0 = true).
Proof.
  unfold asc_collect_history_single.
  destruct (asc_collect_history_unsorted amsg config) as [h0| |]; cbn [bind];
    try discriminate.
  destruct (2 <=? length h0)%nat eqn:El; cbn [andb].
  - destruct (forallb comparable h0) eqn:Ec; cbn [negb]; [|discriminate].
    intros [= <-]. exists h0. auto.
  - intros [= <-]. exists h0. apply Nat.leb_gt in El. auto.
Qed.

Lemma asc_collect_history_single_comparable (amsg : Message) (config : Config)
    (h0 : list Ascription) :
  asc_collect_history_unsorted amsg config = Ok h0 ->
  forallb comparable h0 = true ->
  asc_collect_history_single amsg config = Ok (sort_history h0).
Proof.
  intros E Hc. unfold asc_collect_history_single. rewrite E. cbn [bind].
  rewrite Hc, andb_false_r. reflexivity.
Qed.

Lemma asc_collect_history_single_finished (amsg : Message) (config : Config) :
  finished (asc_collect_history_single amsg config).
Proof.
  unfold asc_collect_history_single, asc_collect_history_unsorted.
  apply bind_finished; [| intros h; destruct (_ && _); discriminate].
  apply bind_finished; [apply asc_parse_ascriptions_finished | intros ascs].
  apply bind_finished; [apply asc_collect_loop_finished | intros; discriminate].
Qed.

Lemma collect_before_finished before l : finished (collect_before before l).
Proof.
  induction l as [|a l IH]; simpl; [discriminate|].
  apply bind_finished.
  - destruct before; [|discriminate]. unfold date_le. fin.
  - intros keep. apply bind_finished; [exact IH | intros; discriminate].
Qed.

End Finished.

(** ** Reconstruction across pivots: termination *)

Section Pivots.

Variables (acat : Catalog) (config : Config).

Lemma unseen_le (seen : gset (option str * str)) (k : option str * str) :
  (unseen acat (seen ∪ {[k]}) <= unseen acat seen)%nat.
Proof.
  unfold unseen. induction acat as [|m cat IH]; simpl; [lia|].
  destruct (bool_decide (key m ∈ seen)) eqn:E.
  - apply bool_decide_eq_true_1 in E.
    rewrite bool_decide_eq_true_2 by (apply elem_of_union; left; exact E).
    simpl. exact IH.
  - simpl. destruct (bool_decide (key m ∈ seen ∪ {[k]})); simpl; lia.
Qed.

Lemma unseen_lt (seen : gset (option str * str)) (msg amsg : Message) :
  cat_get acat msg = Some amsg -> key msg ∉ seen ->
  (unseen acat (seen ∪ {[key msg]}) < unseen acat seen)%nat.
Proof.
  unfold unseen, cat_get. intros Hget Hnot.
  induction acat as [|m cat IH]; simpl in *; [discriminate|].
  destruct (bool_decide (key m = key msg)) eqn:E.
  - apply bool_decide_eq_true_1 in E.
    rewrite (bool_decide_eq_false_2 (key m ∈ seen)) by (rewrite E; exact Hnot).
    rewrite (bool_decide_eq_true_2 (key m ∈ seen ∪ {[key msg]}))
      by (apply elem_of_union; right; apply elem_of_singleton; exact E).
    simpl. clear IH Hget.
    assert (H := unseen_le seen (key msg)). unfold unseen in H.
    enough (length (List.filter (fun m0 => negb (bool_decide (key m0 ∈ seen ∪ {[key msg]}))) cat)
            <= length (List.filter (fun m0 => negb (bool_decide (key m0 ∈ seen))) cat))%nat by lia.
    clear. induction cat as [|m' cat IH]; simpl; [lia|].
    destruct (bool_decide (key m' ∈ seen)) eqn:E.
    + apply bool_decide_eq_true_1 in E.
      rewrite bool_decide_eq_true_2 by (apply elem_of_union; left; exact E).
      simpl. exact IH.
    + simpl. destruct (bool_decide (key m' ∈ seen ∪ {[key msg]})); simpl; lia.
  - specialize (IH Hget).
    destruct (bool_decide (key m ∈ seen)) eqn:E'.
    + apply bool_decide_eq_true_1 in E'.
      rewrite bool_decide_eq_true_2 by (apply elem_of_union; left; exact E').
      simpl. exact IH.
    + apply bool_decide_eq_false_1 in E'. apply bool_decide_eq_false_1 in E.
      rewrite bool_decide_eq_false_2; [simpl; lia|].
      intros [H | H%elem_of_singleton]%elem_of_union; contradiction.
Qed.

Lemma unseen_le_length (seen : gset (option str * str)) :
  (unseen acat seen <= length acat)%nat.
Proof. unfold unseen. apply filter_length_le. Qed.

Lemma pivotable_previous_identity (amsg : Message) :
  pivotable (previous_identity amsg) = false.
Proof. reflexivity. Qed.

(** One unfolding of the recursion. *)
Lemma asc_collect_history_w_S fuel msg before seenmsg shallow :
  asc_collect_history_w (S fuel) msg acat config before seenmsg shallow =
  if bool_decide (key msg ∈ seenmsg) then Ok ([], seenmsg)
  else
    history <- match cat_get acat msg with
               | Some amsg =>
                   h <- asc_collect_history_single amsg config ;;
                   collect_before before h
               | None => Ok []
               end ;;
    if shallow then Ok (history, seenmsg ∪ {[ key msg ]})
    else
      let amsg := match rev history with a :: _ => a_msg a | [] => msg end in
      if pivotable amsg then
        r <- asc_collect_history_w fuel (previous_identity amsg) acat config
               (match rev history with a :: _ => Some a | [] => before end)
               (seenmsg ∪ {[ key msg ]}) false ;;
        Ok (history ++ fst r, snd r)
      else Ok (history, seenmsg ∪ {[ key msg ]}).
Proof. reflexivity. Qed.

Lemma asc_collect_history_w_finished (fuel : nat) :
  forall msg before seenmsg shallow,
    (unseen acat seenmsg + (if pivotable msg then 2 else 1) <= fuel)%nat ->
    finished (asc_collect_history_w fuel msg acat config before seenmsg shallow).
Proof.
  induction fuel as [|fuel IH]; intros msg before seenmsg shallow Hfuel.
  - destruct (pivotable msg); lia.
  - rewrite asc_collect_history_w_S.
    destruct (bool_decide (key msg ∈ seenmsg)) eqn:Eseen; [unfold finished; discriminate|].
    apply bool_decide_eq_false_1 in Eseen.
    destruct (cat_get acat msg) as [amsg|] eqn:Eget.
    + pose proof (unseen_lt seenmsg msg amsg Eget Eseen) as Hlt.
      apply bind_finished.
      { apply bind_finished; [apply asc_collect_history_single_finished|].
        intros h. apply collect_before_finished. }
      intros history. destruct shallow; [unfold finished; discriminate|]. cbv zeta.
      generalize (match rev history with [] => msg | a :: _ => a_msg a end).
      intros amsg'.
      destruct (pivotable amsg'); [|unfold finished; discriminate].
      apply bind_finished; [| intros; unfold finished; discriminate].
      apply IH. rewrite pivotable_previous_identity.
      destruct (pivotable msg); lia.
    + simpl. destruct shallow; [unfold finished; discriminate|].
      destruct (pivotable msg) eqn:Ep; [|unfold finished; discriminate].
      apply bind_finished; [| intros; unfold finished; discriminate].
      apply IH. rewrite pivotable_previous_identity.
      pose proof (unseen_le seenmsg (key msg)). lia.
Qed.

(** More fuel does not change the outcome of a reconstruction that came
    to an end. *)
Lemma asc_collect_history_w_more (fuel : nat) :
  forall msg before seenmsg shallow,
    finished (asc_collect_history_w fuel msg acat config before seenmsg shallow) ->
    asc_collect_history_w (S fuel) msg acat config before seenmsg shallow =
    asc_collect_history_w fuel msg acat config before seenmsg shallow.
Proof.
  induction fuel as [|fuel IH]; intros msg before seenmsg shallow Hfin.
  - exfalso. apply Hfin. reflexivity.
  - rewrite (asc_collect_history_w_S (S fuel) msg before seenmsg shallow).
    rewrite (asc_collect_history_w_S fuel msg before seenmsg shallow) in Hfin.
    rewrite (asc_collect_history_w_S fuel msg before seenmsg shallow).
    destruct (bool_decide (key msg ∈ seenmsg)); [reflexivity|].
    destruct (match cat_get acat msg with Some _ => _ | None => _ end)
      as [history | e |]; cbn [bind] in *; try reflexivity.
    destruct shallow; [reflexivity|]. cbv zeta in *.
    destruct (pivotable _); [|reflexivity].
    rewrite IH; [reflexivity|].
    intros E. rewrite E in Hfin. apply Hfin. reflexivity.
Qed.

Lemma asc_collect_history_w_fuel (fuel fuel' : nat) msg before seenmsg shallow :
  (fuel <= fuel')%nat ->
  finished (asc_collect_history_w fuel msg acat config before seenmsg shallow) ->
  asc_collect_history_w fuel' msg acat config before seenmsg shallow =
  asc_collect_history_w fuel msg acat config before seenmsg shallow.
Proof.
  induction 1 as [|fuel' Hle IH]; intros Hfin; [reflexivity|].
  rewrite asc_collect_history_w_more; rewrite IH by exact Hfin; [reflexivity | exact Hfin].
Qed.

End Pivots.

(** ** Reconstruction across pivots: the chain *)

Section PivotChain.

Variables (acat : Catalog) (config : Config).

Lemma asc_collect_history_w_own fuel msg before seenmsg shallow :
  asc_collect_history_w (S fuel) msg acat config before seenmsg shallow =
  if bool_decide (key msg ∈ seenmsg) then Ok ([], seenmsg)
  else
    history <- own_history msg acat config before ;;
    if shallow then Ok (history, seenmsg ∪ {[ key msg ]})
    else
      if pivotable (pivot_message msg history) then
        r <- asc_collect_history_w fuel
               (previous_identity (pivot_message msg history)) acat config
               (match rev history with a :: _ => Some a | [] => before end)
               (seenmsg ∪ {[ key msg ]}) false ;;
        Ok (history ++ fst r, snd r)
      else Ok (history, seenmsg ∪ {[ key msg ]}).
Proof. reflexivity. Qed.

(** C4: whatever the records of the catalog point to, the reconstruction
    comes to an end within [pivot_fuel acat] nested calls, and more fuel
    does not change its outcome; a call on an identity already visited
    returns at once with nothing, so a call whose pivot leads to a visited
    identity returns what it has collected itself. *)
Theorem asc_collect_history_w_terminates (msg : Message)
    (before : option Ascription) (seenmsg : gset (option str * str))
    (shallow : bool) :
  (forall fuel, (pivot_fuel acat <= fuel)%nat ->
     finished (asc_collect_history_w fuel msg acat config before seenmsg shallow) /\
     asc_collect_history_w fuel msg acat config before seenmsg shallow =
     asc_collect_history_w (pivot_fuel acat) msg acat config before seenmsg shallow) /\
  (forall fuel, key msg ∈ seenmsg ->
     asc_collect_history_w (S fuel) msg acat config before seenmsg shallow =
     Ok ([], seenmsg)) /\
  (forall fuel history,
     key msg ∉ seenmsg ->
     own_history msg acat config before = Ok history ->
     pivotable (pivot_message msg history) = true ->
     key (previous_identity (pivot_message msg history)) ∈ seenmsg ∪ {[ key msg ]} ->
     asc_collect_history_w (S (S fuel)) msg acat config before seenmsg false =
     Ok (history, seenmsg ∪ {[ key msg ]})).
Proof.
  assert (Hfin : finished (asc_collect_history_w (pivot_fuel acat) msg acat config
                             before seenmsg shallow)).
  { apply asc_collect_history_w_finished. unfold pivot_fuel.
    pose proof (unseen_le_length acat seenmsg). destruct (pivotable msg); lia. }
  split; [|split].
  - intros fuel Hfuel.
    rewrite (asc_collect_history_w_fuel acat config (pivot_fuel acat) fuel)
      by assumption.
    split; [exact Hfin | reflexivity].
  - intros fuel Hseen. rewrite asc_collect_history_w_own.
    rewrite bool_decide_eq_true_2 by exact Hseen. reflexivity.
  - intros fuel history Hnew Hown Hpiv Hseen.
    rewrite asc_collect_history_w_own.
    rewrite bool_decide_eq_false_2 by exact Hnew.
    rewrite Hown. cbn [bind]. rewrite Hpiv.
    rewrite asc_collect_history_w_own.
    rewrite bool_decide_eq_true_2 by exact Hseen.
    cbn [bind fst snd]. rewrite app_nil_r. reflexivity.
Qed.

End PivotChain.

(** On the cycle of [acat_cycle] the reconstruction for "A" returns the
    ascription of "A" and then that of "B", whose pivot leads back to
    "A". *)
Lemma asc_collect_history_w_terminates_witness :
  exists a b,
    asc_collect_history_w (pivot_fuel acat_cycle) msg_A acat_cycle demo_config
      None ∅ false = Ok ([a; b], {[ key rec_A; key rec_B_cycle ]}) /\
    a_rmsg a = Some rec_A /\ a_rmsg b = Some rec_B_cycle /\
    finished (asc_collect_history_w 100 msg_A acat_cycle demo_config None ∅ false) /\
    asc_collect_history_w 100 msg_A acat_cycle demo_config None ∅ false =
    asc_collect_history_w (pivot_fuel acat_cycle) msg_A acat_cycle demo_config
      None ∅ false.
Proof.
  destruct (asc_collect_history_w_terminates acat_cycle demo_config msg_A None ∅ false)
    as (Hfuel & _ & _).
  destruct (Hfuel 100%nat ltac:(vm_compute; lia)) as [Hfin Heq].
  eexists _, _. split; [vm_compute; reflexivity|].
  split; [reflexivity|]. split; [reflexivity|]. split; [exact Hfin | exact Heq].
Defined.

(** ** Reconstruction across pivots: the bound on time stamps *)

Section PivotBound.

Variables (acat : Catalog) (config : Config).

Lemma not_younger_trans (a b c : Ascription) :
  not_younger b a -> not_younger c b -> not_younger c a.
Proof.
  unfold not_younger, date_le, Datetime.le.
  destruct (a_date a) as [x|], (a_date b) as [y|], (a_date c) as [z|];
    try discriminate.
  destruct (Datetime.offset_ok x), (Datetime.offset_ok y), (Datetime.offset_ok z);
    try discriminate.
  intros [= H1] [= H2]. cbn [andb]. f_equal. apply Z.leb_le.
  apply Z.leb_le in H1, H2. lia.
Qed.

Lemma collect_before_not_younger (b : Ascription) (l h : list Ascription) :
  collect_before (Some b) l = Ok h ->
  Forall (not_younger b) h /\ incl h l.
Proof.
  revert h; induction l as [|a l IH]; intros h; simpl.
  - intros [= <-]. split; [constructor | apply incl_refl].
  - destruct (date_le (a_date a) (a_date b)) as [keep | |] eqn:E; simpl; try discriminate.
    destruct (collect_before (Some b) l) as [h' | |]; simpl; try discriminate.
    destruct (IH h' eq_refl) as [IH1 IH2].
    destruct keep; intros [= <-]; split.
    + constructor; [exact E | exact IH1].
    + apply incl_cons; [left; reflexivity | apply incl_tl; exact IH2].
    + exact IH1.
    + apply incl_tl; exact IH2.
Qed.

Lemma own_history_not_younger msg (b : Ascription) (own : list Ascription) :
  own_history msg acat config (Some b) = Ok own -> Forall (not_younger b) own.
Proof.
  unfold own_history. destruct (cat_get acat msg); [|intros [= <-]; constructor].
  destruct (asc_collect_history_single _ _); simpl; try discriminate.
  intros H. apply collect_before_not_younger in H. apply H.
Qed.

Lemma rev_head_In {A} (l : list A) (x : A) (t : list A) :
  rev l = x :: t -> In x l.
Proof. intros E. apply in_rev. rewrite E. left. reflexivity. Qed.

(** Every ascription collected by a call that was given an anchor is not
    younger than the anchor. *)
Lemma asc_collect_history_w_not_younger (fuel : nat) :
  forall msg (b : Ascription) seenmsg shallow h s,
    asc_collect_history_w fuel msg acat config (Some b) seenmsg shallow = Ok (h, s) ->
    Forall (not_younger b) h.
Proof.
  induction fuel as [|fuel IH]; intros msg b seenmsg shallow h s; [discriminate|].
  rewrite asc_collect_history_w_own.
  destruct (bool_decide _); [intros [= <- <-]; constructor|].
  destruct (own_history msg acat config (Some b)) as [own | |] eqn:Eown;
    cbn [bind]; try discriminate.
  pose proof (own_history_not_younger msg b own Eown) as Hown.
  destruct shallow; [intros [= <- <-]; exact Hown|].
  destruct (pivotable _); [|intros [= <- <-]; exact Hown].
  destruct (rev own) as [|last t] eqn:Erev.
  - destruct (asc_collect_history_w fuel _ acat config (Some b) _ false)
      as [[h' s'] | |] eqn:Erec; cbn [bind]; try discriminate.
    intros [= <- <-]. apply Forall_app. split; [exact Hown|].
    simpl. eapply IH. exact Erec.
  - destruct (asc_collect_history_w fuel _ acat config (Some last) _ false)
      as [[h' s'] | |] eqn:Erec; cbn [bind]; try discriminate.
    intros [= <- <-]. apply Forall_app. split; [exact Hown|].
    simpl. apply IH in Erec.
    assert (Hlast : not_younger b last).
    { rewrite Forall_forall in Hown. apply Hown.
      apply list_elem_of_In. eapply rev_head_In. exact Erec0 || exact Erev. }
    eapply Forall_impl; [exact Erec|].
    intros a Ha. eapply not_younger_trans; eassumption.
Qed.

(** What the code guarantees about a pivot (the bound is not strict):
    when a call pivots around the oldest ascription it collected, the
    anchor, every ascription appended from the pivoted identity is not
    younger than the anchor. *)
Theorem pivot_entries_not_younger (fuel : nat) (msg : Message)
    (before : option Ascription) (seenmsg : gset (option str * str))
    (own h t : list Ascription) (anchor : Ascription)
    (s : gset (option str * str)) :
  key msg ∉ seenmsg ->
  own_history msg acat config before = Ok own ->
  rev own = anchor :: t ->
  asc_collect_history_w (S fuel) msg acat config before seenmsg false = Ok (h, s) ->
  exists pivoted,
    h = own ++ pivoted /\ Forall (not_younger anchor) pivoted.
Proof.
  intros Hnew Hown Hrev. rewrite asc_collect_history_w_own.
  rewrite bool_decide_eq_false_2 by exact Hnew. rewrite Hown. cbn [bind].
  destruct (pivotable _).
  - rewrite Hrev.
    destruct (asc_collect_history_w fuel _ acat config (Some anchor) _ false)
      as [[h' s'] | |] eqn:Erec; cbn [bind]; try discriminate.
    intros [= <- <-]. exists h'. split; [reflexivity|].
    eapply asc_collect_history_w_not_younger. exact Erec.
  - intros [= <- <-]. exists []. split; [rewrite app_nil_r; reflexivity | constructor].
Qed.

End PivotBound.

(** C3 fails on the code: in [acat_same_time] the record of "B" was
    ascribed at the very time stamp of the ascription of "A"; the
    reconstruction for "A" pivots to "B" and appends that ascription,
    whose time stamp equals the anchor's. *)
Lemma pivot_includes_equal_timestamp :
  exists anchor pivoted s,
    asc_collect_history_w (pivot_fuel acat_same_time) msg_A acat_same_time
      demo_config None ∅ false = Ok ([anchor; pivoted], s) /\
    a_rmsg anchor = Some rec_A /\
    a_rmsg pivoted = Some rec_B_same_time /\
    a_date pivoted = a_date anchor /\
    a_date anchor = Some (mkDatetime 2020 1 2 10 30 15 60).
Proof.
  eexists _, _, _. split; [vm_compute; reflexivity|].
  repeat split; reflexivity.
Qed.

Lemma pivot_entries_not_younger_witness :
  exists anchor pivoted,
    own_history msg_A acat_cycle demo_config None = Ok [anchor] /\
    asc_collect_history_w 3 msg_A acat_cycle demo_config None ∅ false =
      Ok ([anchor] ++ pivoted, {[ key rec_A; key rec_B_cycle ]}) /\
    Forall (not_younger anchor) pivoted.
Proof.
  assert (Hown : exists anchor,
            own_history msg_A acat_cycle demo_config None = Ok [anchor])
    by (eexists; vm_compute; reflexivity).
  destruct Hown as [anchor Hown].
  assert (Hrun : exists h,
            asc_collect_history_w 3 msg_A acat_cycle demo_config None ∅ false =
            Ok (h, {[ key rec_A; key rec_B_cycle ]}))
    by (eexists; vm_compute; reflexivity).
  destruct Hrun as [h Hrun].
  destruct (pivot_entries_not_younger acat_cycle demo_config 2 msg_A None ∅
              [anchor] h [] anchor _ ltac:(apply not_elem_of_empty) Hown eq_refl Hrun)
    as (pivoted & -> & Hle).
  exists anchor, pivoted. split; [exact Hown|]. split; [exact Hrun | exact Hle].
Defined.

(** ** The users of reconstructed histories *)

Section KnownUsers.

Lemma insert_sorted_In x y l : In x (insert_sorted y l) -> x = y \/ In x l.
Proof.
  induction l as [|z l IH]; simpl; [intuition|].
  destruct (key_le y z); simpl; intuition.
Qed.

Lemma sort_ord_In x l : In x (sort_ord l) -> In x l.
Proof.
  induction l as [|y l IH]; simpl; [auto|].
  intros [-> | H]%insert_sorted_In; auto.
Qed.

Lemma sort_history_In a h : In a (sort_history h) -> In a h.
Proof.
  unfold sort_history. intros ([a' n] & <- & Hin)%in_map_iff.
  apply in_rev, sort_ord_In in Hin. apply in_combine_l in Hin. exact Hin.
Qed.

Lemma asc_collect_loop_users amsg ascs :
  forall history ds history' ds',
    Forall has_user history ->
    asc_collect_loop amsg ascs history ds = Ok (history', ds') ->
    Forall has_user history'.
Proof.
  induction ascs as [|asc rest IH]; intros history ds history' ds' Hall; simpl.
  - intros [= <- <-]. exact Hall.
  - destruct (asc_collect_step amsg asc history ds) as [[h1 ds1] | |] eqn:E;
      simpl; try discriminate.
    apply IH. unfold asc_collect_step in E.
    match type of E with
    | bind ?r _ = _ => destruct r as [[pmsg ds2] | |]; simpl in E; try discriminate
    end.
    injection E as <- <-. apply Forall_app. split; [exact Hall|].
    constructor; [discriminate | constructor].
Qed.

Lemma asc_collect_history_single_users amsg config h :
  asc_collect_history_single amsg config = Ok h -> Forall has_user h.
Proof.
  intros (h1 & Hun & -> & _)%asc_collect_history_single_sorted.
  revert Hun. unfold asc_collect_history_unsorted.
  destruct (asc_parse_ascriptions amsg config) as [ascs | |]; simpl; try discriminate.
  destruct (asc_collect_loop amsg ascs [] decode_state_init) as [[h0 ds] | |] eqn:E;
    simpl; try discriminate.
  intros [= <-]. apply asc_collect_loop_users in E; [|constructor].
  rewrite Forall_forall in E |- *. intros a Ha%list_elem_of_In%sort_history_In.
  apply E, list_elem_of_In, Ha.
Qed.

Lemma collect_before_incl before l h :
  collect_before before l = Ok h -> incl h l.
Proof.
  revert h; induction l as [|a l IH]; intros h; simpl.
  - intros [= <-]. apply incl_refl.
  - destruct (match before with Some b => _ | None => _ end) as [keep | |];
      simpl; try discriminate.
    destruct (collect_before before l) as [h' | |]; simpl; try discriminate.
    specialize (IH h' eq_refl).
    destruct keep; intros [= <-].
    + apply incl_cons; [left; reflexivity | apply incl_tl; exact IH].
    + apply incl_tl; exact IH.
Qed.

Lemma own_history_users msg acat config before own :
  own_history msg acat config before = Ok own -> Forall has_user own.
Proof.
  unfold own_history. destruct (cat_get acat msg); [|intros [= <-]; constructor].
  destruct (asc_collect_history_single _ _) as [h | |] eqn:E; simpl; try discriminate.
  intros Hc%collect_before_incl. apply asc_collect_history_single_users in E.
  rewrite Forall_forall in E |- *. intros a Ha. apply E.
  apply list_elem_of_In, Hc, list_elem_of_In, Ha.
Qed.

Lemma asc_collect_history_w_users acat config (fuel : nat) :
  forall msg before seenmsg shallow h s,
    asc_collect_history_w fuel msg acat config before seenmsg shallow = Ok (h, s) ->
    Forall has_user h.
Proof.
  induction fuel as [|fuel IH]; intros msg before seenmsg shallow h s; [discriminate|].
  rewrite asc_collect_history_w_own.
  destruct (bool_decide _); [intros [= <- <-]; constructor|].
  destruct (own_history msg acat config before) as [own | |] eqn:Eown;
    cbn [bind]; try discriminate.
  pose proof (own_history_users _ _ _ _ _ Eown) as Hown.
  destruct shallow; [intros [= <- <-]; exact Hown|].
  destruct (pivotable _); [|intros [= <- <-]; exact Hown].
  match goal with
  | |- context [asc_collect_history_w fuel ?m acat config ?b ?sn false] =>
      destruct (asc_collect_history_w fuel m acat config b sn false)
        as [[h' s'] | |] eqn:Erec; cbn [bind]; try discriminate
  end.
  intros [= <- <-]. apply Forall_app. split; [exact Hown | eapply IH; exact Erec].
Qed.

End KnownUsers.

(** ** Reduction of a history to differences *)

Section Reduction.

Context {Inv : Type} `{EqDecision Inv}.
Variable inv : Message -> Inv.
Variable msg_ediff : Message -> Message -> str -> Message.

Lemma list_set_length {A} (l : list A) (i : nat) (x : A) :
  length (list_set l i x) = length l.
Proof.
  revert i; induction l as [|y l IH]; intros [|i]; simpl; auto.
Qed.

Lemma list_set_app_l {A} (l l' : list A) (i : nat) (x : A) :
  (i < length l)%nat -> list_set (l ++ l') i x = list_set l i x ++ l'.
Proof.
  revert i; induction l as [|y l IH]; intros [|i] Hi; simpl in *; try lia; auto.
  rewrite IH by lia. reflexivity.
Qed.

Lemma list_set_app_r {A} (l : list A) (y x : A) (l' : list A) :
  list_set (l ++ y :: l') (length l) x = l ++ x :: l'.
Proof. induction l as [|z l IH]; simpl; [reflexivity | rewrite IH; reflexivity]. Qed.

Lemma reduce_loop_settle (addrem : str) (todo : list Ascription) :
  forall done a_nextmod,
    (forall j, a_nextmod = Some j -> (j < length done)%nat) ->
    reduce_loop msg_ediff addrem todo done a_nextmod =
    settle msg_ediff addrem done a_nextmod todo ++ reduce_to_diff msg_ediff addrem todo.
Proof.
  induction todo as [|a rest IH]; intros done nm Hnm.
  - simpl. unfold settle. rewrite app_nil_r.
    destruct nm as [j|]; [|reflexivity]. simpl. destruct (nth_error done j); reflexivity.
  - cbn [reduce_loop reduce_to_diff]. fold (is_mod a).
    destruct (is_mod a) eqn:Ea.
    + rewrite IH.
      2:{ intros j [= <-]. rewrite length_app. simpl. lia. }
      assert (Hsettle : settle msg_ediff addrem done nm (a :: rest) =
                        match nm with
                        | Some j =>
                            match nth_error done j with
                            | Some n => list_set done j
                                          (set_a_msg n (msg_ediff (a_msg a) (a_msg n) addrem))
                            | None => done
                            end
                        | None => done
                        end).
      { unfold settle. simpl. rewrite Ea. reflexivity. }
      rewrite Hsettle.
      set (done' := match nm with Some j => _ | None => done end).
      unfold settle. rewrite nth_error_app2 by lia. rewrite Nat.sub_diag. simpl.
      fold is_mod.
      destruct (List.find is_mod rest) as [o|].
      * rewrite list_set_app_r. rewrite <- app_assoc. reflexivity.
      * rewrite <- app_assoc. reflexivity.
    + rewrite IH.
      2:{ intros j Hj. rewrite length_app. specialize (Hnm j Hj). lia. }
      unfold settle. simpl. rewrite Ea.
      destruct nm as [j|]; [|rewrite <- app_assoc; reflexivity].
      specialize (Hnm j eq_refl).
      rewrite nth_error_app1 by exact Hnm.
      destruct (nth_error done j) as [n|] eqn:En; [|rewrite <- app_assoc; reflexivity].
      destruct (List.find is_mod rest) as [o|]; [|rewrite <- app_assoc; reflexivity].
      rewrite list_set_app_l by exact Hnm. rewrite <- app_assoc. reflexivity.
Qed.

Lemma reduce_to_diff_nth (addrem : str) (history : list Ascription) (i : nat) :
  nth_error (reduce_to_diff msg_ediff addrem history) i =
  option_map
    (fun a =>
       if is_mod a then
         match List.find is_mod (skipn (S i) history) with
         | Some o => set_a_msg a (msg_ediff (a_msg o) (a_msg a) addrem)
         | None => a
         end
       else a)
    (nth_error history i).
Proof.
  revert i; induction history as [|a rest IH]; intros [|i]; try reflexivity.
  simpl. rewrite IH. reflexivity.
Qed.

(** C7 (amended): the reduction leaves every review where it is and as it
    is, sets every modification that has an older modification further
    down the history against the nearest one, and leaves the oldest
    modification as it is; the newest ascription is reduced like any
    other.  [asc_collect_history] with a reduction asked for is
    [asc_collect_history] without, followed by this pass. *)
Theorem reduce_history_to_diff :
  (forall (addrem : str) (history : list Ascription) (i : nat),
     nth_error (reduce_loop msg_ediff addrem history [] None) i =
     option_map
       (fun a =>
          if is_mod a then
            match List.find is_mod (skipn (S i) history) with
            | Some older => set_a_msg a (msg_ediff (a_msg older) (a_msg a) addrem)
            | None => a
            end
          else a)
       (nth_error history i)) /\
  (forall (addrem : str) (c : ascii) (ar : str) (fuel : nat) (msg : Message) (acat : Catalog)
          (config : Config) (nomrg : bool) (hfilter : option (str -> str))
          (shallow : bool),
     addrem = c :: ar ->
     asc_collect_history inv msg_ediff fuel msg acat config nomrg hfilter shallow
       (Some addrem) =
     (history <- asc_collect_history inv msg_ediff fuel msg acat config nomrg
                   hfilter shallow None ;;
      Ok (reduce_to_diff msg_ediff addrem history))).
Proof.
  split.
  - intros addrem history i. rewrite reduce_loop_settle by discriminate.
    simpl. apply reduce_to_diff_nth.
  - intros addrem c ar fuel msg acat config nomrg hfilter shallow ->.
    unfold asc_collect_history.
    destruct (asc_collect_history_w fuel msg acat config None ∅ shallow)
      as [[h s] | |]; cbn [bind fst]; try reflexivity.
    match goal with
    | |- bind ?r _ = _ => destruct r as [h' | |]; cbn [bind]; try reflexivity
    end.
    rewrite reduce_loop_settle by discriminate. reflexivity.
Qed.

End Reduction.

(** C7, as stated, fails: in a history of two modifications the newest
    ascription is not left as it is; its translation "One. Two." is
    reduced to the appended " Two.", while the oldest stays untouched. *)
Lemma reduce_changes_newest :
  reduce_loop demo_ediff (lit "a") [entry_newer; entry_older] [] None =
  [set_a_msg entry_newer
     (mkMessage None (lit "id") None [lit " Two."] None None None [] [] false false);
   entry_older] /\
  set_a_msg entry_newer
    (mkMessage None (lit "id") None [lit " Two."] None None None [] [] false false)
  <> entry_newer.
Proof. split; [reflexivity | discriminate]. Qed.

Lemma reduce_history_to_diff_witness :
  asc_collect_history demo_inv demo_ediff 1 msg_never_ascribed [] demo_config
    false None false (Some (lit "a")) =
  (history <- asc_collect_history demo_inv demo_ediff 1 msg_never_ascribed []
                demo_config false None false None ;;
   Ok (reduce_to_diff demo_ediff (lit "a") history)).
Proof.
  exact (proj2 (reduce_history_to_diff demo_inv demo_ediff) (lit "a")
           "a"%char [] 1%nat msg_never_ascribed [] demo_config false None false eq_refl).
Defined.

(** ** The unascribed head *)

Section UnascribedHead.

Context {Inv : Type} `{EqDecision Inv}.
Variable inv : Message -> Inv.
Variable msg_ediff : Message -> Message -> str -> Message.

Lemma state_translated (msg : Message) :
  state msg = lit "T" -> fuzzy msg = false /\ obsolete msg = false.
Proof.
  unfold state. destruct (obsolete msg), (fuzzy msg); simpl;
    try discriminate; try (destruct (existsb _ _); discriminate); auto.
Qed.

Lemma assign_positions_users (h : list Ascription) (p : Z) :
  Forall has_user h -> Forall has_user (assign_positions h p).
Proof.
  revert p. induction h as [|a h IH]; intros p Hall; [constructor|].
  apply List.Forall_cons_iff in Hall as [Ha Hh]. cbn [assign_positions].
  constructor; [exact Ha | apply IH, Hh].
Qed.

Lemma eliminate_clean_merges_users (h r : list Ascription) :
  eliminate_clean_merges h = Ok r -> Forall has_user h -> Forall has_user r.
Proof.
  revert r. induction h as [|a h IH]; intros r; [discriminate|].
  destruct h as [|ao h'].
  - cbn [eliminate_clean_merges]. intros [= <-] Hall.
    destruct (negb (user_is a UFUZZ)); [exact Hall | constructor].
  - change (eliminate_clean_merges (a :: ao :: h'))
      with (keep <- (if negb (user_is a UFUZZ) then Ok true
                     else m <- merge_modified (a_msg ao) (a_msg a) ;; Ok (negb m)) ;;
            history_r <- eliminate_clean_merges (ao :: h') ;;
            Ok (if keep : bool then a :: history_r else history_r)).
    destruct (if negb (user_is a UFUZZ) then Ok true
              else m <- merge_modified (a_msg ao) (a_msg a) ;; Ok (negb m))
      as [keep | |]; cbn [bind]; try discriminate.
    destruct (eliminate_clean_merges (ao :: h')) as [hr | |]; cbn [bind];
      try discriminate.
    intros [= <-] Hall. apply List.Forall_cons_iff in Hall as [Ha Hh].
    specialize (IH hr eq_refl Hh).
    destruct keep; [constructor; assumption | exact IH].
Qed.

Lemma eliminate_equal_users (f : str -> str) (h : list Ascription)
    (p : option Ascription) :
  Forall has_user h -> Forall has_user (eliminate_equal inv f h p).
Proof.
  revert p. induction h as [|a h IH]; intros p Hall; [constructor|].
  apply List.Forall_cons_iff in Hall as [Ha Hh]. cbn [eliminate_equal].
  destruct (negb (bool_decide (a_type a = ATYPE_MOD)) || _);
    [constructor; [exact Ha | apply IH, Hh] | apply IH, Hh].
Qed.

Lemma reduce_to_diff_users (ar : str) (h : list Ascription) :
  Forall has_user h -> Forall has_user (reduce_to_diff msg_ediff ar h).
Proof.
  induction h as [|a h IH]; intros Hall; [constructor|].
  apply List.Forall_cons_iff in Hall as [Ha Hh]. cbn [reduce_to_diff].
  constructor; [|apply IH, Hh].
  destruct (bool_decide (a_type a = ATYPE_MOD)); [|exact Ha].
  destruct (List.find _ h); exact Ha.
Qed.

Lemma eliminate_equal_app (f : str -> str) (l1 l2 : list Ascription)
    (p : option Ascription) :
  eliminate_equal inv f (l1 ++ l2) p =
  eliminate_equal inv f l1 p ++ eliminate_equal inv f l2 (prevmod_after inv f l1 p).
Proof.
  revert p. induction l1 as [|a l1 IH]; intros p; [reflexivity|].
  cbn [app eliminate_equal prevmod_after].
  destruct (negb (bool_decide (a_type a = ATYPE_MOD)) || _).
  - rewrite IH. reflexivity.
  - apply IH.
Qed.

Lemma eliminate_clean_merges_head (hd : Ascription) (older : list Ascription) :
  a_user hd = None ->
  eliminate_clean_merges (hd :: older) =
  (r <- after_merges true older ;; Ok (hd :: r)).
Proof.
  intros Hu.
  assert (Hn : user_is hd UFUZZ = false).
  { unfold user_is. rewrite Hu. apply bool_decide_eq_false. discriminate. }
  destruct older as [|ao older].
  - cbn [eliminate_clean_merges after_merges bind]. rewrite Hn. reflexivity.
  - change (eliminate_clean_merges (hd :: ao :: older))
      with (keep <- (if negb (user_is hd UFUZZ) then Ok true
                     else m <- merge_modified (a_msg ao) (a_msg hd) ;; Ok (negb m)) ;;
            history_r <- eliminate_clean_merges (ao :: older) ;;
            Ok (if keep : bool then hd :: history_r else history_r)).
    rewrite Hn. cbn [negb bind after_merges]. reflexivity.
Qed.

Lemma reduce_loop_all (ar : str) (l : list Ascription) :
  reduce_loop msg_ediff ar l [] None = reduce_to_diff msg_ediff ar l.
Proof. rewrite reduce_loop_settle by discriminate. reflexivity. Qed.

Lemma after_reduction_loop (addrem : option str) (l : list Ascription) :
  match addrem with
  | Some ((_ :: _) as ar) => reduce_loop msg_ediff ar l [] None
  | _ => l
  end = after_reduction msg_ediff addrem l.
Proof.
  destruct addrem as [[|c ar]|]; try reflexivity. apply reduce_loop_all.
Qed.

Lemma after_reduction_users (addrem : option str) (l : list Ascription) :
  Forall has_user l -> Forall has_user (after_reduction msg_ediff addrem l).
Proof.
  intros H. destruct addrem as [[|c ar]|]; try exact H.
  apply reduce_to_diff_users, H.
Qed.

Lemma filtered_users (hfilter : option (str -> str)) (l : list Ascription) :
  Forall has_user l -> Forall has_user (filtered inv hfilter l).
Proof.
  intros H. destruct hfilter as [f|]; [|exact H].
  cbn [filtered]. apply Forall_rev, eliminate_equal_users, Forall_rev, H.
Qed.

Lemma after_merges_users (nomrg : bool) (l r : list Ascription) :
  after_merges nomrg l = Ok r -> Forall has_user l -> Forall has_user r.
Proof.
  unfold after_merges. destruct nomrg; [|intros [= <-]; auto].
  destruct l as [|a l]; [intros [= <-]; auto|]. apply eliminate_clean_merges_users.
Qed.

(** The history with the unascribed head in front, through the later
    passes. *)
Lemma asc_collect_history_with_head (fuel : nat) (msg : Message) (acat : Catalog)
    (config : Config) (nomrg : bool) (hfilter : option (str -> str))
    (shallow : bool) (addrem : option str) (h : list Ascription)
    (s : gset (option str * str)) :
  asc_collect_history_w fuel msg acat config None ∅ shallow = Ok (h, s) ->
  head_missing msg h = true ->
  asc_collect_history inv msg_ediff fuel msg acat config nomrg hfilter shallow addrem =
  (older <- after_merges nomrg (assign_positions h 2) ;;
   Ok (after_reduction msg_ediff addrem
         ((if head_kept inv hfilter msg older
           then [set_a_pos (unascribed msg) 1] else [])
          ++ filtered inv hfilter older))).
Proof.
  intros Hw Hhm. unfold asc_collect_history. rewrite Hw. cbn [bind fst].
  assert (Hfront : match h with
                   | [] => [unascribed msg]
                   | a :: _ => if negb (asc_eq msg (a_msg a))
                               then unascribed msg :: h else h
                   end = unascribed msg :: h).
  { destruct h as [|a h']; [reflexivity|]. unfold head_missing in Hhm.
    rewrite Hhm. reflexivity. }
  rewrite Hfront.
  change (assign_positions (unascribed msg :: h) 1)
    with (set_a_pos (unascribed msg) 1 :: assign_positions h 2).
  set (hd := set_a_pos (unascribed msg) 1).
  assert (Hmerge : (if nomrg
                    then eliminate_clean_merges (hd :: assign_positions h 2)
                    else Ok (hd :: assign_positions h 2)) =
                   (r <- after_merges nomrg (assign_positions h 2) ;; Ok (hd :: r))).
  { destruct nomrg; [apply eliminate_clean_merges_head; reflexivity | reflexivity]. }
  rewrite Hmerge.
  destruct (after_merges nomrg (assign_positions h 2)) as [older | |]; cbn [bind];
    try reflexivity.
  rewrite after_reduction_loop. f_equal. f_equal.
  destruct hfilter as [f|]; [|reflexivity].
  cbn [head_kept filtered rev]. rewrite eliminate_equal_app, rev_app_distr.
  f_equal. cbn [eliminate_equal].
  change (a_type hd) with ATYPE_MOD. change (a_msg hd) with msg.
  rewrite bool_decide_eq_true_2 by reflexivity. cbn [negb orb].
  destruct (prevmod_after inv f (rev older) None) as [p|]; [|reflexivity].
  destruct (negb (bool_decide (inv (flt f msg) = inv (a_msg p)))); reflexivity.
Qed.

(** The history without the unascribed head, through the later passes:
    every ascription left has a user. *)
Lemma asc_collect_history_without_head (fuel : nat) (msg : Message) (acat : Catalog)
    (config : Config) (nomrg : bool) (hfilter : option (str -> str))
    (shallow : bool) (addrem : option str) (h r : list Ascription)
    (s : gset (option str * str)) :
  asc_collect_history_w fuel msg acat config None ∅ shallow = Ok (h, s) ->
  head_missing msg h = false ->
  asc_collect_history inv msg_ediff fuel msg acat config nomrg hfilter shallow addrem
    = Ok r ->
  Forall has_user r.
Proof.
  intros Hw Hhm. pose proof (asc_collect_history_w_users _ _ _ _ _ _ _ _ _ Hw) as Hu.
  unfold asc_collect_history. rewrite Hw. cbn [bind fst].
  assert (Hfront : match h with
                   | [] => [unascribed msg]
                   | a :: _ => if negb (asc_eq msg (a_msg a))
                               then unascribed msg :: h else h
                   end = h).
  { destruct h as [|a h']; [discriminate Hhm|]. unfold head_missing in Hhm.
    rewrite Hhm. reflexivity. }
  rewrite Hfront.
  destruct (if nomrg then eliminate_clean_merges (assign_positions h 1)
            else Ok (assign_positions h 1)) as [h1 | |] eqn:E; cbn [bind];
    try discriminate.
  rewrite after_reduction_loop.
  intros [= <-]. apply after_reduction_users.
  assert (H1 : Forall has_user h1).
  { destruct nomrg.
    - apply (eliminate_clean_merges_users _ _ E), assign_positions_users, Hu.
    - injection E as <-. apply assign_positions_users, Hu. }
  apply (filtered_users hfilter h1 H1).
Qed.


End UnascribedHead.

(** C5, as stated, fails for the history that is returned.  The live
    message "greeting" has the translation "second&", its record ends with
    the ascription of "second": the message is not ascribed.  Under the
    filter that takes out the marker "&" the unascribed head is dropped
    and every ascription of the history returned has a user; and under
    the reduction to added text the head carries the difference, not the
    live message. *)
Lemma filter_drops_unascribed_head :
  exists h s r r',
    asc_collect_history_w 3 msg_accel [rec_two_writes] demo_config None ∅ false
      = Ok (h, s) /\
    head_missing msg_accel h = true /\
    asc_collect_history demo_inv demo_ediff 3 msg_accel [rec_two_writes] demo_config
      false (Some no_accel) false None = Ok r /\
    map a_user r = [Some (lit "bob"); Some (lit "alice")] /\
    asc_collect_history demo_inv demo_ediff 3 msg_accel [rec_two_writes] demo_config
      false None false (Some (lit "a")) = Ok r' /\
    map a_user r' = [None; Some (lit "bob"); Some (lit "alice")] /\
    map a_msg (firstn 1 r') <> [msg_accel].
Proof.
  do 4 eexists.
  repeat (split; [vm_compute; reflexivity|]). vm_compute. intros H. discriminate H.
Qed.


(** ** Texts: searching, slicing, stripping, numbers *)

Section Texts.

Lemma contains_char (c : ascii) (s : str) :
  Py.contains [c] s = true <-> In c s.
Proof.
  induction s as [|d s IH]; simpl.
  - split; [discriminate | intros []].
  - rewrite orb_true_iff, IH, andb_true_r, Ascii.eqb_eq. intuition congruence.
Qed.

Lemma contains_char_false (c : ascii) (s : str) :
  Py.contains [c] s = false <-> ~ In c s.
Proof.
  rewrite <- contains_char. destruct (Py.contains [c] s); intuition congruence.
Qed.

Lemma startswith_self_app (p r : str) : Py.startswith (p ++ r) p = true.
Proof. apply startswith_app. eauto. Qed.

Lemma find_nat_here (sub r : str) : Py.find_nat sub (sub ++ r) = Some 0%nat.
Proof.
  destruct (sub ++ r) eqn:E; simpl; rewrite <- ?E, startswith_self_app; reflexivity.
Qed.

Lemma find_nat_char (c : ascii) (s r : str) :
  ~ In c s -> Py.find_nat [c] (s ++ c :: r) = Some (length s).
Proof.
  induction s as [|d s IH]; intros Hc; simpl.
  - rewrite Ascii.eqb_refl. reflexivity.
  - destruct (Ascii.eqb c d) eqn:E.
    + apply Ascii.eqb_eq in E. exfalso. apply Hc. left. congruence.
    + simpl. rewrite IH; [reflexivity|]. intros H. apply Hc. right. exact H.
Qed.

Lemma find_nat_char_none (c : ascii) (s : str) :
  ~ In c s -> Py.find_nat [c] s = None.
Proof.
  induction s as [|d s IH]; intros Hc; simpl; [reflexivity|].
  destruct (Ascii.eqb c d) eqn:E.
  - apply Ascii.eqb_eq in E. exfalso. apply Hc. left. congruence.
  - simpl. rewrite IH; [reflexivity|]. intros H. apply Hc. right. exact H.
Qed.

(** A prefix of [a ++ b] is a prefix of [a] or runs over into [b]. *)
Lemma startswith_app_cases (a b p : str) :
  Py.startswith (a ++ b) p = true ->
  Py.startswith a p = true \/
  exists p2, p = a ++ p2 /\ p2 <> [] /\ Py.startswith b p2 = true.
Proof.
  revert p; induction a as [|c a IH]; intros p; simpl.
  - intros H. destruct p as [|d p]; [left; reflexivity|].
    right. exists (d :: p). split; [reflexivity|]. split; [discriminate | exact H].
  - destruct p as [|d p]; [left; reflexivity|]. simpl.
    intros [E H]%andb_true_iff. rewrite E. simpl.
    destruct (IH p H) as [Hl | (p2 & -> & Hne & Hp2)]; [left; exact Hl|].
    right. exists p2. apply Ascii.eqb_eq in E as ->. auto.
Qed.

Lemma mul_tilde_chars (L : Z) (c : ascii) :
  In c (Py.mul _trsep_head_ext L) -> c = "~"%char.
Proof.
  unfold Py.mul. induction (Z.to_nat L) as [|n IH]; simpl; [intros []|].
  intros [<- | H]; [reflexivity | exact (IH H)].
Qed.

Lemma contains_cons (sub : str) (c : ascii) (s : str) :
  Py.contains sub (c :: s) = Py.startswith (c :: s) sub || Py.contains sub s.
Proof. reflexivity. Qed.

Lemma find_nat_cons (sub : str) (c : ascii) (s : str) :
  Py.find_nat sub (c :: s) =
  if Py.startswith (c :: s) sub then Some 0%nat
  else option_map S (Py.find_nat sub s).
Proof. reflexivity. Qed.

Lemma startswith_sephead (L : Z) (c : ascii) (s : str) :
  Py.startswith (c :: s) (field_separator_head L) =
  Ascii.eqb "|" c && Py.startswith s (Py.mul _trsep_head_ext L).
Proof. reflexivity. Qed.

(** The separator is found right after a value that does not contain it. *)
Lemma find_nat_sephead (L : Z) (v r : str) :
  Py.contains (field_separator_head L) v = false ->
  Py.find_nat (field_separator_head L) (v ++ field_separator_head L ++ r)
  = Some (length v).
Proof.
  induction v as [|c v IH]; intros Hv.
  - exact (find_nat_here (field_separator_head L) r).
  - rewrite contains_cons in Hv. apply orb_false_iff in Hv as [Hst Hv].
    change ((c :: v) ++ field_separator_head L ++ r)
      with (c :: (v ++ field_separator_head L ++ r)).
    assert (Hno : Py.startswith (c :: (v ++ field_separator_head L ++ r))
                    (field_separator_head L) = false).
    { destruct (Py.startswith (c :: (v ++ field_separator_head L ++ r))
                  (field_separator_head L)) eqn:E; [|reflexivity].
      exfalso. rewrite startswith_sephead in E, Hst.
      apply andb_true_iff in E as [Ec E]. rewrite Ec in Hst. simpl in Hst.
      apply startswith_app_cases in E as [E | (p2 & Ep & Hne & E)];
        [congruence|].
      destruct p2 as [|d p2]; [congruence|].
      assert (d = "~"%char).
      { apply (mul_tilde_chars L). rewrite Ep. apply in_or_app. right. left. reflexivity. }
      subst d. unfold field_separator_head in E. simpl in E. discriminate. }
    rewrite find_nat_cons, Hno.
    rewrite IH by exact Hv. reflexivity.
Qed.

Lemma find_at (pre s sub : str) :
  Py.find (pre ++ s) sub (Py.len pre) =
  match Py.find_nat sub s with
  | Some k => Py.len pre + Z.of_nat k
  | None => -1
  end.
Proof.
  unfold Py.find, Py.len.
  destruct (Z.of_nat (length pre) <? 0) eqn:E; [apply Z.ltb_lt in E; lia|].
  rewrite length_app.
  destruct (Z.of_nat (length pre + length s) <? Z.of_nat (length pre)) eqn:E2;
    [apply Z.ltb_lt in E2; lia|].
  rewrite Nat2Z.id, drop_app_length. reflexivity.
Qed.

Lemma clamp_in (n i : Z) : 0 <= i <= n -> Py.clamp n i = i.
Proof.
  intros H. unfold Py.clamp. destruct (i <? 0) eqn:E; [apply Z.ltb_lt in E; lia|]. lia.
Qed.

Lemma clamp_over (n i : Z) : 0 <= n <= i -> Py.clamp n i = n.
Proof.
  intros H. unfold Py.clamp. destruct (i <? 0) eqn:E; [apply Z.ltb_lt in E; lia|]. lia.
Qed.

Lemma slice_mid (pre mid post : str) :
  Py.slice (pre ++ mid ++ post) (Py.len pre) (Py.len pre + Py.len mid) = mid.
Proof.
  unfold Py.slice, Py.len. rewrite !length_app.
  rewrite !clamp_in by lia.
  replace (Z.to_nat (Z.of_nat (length pre) + Z.of_nat (length mid) - Z.of_nat (length pre)))
    with (length mid) by lia.
  rewrite Nat2Z.id, drop_app_length. apply take_app_length.
Qed.

Lemma slice_to_app (pre post : str) : Py.slice_to (pre ++ post) (Py.len pre) = pre.
Proof.
  unfold Py.slice_to, Py.len. rewrite length_app, clamp_in by lia.
  rewrite Nat2Z.id. apply take_app_length.
Qed.

Lemma slice_from_app (pre post : str) : Py.slice_from (pre ++ post) (Py.len pre) = post.
Proof.
  unfold Py.slice_from, Py.len. rewrite length_app, clamp_in by lia.
  rewrite Nat2Z.id. apply drop_app_length.
Qed.

Lemma strip_visible (s : str) : visible_ends s -> Py.strip s = s.
Proof.
  unfold visible_ends, Py.strip. destruct s as [|c s]; [reflexivity|].
  destruct (rev (c :: s)) as [|d t] eqn:E.
  - apply (f_equal (@length _)) in E. rewrite length_rev in E. discriminate.
  - intros [Hc Hd]. simpl Py.lstrip at 2. rewrite Hc. rewrite E. simpl Py.lstrip.
    rewrite Hd. rewrite <- E. apply rev_involutive.
Qed.

Lemma lstrip_spaces (a s : str) :
  forallb Py.isspace a = true -> Py.lstrip (a ++ s) = Py.lstrip s.
Proof.
  induction a as [|c a IH]; simpl; [reflexivity|].
  intros [Hc Ha]%andb_true_iff. rewrite Hc. apply IH. exact Ha.
Qed.

(** Blanks around a text with visible ends are stripped. *)
Lemma strip_padded (a b s : str) :
  forallb Py.isspace a = true -> forallb Py.isspace b = true ->
  s <> [] -> visible_ends s ->
  Py.strip (a ++ s ++ b) = s.
Proof.
  intros Ha Hb Hne Hv. unfold Py.strip.
  rewrite lstrip_spaces by exact Ha.
  unfold visible_ends in Hv. destruct s as [|c s]; [congruence|].
  destruct (rev (c :: s)) as [|d t] eqn:E.
  { apply (f_equal (@length _)) in E. rewrite length_rev in E. discriminate. }
  destruct Hv as [Hc Hd].
  change ((c :: s) ++ b) with (c :: (s ++ b)). simpl Py.lstrip at 2. rewrite Hc.
  change (c :: (s ++ b)) with ((c :: s) ++ b).
  rewrite rev_app_distr. rewrite lstrip_spaces.
  2:{ rewrite forallb_forall in Hb |- *. intros x Hx. apply Hb.
      apply in_rev. exact Hx. }
  rewrite E. simpl Py.lstrip. rewrite Hd. rewrite <- E. apply rev_involutive.
Qed.

End Texts.

(** ** Decimal numbers *)

Section Numbers.

Lemma digit_char_props (d : Z) :
  0 <= d <= 9 ->
  Py.isdigit (Py.digit_char d) = true /\ Py.digit_val (Py.digit_char d) = d.
Proof.
  intros H.
  assert (d = 0 \/ d = 1 \/ d = 2 \/ d = 3 \/ d = 4 \/ d = 5 \/ d = 6 \/ d = 7
          \/ d = 8 \/ d = 9) as Hd by lia.
  repeat (destruct Hd as [-> | Hd]; [split; reflexivity|]).
  subst d. split; reflexivity.
Qed.

Lemma isspace_between (c : ascii) :
  (32 < nat_of_ascii c < 133)%nat -> Py.isspace c = false.
Proof.
  intros H. unfold Py.isspace. cbv zeta.
  replace (nat_of_ascii c =? 32)%nat with false by (symmetry; apply Nat.eqb_neq; lia).
  replace (nat_of_ascii c <=? 13)%nat with false by (symmetry; apply Nat.leb_gt; lia).
  replace (nat_of_ascii c <=? 31)%nat with false by (symmetry; apply Nat.leb_gt; lia).
  replace (nat_of_ascii c =? 133)%nat with false by (symmetry; apply Nat.eqb_neq; lia).
  replace (nat_of_ascii c =? 160)%nat with false by (symmetry; apply Nat.eqb_neq; lia).
  rewrite !andb_false_r. reflexivity.
Qed.

Lemma isdigit_not_space (c : ascii) : Py.isdigit c = true -> Py.isspace c = false.
Proof.
  unfold Py.isdigit. intros [H1 H2]%andb_true_iff.
  apply Nat.leb_le in H1, H2. apply isspace_between. lia.
Qed.

Lemma isdigit_neq (c d : ascii) : Py.isdigit c = true -> Py.isdigit d = false -> c <> d.
Proof. intros Hc Hd ->. congruence. Qed.

Lemma digits_val_snoc (ds : str) (c : ascii) :
  Py.digits_val (ds ++ [c]) = 10 * Py.digits_val ds + Py.digit_val c.
Proof. unfold Py.digits_val. rewrite fold_left_app. reflexivity. Qed.

Lemma digits_of_spec (fuel : nat) :
  forall (n : Z) (acc : str),
    0 <= n -> (Z.to_nat n < fuel)%nat ->
    exists ds, Py.digits_of fuel n acc = ds ++ acc /\ ds <> [] /\
               forallb Py.isdigit ds = true /\ Py.digits_val ds = n.
Proof.
  induction fuel as [|fuel IH]; intros n acc Hn Hfuel; [lia|].
  simpl. destruct (n <? 10) eqn:E.
  - apply Z.ltb_lt in E. rewrite Z.mod_small by lia.
    destruct (digit_char_props n ltac:(lia)) as [Hd Hv].
    exists [Py.digit_char n]. split; [reflexivity|]. split; [discriminate|].
    split; [simpl; rewrite Hd; reflexivity|].
    unfold Py.digits_val. simpl. rewrite Hv. lia.
  - apply Z.ltb_ge in E.
    assert (Hq : 0 <= n / 10 < n) by (split; [apply Z.div_pos; lia | apply Z.div_lt; lia]).
    destruct (IH (n / 10) (Py.digit_char (n mod 10) :: acc)) as (ds & E1 & Hne & Hall & Hval);
      [lia | lia |].
    assert (Hm : 0 <= n mod 10 <= 9) by (pose proof (Z.mod_pos_bound n 10); lia).
    destruct (digit_char_props (n mod 10) Hm) as [Hd Hv].
    exists (ds ++ [Py.digit_char (n mod 10)]). rewrite E1, <- app_assoc.
    split; [reflexivity|]. split; [destruct ds; discriminate|]. split.
    + rewrite forallb_app, Hall. simpl. rewrite Hd. reflexivity.
    + rewrite digits_val_snoc, Hval, Hv. pose proof (Z.div_mod n 10). lia.
Qed.

Lemma str_of_int_digits (n : Z) :
  0 <= n ->
  Py.str_of_int n <> [] /\ forallb Py.isdigit (Py.str_of_int n) = true /\
  Py.digits_val (Py.str_of_int n) = n.
Proof.
  intros Hn. unfold Py.str_of_int.
  destruct (n <? 0) eqn:E; [apply Z.ltb_lt in E; lia|].
  destruct (digits_of_spec (S (Z.to_nat n)) n [] Hn ltac:(lia)) as (ds & -> & H).
  rewrite app_nil_r. exact H.
Qed.

Lemma digits_visible (ds : str) : forallb Py.isdigit ds = true -> visible_ends ds.
Proof.
  intros Hall. unfold visible_ends. destruct ds as [|c t]; [exact I|].
  destruct (rev (c :: t)) as [|d t'] eqn:E; [exact I|].
  rewrite forallb_forall in Hall. split; apply isdigit_not_space, Hall.
  - left. reflexivity.
  - apply in_rev. rewrite E. left. reflexivity.
Qed.

Lemma int_digits (ds : str) :
  ds <> [] -> forallb Py.isdigit ds = true -> Py.int ds = Ok (Py.digits_val ds).
Proof.
  intros Hne Hall. unfold Py.int. rewrite strip_visible by (apply digits_visible, Hall).
  destruct ds as [|c t]; [congruence|].
  assert (Hc : Py.isdigit c = true) by (simpl in Hall; apply andb_true_iff in Hall; tauto).
  destruct (Ascii.eqb c "-") eqn:E1;
    [apply Ascii.eqb_eq in E1; subst c; discriminate|].
  destruct (Ascii.eqb c "+") eqn:E2;
    [apply Ascii.eqb_eq in E2; subst c; discriminate|].
  rewrite Hall. reflexivity.
Qed.

Lemma int_str_of_int (n : Z) : 0 <= n -> Py.int (Py.str_of_int n) = Ok n.
Proof.
  intros Hn. destruct (str_of_int_digits n Hn) as (Hne & Hall & Hval).
  rewrite int_digits by assumption. rewrite Hval. reflexivity.
Qed.

Lemma digits_text (ds : str) :
  forallb Py.isdigit ds = true -> forallb Py.isdigit_text ds = true.
Proof.
  intros H. rewrite forallb_forall in H |- *. intros c Hc.
  unfold Py.isdigit_text. cbv zeta. rewrite (H c Hc). reflexivity.
Qed.

Lemma run_all (p : ascii -> bool) (s : str) :
  forallb p s = true -> Rx.run p s = length s.
Proof.
  induction s as [|c s IH]; simpl; [reflexivity|].
  intros [Hc Hs]%andb_true_iff. rewrite Hc, IH by exact Hs. reflexivity.
Qed.

End Numbers.

(** ** One step of the decoder on one token *)

Section DecoderStep.

Lemma nth_res_nth {A} (l : list A) (i : nat) (d : A) :
  (i < length l)%nat -> nth_res l (Z.of_nat i) = Ok (nth i l d).
Proof.
  intros Hi. unfold nth_res.
  destruct (Z.of_nat i <? 0) eqn:E; [apply Z.ltb_lt in E; lia|].
  rewrite Nat2Z.id. destruct (nth_error l i) eqn:En.
  - erewrite nth_error_nth by exact En. reflexivity.
  - apply nth_error_None in En. lia.
Qed.

Lemma extend_to_length {A} (l : list A) (i : nat) (x : A) :
  (i < length (extend_to l i x))%nat.
Proof.
  unfold extend_to. destruct (length l <=? i)%nat eqn:E.
  - apply Nat.leb_le in E. rewrite length_app, repeat_length. lia.
  - apply Nat.leb_gt in E. exact E.
Qed.

Lemma extend_to_nth {A} (l : list A) (i j : nat) (x : A) :
  nth j (extend_to l i x) x = nth j l x.
Proof.
  unfold extend_to. destruct (length l <=? i)%nat; [|reflexivity].
  destruct (Nat.lt_ge_cases j (length l)) as [Hj | Hj].
  - apply app_nth1. exact Hj.
  - rewrite app_nth2 by exact Hj. rewrite (nth_overflow l) by exact Hj.
    destruct (Nat.lt_ge_cases (j - length l) (i - length l + 1)) as [H | H].
    + apply nth_repeat_lt. exact H.
    + apply nth_overflow. rewrite repeat_length. exact H.
Qed.

Lemma list_set_nth {A} (l : list A) (i j : nat) (x d : A) :
  (i < length l)%nat ->
  nth j (list_set l i x) d = if (j =? i)%nat then x else nth j l d.
Proof.
  revert i j; induction l as [|y l IH]; intros i j Hi; simpl in Hi; [lia|].
  destruct i as [|i], j as [|j]; simpl; try reflexivity.
  apply IH. lia.
Qed.

(** The table after the step on item [i]: the entry of [i] is new, the
    others are as before. *)
Lemma table_set_nth {A} (l : list A) (i j : nat) (x d : A) :
  nth j (list_set (extend_to l i d) i x) d = if (j =? i)%nat then x else nth j l d.
Proof.
  rewrite list_set_nth by apply extend_to_length. rewrite extend_to_nth. reflexivity.
Qed.

Lemma sephead_cons (L : Z) :
  field_separator_head L = "|"%char :: Py.mul _trsep_head_ext L.
Proof. reflexivity. Qed.

Lemma len_app (a b : str) : Py.len (a ++ b) = Py.len a + Py.len b.
Proof. unfold Py.len. rewrite length_app. lia. Qed.

Lemma len_nonneg (a : str) : 0 <= Py.len a.
Proof. unfold Py.len. lia. Qed.

(** What the decoder reads off a stored text at the token
    [v ++ shead ++ suffix] that starts at the cursor. *)
Lemma step_locals (L : Z) (pre v suffix rest : str) :
  Py.contains (field_separator_head L) v = false ->
  ~ In nl suffix ->
  rest = [] \/ (exists more, rest = nl :: more) ->
  let shead := field_separator_head L in
  let aval := pre ++ v ++ shead ++ suffix ++ rest in
  let p2 := Py.find aval [nl] (Py.len pre + Py.len v + 1) in
  Py.find aval shead (Py.len pre) = Py.len pre + Py.len v /\
  (if p2 <? 0 then Py.len aval else p2)
    = Py.len pre + Py.len v + Py.len shead + Py.len suffix /\
  Py.slice aval (Py.len pre + Py.len v + Py.len shead)
    (Py.len pre + Py.len v + Py.len shead + Py.len suffix) = suffix /\
  Py.slice aval (Py.len pre) (Py.len pre + Py.len v) = v.
Proof.
  intros Hv Hnl Hrest shead aval p2. split; [|split; [|split]].
  - unfold aval. rewrite find_at. unfold shead.
    rewrite find_nat_sephead by exact Hv. reflexivity.
  - assert (Ha : aval = (pre ++ v ++ ["|"%char])
                        ++ (Py.mul _trsep_head_ext L ++ suffix) ++ rest).
    { unfold aval, shead. rewrite sephead_cons. rewrite <- !app_assoc. reflexivity. }
    assert (Hp : Py.len pre + Py.len v + 1 = Py.len (pre ++ v ++ ["|"%char])).
    { rewrite !len_app. unfold Py.len at 5. simpl length. lia. }
    assert (Hno : ~ In nl (Py.mul _trsep_head_ext L ++ suffix)).
    { intros [H | H]%in_app_or; [|exact (Hnl H)].
      apply mul_tilde_chars in H. discriminate. }
    assert (Hlen : Py.len shead = 1 + Py.len (Py.mul _trsep_head_ext L)).
    { unfold shead. rewrite sephead_cons. unfold Py.len. simpl length. lia. }
    assert (Hfind : p2 = match Py.find_nat [nl]
                                 ((Py.mul _trsep_head_ext L ++ suffix) ++ rest) with
                         | Some k => Py.len (pre ++ v ++ ["|"%char]) + Z.of_nat k
                         | None => -1
                         end).
    { unfold p2. rewrite Hp, Ha. apply find_at. }
    rewrite Hfind. clear Hfind.
    assert (Hsuf : Py.len (Py.mul _trsep_head_ext L ++ suffix)
                   = Py.len shead - 1 + Py.len suffix) by (rewrite len_app; lia).
    destruct Hrest as [-> | [more ->]].
    + rewrite app_nil_r, find_nat_char_none by exact Hno. simpl.
      unfold aval. rewrite app_nil_r, !len_app. lia.
    + rewrite find_nat_char by exact Hno.
      fold (Py.len (Py.mul _trsep_head_ext L ++ suffix)). rewrite Hsuf, <- Hp.
      pose proof (len_nonneg pre). pose proof (len_nonneg v).
      pose proof (len_nonneg suffix). pose proof (len_nonneg (Py.mul _trsep_head_ext L)).
      destruct (_ <? 0) eqn:E; [apply Z.ltb_lt in E; lia | lia].
  - replace (Py.len pre + Py.len v + Py.len shead) with (Py.len (pre ++ v ++ shead))
      by (rewrite !len_app; lia).
    replace aval with ((pre ++ v ++ shead) ++ suffix ++ rest)
      by (unfold aval; rewrite <- !app_assoc; reflexivity).
    apply slice_mid.
  - unfold aval. apply slice_mid.
Qed.

Lemma token_shape (L : Z) (pv : list (option str)) (tok : str) (val : option str) :
  token_for (field_separator_head L) pv tok val ->
  exists v suffix,
    tok = v ++ field_separator_head L ++ suffix /\
    Py.contains (field_separator_head L) v = false /\ ~ In nl suffix /\
    ((suffix = [] /\ val = Some v) \/
     (exists n, v = [] /\ suffix = _trsep_mod_eq ++ Py.str_of_int n /\ 0 <= n /\
                nth_error pv (Z.to_nat n) = Some val) \/
     (v = [] /\ suffix = _trsep_mod_none /\ val = None)).
Proof.
  intros [v Hv | n val' Hn Hnth | ].
  - exists v, []. rewrite app_nil_r. repeat split; auto. 
  - exists [], (_trsep_mod_eq ++ Py.str_of_int n). repeat split; auto.
    + intros [H | H]; [discriminate|].
      destruct (str_of_int_digits n Hn) as (_ & Hall & _).
      rewrite forallb_forall in Hall. specialize (Hall nl H). discriminate.
    + right. left. exists n. auto.
  - exists [], _trsep_mod_none. repeat split; auto.
    intros [H | []]. discriminate.
Qed.

Lemma nth_res_nth_error {A} (l : list A) (n : Z) (x : A) :
  0 <= n -> nth_error l (Z.to_nat n) = Some x -> nth_res l n = Ok x.
Proof.
  intros Hn E. unfold nth_res.
  destruct (n <? 0) eqn:En; [apply Z.ltb_lt in En; lia|]. rewrite E. reflexivity.
Qed.

Lemma find_zero (s sub : str) :
  Py.find s sub 0 = match Py.find_nat sub s with
                    | Some k => Z.of_nat k
                    | None => -1
                    end.
Proof. exact (find_at [] s sub). Qed.

(** The decoder on item [i] of a stored text whose next token is [tok]:
    it answers the value the token stands for, puts the cursor after the
    token and its newline, and records the value. *)
Lemma amsg_step_value_token (L : Z) (pre tok rest : str)
    (sp : list Z) (pv : list (list (option str))) (i : nat) (val : option str) :
  token_for (field_separator_head L) (nth i pv []) tok val ->
  rest = [] \/ (exists more, rest = nl :: more) ->
  nth i sp 0 = Py.len pre ->
  amsg_step_value (pre ++ tok ++ rest) (field_separator_head L) [nl] sp pv i =
  Ok (val,
      list_set (extend_to sp i 0) i (Py.len pre + Py.len tok + 1),
      list_set (extend_to pv i []) i (nth i pv [] ++ [val])).
Proof.
  intros Htok Hrest Hsp.
  destruct (token_shape L _ tok val Htok) as (v & suffix & -> & Hv & Hnl & Hcase).
  destruct (step_locals L pre v suffix rest Hv Hnl Hrest) as (Hp1 & Hp2 & Hmods & Hval).
  cbv zeta in Hp1, Hp2, Hmods, Hval.
  replace (pre ++ (v ++ field_separator_head L ++ suffix) ++ rest)
    with (pre ++ v ++ field_separator_head L ++ suffix ++ rest)
    by (rewrite <- !app_assoc; reflexivity).
  unfold amsg_step_value.
  rewrite (nth_res_nth _ _ 0) by apply extend_to_length.
  rewrite extend_to_nth, Hsp. cbn [bind].
  rewrite Hp1, Hp2, Hmods, Hval.
  rewrite (nth_res_nth _ _ []) by apply extend_to_length.
  rewrite extend_to_nth. cbn [bind].
  assert (Hpos : Py.len pre + Py.len v + Py.len (field_separator_head L)
                 + Py.len suffix + Py.len [nl]
                 = Py.len pre + Py.len (v ++ field_separator_head L ++ suffix) + 1).
  { rewrite !len_app. unfold Py.len at 5. simpl length. lia. }
  rewrite Hpos.
  destruct Hcase as [[-> ->] | [(n & -> & -> & Hn & Hnth) | (-> & -> & ->)]].
  - reflexivity.
  - destruct (str_of_int_digits n Hn) as (Hne & Hall & Hdv).
    assert (Hc : Py.contains _trsep_mod_eq (_trsep_mod_eq ++ Py.str_of_int n) = true)
      by (apply contains_app; exists [], (Py.str_of_int n); reflexivity).
    rewrite Hc. rewrite find_zero, find_nat_here.
    change (Z.of_nat 0 + Py.len _trsep_mod_eq) with (Py.len _trsep_mod_eq).
    rewrite slice_from_app, run_all by (apply digits_text, Hall).
    fold (Py.len (Py.str_of_int n)).
    pose proof (slice_mid _trsep_mod_eq (Py.str_of_int n) []) as Hs.
    rewrite app_nil_r in Hs. rewrite Hs, int_str_of_int by exact Hn. cbn [bind].
    rewrite (nth_res_nth_error _ _ _ Hn Hnth). reflexivity.
  - reflexivity.
Qed.

End DecoderStep.

(** ** The encoder in terms of the modifications *)

Section EncoderSpec.

Lemma find_i_eq_found rh f i v nmod x :
  find_i_eq rh f i v nmod (Some x) = Some x.
Proof.
  revert nmod; induction rh as [|a rh IH]; intros nmod; simpl; [reflexivity|].
  destruct (negb (has_slen a)); apply IH.
Qed.

Lemma find_i_eq_first_equal rh f i v nmod :
  find_i_eq rh f i v nmod None = first_equal (mods_of rh) f i v nmod.
Proof.
  unfold mods_of. revert nmod; induction rh as [|a rh IH]; intros nmod; simpl; [reflexivity|].
  destruct (has_slen a) eqn:Ea; simpl; [|apply IH].
  destruct (nth_error (get_as_sequence (a_msg a) f true) i) as [vp|]; [|apply IH].
  destruct (bool_decide (v = vp)); [apply find_i_eq_found | apply IH].
Qed.

Lemma add_token_spec shead rh f msg_seq i :
  add_token shead rh f msg_seq i = token_after (mods_of rh) f i shead msg_seq.
Proof.
  unfold add_token, token_after. destruct (nth_error msg_seq i); [|reflexivity].
  rewrite find_i_eq_first_equal. reflexivity.
Qed.

Lemma first_equal_spec mods f i v :
  forall n k, first_equal mods f i v n = Some k ->
    n <= k /\ nth_error (values_at mods f i) (Z.to_nat (k - n)) = Some (Some v).
Proof.
  induction mods as [|m mods IH]; intros n k; simpl; [discriminate|].
  destruct (nth_error (get_as_sequence (snd m) f true) i) as [vp|] eqn:E.
  - destruct (bool_decide (v = vp)) eqn:Ev.
    + intros [= <-]. apply bool_decide_eq_true_1 in Ev as ->.
      rewrite Z.sub_diag. simpl. split; [lia | reflexivity].
    + intros H. apply IH in H as [Hle Hnth]. split; [lia|].
      replace (Z.to_nat (k - n)) with (S (Z.to_nat (k - (n + 1)))) by lia.
      exact Hnth.
  - intros H. apply IH in H as [Hle Hnth]. split; [lia|].
    replace (Z.to_nat (k - n)) with (S (Z.to_nat (k - (n + 1)))) by lia.
    exact Hnth.
Qed.

(** The token of a modification stands for the value the modification has
    at the item. *)
Lemma token_after_for (earlier : list modification) (f : field) (i : nat)
    (L : Z) (msg_seq : list str) :
  (forall v, In v msg_seq -> Py.contains (field_separator_head L) v = false) ->
  token_for (field_separator_head L) (values_at earlier f i)
    (token_after earlier f i (field_separator_head L) msg_seq)
    (nth_error msg_seq i).
Proof.
  intros Hsafe. unfold token_after.
  destruct (nth_error msg_seq i) as [v|] eqn:E; [|constructor].
  destruct (first_equal earlier f i v 0) as [k|] eqn:Ek.
  - apply first_equal_spec in Ek as [Hk Hnth]. rewrite Z.sub_0_r in Hnth.
    constructor; assumption.
  - constructor. apply Hsafe. eapply nth_error_In. exact E.
Qed.

Lemma token_after_nonempty earlier f i L msg_seq :
  token_after earlier f i (field_separator_head L) msg_seq <> [].
Proof.
  unfold token_after. destruct (nth_error msg_seq i) as [v|].
  - destruct (first_equal earlier f i v 0); [discriminate|].
    destruct v; discriminate.
  - discriminate.
Qed.

End EncoderSpec.

(** ** The shape of the stored texts *)

Section StoredTexts.

Lemma join_snoc (sep : str) (l : list str) (t : str) :
  Py.join sep (l ++ [t]) =
  match l with
  | [] => t
  | _ => Py.join sep l ++ sep ++ t
  end.
Proof.
  induction l as [|x l IH]; [reflexivity|].
  destruct l as [|y l]; [reflexivity|].
  change (Py.join sep ((x :: y :: l) ++ [t]))
    with (x ++ sep ++ Py.join sep ((y :: l) ++ [t])).
  rewrite IH.
  change (Py.join sep (x :: y :: l)) with (x ++ sep ++ Py.join sep (y :: l)).
  rewrite <- !app_assoc. reflexivity.
Qed.

(** A joined text around one of its pieces: the pieces before it, each
    with its newline, the piece, and the rest after a newline. *)
Lemma join_around (l1 : list str) (t : str) (l2 : list str) :
  Py.join [nl] (l1 ++ t :: l2) =
  concat (map (fun x => x ++ [nl]) l1) ++ t ++
  match l2 with
  | [] => []
  | _ => nl :: Py.join [nl] l2
  end.
Proof.
  induction l1 as [|x l1 IH].
  - simpl. destruct l2; [rewrite app_nil_r|]; reflexivity.
  - change ((x :: l1) ++ t :: l2) with (x :: (l1 ++ t :: l2)).
    destruct (l1 ++ t :: l2) as [|y l] eqn:E; [destruct l1; discriminate|].
    change (Py.join [nl] (x :: y :: l)) with (x ++ [nl] ++ Py.join [nl] (y :: l)).
    rewrite IH. simpl. rewrite <- !app_assoc. reflexivity.
Qed.

Lemma join_nonempty (sep : str) (l : list str) (x : str) :
  In x l -> x <> [] -> (forall y, In y l -> y <> []) -> Py.join sep l <> [].
Proof.
  destruct l as [|y l]; [intros []|]. intros _ _ Hall.
  assert (Hy : y <> []) by (apply Hall; left; reflexivity).
  destruct l; simpl; destruct y; try congruence; discriminate.
Qed.

Lemma tokens_of_length mods f i : length (tokens_of mods f i) = length mods.
Proof. unfold tokens_of. rewrite length_map, length_seq. reflexivity. Qed.

Lemma token_at_app mods m f i k :
  (k < length mods)%nat -> token_at (mods ++ [m]) f i k = token_at mods f i k.
Proof.
  intros Hk. unfold token_at. rewrite nth_error_app1 by exact Hk.
  rewrite take_app_le by lia. reflexivity.
Qed.

Lemma token_at_last mods m f i :
  token_at (mods ++ [m]) f i (length mods) =
  token_after mods f i (field_separator_head (fst m)) (get_as_sequence (snd m) f true).
Proof.
  unfold token_at. rewrite nth_error_app2, Nat.sub_diag by lia. simpl.
  rewrite take_app_length. reflexivity.
Qed.

Lemma tokens_of_snoc mods m f i :
  tokens_of (mods ++ [m]) f i =
  tokens_of mods f i
  ++ [token_after mods f i (field_separator_head (fst m))
        (get_as_sequence (snd m) f true)].
Proof.
  unfold tokens_of. rewrite length_app. simpl length.
  rewrite Nat.add_1_r, seq_S, map_app. simpl. rewrite token_at_last. f_equal.
  apply map_ext_in. intros k Hk%in_seq. apply token_at_app. lia.
Qed.

Lemma tokens_of_nonempty mods f i t : In t (tokens_of mods f i) -> t <> [].
Proof.
  unfold tokens_of. intros (k & <- & Hk%in_seq)%in_map_iff.
  unfold token_at. destruct (nth_error mods k) as [m|] eqn:E.
  - apply token_after_nonempty.
  - apply nth_error_None in E. lia.
Qed.

Lemma blob_of_empty mods f i : blob_of mods f i = [] <-> mods = [].
Proof.
  unfold blob_of. split.
  - intros E. destruct mods as [|m mods]; [reflexivity|]. exfalso.
    pose proof (tokens_of_length (m :: mods) f i) as Hl.
    destruct (tokens_of (m :: mods) f i) as [|t ts] eqn:Et; [discriminate|].
    eapply (join_nonempty [nl] (t :: ts) t); [left; reflexivity | | | exact E].
    + apply (tokens_of_nonempty (m :: mods) f i). rewrite Et. left. reflexivity.
    + intros y Hy. apply (tokens_of_nonempty (m :: mods) f i). rewrite Et. exact Hy.
  - intros ->. reflexivity.
Qed.

Lemma blob_of_snoc mods m f i :
  blob_of (mods ++ [m]) f i =
  match blob_of mods f i with
  | [] => []
  | old => old ++ [nl]
  end
  ++ token_after mods f i (field_separator_head (fst m))
       (get_as_sequence (snd m) f true).
Proof.
  unfold blob_of at 1. rewrite tokens_of_snoc, join_snoc.
  destruct (tokens_of mods f i) as [|t ts] eqn:Et.
  - assert (E : blob_of mods f i = []) by (unfold blob_of; rewrite Et; reflexivity).
    rewrite E. reflexivity.
  - fold (blob_of mods f i) in *.
    assert (Hne : blob_of mods f i <> []).
    { rewrite blob_of_empty. intros ->. discriminate. }
    unfold blob_of in Hne |- *. rewrite Et in Hne |- *.
    destruct (Py.join [nl] (t :: ts)); [congruence|].
    rewrite <- app_assoc. reflexivity.
Qed.

Lemma item_count_snoc mods m f :
  item_count (mods ++ [m]) f =
  Nat.max (item_count mods f) (length (get_as_sequence (snd m) f true)).
Proof.
  unfold item_count. induction mods as [|x mods IH]; simpl; [lia|].
  rewrite IH. lia.
Qed.

Lemma item_count_ge mods f m :
  In m mods -> (length (get_as_sequence (snd m) f true) <= item_count mods f)%nat.
Proof.
  unfold item_count. induction mods as [|x mods IH]; simpl; [intros []|].
  intros [-> | H]; [lia | specialize (IH H); lia].
Qed.

(** Past the last item every token is the absence mark. *)
Lemma tokens_of_absent mods f i :
  (item_count mods f <= i)%nat ->
  tokens_of mods f i =
  map (fun m => field_separator_head (fst m) ++ _trsep_mod_none) mods.
Proof.
  intros Hi. induction mods as [|m mods IH] using rev_ind; [reflexivity|].
  rewrite item_count_snoc in Hi.
  rewrite tokens_of_snoc, IH by lia. rewrite map_app. simpl. f_equal.
  unfold token_after.
  destruct (nth_error (get_as_sequence (snd m) f true) i) eqn:E; [|reflexivity].
  assert (nth_error (get_as_sequence (snd m) f true) i <> None) as E' by congruence.
  apply nth_error_Some in E'. lia.
Qed.

End StoredTexts.

(** ** The encoder on the stored texts *)

Section EncoderOnTexts.

Lemma padnone_of_mods rh :
  padnone_of rh =
  Py.join [nl] (map (fun m => field_separator_head (fst m) ++ _trsep_mod_none)
                  (mods_of rh)).
Proof. unfold padnone_of, mods_of. rewrite map_map. reflexivity. Qed.

Lemma blob_of_absent rh f i :
  (item_count (mods_of rh) f <= i)%nat ->
  blob_of (mods_of rh) f i = padnone_of rh.
Proof.
  intros Hi. unfold blob_of. rewrite tokens_of_absent by exact Hi.
  symmetry. apply padnone_of_mods.
Qed.

Lemma blobs_padded rh f (n : nat) :
  blobs_of (mods_of rh) f ++ repeat (padnone_of rh) (n - item_count (mods_of rh) f) =
  map (blob_of (mods_of rh) f) (seq 0 (Nat.max (item_count (mods_of rh) f) n)).
Proof.
  unfold blobs_of.
  set (c := item_count (mods_of rh) f).
  replace (Nat.max c n) with (c + (n - c))%nat by lia.
  rewrite seq_app, map_app. f_equal. simpl.
  assert (H : forall d j, (c <= j)%nat ->
            repeat (padnone_of rh) d = map (blob_of (mods_of rh) f) (seq j d)).
  { induction d as [|d IH]; intros j Hj; simpl; [reflexivity|].
    rewrite blob_of_absent by exact Hj. f_equal. apply IH. lia. }
  apply H. lia.
Qed.

Lemma add_items_map shead rh f msg_seq (g : nat -> str) (n j : nat) :
  add_items shead rh f msg_seq (map g (seq j n)) j =
  map (fun i => match g i with [] => [] | old => old ++ [nl] end
                ++ add_token shead rh f msg_seq i) (seq j n).
Proof.
  revert j; induction n as [|n IH]; intros j; simpl; [reflexivity|].
  rewrite IH. f_equal. destruct (g j); reflexivity.
Qed.

(** The stored items of a field after a write that carried a separator are
    those of the modifications with the write added. *)
Lemma add_nonid_items_blobs (msg : Message) (slen : Z) (rh : list Ascription)
    (f : field) (snapshot : Message) :
  get_as_sequence snapshot f true = get_as_sequence msg f false ->
  add_nonid_items msg slen rh f (blobs_of (mods_of rh) f) =
  blobs_of (mods_of rh ++ [(slen, snapshot)]) f.
Proof.
  intros Hseq. unfold add_nonid_items.
  replace (length (blobs_of (mods_of rh) f)) with (item_count (mods_of rh) f)
    by (unfold blobs_of; rewrite length_map, length_seq; reflexivity).
  rewrite blobs_padded, add_items_map.
  unfold blobs_of at 1. rewrite item_count_snoc. simpl snd. rewrite Hseq.
  apply map_ext. intros i. rewrite blob_of_snoc. simpl fst. simpl snd.
  rewrite Hseq, add_token_spec. reflexivity.
Qed.

End EncoderOnTexts.

(** ** The decoder on the stored texts *)

Section DecoderOnTexts.

Lemma take_snoc {A} (l : list A) (j : nat) (x : A) :
  nth_error l j = Some x -> firstn (S j) l = firstn j l ++ [x].
Proof.
  revert j; induction l as [|y l IH]; intros [|j]; simpl; try discriminate.
  - intros [= ->]. reflexivity.
  - intros H. rewrite (IH j H). reflexivity.
Qed.

Lemma take_past {A} (l : list A) (j : nat) :
  nth_error l j = None -> firstn (S j) l = firstn j l.
Proof.
  intros H%nth_error_None. rewrite !firstn_all2 by lia. reflexivity.
Qed.

Lemma pmsg_seq_step (S0 : list str) (j : nat) :
  match nth_error S0 j with
  | Some v => list_set (extend_to (firstn j S0) j []) j v
  | None => firstn j S0
  end = firstn (S j) S0.
Proof.
  destruct (nth_error S0 j) as [v|] eqn:E.
  - assert (Hj : (j < length S0)%nat) by (apply nth_error_Some; congruence).
    assert (Hl : length (firstn j S0) = j) by (rewrite length_firstn; lia).
    unfold extend_to. rewrite Hl, Nat.leb_refl, Nat.sub_diag. simpl repeat.
    rewrite <- Hl at 2. rewrite list_set_app_r. symmetry. apply take_snoc. exact E.
  - symmetry. apply take_past. exact E.
Qed.

Lemma cursor_after_S (toks : list str) (k : nat) (t : str) :
  nth_error toks k = Some t ->
  cursor_after toks (S k) = cursor_after toks k + Py.len t + 1.
Proof.
  intros E. unfold cursor_after. rewrite (take_snoc _ _ _ E).
  rewrite map_app, concat_app. simpl. rewrite app_nil_r, !len_app.
  assert (Py.len [nl] = 1) as -> by reflexivity.
  rewrite Z.add_assoc. reflexivity.
Qed.

Lemma split_at {A} (l : list A) (k : nat) (x : A) :
  nth_error l k = Some x -> l = firstn k l ++ x :: skipn (S k) l.
Proof.
  revert k; induction l as [|y l IH]; intros [|k]; simpl; try discriminate.
  - intros [= ->]. reflexivity.
  - intros H. f_equal. apply IH. exact H.
Qed.

Lemma token_at_nth (mods : list modification) (f : field) (i k : nat) :
  (k < length mods)%nat ->
  nth_error (tokens_of mods f i) k = Some (token_at mods f i k).
Proof.
  intros Hk. unfold tokens_of. rewrite nth_error_map, nth_error_seq.
  apply Nat.ltb_lt in Hk. rewrite Hk. reflexivity.
Qed.

(** The stored text of an item around the token of the [k]-th
    modification. *)
Lemma blob_of_around (mods : list modification) (f : field) (i k : nat) :
  (k < length mods)%nat ->
  exists pre rest,
    blob_of mods f i = pre ++ token_at mods f i k ++ rest /\
    Py.len pre = cursor_after (tokens_of mods f i) k /\
    (rest = [] \/ exists more, rest = nl :: more).
Proof.
  intros Hk. pose proof (token_at_nth mods f i k Hk) as E.
  pose proof (split_at _ _ _ E) as Hs.
  assert (Hb : blob_of mods f i =
               Py.join [nl] (firstn k (tokens_of mods f i) ++ token_at mods f i k
                             :: skipn (S k) (tokens_of mods f i)))
    by (unfold blob_of; rewrite <- Hs; reflexivity).
  rewrite join_around in Hb.
  eexists _, _. split; [exact Hb|]. split; [reflexivity|].
  destruct (skipn (S k) (tokens_of mods f i)); [left; reflexivity | right; eauto].
Qed.

Lemma values_at_snoc (mods : list modification) (f : field) (i k : nat)
    (m : modification) :
  nth_error mods k = Some m ->
  values_at (firstn (S k) mods) f i =
  values_at (firstn k mods) f i ++ [nth_error (get_as_sequence (snd m) f true) i].
Proof.
  intros E. unfold values_at. rewrite (take_snoc _ _ _ E), map_app. reflexivity.
Qed.

(** The loop over the items of one field at the [k]-th modification: from
    item [j] on, the tables go from [k] to [k + 1] modifications and the
    values decoded are those of the modification. *)
Lemma decode_items_modification (mods : list modification) (f : field) (k : nat)
    (m : modification) :
  nth_error mods k = Some m ->
  (forall v, In v (get_as_sequence (snd m) f true) ->
     Py.contains (field_separator_head (fst m)) v = false) ->
  forall (len j : nat) (sp : list Z) (pv : list (list (option str))),
    (j + len = item_count mods f)%nat ->
    (forall i, (j <= i < item_count mods f)%nat ->
       nth i sp 0 = cursor_after (tokens_of mods f i) k /\
       nth i pv [] = values_at (firstn k mods) f i) ->
    exists sp' pv',
      decode_items (field_separator_head (fst m))
        (map (blob_of mods f) (seq j len)) j sp pv
        (firstn j (get_as_sequence (snd m) f true)) =
      Ok (get_as_sequence (snd m) f true, sp', pv') /\
      (forall i, (j <= i < item_count mods f)%nat ->
         nth i sp' 0 = cursor_after (tokens_of mods f i) (S k) /\
         nth i pv' [] = values_at (firstn (S k) mods) f i) /\
      (forall i, (i < j)%nat -> nth i sp' 0 = nth i sp 0 /\ nth i pv' [] = nth i pv []).
Proof.
  intros Hm Hsafe.
  assert (Hk : (k < length mods)%nat) by (apply nth_error_Some; congruence).
  induction len as [|len IH]; intros j sp pv Hj Htab.
  - exists sp, pv. simpl. split; [|split].
    + rewrite firstn_all2; [reflexivity|].
      rewrite Nat.add_0_r in Hj. rewrite Hj.
      apply item_count_ge. eapply nth_error_In. exact Hm.
    + intros i Hi. lia.
    + auto.
  - simpl seq. simpl map. cbn [decode_items].
    destruct (blob_of_around mods f j k Hk) as (pre & rest & -> & Hpre & Hrest).
    destruct (Htab j ltac:(lia)) as [Hsp Hpv].
    rewrite (amsg_step_value_token (fst m) pre (token_at mods f j k) rest sp pv j
               (nth_error (get_as_sequence (snd m) f true) j)).
    2:{ rewrite Hpv. unfold token_at. rewrite Hm. apply token_after_for. exact Hsafe. }
    2:{ exact Hrest. }
    2:{ rewrite Hsp, Hpre. reflexivity. }
    cbn [bind]. rewrite pmsg_seq_step.
    set (sp1 := list_set (extend_to sp j 0) j _).
    set (pv1 := list_set (extend_to pv j []) j _).
    destruct (IH (S j) sp1 pv1 ltac:(lia)) as (sp' & pv' & Hrun & Hnew & Hold).
    { intros i Hi. unfold sp1, pv1. rewrite !table_set_nth.
      replace (i =? j)%nat with false by (symmetry; apply Nat.eqb_neq; lia).
      apply Htab. lia. }
    exists sp', pv'. split; [exact Hrun|]. split.
    + intros i Hi. destruct (Nat.eq_dec i j) as [-> | Hne].
      * destruct (Hold j ltac:(lia)) as [-> ->]. unfold sp1, pv1.
        rewrite !table_set_nth, Nat.eqb_refl. split.
        -- rewrite (cursor_after_S _ _ _ (token_at_nth mods f j k Hk)), <- Hpre.
           reflexivity.
        -- rewrite Hpv. symmetry. apply values_at_snoc. exact Hm.
      * apply Hnew. lia.
    + intros i Hi. destruct (Hold i ltac:(lia)) as [-> ->]. unfold sp1, pv1.
      rewrite !table_set_nth.
      replace (i =? j)%nat with false by (symmetry; apply Nat.eqb_neq; lia).
      auto.
Qed.

End DecoderOnTexts.

(** ** The reconstruction of one record from its stored texts *)

Section Reconstruction.

Lemma tracked_NoDup_list : List.NoDup _nonid_fields_tracked.
Proof. simpl. repeat constructor; simpl; intuition discriminate. Qed.

Lemma upd_same {A} (t : field -> A) (f : field) (x : A) : upd t f x f = x.
Proof. unfold upd. rewrite bool_decide_eq_true_2 by reflexivity. reflexivity. Qed.

Lemma upd_other {A} (t : field -> A) (f g : field) (x : A) :
  g <> f -> upd t f x g = t g.
Proof. intros H. unfold upd. rewrite bool_decide_eq_false_2 by exact H. reflexivity. Qed.

(** The loop over the tracked fields at the [k]-th modification. *)
Lemma decode_fields_modification (amsg : Message) (mods : list modification)
    (k : nat) (m : modification) :
  nth_error mods k = Some m ->
  (forall f v, In f _nonid_fields_tracked ->
     In v (get_as_sequence (snd m) f true) ->
     Py.contains (field_separator_head (fst m)) v = false) ->
  (forall f, In f _nonid_fields_tracked ->
     get_as_sequence amsg f true = blobs_of mods f) ->
  forall fs : list field,
    (forall f, In f fs -> In f _nonid_fields_tracked) ->
    List.NoDup fs ->
    forall (ds : decode_state) (pmsg : Message),
      (forall f, In f fs -> tables_at mods f k (spos ds f) (pvals ds f)) ->
      exists ds',
        decode_fields (field_separator_head (fst m)) amsg fs ds pmsg =
        Ok (fold_left (fun p f => set_from_sequence (get_as_sequence (snd m) f true) p f)
              fs pmsg, ds') /\
        (forall f, In f fs -> tables_at mods f (S k) (spos ds' f) (pvals ds' f)) /\
        (forall f, ~ In f fs -> spos ds' f = spos ds f /\ pvals ds' f = pvals ds f).
Proof.
  intros Hm Hsafe Hblobs.
  induction fs as [|f fs IH]; intros Htr Hnd ds pmsg Htab.
  - exists ds. simpl. split; [reflexivity|]. split; [intros f []| auto].
  - inversion Hnd as [|? ? Hnotin Hnd']; subst.
    cbn [decode_fields]. rewrite Hblobs by (apply Htr; left; reflexivity).
    destruct (decode_items_modification mods f k m Hm
                (fun v Hv => Hsafe f v (Htr f (or_introl eq_refl)) Hv)
                (item_count mods f) 0%nat (spos ds f) (pvals ds f) eq_refl)
      as (sp' & pv' & Hrun & Hnew & _).
    { intros i Hi. apply (Htab f (or_introl eq_refl)). lia. }
    unfold blobs_of.
    change (firstn 0 (get_as_sequence (snd m) f true)) with (@nil str) in Hrun.
    rewrite Hrun. cbn [bind].
    set (ds1 := mkDecodeState _ _).
    destruct (IH (fun g Hg => Htr g (or_intror Hg)) Hnd' ds1
                (set_from_sequence (get_as_sequence (snd m) f true) pmsg f))
      as (ds' & Hrun' & Hnew' & Hold').
    { intros g Hg. unfold ds1. simpl.
      assert (g <> f) by (intros ->; contradiction).
      rewrite !upd_other by assumption. apply Htab. right. exact Hg. }
    exists ds'. split; [exact Hrun'|]. split.
    + intros g [<- | Hg]; [|apply Hnew'; exact Hg].
      destruct (Hold' f Hnotin) as [-> ->]. unfold ds1. simpl. rewrite !upd_same.
      intros i Hi. apply Hnew. lia.
    + intros g Hg. destruct (Hold' g) as [-> ->]; [intros H; apply Hg; right; exact H|].
      unfold ds1. simpl.
      assert (g <> f) by (intros ->; apply Hg; left; reflexivity).
      rewrite !upd_other by assumption. auto.
Qed.

Lemma pmods_app P1 P2 : pmods (P1 ++ P2) = pmods P1 ++ pmods P2.
Proof. unfold pmods. rewrite List.filter_app, map_app. reflexivity. Qed.

Lemma last_res_snoc {A} (l : list A) (x : A) : last_res (l ++ [x]) = Ok x.
Proof. unfold last_res. rewrite rev_app_distr. reflexivity. Qed.

(** The loop of the reconstruction over the parsed ascriptions [P2], the
    ascriptions [P1] having been handled. *)
Lemma asc_collect_loop_reconstructs (amsg : Message) (P : list (asc_tuple * Message)) :
  (forall f, In f _nonid_fields_tracked ->
     get_as_sequence amsg f true = blobs_of (pmods P) f) ->
  separators_safe (pmods P) ->
  forall (P2 P1 : list (asc_tuple * Message)) (ds : decode_state),
    P = P1 ++ P2 ->
    (forall f, In f _nonid_fields_tracked ->
       tables_at (pmods P) f (length (pmods P1)) (spos ds f) (pvals ds f)) ->
    reconstructs_from amsg (option_map snd (last P1)) P2 ->
    exists ds',
      asc_collect_loop amsg (map fst P2) (entries amsg P1) ds =
      Ok (entries amsg P, ds').
Proof.
  intros Hblobs Hsafe.
  induction P2 as [|[t pmsg] P2 IH]; intros P1 ds HP Htab Hrec.
  - exists ds. simpl. rewrite HP, app_nil_r. reflexivity.
  - simpl map. cbn [asc_collect_loop]. simpl in Hrec. destruct Hrec as [Hhead Hrec].
    assert (HP' : P = (P1 ++ [(t, pmsg)]) ++ P2) by (rewrite <- app_assoc; exact HP).
    unfold asc_collect_step.
    destruct (t_seplen t =? 0) eqn:Esl; simpl negb; cbv iota.
    + (* no separator: the message before *)
      destruct (last P1) as [prev|] eqn:Elast; simpl in Hhead; [|contradiction].
      assert (Hlast : last_res (entries amsg P1) = Ok (entry_of amsg (fst prev) (snd prev))).
      { destruct (exists_last (l := P1)) as (P0 & x & ->);
          [intros ->; discriminate|].
        rewrite last_snoc in Elast. injection Elast as ->.
        unfold entries. rewrite map_app. apply last_res_snoc. }
      rewrite Hlast. cbn [bind a_msg entry_of fst snd].
      destruct (IH (P1 ++ [(t, pmsg)]) ds HP') as [ds' Hrun].
      * rewrite pmods_app. unfold pmods at 3. simpl. rewrite Esl. simpl.
        rewrite app_nil_r. exact Htab.
      * rewrite last_snoc. exact Hrec.
      * exists ds'. rewrite <- Hrun. unfold entries. rewrite map_app. simpl.
        rewrite Hhead. reflexivity.
    + (* a separator: decoded from the stored texts *)
      set (k := length (pmods P1)).
      assert (Hk : nth_error (pmods P) k = Some (t_seplen t, pmsg)).
      { rewrite HP', !pmods_app. unfold pmods at 2. simpl. rewrite Esl. simpl.
        rewrite <- app_assoc. rewrite nth_error_app2 by (unfold k; lia).
        unfold k. rewrite Nat.sub_diag. reflexivity. }
      assert (Hsafe_m : forall f v, In f _nonid_fields_tracked ->
                 In v (get_as_sequence pmsg f true) ->
                 Py.contains (field_separator_head (t_seplen t)) v = false).
      { unfold separators_safe in Hsafe. rewrite Forall_forall in Hsafe.
        intros f v Hf Hv.
        refine (Hsafe (t_seplen t, pmsg) _ f v Hf Hv).
        apply list_elem_of_In. eapply nth_error_In. exact Hk. }
      destruct (decode_fields_modification amsg (pmods P) k (t_seplen t, pmsg) Hk
                  Hsafe_m Hblobs _nonid_fields_tracked (fun f H => H)
                  tracked_NoDup_list ds
                  (mkMessage (msgctxt amsg) (msgid amsg) None [] None None None
                     [] [] false false) Htab)
        as (ds1 & Hrun1 & Hnew & _).
      simpl fst in Hrun1. simpl snd in Hrun1. rewrite Hrun1. cbn [bind].
      destruct (IH (P1 ++ [(t, pmsg)]) ds1 HP') as [ds' Hrun].
      * rewrite pmods_app. unfold pmods at 3. simpl. rewrite Esl. simpl.
        rewrite length_app. simpl. rewrite Nat.add_1_r. exact Hnew.
      * rewrite last_snoc. exact Hrec.
      * exists ds'. simpl fst. simpl snd. rewrite <- Hrun.
        unfold entries. rewrite map_app. cbn [map fst snd]. do 3 f_equal.
        unfold entry_of. f_equal. symmetry. exact Hhead.
Qed.

End Reconstruction.

(** ** Ascription comments as the writer makes them *)

Section WrittenComments.

Lemma split_none (c : ascii) (s : str) : ~ In c s -> Py.split c s = [s].
Proof.
  induction s as [|d s IH]; intros Hc; [reflexivity|]. simpl.
  destruct (Ascii.eqb d c) eqn:E.
  - apply Ascii.eqb_eq in E. exfalso. apply Hc. left. exact E.
  - rewrite IH; [reflexivity|]. intros H. apply Hc. right. exact H.
Qed.

Lemma split_at_char (c : ascii) (a b : str) :
  ~ In c a -> Py.split c (a ++ c :: b) = a :: Py.split c b.
Proof.
  induction a as [|d a IH]; intros Hc; simpl.
  - rewrite Ascii.eqb_refl. reflexivity.
  - destruct (Ascii.eqb d c) eqn:E.
    + apply Ascii.eqb_eq in E. exfalso. apply Hc. left. exact E.
    + rewrite IH; [reflexivity|]. intros H. apply Hc. right. exact H.
Qed.

Lemma split1_none (c : ascii) (s : str) : ~ In c s -> Py.split1 c s = [s].
Proof.
  induction s as [|d s IH]; intros Hc; [reflexivity|]. simpl.
  destruct (Ascii.eqb d c) eqn:E.
  - apply Ascii.eqb_eq in E. exfalso. apply Hc. left. exact E.
  - rewrite IH; [reflexivity|]. intros H. apply Hc. right. exact H.
Qed.

Lemma split1_at_char (c : ascii) (a b : str) :
  ~ In c a -> Py.split1 c (a ++ c :: b) = [a; b].
Proof.
  induction a as [|d a IH]; intros Hc; simpl.
  - rewrite Ascii.eqb_refl. reflexivity.
  - destruct (Ascii.eqb d c) eqn:E.
    + apply Ascii.eqb_eq in E. exfalso. apply Hc. left. exact E.
    + rewrite IH; [reflexivity|]. intros H. apply Hc. right. exact H.
Qed.

Lemma replace1_at (c : ascii) (a b : str) :
  ~ In c a -> Py.replace1 c (a ++ c :: b) = a ++ b.
Proof.
  induction a as [|d a IH]; intros Hc; simpl.
  - rewrite Ascii.eqb_refl. reflexivity.
  - destruct (Ascii.eqb d c) eqn:E.
    + apply Ascii.eqb_eq in E. exfalso. apply Hc. left. exact E.
    + rewrite IH; [reflexivity|]. intros H. apply Hc. right. exact H.
Qed.

Lemma visible_ends_iff (s : str) :
  visible_ends s <->
  (forall c t, s = c :: t -> Py.isspace c = false) /\
  (forall t d, s = t ++ [d] -> Py.isspace d = false).
Proof.
  unfold visible_ends. destruct s as [|c s].
  - split; [|auto]. intros _. split; [discriminate|].
    intros t d H. destruct t; discriminate.
  - destruct (rev (c :: s)) as [|d t] eqn:E.
    + apply (f_equal (@length _)) in E. rewrite length_rev in E. discriminate.
    + assert (Hs : c :: s = rev t ++ [d]).
      { rewrite <- (rev_involutive (c :: s)), E. reflexivity. }
      split.
      * intros [Hc Hd]. split.
        -- intros c' t' [= <- <-]. exact Hc.
        -- intros t' d' H. rewrite Hs in H. apply app_inj_tail in H as [_ <-]. exact Hd.
      * intros [H1 H2]. split; [eapply H1; reflexivity | eapply H2; exact Hs].
Qed.

Lemma visible_ends_app (a b : str) :
  a <> [] -> b <> [] -> visible_ends a -> visible_ends b -> visible_ends (a ++ b).
Proof.
  rewrite !visible_ends_iff. intros Ha Hb [Ha1 Ha2] [Hb1 Hb2]. split.
  - intros c t H. destruct a as [|c' a']; [congruence|].
    injection H as <- _. eapply Ha1. reflexivity.
  - intros t d H.
    destruct (exists_last Hb) as (b' & d' & ->).
    rewrite app_assoc in H. apply app_inj_tail in H as [_ <-].
    eapply Hb2. reflexivity.
Qed.

Lemma visible_ends_cons (c : ascii) (s : str) :
  Py.isspace c = false -> s <> [] -> visible_ends s -> visible_ends (c :: s).
Proof.
  intros Hc Hs Hv. apply (visible_ends_app [c] s); try assumption; [discriminate|].
  unfold visible_ends. simpl. auto.
Qed.

Lemma comment_field_clean (atype atag : str) :
  clean_text ":" atype -> ~ In "/"%char atype ->
  (atag = [] \/ clean_text ":" atag) ->
  ~ In ":"%char (comment_field atype atag) /\
  Py.strip (comment_field atype atag) = comment_field atype atag /\
  match Py.split1 _atag_sep (comment_field atype atag) with
  | [l0; l1] => (Py.strip l0, Py.strip l1)
  | _ => (comment_field atype atag, [])
  end = (atype, atag).
Proof.
  intros (Hne & Hv & Hc) Hsl [-> | (Hne' & Hv' & Hc')].
  - simpl. split; [exact Hc|]. split; [apply strip_visible, Hv|].
    rewrite split1_none by exact Hsl. reflexivity.
  - unfold comment_field. destruct atag as [|c t] eqn:Et; [congruence|]. rewrite <- Et in *.
    split; [|split].
    + intros [H | [H | H]%in_app_or]%in_app_or; [auto | | auto].
      destruct H as [H | []]. discriminate.
    + apply strip_visible. apply visible_ends_app; try assumption.
      * discriminate.
      * apply visible_ends_cons; [reflexivity | assumption | assumption].
    + change (atype ++ [_atag_sep] ++ atag) with (atype ++ _atag_sep :: atag).
      rewrite split1_at_char by exact Hsl.
      rewrite !strip_visible by assumption. reflexivity.
Qed.

(** The first half of the loop body on a comment the writer made. *)
Lemma asc_comment_head_written (config : Config) (atype atag user dtstr wsep : str)
    (date : datetime) :
  clean_text ":" atype -> ~ In "/"%char atype ->
  (atag = [] \/ clean_text ":" atag) ->
  clean_text "|" user -> str_in user (users config) = true ->
  clean_text "|" dtstr -> parse_datetime dtstr = Ok date ->
  ~ In "|"%char wsep ->
  asc_comment_head config
    (comment_field atype atag ++ fld_sep ++ lit " "
     ++ (user ++ lit " | " ++ dtstr) ++ comment_tail wsep) =
  Ok (inr (mkHead user atype atag date
             (match wsep with [] => [] | _ => [lit " " ++ wsep] end))).
Proof.
  intros Hty Hsl Htag (Hune & Huv & Hub) Huser (Hdne & Hdv & Hdb) Hdate Hw.
  destruct (comment_field_clean atype atag Hty Hsl Htag) as (Hfc & Hfs & Hsp).
  set (fld := comment_field atype atag) in *.
  set (value := (user ++ lit " | " ++ dtstr) ++ comment_tail wsep).
  unfold asc_comment_head.
  assert (Hp : Py.find (fld ++ fld_sep ++ lit " " ++ value) fld_sep 0 = Py.len fld).
  { rewrite find_zero. change (fld_sep ++ lit " " ++ value) with (":"%char :: lit " " ++ value).
    change fld_sep with [":"%char].
    rewrite find_nat_char by exact Hfc. reflexivity. }
  rewrite Hp.
  destruct (Py.len fld <? 0) eqn:E; [apply Z.ltb_lt in E; pose proof (len_nonneg fld); lia|].
  rewrite slice_to_app, Hfs.
  match goal with
  | |- context [match ?m with (_, _) => _ end] =>
      replace m with (atype, atag) by (symmetry; exact Hsp)
  end.
  assert (Hrest : Py.slice_from (fld ++ fld_sep ++ lit " " ++ value) (Py.len fld + 1)
                  = lit " " ++ value).
  { replace (Py.len fld + 1) with (Py.len (fld ++ fld_sep))
      by (rewrite len_app; reflexivity).
    rewrite app_assoc. apply slice_from_app. }
  rewrite Hrest.
  assert (Hsplit : Py.split "|" (lit " " ++ value) =
                   (lit " " ++ user ++ lit " ")
                   :: match wsep with
                      | [] => [lit " " ++ dtstr]
                      | _ => [lit " " ++ dtstr ++ lit " "; lit " " ++ wsep]
                      end).
  { unfold value.
    replace (lit " " ++ (user ++ lit " | " ++ dtstr) ++ comment_tail wsep)
      with ((lit " " ++ user ++ lit " ") ++ "|"%char :: (lit " " ++ dtstr ++ comment_tail wsep))
      by (simpl; rewrite <- !app_assoc; reflexivity).
    rewrite split_at_char.
    2:{ intros [H | [H | H]%in_app_or]%in_app_or; [|auto|];
          destruct H as [H | []]; discriminate. }
    f_equal. destruct wsep as [|w ws] eqn:Ew.
    - simpl comment_tail. rewrite app_nil_r. apply split_none.
      intros [H | H]%in_app_or; [destruct H as [H | []]; discriminate | auto].
    - change (comment_tail (w :: ws)) with (lit " | " ++ (w :: ws)). cbv iota.
      clear Ew. set (x := w :: ws) in *. clearbody x.
      replace (lit " " ++ dtstr ++ lit " | " ++ x)
        with ((lit " " ++ dtstr ++ lit " ") ++ "|"%char :: (lit " " ++ x))
        by (simpl; rewrite <- !app_assoc; reflexivity).
      rewrite split_at_char.
      2:{ intros [H | [H | H]%in_app_or]%in_app_or; [|auto|];
            destruct H as [H | []]; discriminate. }
      f_equal. apply split_none.
      intros [H | H]%in_app_or; [destruct H as [H | []]; discriminate | auto]. }
  rewrite Hsplit.
  destruct wsep as [|w ws];
    (lazymatch goal with
     | |- (if ?b then _ else _) = _ => change b with false
     end);
    cbv iota;
    rewrite (strip_padded (lit " ") (lit " ") user) by (try reflexivity; assumption);
    rewrite bool_decide_eq_false_2 by exact Hune; rewrite Huser; simpl negb; cbv iota.
  - rewrite <- (app_nil_r (lit " " ++ dtstr)), <- app_assoc.
    rewrite (strip_padded (lit " ") [] dtstr) by (try reflexivity; assumption).
    rewrite Hdate. reflexivity.
  - rewrite (strip_padded (lit " ") (lit " ") dtstr) by (try reflexivity; assumption).
    rewrite Hdate. reflexivity.
Qed.

End WrittenComments.

(** ** The history of a record whose texts are those of its modifications *)

Section RecordHistory.

Lemma map_fst_combine_seq {A} (l : list A) (n : nat) :
  map fst (combine l (seq n (length l))) = l.
Proof.
  revert n. induction l as [|a l IH]; intros n; [reflexivity|].
  simpl. rewrite IH. reflexivity.
Qed.

Lemma sort_ord_chronological (history : list Ascription) (n : nat) :
  chronological history ->
  sort_ord (combine history (seq n (length history))) =
  combine history (seq n (length history)).
Proof.
  revert n. induction history as [|a rest IH]; intros n Hc; [reflexivity|].
  destruct Hc as [Hab Hrest].
  change (sort_ord (combine (a :: rest) (seq n (length (a :: rest)))))
    with (insert_sorted (a, n) (sort_ord (combine rest (seq (S n) (length rest))))).
  rewrite (IH (S n) Hrest).
  destruct rest as [|b r]; [reflexivity|].
  change (combine (b :: r) (seq (S n) (length (b :: r))))
    with ((b, S n) :: combine r (seq (S (S n)) (length r))).
  change (combine (a :: b :: r) (seq n (length (a :: b :: r))))
    with ((a, n) :: (b, S n) :: combine r (seq (S (S n)) (length r))).
  unfold insert_sorted.
  assert (E : key_le (a, n) (b, S n) = true).
  { unfold key_le. cbn [fst snd].
    destruct (Z.ltb_spec (date_key a) (date_key b)) as [|Hge]; [reflexivity|].
    assert (date_key a = date_key b) as -> by lia.
    rewrite Z.eqb_refl. cbn [orb andb]. apply Nat.leb_le. lia. }
  rewrite E. reflexivity.
Qed.

(** A history already in the order of its time stamps is only put in
    reverse by the sort. *)
Lemma sort_history_chronological (history : list Ascription) :
  chronological history -> sort_history history = rev history.
Proof.
  intros Hc. unfold sort_history.
  rewrite sort_ord_chronological by exact Hc.
  rewrite map_rev, map_fst_combine_seq. reflexivity.
Qed.

Lemma mods_of_entries (amsg : Message) (P : list (asc_tuple * Message)) :
  mods_of (entries amsg P) = pmods P.
Proof.
  unfold mods_of, entries, pmods.
  induction P as [|p P IH]; [reflexivity|].
  cbn [map List.filter].
  change (has_slen (entry_of amsg (fst p) (snd p))) with (negb (t_seplen (fst p) =? 0)).
  destruct (negb (t_seplen (fst p) =? 0)); cbn [map]; rewrite IH; reflexivity.
Qed.

Lemma tables_at_start (mods : list modification) (f : field) :
  tables_at mods f 0 (spos decode_state_init f) (pvals decode_state_init f).
Proof.
  intros i _. destruct i as [|[|i]]; split; reflexivity.
Qed.

(** The decoder on a record whose comments parse to the tuples of [P],
    whose stored texts are those of the modifications of [P], under safe
    separators. *)
Lemma asc_collect_history_unsorted_reconstructs (amsg : Message) (config : Config)
    (P : list (asc_tuple * Message)) :
  asc_parse_ascriptions amsg config = Ok (map fst P) ->
  (forall f, In f _nonid_fields_tracked ->
     get_as_sequence amsg f true = blobs_of (pmods P) f) ->
  separators_safe (pmods P) ->
  reconstructs_from amsg None P ->
  asc_collect_history_unsorted amsg config = Ok (entries amsg P).
Proof.
  intros Hparse Hblobs Hsafe Hrec. unfold asc_collect_history_unsorted.
  rewrite Hparse. cbn [bind].
  destruct (asc_collect_loop_reconstructs amsg P Hblobs Hsafe P [] decode_state_init
              eq_refl (fun f _ => tables_at_start (pmods P) f) Hrec) as [ds' E].
  change (entries amsg []) with (@nil Ascription) in E. rewrite E. reflexivity.
Qed.

Lemma asc_collect_history_single_reconstructs (amsg : Message) (config : Config)
    (P : list (asc_tuple * Message)) :
  asc_parse_ascriptions amsg config = Ok (map fst P) ->
  (forall f, In f _nonid_fields_tracked ->
     get_as_sequence amsg f true = blobs_of (pmods P) f) ->
  separators_safe (pmods P) ->
  reconstructs_from amsg None P ->
  chronological (entries amsg P) ->
  Forall (fun p => Datetime.offset_ok (t_date (fst p)) = true) P ->
  asc_collect_history_single amsg config = Ok (rev (entries amsg P)).
Proof.
  intros Hparse Hblobs Hsafe Hrec Hc Hoff.
  rewrite (asc_collect_history_single_comparable amsg config (entries amsg P)).
  - rewrite sort_history_chronological by exact Hc. reflexivity.
  - apply asc_collect_history_unsorted_reconstructs; assumption.
  - apply forallb_forall. intros a Ha. unfold entries in Ha.
    apply in_map_iff in Ha as (p & <- & Hp).
    rewrite List.Forall_forall in Hoff. exact (Hoff p Hp).
Qed.

End RecordHistory.

(** ** The trailing block *)

Section TrailingBlock.

Lemma all_visible (s : str) :
  forallb (fun c => negb (Py.isspace c)) s = true -> visible_ends s.
Proof.
  intros Hall. rewrite forallb_forall in Hall. apply visible_ends_iff. split.
  - intros c t ->. apply negb_true_iff, Hall. left. reflexivity.
  - intros t d ->. apply negb_true_iff, Hall. apply in_or_app. right. left. reflexivity.
Qed.

Lemma digits_without (c : ascii) (ds : str) :
  Py.isdigit c = false -> forallb Py.isdigit ds = true -> ~ In c ds.
Proof.
  intros Hc Hall Hin. rewrite forallb_forall in Hall.
  apply Hall in Hin. congruence.
Qed.

Lemma written_block_visible (digits : str) (ob fz : bool) :
  forallb Py.isdigit digits = true -> visible_ends (written_block digits ob fz).
Proof.
  intros Hall. apply all_visible. unfold written_block.
  rewrite !forallb_app. rewrite !andb_true_iff. split; [|split].
  - rewrite forallb_forall in *. intros c Hc.
    apply negb_true_iff, isdigit_not_space, Hall, Hc.
  - destruct ob; reflexivity.
  - destruct fz; reflexivity.
Qed.

Lemma trailing_block_written (h : comment_head) (digits : str) (ob fz : bool) :
  forallb Py.isdigit digits = true ->
  h_rest h = match written_block digits ob fz with
             | [] => []
             | _ => [lit " " ++ written_block digits ob fz]
             end ->
  trailing_block h = written_block digits ob fz.
Proof.
  intros Hall Hrest. unfold trailing_block. rewrite Hrest.
  pose proof (written_block_visible digits ob fz Hall) as Hv.
  destruct (written_block digits ob fz) as [|c w] eqn:E; [reflexivity|].
  replace (lit " " ++ c :: w) with (lit " " ++ (c :: w) ++ [])
    by (rewrite app_nil_r; reflexivity).
  apply (strip_padded (lit " ") [] (c :: w)); try reflexivity; [discriminate | exact Hv].
Qed.

(** What [asc_comment_state] reads in the block the writer composed. *)
Lemma written_block_read (h : comment_head) (digits : str) (ob fz : bool) :
  forallb Py.isdigit digits = true ->
  h_rest h = match written_block digits ob fz with
             | [] => []
             | _ => [lit " " ++ written_block digits ob fz]
             end ->
  has_fuzz_mark h = fz /\ has_obs_mark h = ob /\ block_digits h = digits.
Proof.
  intros Hall Hrest.
  pose proof (trailing_block_written h digits ob fz Hall Hrest) as Hb.
  pose proof (digits_without _mark_fuzz digits eq_refl Hall) as Hf.
  pose proof (digits_without _mark_obs digits eq_refl Hall) as Ho.
  assert (Hfz : has_fuzz_mark h = fz).
  { unfold has_fuzz_mark. rewrite Hb. unfold written_block.
    destruct fz.
    - apply contains_char. rewrite !in_app_iff. right. right. left. reflexivity.
    - apply contains_char_false. rewrite !in_app_iff. intros [H | [H | []]]; [auto|].
      destruct ob; [|destruct H]. destruct H as [H | []]. discriminate. }
  assert (Hbf : block_without_fuzz h = digits ++ (if ob then [_mark_obs] else [])).
  { unfold block_without_fuzz. rewrite Hfz, Hb. unfold written_block. destruct fz.
    - rewrite app_assoc.
      change ((digits ++ (if ob then [_mark_obs] else [])) ++ [_mark_fuzz])
        with ((digits ++ (if ob then [_mark_obs] else [])) ++ _mark_fuzz :: []).
      rewrite replace1_at; [apply app_nil_r|].
      rewrite in_app_iff. intros [H | H]; [auto|].
      destruct ob; [|destruct H]. destruct H as [H | []]. discriminate.
    - rewrite app_nil_r. reflexivity. }
  assert (Hob : has_obs_mark h = ob).
  { unfold has_obs_mark. rewrite Hbf. destruct ob.
    - apply contains_char. rewrite in_app_iff. right. left. reflexivity.
    - apply contains_char_false. rewrite app_nil_r. exact Ho. }
  split; [exact Hfz|]. split; [exact Hob|].
  unfold block_digits. rewrite Hob, Hbf. destruct ob.
  - change (digits ++ [_mark_obs]) with (digits ++ _mark_obs :: []).
    rewrite replace1_at by exact Ho. apply app_nil_r.
  - apply app_nil_r.
Qed.

Lemma block_seplen_written (h : comment_head) (nonid : bool) (seplen : Z) :
  0 <= seplen ->
  block_digits h = (if nonid then Py.str_of_int seplen else []) ->
  block_seplen h = Ok (if nonid then seplen else 0).
Proof.
  intros Hn Hd. unfold block_seplen. rewrite Hd. destruct nonid; [|reflexivity].
  destruct (str_of_int_digits seplen Hn) as (Hne & _ & _).
  destruct (Py.str_of_int seplen) eqn:E; [congruence|].
  rewrite <- E. apply int_str_of_int. exact Hn.
Qed.

End TrailingBlock.

(** ** Snapshots *)

Section Snapshots.

Lemma split_join (l : list str) :
  l <> [] -> (forall s, In s l -> ~ In nl s) -> Py.split nl (Py.join [nl] l) = l.
Proof.
  induction l as [|s l IH]; intros Hne Hall; [congruence|].
  destruct l as [|s' r].
  - change (Py.join [nl] [s]) with s. apply split_none, Hall. left. reflexivity.
  - change (Py.join [nl] (s :: s' :: r)) with (s ++ nl :: Py.join [nl] (s' :: r)).
    rewrite split_at_char by (apply Hall; left; reflexivity).
    rewrite IH; [reflexivity | discriminate |].
    intros x Hx. apply Hall. right. exact Hx.
Qed.

Lemma has_nonid_diff_values (pmsg msg : Message) :
  has_nonid_diff pmsg msg = false <->
  forall f, In f _nonid_fields_tracked -> get pmsg f = tracked_value msg f.
Proof.
  unfold has_nonid_diff.
  change (existsb _ _nonid_fields_tracked)
    with (existsb (fun f => negb (bool_decide (tracked_value msg f = get pmsg f)))
            _nonid_fields_tracked).
  split.
  - intros H f Hf. destruct (decide (tracked_value msg f = get pmsg f)) as [E | E];
      [symmetry; exact E|].
    exfalso. assert (Hex : existsb (fun f => negb (bool_decide (tracked_value msg f = get pmsg f)))
                           _nonid_fields_tracked = true).
    { apply existsb_exists. exists f. split; [exact Hf|].
      rewrite bool_decide_eq_false_2 by exact E. reflexivity. }
    congruence.
  - intros H. destruct (existsb _ _) eqn:E; [|reflexivity].
    apply existsb_exists in E as (f & Hf & E).
    rewrite bool_decide_eq_true_2 in E by (symmetry; apply H, Hf). discriminate.
Qed.

Lemma with_flags_sequence (m : Message) (t : asc_tuple) (f : field) :
  get_as_sequence (with_flags m t) f true = get_as_sequence m f true.
Proof. destruct f; reflexivity. Qed.

Lemma with_flags_get (m : Message) (t : asc_tuple) (f : field) :
  get (with_flags m t) f = get m f.
Proof. destruct f; reflexivity. Qed.

Lemma built_ext (amsg : Message) (S1 S2 : field -> list str) :
  (forall f, In f _nonid_fields_tracked -> S1 f = S2 f) ->
  built amsg S1 = built amsg S2.
Proof.
  intros H. unfold built. simpl.
  rewrite !H by (simpl; auto 10). reflexivity.
Qed.

Lemma built_base (a b : Message) (S0 : field -> list str) :
  msgctxt a = msgctxt b -> msgid a = msgid b -> built a S0 = built b S0.
Proof.
  intros H1 H2. unfold built, base_message. rewrite H1, H2. reflexivity.
Qed.

Lemma built_field (amsg : Message) (S0 : field -> list str) (f : field) :
  In f _nonid_fields_tracked ->
  (forall g, In g _nonid_fields_tracked -> g <> F_msgstr -> (length (S0 g) <= 1)%nat) ->
  get_as_sequence (built amsg S0) f true = S0 f.
Proof.
  intros Hf Hshort. unfold built. simpl in Hf.
  destruct Hf as [<- | [<- | [<- | [<- | [<- | [<- | []]]]]]];
    try reflexivity;
    match goal with
    | |- get_as_sequence _ ?f true = _ =>
        assert (Hlen : (length (S0 f) <= 1)%nat)
          by (apply Hshort; [simpl; auto 10 | discriminate])
    end;
    unfold get_as_sequence; simpl;
    (destruct (S0 _) as [|v [|v' l]]; simpl in *; try reflexivity; try lia).
  destruct (Py.split nl v) eqn:E; [exfalso; eapply split_nonempty; eauto|].
  rewrite <- E, join_split. reflexivity.
Qed.

(** Read as the decoder reads a record, the snapshot has the texts the
    write encoded. *)
Lemma snapshot_sequence (amsg msg : Message) (f : field) :
  In f _nonid_fields_tracked ->
  get_as_sequence (snapshot_of amsg msg) f true = get_as_sequence msg f false.
Proof.
  intros Hf. unfold snapshot_of. rewrite built_field; [reflexivity | exact Hf |].
  intros g Hg Hm. apply get_as_sequence_short; assumption.
Qed.

Lemma snapshot_rebuilt (amsg msg : Message) (t : asc_tuple) :
  built amsg (fun f => get_as_sequence (with_flags (snapshot_of amsg msg) t) f true) =
  snapshot_of amsg msg.
Proof.
  unfold snapshot_of at 2. apply built_ext. intros f Hf.
  rewrite with_flags_sequence. apply snapshot_sequence, Hf.
Qed.

(** The snapshot holds the live values of the tracked fields. *)
Lemma snapshot_value (amsg msg : Message) (f : field) :
  one_line_comments msg ->
  In f _nonid_fields_tracked ->
  get (snapshot_of amsg msg) f = tracked_value msg f.
Proof.
  intros Hone Hf. unfold snapshot_of, built, tracked_value. simpl in Hf.
  destruct Hf as [<- | [<- | [<- | [<- | [<- | [<- | []]]]]]];
    unfold get_as_sequence; simpl; rewrite ?andb_false_r, ?andb_true_r.
  - destruct (msgid_plural msg); reflexivity.
  - destruct (msgstr msg); reflexivity.
  - destruct (fuzzy msg); [|reflexivity]. destruct (msgctxt_previous msg); reflexivity.
  - destruct (fuzzy msg); [|reflexivity]. destruct (msgid_previous msg); reflexivity.
  - destruct (fuzzy msg); [|reflexivity].
    destruct (msgid_plural_previous msg); reflexivity.
  - unfold one_line_comments in Hone.
    destruct (manual_comment msg) as [|s l] eqn:E; [reflexivity|].
    cbv iota. f_equal. apply (split_join (s :: l)); [discriminate|].
    exact Hone.
Qed.

End Snapshots.

(** ** The comments of a write, parsed *)

Section WrittenLines.

Variable config : Config.

Lemma asc_parse_loop_app (l1 l2 : list str) (st : parse_state) :
  asc_parse_loop config st (l1 ++ l2) =
  (st' <- asc_parse_loop config st l1 ;; asc_parse_loop config st' l2).
Proof.
  revert st. induction l1 as [|c l1 IH]; intros st; [reflexivity|].
  cbn [asc_parse_loop app].
  destruct (asc_parse_comment config st c) as [st' | e |]; cbn [bind]; auto.
Qed.

Lemma state_after_app (st : parse_state) (ts1 ts2 : list asc_tuple) :
  state_after st (ts1 ++ ts2) = state_after (state_after st ts1) ts2.
Proof. apply fold_left_app. Qed.

Lemma state_after_ascripts (st : parse_state) (ts : list asc_tuple) :
  ascripts (state_after st ts) = ascripts st ++ ts.
Proof.
  revert st. induction ts as [|t ts IH]; intros st.
  - symmetry. apply app_nil_r.
  - change (state_after st (t :: ts))
      with (state_after (mkParseState (Some (t_isfuzz t)) (Some (t_isobs t))
                           (ascripts st ++ [t]) (warnings st)) ts).
    rewrite IH. cbn [ascripts]. rewrite <- app_assoc. reflexivity.
Qed.

Lemma state_after_flags (st : parse_state) (ts : list asc_tuple) (t : asc_tuple) :
  isfuzz (state_after st (ts ++ [t])) = Some (t_isfuzz t) /\
  isobs (state_after st (ts ++ [t])) = Some (t_isobs t).
Proof. rewrite state_after_app. split; reflexivity. Qed.

Lemma modstr_tail (modstr wsep : str) :
  match wsep with [] => modstr | _ => modstr ++ lit " | " ++ wsep end
  = modstr ++ comment_tail wsep.
Proof. destruct wsep; [symmetry; apply app_nil_r | reflexivity]. Qed.

Lemma written_block_no_bar (digits : str) (ob fz : bool) :
  forallb Py.isdigit digits = true -> ~ In "|"%char (written_block digits ob fz).
Proof.
  intros Hall. unfold written_block. rewrite !in_app_iff.
  intros [H | [H | H]].
  - revert H. apply digits_without; [reflexivity | exact Hall].
  - destruct ob; [|destruct H]. destruct H as [H | []]. discriminate.
  - destruct fz; [|destruct H]. destruct H as [H | []]. discriminate.
Qed.

(** One comment of a write, with the trailing block the writer composed,
    gives one tuple. *)
Lemma asc_parse_comment_written (st : parse_state)
    (atype atag user dtstr : str) (date : datetime)
    (nonid : bool) (seplen : Z) (ob fz : bool) :
  clean_text ":" atype -> ~ In "/"%char atype ->
  (atag = [] \/ clean_text ":" atag) ->
  clean_text "|" user -> str_in user (users config) = true ->
  clean_text "|" dtstr -> parse_datetime dtstr = Ok date ->
  0 <= seplen ->
  (atype = ATYPE_MOD \/ (isfuzz st <> None /\ isobs st <> None)) ->
  asc_parse_comment config st
    (comment_field atype atag ++ fld_sep ++ lit " "
     ++ (user ++ lit " | " ++ dtstr)
     ++ comment_tail (written_block (if nonid then Py.str_of_int seplen else []) ob fz))
  = Ok (state_after st
          [mkAsc user atype atag date (if nonid then seplen else 0)
             (flag_after atype (flag_or_false (isfuzz st)) fz)
             (flag_after atype (flag_or_false (isobs st)) ob)]).
Proof.
  intros Hty Hsl Htag Huser Hknown Hdt Hdate Hlen Hflags.
  set (digits := if nonid then Py.str_of_int seplen else []).
  assert (Hdig : forallb Py.isdigit digits = true).
  { unfold digits. destruct nonid; [|reflexivity].
    apply (str_of_int_digits seplen Hlen). }
  unfold asc_parse_comment.
  rewrite (asc_comment_head_written config atype atag user dtstr
             (written_block digits ob fz) date) by
    (try assumption; apply written_block_no_bar, Hdig).
  cbn [bind]. rewrite asc_comment_state_cases. cbv zeta.
  set (h := mkHead user atype atag date _).
  destruct (written_block_read h digits ob fz Hdig eq_refl) as (Hfz & Hob & Hd).
  rewrite (block_seplen_written h nonid seplen Hlen Hd), Hfz, Hob.
  cbn [h_type h]. unfold asc_append, state_after, flag_after. cbn [fold_left].
  cbn [h_user h_type h_tag h_date h].
  destruct Hflags as [-> | [Hf Ho]].
  - rewrite bool_decide_eq_true_2 by reflexivity.
    destruct fz, ob; reflexivity.
  - destruct (isfuzz st) as [pf|]; [|congruence].
    destruct (isobs st) as [po|]; [|congruence].
    destruct (bool_decide (atype = ATYPE_MOD)), fz, ob; reflexivity.
Qed.

Lemma asc_append_field_ascii (amsg : Message) (fld value : str) :
  forallb Py.is_ascii value = true ->
  asc_append_field amsg fld value =
  Ok (set_multiple amsg F_auto_comment
        (auto_comment amsg ++ [fld ++ fld_sep ++ lit " " ++ value])).
Proof.
  intros H. unfold asc_append_field, Py.str_of_text. rewrite H. reflexivity.
Qed.

Lemma asc_append_field_inv (amsg amsg' : Message) (fld value : str) :
  asc_append_field amsg fld value = Ok amsg' ->
  amsg' = set_multiple amsg F_auto_comment
            (auto_comment amsg ++ [fld ++ fld_sep ++ lit " " ++ value]).
Proof.
  unfold asc_append_field, Py.str_of_text.
  destruct (forallb Py.is_ascii value); cbn [bind]; [|discriminate].
  intros [= <-]. reflexivity.
Qed.

Lemma append_tag_lines_comments (amsg : Message) (atype : str) (atags : list str)
    (modstr_wsep modstr : str) (first : bool) :
  forallb Py.is_ascii modstr_wsep = true ->
  forallb Py.is_ascii modstr = true ->
  append_tag_lines amsg atype atags modstr_wsep modstr first =
  Ok (set_multiple amsg F_auto_comment
        (auto_comment amsg ++ tag_lines atype atags modstr_wsep modstr first)).
Proof.
  intros Hw Hm.
  revert amsg first. induction atags as [|atag rest IH]; intros amsg first.
  - destruct amsg. cbn. rewrite app_nil_r. reflexivity.
  - cbn [append_tag_lines tag_lines].
    rewrite asc_append_field_ascii by (destruct first; assumption).
    cbn [bind]. rewrite IH.
    cbn [set_multiple auto_comment].
    rewrite <- app_assoc. reflexivity.
Qed.

Lemma append_tag_lines_inv (amsg amsg' : Message) (atype : str) (atags : list str)
    (modstr_wsep modstr : str) (first : bool) :
  append_tag_lines amsg atype atags modstr_wsep modstr first = Ok amsg' ->
  amsg' = set_multiple amsg F_auto_comment
            (auto_comment amsg ++ tag_lines atype atags modstr_wsep modstr first).
Proof.
  revert amsg first. induction atags as [|atag rest IH]; intros amsg first.
  - intros [= <-]. destruct amsg. cbn. rewrite app_nil_r. reflexivity.
  - cbn [append_tag_lines tag_lines].
    destruct (asc_append_field amsg _ _) as [a1| |] eqn:E; cbn [bind];
      try discriminate.
    apply asc_append_field_inv in E. subst a1. intros H. apply IH in H.
    rewrite H. cbn [set_multiple auto_comment].
    rewrite <- app_assoc. reflexivity.
Qed.

Section OneWrite.

Variables (atype user dtstr : str) (date : datetime).
Hypothesis Htype : clean_text ":" atype.
Hypothesis Hslash : ~ In "/"%char atype.
Hypothesis Huser : clean_text "|" user.
Hypothesis Hknown : str_in user (users config) = true.
Hypothesis Hstamp : clean_text "|" dtstr.
Hypothesis Hdate : parse_datetime dtstr = Ok date.

(** The comments after the first one of a write. *)
Lemma asc_parse_tag_lines_rest (modstr_wsep : str) (atags : list str) :
  (forall atag, In atag atags -> atag = [] \/ clean_text ":" atag) ->
  forall st : parse_state,
    (atype = ATYPE_MOD \/ (isfuzz st <> None /\ isobs st <> None)) ->
    asc_parse_loop config st
      (tag_lines atype atags modstr_wsep (user ++ lit " | " ++ dtstr) false) =
    Ok (state_after st
          (tag_tuples user atype date atags 0 false false
             (flag_or_false (isfuzz st)) (flag_or_false (isobs st)))).
Proof.
  induction atags as [|atag rest IH]; intros Htags st Hflags; [reflexivity|].
  cbn [tag_lines asc_parse_loop tag_tuples].
  pose proof (asc_parse_comment_written st atype atag user dtstr date false 0 false false
                Htype Hslash (Htags atag (or_introl eq_refl)) Huser Hknown Hstamp Hdate
                (Z.le_refl 0) Hflags) as Hline.
  change (comment_tail (written_block [] false false)) with (@nil ascii) in Hline.
  rewrite app_nil_r in Hline. cbv iota in Hline. rewrite Hline. cbn [bind].
  rewrite IH.
  - reflexivity.
  - intros a Ha. apply Htags. right. exact Ha.
  - right. split; discriminate.
Qed.

(** All the comments of a write. *)
Lemma asc_parse_tag_lines (atags : list str) (nonid : bool) (seplen : Z)
    (ob fz : bool) (st : parse_state) :
  (forall atag, In atag atags -> atag = [] \/ clean_text ":" atag) ->
  0 <= seplen ->
  (atype = ATYPE_MOD \/ (isfuzz st <> None /\ isobs st <> None)) ->
  asc_parse_loop config st
    (tag_lines atype atags
       ((user ++ lit " | " ++ dtstr)
        ++ comment_tail (written_block (if nonid then Py.str_of_int seplen else [])
                           ob fz))
       (user ++ lit " | " ++ dtstr) true) =
  Ok (state_after st
        (tag_tuples user atype date atags (if nonid then seplen else 0) fz ob
           (flag_or_false (isfuzz st)) (flag_or_false (isobs st)))).
Proof.
  intros Htags Hlen Hflags. destruct atags as [|atag rest]; [reflexivity|].
  cbn [tag_lines asc_parse_loop tag_tuples].
  rewrite (asc_parse_comment_written st atype atag user dtstr date nonid seplen ob fz)
    by (try assumption; apply Htags; left; reflexivity).
  cbn [bind]. rewrite asc_parse_tag_lines_rest.
  - reflexivity.
  - intros a Ha. apply Htags. right. exact Ha.
  - right. split; discriminate.
Qed.

End OneWrite.

End WrittenLines.

(** ** Parts of a history *)

Section HistoryParts.

Lemma reconstructs_from_base (a b : Message) (prev : option Message)
    (P : list (asc_tuple * Message)) :
  msgctxt a = msgctxt b -> msgid a = msgid b ->
  reconstructs_from a prev P -> reconstructs_from b prev P.
Proof.
  intros H1 H2. revert prev. induction P as [|p P IH]; intros prev; [auto|].
  cbn [reconstructs_from]. rewrite (built_base a b) by assumption.
  intros [Hp Hrest]. split; [exact Hp | apply IH, Hrest].
Qed.

Lemma reconstructs_from_app (amsg : Message) (P1 P2 : list (asc_tuple * Message))
    (prev : option Message) :
  reconstructs_from amsg prev P1 ->
  reconstructs_from amsg
    (match last P1 with Some p => Some (snd p) | None => prev end) P2 ->
  reconstructs_from amsg prev (P1 ++ P2).
Proof.
  revert prev. induction P1 as [|p P1 IH]; intros prev H1 H2; [exact H2|].
  destruct H1 as [Hp Hrest]. cbn [app reconstructs_from]. split; [exact Hp|].
  apply IH; [exact Hrest|]. rewrite last_cons in H2.
  destruct (last P1); exact H2.
Qed.

Lemma reconstructs_chain (amsg prev : Message) (ts : list asc_tuple) :
  Forall (fun t => t_seplen t = 0) ts ->
  reconstructs_from amsg (Some prev) (chain_flags prev ts).
Proof.
  revert prev. induction ts as [|t ts IH]; intros prev Hall; [exact I|].
  inversion Hall as [|? ? Ht Hts]; subst.
  cbn [chain_flags reconstructs_from fst snd]. rewrite Ht. cbn [Z.eqb].
  split; [reflexivity | apply IH, Hts].
Qed.

Lemma tag_tuples_rest_zero (user atype : str) (date : datetime) (atags : list str)
    (pf po : bool) :
  Forall (fun t => t_seplen t = 0)
    (tag_tuples user atype date atags 0 false false pf po).
Proof.
  revert pf po. induction atags as [|atag rest IH]; intros pf po; constructor.
  - reflexivity.
  - apply IH.
Qed.

Lemma tag_tuples_zero (user atype : str) (date : datetime) (atags : list str)
    (fz ob pf po : bool) :
  Forall (fun t => t_seplen t = 0) (tag_tuples user atype date atags 0 fz ob pf po).
Proof.
  destruct atags as [|atag rest]; constructor; [reflexivity|].
  apply tag_tuples_rest_zero.
Qed.

Lemma pmods_chain_zero (prev : Message) (ts : list asc_tuple) :
  Forall (fun t => t_seplen t = 0) ts -> pmods (chain_flags prev ts) = [].
Proof.
  revert prev. induction ts as [|t ts IH]; intros prev Hall; [reflexivity|].
  inversion Hall as [|? ? Ht Hts]; subst.
  unfold pmods. cbn [chain_flags List.filter fst]. rewrite Ht. cbn [Z.eqb negb].
  apply (IH _ Hts).
Qed.

Lemma chain_flags_get (prev : Message) (ts : list asc_tuple) (p : asc_tuple * Message)
    (f : field) :
  In p (chain_flags prev ts) -> get (snd p) f = get prev f.
Proof.
  revert prev. induction ts as [|t ts IH]; intros prev; [intros []|].
  cbn [chain_flags]. intros [<- | Hin].
  - apply with_flags_get.
  - rewrite (IH _ Hin). apply with_flags_get.
Qed.

Lemma chain_flags_fst (prev : Message) (ts : list asc_tuple) :
  map fst (chain_flags prev ts) = ts.
Proof.
  revert prev. induction ts as [|t ts IH]; intros prev; [reflexivity|].
  cbn [chain_flags map fst]. rewrite IH. reflexivity.
Qed.

Lemma chronological_keys (l l' : list Ascription) :
  map date_key l = map date_key l' -> chronological l -> chronological l'.
Proof.
  revert l'. induction l as [|a l IH]; intros [|a' l'] E; try discriminate; [auto|].
  injection E as Ea El. intros [Hhead Hrest]. split.
  - destruct l as [|b l], l' as [|b' l']; try discriminate; [exact I|].
    injection El as Eb _. rewrite <- Ea, <- Eb. exact Hhead.
  - apply IH; assumption.
Qed.

Lemma entries_keys (amsg : Message) (P : list (asc_tuple * Message)) :
  map date_key (entries amsg P) = map (fun p => Datetime.utc (t_date (fst p))) P.
Proof. unfold entries. rewrite map_map. reflexivity. Qed.

Lemma chronological_app (l1 l2 : list Ascription) :
  chronological l1 -> chronological l2 ->
  (forall a b, last l1 = Some a -> head l2 = Some b -> date_key a <= date_key b) ->
  chronological (l1 ++ l2).
Proof.
  induction l1 as [|a l1 IH]; intros H1 H2 Hlink; [exact H2|].
  destruct H1 as [Hhead Hrest]. cbn [app chronological]. split.
  - destruct l1 as [|b l1].
    + destruct l2 as [|b l2]; [exact I|]. apply Hlink; reflexivity.
    + exact Hhead.
  - apply IH; [exact Hrest | exact H2 |].
    intros x y Hx Hy. apply Hlink; [|exact Hy].
    rewrite last_cons, Hx. reflexivity.
Qed.

Lemma chronological_same (k : Z) (l : list Ascription) :
  Forall (fun a => date_key a = k) l -> chronological l.
Proof.
  induction 1 as [|a l Ha Hl IH]; [exact I|]. split; [|exact IH].
  destruct l as [|b l]; [exact I|].
  inversion Hl; subst. lia.
Qed.

Lemma tag_tuples_date (user atype : str) (date : datetime) (atags : list str)
    (seplen : Z) (fz ob pf po : bool) :
  Forall (fun t => t_date t = date /\ t_user t = user /\ t_type t = atype)
    (tag_tuples user atype date atags seplen fz ob pf po).
Proof.
  revert seplen fz ob pf po.
  induction atags as [|atag rest IH]; intros seplen fz ob pf po; constructor.
  - repeat split.
  - apply IH.
Qed.

Lemma tag_tuples_tags (user atype : str) (date : datetime) (atags : list str)
    (seplen : Z) (fz ob pf po : bool) :
  map t_tag (tag_tuples user atype date atags seplen fz ob pf po) = atags.
Proof.
  revert seplen fz ob pf po.
  induction atags as [|atag rest IH]; intros seplen fz ob pf po; [reflexivity|].
  cbn [tag_tuples map t_tag]. rewrite IH. reflexivity.
Qed.

Lemma entries_chain_dates (amsg prev : Message) (date : datetime) (ts : list asc_tuple) :
  Forall (fun t => t_date t = date) ts ->
  Forall (fun a => date_key a = Datetime.utc date) (entries amsg (chain_flags prev ts)).
Proof.
  revert prev. induction ts as [|t ts IH]; intros prev Hall; [constructor|].
  inversion Hall as [|? ? Ht Hts]; subst. cbn [chain_flags entries map].
  constructor; [reflexivity | apply IH, Hts].
Qed.

Lemma write_pairs_offsets (prev : Message) (user atype : str) (date : datetime)
    (atags : list str) (seplen : Z) (fz ob pf po : bool) :
  Datetime.offset_ok date = true ->
  Forall (fun p => Datetime.offset_ok (t_date (fst p)) = true)
    (chain_flags prev (tag_tuples user atype date atags seplen fz ob pf po)).
Proof.
  intros Hoff.
  pose proof (tag_tuples_date user atype date atags seplen fz ob pf po) as Hd.
  revert prev Hd.
  generalize (tag_tuples user atype date atags seplen fz ob pf po) as ts.
  induction ts as [|t ts IH]; intros prev Hd; [constructor|].
  apply List.Forall_cons_iff in Hd as [(Ht & _) Hts]. cbn [chain_flags].
  constructor; [cbn [fst]; rewrite Ht; exact Hoff | apply IH, Hts].
Qed.

Lemma last_entries (amsg : Message) (P : list (asc_tuple * Message)) :
  last (entries amsg P) =
  match last P with
  | Some p => Some (entry_of amsg (fst p) (snd p))
  | None => None
  end.
Proof.
  destruct P as [|p P _] using rev_ind; [reflexivity|].
  unfold entries. rewrite map_app. cbn [map]. rewrite !last_snoc. reflexivity.
Qed.

Lemma tags_or_default_cons (atags : list str) :
  exists atag rest, tags_or_default atags = atag :: rest.
Proof. destruct atags as [|a r]; [exists [], [] | exists a, r]; reflexivity. Qed.

Lemma tags_or_default_ok (atags : list str) :
  (forall atag, In atag atags -> atag = [] \/ clean_text ":" atag) ->
  forall atag, In atag (tags_or_default atags) -> atag = [] \/ clean_text ":" atag.
Proof.
  intros H. destruct atags as [|a r]; [|exact H].
  intros atag [<- | []]. left. reflexivity.
Qed.

End HistoryParts.

(** ** Time stamps as they are written *)

Section Stamps.

Lemma pad2_digits (n : Z) :
  0 <= n -> Datetime.pad2 n <> [] /\ forallb Py.isdigit (Datetime.pad2 n) = true.
Proof.
  intros Hn. destruct (str_of_int_digits n Hn) as (Hne & Hall & _).
  unfold Datetime.pad2. destruct (n <? 10); [|auto].
  split; [discriminate|]. simpl. exact Hall.
Qed.

Lemma clean_between (c : ascii) (a mid b : str) :
  a <> [] -> b <> [] ->
  forallb Py.isdigit a = true -> forallb Py.isdigit b = true ->
  Py.isdigit c = false -> ~ In c mid ->
  clean_text c (a ++ mid ++ b).
Proof.
  intros Ha Hb Hda Hdb Hc Hmid. split; [|split].
  - destruct a; [congruence | discriminate].
  - apply visible_ends_iff. split.
    + intros x t E. destruct a as [|y a]; [congruence|].
      injection E as <- _. apply isdigit_not_space.
      simpl in Hda. apply andb_true_iff in Hda. tauto.
    + intros t d E. destruct (exists_last Hb) as (b' & d' & ->).
      rewrite !app_assoc in E. apply app_inj_tail in E as [_ <-].
      apply isdigit_not_space. rewrite forallb_app in Hdb.
      apply andb_true_iff in Hdb as [_ Hd]. simpl in Hd.
      rewrite andb_true_r in Hd. exact Hd.
  - rewrite !in_app_iff. intros [H | [H | H]]; [| auto |];
      revert H; apply digits_without; assumption.
Qed.

(** The text of a valid time stamp can stand between the bars of a
    comment. *)
Lemma format_datetime_clean (dt : datetime) (s : str) :
  Datetime.valid dt = true -> format_datetime dt = Ok s -> clean_text "|" s.
Proof.
  unfold Datetime.valid, format_datetime, Datetime.strftime.
  rewrite !andb_true_iff, !Z.leb_le, !Z.ltb_lt.
  intros Hv. destruct (dt_year dt <? 1900); [discriminate|].
  assert (Hoff : Datetime.offset_ok dt = true)
    by (unfold Datetime.offset_ok; rewrite andb_true_iff, !Z.ltb_lt; lia).
  rewrite Hoff. cbn [negb]. intros [= <-].
  destruct (str_of_int_digits (dt_year dt)) as (Hy & Hyd & _); [lia|].
  destruct (pad2_digits (dt_month dt)) as (_ & Hmo); [lia|].
  destruct (pad2_digits (dt_day dt)) as (_ & Hda); [lia|].
  destruct (pad2_digits (dt_hour dt)) as (_ & Hho); [lia|].
  destruct (pad2_digits (dt_minute dt)) as (_ & Hmi); [lia|].
  destruct (pad2_digits (dt_second dt)) as (_ & Hse); [lia|].
  destruct (pad2_digits (Z.abs (dt_utcoffset dt) / 60)) as (_ & Hoh);
    [apply Z.div_pos; lia|].
  destruct (pad2_digits (Z.abs (dt_utcoffset dt) mod 60)) as (Hom & Homd);
    [apply Z.mod_pos_bound; lia|].
  match goal with
  | |- clean_text _ (?y ++ ?a :: ?mo ++ ?b :: ?da ++ ?c :: ?ho ++ ?d :: ?mi ++ ?e
                      :: ?se ++ ?sg ++ ?oh ++ ?om) =>
      replace (y ++ a :: mo ++ b :: da ++ c :: ho ++ d :: mi ++ e :: se ++ sg ++ oh ++ om)
        with (y ++ (a :: mo ++ b :: da ++ c :: ho ++ d :: mi ++ e :: se ++ sg ++ oh) ++ om)
        by (repeat first [rewrite <- app_comm_cons | rewrite <- app_assoc];
            reflexivity)
  end.
  apply clean_between; try assumption; [reflexivity|].
  intros H.
  repeat (first [ apply in_app_or in H | apply in_inv in H ]; destruct H as [H | H]);
    try discriminate H;
    try (revert H; apply digits_without; [reflexivity | assumption]).
  destruct (dt_utcoffset dt <? 0); destruct H as [H | []]; discriminate.
Qed.

Lemma valid_offset_ok (dt : datetime) :
  Datetime.valid dt = true -> Datetime.offset_ok dt = true.
Proof.
  unfold Datetime.valid, Datetime.offset_ok.
  rewrite !andb_true_iff. tauto.
Qed.

Lemma valid_constructible (dt : datetime) :
  Datetime.valid dt = true -> Datetime.constructible dt = true.
Proof.
  unfold Datetime.valid, Datetime.constructible.
  rewrite !andb_true_iff. tauto.
Qed.

Lemma digits_ascii (ds : str) :
  forallb Py.isdigit ds = true -> forallb Py.is_ascii ds = true.
Proof.
  intros H. rewrite forallb_forall in H |- *. intros c Hc. specialize (H c Hc).
  unfold Py.isdigit in H. apply andb_true_iff in H as [_ H].
  apply Nat.leb_le in H. unfold Py.is_ascii. apply Nat.ltb_lt. lia.
Qed.

(** The text of a valid time stamp is made of ASCII characters. *)
Lemma format_datetime_ascii (dt : datetime) (s : str) :
  Datetime.valid dt = true -> format_datetime dt = Ok s ->
  forallb Py.is_ascii s = true.
Proof.
  unfold Datetime.valid, format_datetime, Datetime.strftime.
  rewrite !andb_true_iff, !Z.leb_le, !Z.ltb_lt.
  intros Hv. destruct (dt_year dt <? 1900); [discriminate|].
  destruct (negb (Datetime.offset_ok dt)); [discriminate|]. intros [= <-].
  destruct (str_of_int_digits (dt_year dt)) as (_ & Hyd & _); [lia|].
  destruct (pad2_digits (dt_month dt)) as (_ & Hmo); [lia|].
  destruct (pad2_digits (dt_day dt)) as (_ & Hda); [lia|].
  destruct (pad2_digits (dt_hour dt)) as (_ & Hho); [lia|].
  destruct (pad2_digits (dt_minute dt)) as (_ & Hmi); [lia|].
  destruct (pad2_digits (dt_second dt)) as (_ & Hse); [lia|].
  destruct (pad2_digits (Z.abs (dt_utcoffset dt) / 60)) as (_ & Hoh);
    [apply Z.div_pos; lia|].
  destruct (pad2_digits (Z.abs (dt_utcoffset dt) mod 60)) as (_ & Homd);
    [apply Z.mod_pos_bound; lia|].
  repeat match goal with
         | |- context [forallb Py.is_ascii (_ ++ _)] => rewrite forallb_app
         | |- context [forallb Py.is_ascii (?c :: ?l)] =>
             change (forallb Py.is_ascii (c :: l))
               with (Py.is_ascii c && forallb Py.is_ascii l)
         end.
  rewrite (digits_ascii _ Hyd), (digits_ascii _ Hmo), (digits_ascii _ Hda),
    (digits_ascii _ Hho), (digits_ascii _ Hmi), (digits_ascii _ Hse),
    (digits_ascii _ Hoh), (digits_ascii _ Homd).
  destruct (dt_utcoffset dt <? 0); reflexivity.
Qed.

End Stamps.

(** ** One write on a record *)

Section WriteStep.

Variable config : Config.

Lemma record_parse (amsg : Message) (P : list (asc_tuple * Message)) :
  record_of config amsg P -> asc_parse_ascriptions amsg config = Ok (map fst P).
Proof.
  intros (Hp & _). unfold asc_parse_ascriptions, asc_parse_ascriptions_w.
  rewrite Hp. cbn [bind fst]. rewrite state_after_ascripts. reflexivity.
Qed.

(** The history the decoder gives for a record. *)
Lemma record_history (amsg : Message) (P : list (asc_tuple * Message)) :
  record_of config amsg P ->
  asc_collect_history_single amsg config = Ok (rev (entries amsg P)).
Proof.
  intros Hrec. pose proof (record_parse amsg P Hrec) as Hparse.
  destruct Hrec as (_ & Hblobs & Hsafe & Hr & Hc & Hoff).
  apply asc_collect_history_single_reconstructs; assumption.
Qed.

Lemma state_after_last (P : list (asc_tuple * Message)) :
  flag_or_false (isfuzz (state_after parse_state_init (map fst P))) =
    match last P with Some p => t_isfuzz (fst p) | None => false end /\
  flag_or_false (isobs (state_after parse_state_init (map fst P))) =
    match last P with Some p => t_isobs (fst p) | None => false end /\
  (P <> [] ->
   isfuzz (state_after parse_state_init (map fst P)) <> None /\
   isobs (state_after parse_state_init (map fst P)) <> None).
Proof.
  destruct P as [|p P _] using rev_ind.
  - repeat split; congruence.
  - rewrite map_app, last_snoc. cbn [map].
    destruct (state_after_flags parse_state_init (map fst P) (fst p)) as [-> ->].
    repeat split; discriminate.
Qed.

Lemma newest_differs (amsg : Message) (P : list (asc_tuple * Message)) (msg : Message) :
  match rev (entries amsg P) with
  | last :: _ =>
      (negb (bool_decide (state (a_msg last) = state msg)),
       has_nonid_diff (a_msg last) msg)
  | [] => (true, true)
  end = (differs_state P msg, differs_nonid P msg).
Proof.
  unfold differs_state, differs_nonid.
  destruct P as [|p P _] using rev_ind; [reflexivity|].
  unfold entries. rewrite map_app, rev_app_distr, last_snoc. reflexivity.
Qed.

Lemma written_block_ascii (digits : str) (ob fz : bool) :
  forallb Py.isdigit digits = true ->
  forallb Py.is_ascii (written_block digits ob fz) = true.
Proof.
  intros H. unfold written_block. rewrite !forallb_app, (digits_ascii _ H).
  destruct ob, fz; reflexivity.
Qed.

Lemma comment_tail_ascii (wsep : str) :
  forallb Py.is_ascii wsep = true -> forallb Py.is_ascii (comment_tail wsep) = true.
Proof.
  intros H. unfold comment_tail. destruct wsep as [|c w]; [reflexivity|].
  rewrite forallb_app, H. reflexivity.
Qed.

(** [ascribe_msg_any] on a record, spelled out. *)
Lemma ascribe_amsg_on_record (amsg : Message) (P : list (asc_tuple * Message))
    (msg : Message) (atype : str) (atags : list str) (user : str)
    (dt : datetime) (dtstr : str) (seplen : Z) :
  record_of config amsg P ->
  forallb Py.is_ascii user = true ->
  format_datetime dt = Ok dtstr ->
  forallb Py.is_ascii dtstr = true ->
  needed_separator_length msg = Ok seplen ->
  0 <= seplen ->
  ascribe_amsg msg amsg atype atags user config dt =
  Ok (set_obsolete
        (set_fuzzy
           (if differs_nonid P msg
            then add_nonid
                   (set_multiple amsg F_auto_comment
                      (auto_comment amsg
                       ++ write_lines P msg atype atags user dtstr seplen))
                   msg seplen (entries amsg P)
            else set_multiple amsg F_auto_comment
                   (auto_comment amsg
                    ++ write_lines P msg atype atags user dtstr seplen))
           (fuzzy msg))
        (obsolete msg)).
Proof.
  intros Hrec Hua Hfmt Hda Hsep Hlen. unfold ascribe_amsg.
  rewrite (record_history amsg P Hrec). cbn [bind]. cbv zeta.
  rewrite !rev_involutive.
  match goal with
  | |- context [match ?m with (_, _) => _ end] =>
      replace m with (differs_state P msg, differs_nonid P msg)
        by (symmetry; apply newest_differs)
  end.
  rewrite Hfmt. cbn [bind].
  assert (Hmod : forallb Py.is_ascii (user ++ lit " | " ++ dtstr) = true)
    by (rewrite !forallb_app, Hua, Hda; reflexivity).
  assert (Hblock : forall (nonid ob fz : bool),
            forallb Py.is_ascii
              ((user ++ lit " | " ++ dtstr)
               ++ comment_tail
                    (written_block (if nonid then Py.str_of_int seplen else []) ob fz))
            = true).
  { intros nonid ob fz. rewrite forallb_app, Hmod. cbn [andb].
    apply comment_tail_ascii, written_block_ascii.
    destruct nonid; [|reflexivity]. apply (str_of_int_digits seplen Hlen). }
  unfold write_lines, write_block, differs, tags_or_default.
  destruct (differs_nonid P msg) eqn:E.
  - cbn [orb andb]. rewrite Hsep. cbn [bind].
    rewrite modstr_tail.
    rewrite append_tag_lines_comments
      by (first [exact Hmod | exact (Hblock true (obsolete msg) (fuzzy msg))]).
    reflexivity.
  - cbn [orb]. rewrite andb_false_r. cbn [bind].
    destruct (differs_state P msg).
    + cbn [andb]. rewrite modstr_tail.
      rewrite append_tag_lines_comments
        by (first [exact Hmod | exact (Hblock false (obsolete msg) (fuzzy msg))]).
      reflexivity.
    + cbn [andb]. rewrite append_tag_lines_comments by exact Hmod.
      change (comment_tail (written_block [] false false)) with (@nil ascii).
      rewrite app_nil_r. reflexivity.
Qed.

Lemma flags_sequence (m : Message) (b c : bool) (f : field) :
  get_as_sequence (set_obsolete (set_fuzzy m b) c) f true = get_as_sequence m f true.
Proof. destruct f; reflexivity. Qed.

Lemma comments_sequence (m : Message) (l : list str) (f : field) :
  In f _nonid_fields_tracked ->
  get_as_sequence (set_multiple m F_auto_comment l) f true = get_as_sequence m f true.
Proof.
  simpl. intros [<- | [<- | [<- | [<- | [<- | [<- | []]]]]]]; reflexivity.
Qed.

(** A well-formed write on a record gives the record of the ascriptions
    with those of the write added. *)
Lemma ascribe_amsg_record (amsg : Message) (P : list (asc_tuple * Message))
    (msg : Message) (atype : str) (atags : list str) (user : str)
    (dt : datetime) (dtstr : str) (date : datetime) :
  record_of config amsg P ->
  clean_text ":" atype -> ~ In "/"%char atype ->
  (forall atag, In atag atags -> atag = [] \/ clean_text ":" atag) ->
  clean_text "|" user -> forallb Py.is_ascii user = true ->
  str_in user (users config) = true ->
  format_datetime dt = Ok dtstr -> clean_text "|" dtstr ->
  forallb Py.is_ascii dtstr = true ->
  parse_datetime dtstr = Ok date -> Datetime.offset_ok date = true ->
  (atype = ATYPE_MOD \/ P <> []) ->
  (forall p, last P = Some p -> Datetime.utc (t_date (fst p)) <= Datetime.utc date) ->
  exists (seplen : Z) (amsg' : Message),
    needed_separator_length msg = Ok seplen /\
    ascribe_amsg msg amsg atype atags user config dt = Ok amsg' /\
    record_of config amsg'
      (P ++ write_pairs amsg P msg atype atags user date seplen) /\
    msgctxt amsg' = msgctxt amsg /\ msgid amsg' = msgid amsg /\
    auto_comment amsg' =
      auto_comment amsg ++ write_lines P msg atype atags user dtstr seplen /\
    (differs_nonid P msg = false ->
     forall f, In f _nonid_fields_tracked -> get amsg' f = get amsg f).
Proof.
  intros Hrec Hty Hsl Htags Huser Hua Hknown Hfmt Hstamp Hda Hdate Hoff Hfirst Hlater.
  destruct (needed_separator_length_loop_total msg (S (longest (tracked_values msg))))
    as (L & HL & H1 & Hsep & _); [lia|].
  change (needed_separator_length msg = Ok L) in HL.
  exists L. eexists. split; [exact HL|].
  split; [apply (ascribe_amsg_on_record amsg P msg atype atags user dt dtstr L);
          try assumption; lia|].
  set (lines := write_lines P msg atype atags user dtstr L).
  set (amsg1 := set_multiple amsg F_auto_comment (auto_comment amsg ++ lines)).
  set (pairs := write_pairs amsg P msg atype atags user date L).
  assert (Hac : auto_comment
                  (set_obsolete
                     (set_fuzzy
                        (if differs_nonid P msg
                         then add_nonid amsg1 msg L (entries amsg P) else amsg1)
                        (fuzzy msg)) (obsolete msg))
                = auto_comment amsg ++ lines)
    by (destruct (differs_nonid P msg); reflexivity).
  assert (Hctx : msgctxt
                  (set_obsolete
                     (set_fuzzy
                        (if differs_nonid P msg
                         then add_nonid amsg1 msg L (entries amsg P) else amsg1)
                        (fuzzy msg)) (obsolete msg))
                = msgctxt amsg)
    by (destruct (differs_nonid P msg); reflexivity).
  assert (Hid : msgid
                  (set_obsolete
                     (set_fuzzy
                        (if differs_nonid P msg
                         then add_nonid amsg1 msg L (entries amsg P) else amsg1)
                        (fuzzy msg)) (obsolete msg))
                = msgid amsg)
    by (destruct (differs_nonid P msg); reflexivity).
  destruct (tags_or_default_cons atags) as (atag0 & rest & Htd).
  pose proof (state_after_last P) as (Hpf & Hpo & Hsome).
  destruct Hrec as (Hparse & Hblobs & Hsafe & Hr & Hc & Hoffs).
  assert (Hpm : pmods pairs =
                if differs_nonid P msg
                then [(L, with_flags (snapshot_of amsg msg)
                            (mkAsc user atype atag0 date L
                               (flag_after atype
                                  (match last P with
                                   | Some p => t_isfuzz (fst p) | None => false end)
                                  (differs P msg && fuzzy msg))
                               (flag_after atype
                                  (match last P with
                                   | Some p => t_isobs (fst p) | None => false end)
                                  (differs P msg && obsolete msg))))]
                else []).
  { unfold pairs, write_pairs. destruct (differs_nonid P msg).
    - rewrite Htd. cbn [tag_tuples chain_flags]. unfold pmods.
      cbn [List.filter fst t_seplen].
      replace (L =? 0) with false by (symmetry; apply Z.eqb_neq; lia).
      cbn [negb map fst snd t_seplen]. f_equal.
      apply pmods_chain_zero, tag_tuples_rest_zero.
    - apply pmods_chain_zero, tag_tuples_zero. }
  split; [|split; [exact Hctx | split; [exact Hid | split; [exact Hac|]]]].
  - split; [|split; [|split; [|split; [|split]]]].
    + rewrite Hac, asc_parse_loop_app, Hparse. cbn [bind].
      unfold lines, write_lines, write_block.
      rewrite (asc_parse_tag_lines config atype user dtstr date Hty Hsl Huser Hknown
                 Hstamp Hdate);
        [| apply tags_or_default_ok, Htags | lia
         | destruct Hfirst as [-> | Hne]; [left; reflexivity | right; apply Hsome, Hne]].
      rewrite map_app, state_after_app. unfold pairs, write_pairs.
      rewrite chain_flags_fst, Hpf, Hpo. reflexivity.
    + intros f Hf. rewrite flags_sequence, pmods_app, Hpm.
      destruct (differs_nonid P msg).
      * rewrite add_nonid_field by exact Hf. unfold amsg1.
        rewrite comments_sequence by exact Hf. rewrite Hblobs by exact Hf.
        rewrite <- (mods_of_entries amsg P).
        apply add_nonid_items_blobs.
        rewrite with_flags_sequence. apply snapshot_sequence, Hf.
      * rewrite app_nil_r. unfold amsg1.
        rewrite comments_sequence by exact Hf. apply Hblobs, Hf.
    + rewrite pmods_app, Hpm. unfold separators_safe. apply Forall_app. split; [exact Hsafe|].
      destruct (differs_nonid P msg); constructor; [|constructor].
      cbn [fst snd]. intros f v Hf Hv.
      rewrite with_flags_sequence, snapshot_sequence in Hv by exact Hf.
      apply (encoded_marker_safe msg L v Hsep).
      unfold encoded_values. apply in_flat_map. exists f. split; assumption.
    + apply (reconstructs_from_base amsg); [symmetry; exact Hctx | symmetry; exact Hid |].
      apply reconstructs_from_app; [exact Hr|].
      unfold pairs, write_pairs. destruct (differs_nonid P msg) eqn:E.
      * rewrite Htd. cbn [tag_tuples chain_flags reconstructs_from fst snd t_seplen].
        replace (L =? 0) with false by (symmetry; apply Z.eqb_neq; lia).
        split; [rewrite snapshot_rebuilt; reflexivity|].
        apply reconstructs_chain, tag_tuples_rest_zero.
      * unfold differs_nonid in E. destruct (last P) as [p|]; [|discriminate E].
        apply reconstructs_chain, tag_tuples_zero.
    + apply (chronological_keys (entries amsg (P ++ pairs)));
        [rewrite !entries_keys; reflexivity|].
      unfold entries. rewrite map_app. fold (entries amsg P). fold (entries amsg pairs).
      assert (Hsame : Forall (fun a => date_key a = Datetime.utc date) (entries amsg pairs)).
      { unfold pairs, write_pairs. apply entries_chain_dates.
        eapply List.Forall_impl; [|apply tag_tuples_date]. intros t Ht. apply Ht. }
      apply chronological_app; [exact Hc | eapply chronological_same, Hsame |].
      intros a b Ha Hb. rewrite last_entries in Ha.
      destruct (last P) as [p|] eqn:El; [|discriminate Ha]. injection Ha as <-.
      destruct (entries amsg pairs) as [|b' l]; [discriminate Hb|]. injection Hb as ->.
      inversion Hsame as [|? ? Hb _]; subst. rewrite Hb.
      apply (Hlater p eq_refl).
    + apply List.Forall_app. split; [exact Hoffs|].
      unfold pairs, write_pairs. apply write_pairs_offsets. exact Hoff.
  - intros E f Hf. rewrite E. simpl in Hf.
    destruct Hf as [<- | [<- | [<- | [<- | [<- | [<- | []]]]]]]; reflexivity.
Qed.

End WriteStep.

(** ** Sequences of writes on one record *)

Section Writes.

Variable config : Config.

Lemma write_pairs_base (a b : Message) (P : list (asc_tuple * Message))
    (msg : Message) (atype : str) (atags : list str) (user : str)
    (date : datetime) (seplen : Z) :
  msgctxt a = msgctxt b -> msgid a = msgid b ->
  write_pairs a P msg atype atags user date seplen =
  write_pairs b P msg atype atags user date seplen.
Proof.
  intros H1 H2. unfold write_pairs, snapshot_of, base_message.
  rewrite (built_base a b), H1, H2 by assumption. reflexivity.
Qed.

Lemma record_after_base (a b : Message) (ws : list write)
    (P : list (asc_tuple * Message)) :
  msgctxt a = msgctxt b -> msgid a = msgid b ->
  record_after a P ws = record_after b P ws.
Proof.
  intros H1 H2. revert P. induction ws as [|w ws IH]; intros P; [reflexivity|].
  cbn [record_after]. rewrite (write_pairs_base a b) by assumption. apply IH.
Qed.

Lemma write_pairs_cons (amsg : Message) (P : list (asc_tuple * Message))
    (msg : Message) (atype : str) (atags : list str) (user : str)
    (date : datetime) (seplen : Z) :
  write_pairs amsg P msg atype atags user date seplen <> [].
Proof.
  unfold write_pairs. destruct (tags_or_default_cons atags) as (a & r & ->).
  discriminate.
Qed.

Lemma write_pairs_date (amsg : Message) (P : list (asc_tuple * Message))
    (msg : Message) (atype : str) (atags : list str) (user : str)
    (date : datetime) (seplen : Z) (p : asc_tuple * Message) :
  In p (write_pairs amsg P msg atype atags user date seplen) ->
  t_date (fst p) = date.
Proof.
  intros Hin. apply (in_map fst) in Hin. unfold write_pairs in Hin.
  rewrite chain_flags_fst in Hin.
  pose proof (tag_tuples_date user atype date (tags_or_default atags)
                (if differs_nonid P msg then seplen else 0)
                (differs P msg && fuzzy msg) (differs P msg && obsolete msg)
                (match last P with Some p => t_isfuzz (fst p) | None => false end)
                (match last P with Some p => t_isobs (fst p) | None => false end))
    as Hall.
  rewrite List.Forall_forall in Hall. apply (Hall _ Hin).
Qed.

Lemma last_In {A} (l : list A) (x : A) : last l = Some x -> In x l.
Proof.
  destruct l as [|y l _] using rev_ind; [discriminate|].
  rewrite last_snoc. intros [= ->]. apply in_or_app. right. left. reflexivity.
Qed.

Lemma read_back_stamp (dt : datetime) :
  Datetime.valid dt = true -> read_back dt = Ok dt ->
  exists dtstr, format_datetime dt = Ok dtstr /\ clean_text "|" dtstr /\
                parse_datetime dtstr = Ok dt.
Proof.
  intros Hv. unfold read_back.
  destruct (format_datetime dt) as [s | e |] eqn:E; cbn [bind]; try discriminate.
  intros Hp. exists s. split; [reflexivity|]. split; [|exact Hp].
  apply (format_datetime_clean dt s Hv E).
Qed.

(** Well-formed writes in the order of their time stamps, made on a
    record, give the record of all the ascriptions. *)
Lemma ascribe_amsg_all_record (ws : list write) :
  forall (amsg : Message) (P : list (asc_tuple * Message)),
    record_of config amsg P ->
    Forall (well_formed config) ws -> in_time_order ws ->
    (forall p w, last P = Some p -> head ws = Some w ->
       Datetime.utc (t_date (fst p)) <= Datetime.utc (w_date w)) ->
    (P = [] -> forall w, head ws = Some w -> w_type w = ATYPE_MOD) ->
    exists amsg',
      ascribe_amsg_all config amsg ws = Ok amsg' /\
      record_of config amsg' (record_after amsg P ws) /\
      msgctxt amsg' = msgctxt amsg /\ msgid amsg' = msgid amsg.
Proof.
  induction ws as [|w rest IH]; intros amsg P Hrec Hwf Horder Hlink Hfirst.
  - exists amsg. split; [reflexivity|]. split; [exact Hrec|]. split; reflexivity.
  - inversion Hwf as [|? ? Hw Hrest]; subst.
    destruct Hw as (Hty & Hsl & Htags & Huser & Hknown & Hvalid & Hback & _ & Hua).
    destruct (read_back_stamp (w_date w) Hvalid Hback) as (dtstr & Hfmt & Hclean & Hparse).
    destruct (ascribe_amsg_record config amsg P (w_msg w) (w_type w) (w_tags w)
                (w_user w) (w_date w) dtstr (w_date w) Hrec Hty Hsl Htags Huser Hua
                Hknown Hfmt Hclean (format_datetime_ascii _ _ Hvalid Hfmt) Hparse
                (valid_offset_ok _ Hvalid))
      as (L & amsg1 & HL & Hasc & Hrec1 & Hctx & Hid & _).
    { destruct P as [|p P]; [left; apply Hfirst; reflexivity | right; discriminate]. }
    { intros p Hp. apply (Hlink p w Hp eq_refl). }
    assert (Hsl' : seplen_of (w_msg w) = L) by (unfold seplen_of; rewrite HL; reflexivity).
    destruct Horder as [Hnext Horder].
    destruct (IH amsg1
                (P ++ write_pairs amsg P (w_msg w) (w_type w) (w_tags w) (w_user w)
                        (w_date w) L) Hrec1 Hrest Horder)
      as (amsg' & Hall & Hrec' & Hctx' & Hid').
    + intros p w' Hp Hw'. rewrite last_app in Hp.
      destruct (last (write_pairs amsg P (w_msg w) (w_type w) (w_tags w) (w_user w)
                        (w_date w) L)) as [q|] eqn:El.
      * injection Hp as <-. apply last_In, write_pairs_date in El. rewrite El.
        destruct rest as [|w'' rest]; [discriminate|]. injection Hw' as <-. exact Hnext.
      * exfalso. apply last_None in El. revert El. apply write_pairs_cons.
    + intros E. apply app_eq_nil in E as [_ E]. exfalso. revert E. apply write_pairs_cons.
    + exists amsg'. cbn [ascribe_amsg_all record_after]. rewrite Hasc. cbn [bind].
      rewrite Hsl', (record_after_base amsg amsg1) by (symmetry; assumption).
      split; [exact Hall|]. split; [exact Hrec'|]. split; congruence.
Qed.

Lemma records_chain (amsg base : Message) (w : write) (atags : list str)
    (seplen : Z) (fz ob pf po : bool) :
  (forall f, In f _nonid_fields_tracked -> get base f = tracked_value (w_msg w) f) ->
  Forall2 records (map (pair w) atags)
    (entries amsg
       (chain_flags base
          (tag_tuples (w_user w) (w_type w) (w_date w) atags seplen fz ob pf po))).
Proof.
  revert base seplen fz ob pf po.
  induction atags as [|atag rest IH]; intros base seplen fz ob pf po Hbase;
    [constructor|].
  cbn [map tag_tuples chain_flags entries]. constructor.
  - unfold records. cbn. repeat split. intros f Hf.
    rewrite with_flags_get. apply Hbase, Hf.
  - apply IH. intros f Hf. rewrite with_flags_get. apply Hbase, Hf.
Qed.

(** The ascriptions a write adds record the write. *)
Lemma records_write_pairs (amsg : Message) (P : list (asc_tuple * Message))
    (w : write) (seplen : Z) :
  one_line_comments (w_msg w) ->
  Forall2 records (map (pair w) (tags_or_default (w_tags w)))
    (entries amsg
       (write_pairs amsg P (w_msg w) (w_type w) (w_tags w) (w_user w) (w_date w)
          seplen)).
Proof.
  intros Hone. unfold write_pairs. apply records_chain. intros f Hf.
  destruct (differs_nonid P (w_msg w)) eqn:E.
  - apply snapshot_value; assumption.
  - unfold differs_nonid in E. destruct (last P) as [p|]; [|discriminate E].
    apply has_nonid_diff_values; assumption.
Qed.

Lemma record_after_records (amsg : Message) (ws : list write) :
  Forall (well_formed config) ws ->
  forall (P : list (asc_tuple * Message)) (ws0 : list write),
    Forall2 records (write_tags ws0) (entries amsg P) ->
    Forall2 records (write_tags (ws0 ++ ws)) (entries amsg (record_after amsg P ws)).
Proof.
  induction 1 as [|w rest Hw Hrest IH]; intros P ws0 HP.
  - rewrite app_nil_r. exact HP.
  - cbn [record_after].
    replace (ws0 ++ w :: rest) with ((ws0 ++ [w]) ++ rest)
      by (rewrite <- app_assoc; reflexivity).
    apply IH. unfold write_tags. rewrite flat_map_app. cbn [flat_map].
    rewrite app_nil_r. unfold entries. rewrite map_app.
    apply Forall2_app; [exact HP|].
    apply records_write_pairs. apply Hw.
Qed.

Lemma records_rmsg (a b : Message) (wts : list (write * str))
    (P : list (asc_tuple * Message)) :
  Forall2 records wts (entries a P) -> Forall2 records wts (entries b P).
Proof.
  revert wts. induction P as [|p P IH]; intros wts H; inversion H; subst;
    constructor; [assumption | apply IH; assumption].
Qed.

(** Well-formed writes in the order of their time stamps on a record
    without ascriptions, the first a modification: the history read back
    from the record has, oldest first, what every write recorded. *)
Lemma ascribe_amsg_all_history (amsg : Message) (ws : list write) :
  record_of config amsg [] ->
  Forall (well_formed config) ws -> in_time_order ws ->
  (forall w, head ws = Some w -> w_type w = ATYPE_MOD) ->
  exists amsg' history,
    ascribe_amsg_all config amsg ws = Ok amsg' /\
    msgctxt amsg' = msgctxt amsg /\ msgid amsg' = msgid amsg /\
    record_of config amsg' (record_after amsg [] ws) /\
    asc_collect_history_single amsg' config = Ok history /\
    history = rev (entries amsg' (record_after amsg [] ws)) /\
    Forall2 records (write_tags ws) (rev history).
Proof.
  intros Hrec Hwf Horder Hfirst.
  destruct (ascribe_amsg_all_record ws amsg [] Hrec Hwf Horder)
    as (amsg' & Hall & Hrec' & Hctx & Hid).
  { intros p w Hp. discriminate Hp. }
  { intros _. exact Hfirst. }
  exists amsg', (rev (entries amsg' (record_after amsg [] ws))).
  split; [exact Hall|]. split; [exact Hctx|]. split; [exact Hid|].
  split; [exact Hrec'|].
  split; [apply (record_history config), Hrec'|]. split; [reflexivity|].
  rewrite rev_involutive. apply (records_rmsg amsg).
  apply (record_after_records amsg ws Hwf [] []). constructor.
Qed.

End Writes.

(** ** Writes through the ascription catalog *)

Section CatalogWrites.

Variable config : Config.

Lemma cat_put_get (acat : Catalog) (amsg amsg' : Message) (k : option str * str) :
  List.find (fun m => bool_decide (key m = k)) acat = Some amsg ->
  key amsg' = k ->
  List.find (fun m => bool_decide (key m = k)) (cat_put acat amsg') = Some amsg'.
Proof.
  intros Hfind Hk. induction acat as [|m acat IH]; [discriminate|].
  cbn [List.find cat_put] in *. rewrite Hk.
  destruct (bool_decide (key m = k)) eqn:E.
  - cbn [List.find]. rewrite bool_decide_eq_true_2 by exact Hk. reflexivity.
  - cbn [List.find]. rewrite E. apply IH, Hfind.
Qed.

Lemma ascribe_amsg_key (msg amsg amsg' : Message) (atype : str) (atags : list str)
    (user : str) (dt : datetime) :
  ascribe_amsg msg amsg atype atags user config dt = Ok amsg' ->
  key amsg' = key amsg.
Proof.
  unfold ascribe_amsg.
  destruct (asc_collect_history_single amsg config) as [h | |]; cbn [bind];
    try discriminate.
  match goal with
  | |- context [match ?m with (_, _) => _ end] => destruct m as [hs hn]
  end.
  destruct (format_datetime dt) as [s | |]; cbn [bind]; try discriminate.
  match goal with
  | |- context [bind ?r _] => destruct r as [n | |]
  end; cbn [bind]; try discriminate.
  destruct (append_tag_lines _ _ _ _ _ _) as [a1 | |] eqn:Ea; cbn [bind];
    try discriminate.
  apply append_tag_lines_inv in Ea. subst a1.
  intros [= <-]. destruct hn; reflexivity.
Qed.

(** One call on a catalog that holds the record. *)
Lemma ascribe_msg_any_found (acat : Catalog) (msg amsg amsg' : Message)
    (atype : str) (atags : list str) (user : str) (dt : datetime) :
  cat_get acat msg = Some amsg ->
  key amsg = key msg ->
  ascribe_amsg msg amsg atype atags user config dt = Ok amsg' ->
  ascribe_msg_any msg acat atype atags user config dt = Ok (cat_put acat amsg') /\
  cat_get (cat_put acat amsg') msg = Some amsg'.
Proof.
  intros Hget Hkey Hasc. unfold ascribe_msg_any. rewrite Hget, Hasc.
  split; [reflexivity|].
  apply (cat_put_get acat amsg); [exact Hget|].
  rewrite (ascribe_amsg_key _ _ _ _ _ _ _ Hasc). exact Hkey.
Qed.

(** One call on a catalog without the record: the record is created with
    the identity of the message. *)
Lemma ascribe_msg_any_new (acat : Catalog) (msg amsg' : Message)
    (atype : str) (atags : list str) (user : str) (dt : datetime) :
  cat_get acat msg = None ->
  ascribe_amsg msg (base_message msg) atype atags user config dt = Ok amsg' ->
  ascribe_msg_any msg acat atype atags user config dt =
    Ok (cat_put (add_last acat (base_message msg)) amsg') /\
  cat_get (cat_put (add_last acat (base_message msg)) amsg') msg = Some amsg'.
Proof.
  intros Hget Hasc. unfold ascribe_msg_any. rewrite Hget.
  change (mkMessage (msgctxt msg) (msgid msg) None [] None None None [] [] false false)
    with (base_message msg).
  rewrite Hasc. split; [reflexivity|].
  apply (cat_put_get _ (base_message msg)).
  - unfold add_last. unfold cat_get in Hget.
    induction acat as [|m acat IH].
    + cbn. rewrite bool_decide_eq_true_2 by reflexivity. reflexivity.
    + cbn [app List.find] in *.
      destruct (bool_decide (key m = key msg)); [discriminate | apply IH, Hget].
  - rewrite (ascribe_amsg_key _ _ _ _ _ _ _ Hasc). reflexivity.
Qed.

(** Calls for one message on a catalog that holds its record are calls on
    the record. *)
Lemma ascribe_all_found (msg0 : Message) (ws : list write) :
  Forall (fun w => key (w_msg w) = key msg0) ws ->
  forall (acat : Catalog) (amsg amsg' : Message),
    cat_get acat msg0 = Some amsg ->
    key amsg = key msg0 ->
    ascribe_amsg_all config amsg ws = Ok amsg' ->
    exists acat',
      ascribe_all config acat ws = Ok acat' /\ cat_get acat' msg0 = Some amsg'.
Proof.
  induction 1 as [|w rest Hw Hrest IH]; intros acat amsg amsg' Hget Hkey Hall.
  - injection Hall as <-. exists acat. split; [reflexivity | exact Hget].
  - cbn [ascribe_amsg_all] in Hall.
    destruct (ascribe_amsg (w_msg w) amsg (w_type w) (w_tags w) (w_user w) config
                (w_date w)) as [amsg1 | |] eqn:Hasc; cbn [bind] in Hall;
      try discriminate.
    assert (Hget' : cat_get acat (w_msg w) = Some amsg)
      by (unfold cat_get in *; rewrite Hw; exact Hget).
    destruct (ascribe_msg_any_found acat (w_msg w) amsg amsg1 _ _ _ _ Hget'
                ltac:(congruence) Hasc) as [Hany Hget1].
    destruct (IH (cat_put acat amsg1) amsg1 amsg') as (acat' & Hacat' & Hfound).
    + unfold cat_get in *. rewrite <- Hw. exact Hget1.
    + rewrite (ascribe_amsg_key _ _ _ _ _ _ _ Hasc). exact Hkey.
    + exact Hall.
    + exists acat'. cbn [ascribe_all]. rewrite Hany. cbn [bind].
      split; assumption.
Qed.

Lemma record_of_new (msg : Message) : record_of config (base_message msg) [].
Proof.
  split; [reflexivity|].
  split; [|split; [constructor | split; [exact I | split; [exact I | constructor]]]].
  simpl. intros f [<- | [<- | [<- | [<- | [<- | [<- | []]]]]]]; reflexivity.
Qed.

(** Well-formed writes for one message, in the order of their time stamps
    and the first a modification, on a catalog without a record of the
    message: the record is made, and the history read back from it has,
    oldest first, what every write recorded. *)
Lemma ascribe_all_history (acat : Catalog) (w0 : write) (ws : list write) :
  cat_get acat (w_msg w0) = None ->
  Forall (fun w => key (w_msg w) = key (w_msg w0)) ws ->
  Forall (well_formed config) (w0 :: ws) ->
  in_time_order (w0 :: ws) ->
  w_type w0 = ATYPE_MOD ->
  exists acat' amsg,
    ascribe_all config acat (w0 :: ws) = Ok acat' /\
    cat_get acat' (w_msg w0) = Some amsg /\
    key amsg = key (w_msg w0) /\
    record_of config amsg (record_after (base_message (w_msg w0)) [] (w0 :: ws)) /\
    Forall2 records (write_tags (w0 :: ws))
      (entries amsg (record_after (base_message (w_msg w0)) [] (w0 :: ws))).
Proof.
  intros Hnone Hkeys Hwf Horder Hmod.
  destruct (ascribe_amsg_all_history config (base_message (w_msg w0)) (w0 :: ws)
              (record_of_new (w_msg w0)) Hwf Horder)
    as (amsg & history & Hall & Hctx & Hid & Hrec & Hhist & -> & Hrecs).
  { intros w [= <-]. exact Hmod. }
  rewrite rev_involutive in Hrecs.
  cbn [ascribe_amsg_all] in Hall.
  destruct (ascribe_amsg (w_msg w0) (base_message (w_msg w0)) (w_type w0) (w_tags w0)
              (w_user w0) config (w_date w0)) as [amsg1 | |] eqn:Hasc;
    cbn [bind] in Hall; try discriminate.
  destruct (ascribe_msg_any_new acat (w_msg w0) amsg1 _ _ _ _ Hnone Hasc)
    as [Hany Hget1].
  destruct (ascribe_all_found (w_msg w0) ws Hkeys _ amsg1 amsg Hget1) as (acat' & Hacat' & Hfound).
  { rewrite (ascribe_amsg_key _ _ _ _ _ _ _ Hasc). reflexivity. }
  { exact Hall. }
  exists acat', amsg. cbn [ascribe_all]. rewrite Hany. cbn [bind].
  split; [exact Hacat'|]. split; [exact Hfound|].
  split; [unfold key; rewrite Hctx, Hid; reflexivity|].
  split; assumption.
Qed.

End CatalogWrites.

(** ** A write that changes nothing *)

Section NoChange.

Variable config : Config.

Lemma ascribe_all_app (acat : Catalog) (ws : list write) (w : write) :
  ascribe_all config acat (ws ++ [w]) =
  (acat1 <- ascribe_all config acat ws ;;
   ascribe_msg_any (w_msg w) acat1 (w_type w) (w_tags w) (w_user w) config (w_date w)).
Proof.
  revert acat. induction ws as [|x ws IH]; intros acat.
  - cbn [app ascribe_all bind].
    destruct (ascribe_msg_any _ _ _ _ _ _ _); reflexivity.
  - cbn [app ascribe_all].
    destruct (ascribe_msg_any (w_msg x) acat _ _ _ _ _); cbn [bind]; auto.
Qed.

Lemma record_after_app (amsg : Message) (ws : list write) (w : write) :
  forall P : list (asc_tuple * Message),
    record_after amsg P (ws ++ [w]) =
    record_after amsg P ws
    ++ write_pairs amsg (record_after amsg P ws) (w_msg w) (w_type w) (w_tags w)
         (w_user w) (w_date w) (seplen_of (w_msg w)).
Proof.
  induction ws as [|x ws IH]; intros P; [reflexivity|].
  cbn [app record_after]. apply IH.
Qed.

Lemma in_time_order_front (ws : list write) (w : write) :
  in_time_order (ws ++ [w]) -> in_time_order ws.
Proof.
  induction ws as [|x ws IH]; [intros _; exact I|].
  cbn [app in_time_order]. intros [Hx Hrest]. split; [|apply IH, Hrest].
  destruct ws as [|y ws]; [exact I | exact Hx].
Qed.

Lemma tag_lines_plain (atype user dtstr : str) (atags : list str) (first : bool) :
  tag_lines atype atags (user ++ lit " | " ++ dtstr) (user ++ lit " | " ++ dtstr) first =
  map (fun atag => plain_comment atype atag user dtstr) atags.
Proof.
  revert first. induction atags as [|atag rest IH]; intros first; [reflexivity|].
  cbn [tag_lines map]. rewrite IH. destruct first; reflexivity.
Qed.

Lemma reconstructs_last (amsg : Message) (P : list (asc_tuple * Message))
    (prev : option Message) (p : asc_tuple * Message) :
  reconstructs_from amsg prev P -> last P = Some p ->
  fuzzy (snd p) = t_isfuzz (fst p) /\ obsolete (snd p) = t_isobs (fst p).
Proof.
  revert prev. induction P as [|q P IH]; intros prev Hrec Hlast; [discriminate|].
  destruct Hrec as [Hq Hrest]. rewrite last_cons in Hlast.
  destruct (last P) as [p'|] eqn:El.
  - injection Hlast as ->. apply (IH (Some (snd q)) Hrest eq_refl).
  - injection Hlast as ->.
    destruct (t_seplen (fst p) =? 0).
    + destruct prev as [pm|]; [|destruct Hq]. rewrite Hq. split; reflexivity.
    + rewrite Hq. split; reflexivity.
Qed.

Lemma flag_after_kept (atype : str) (prev : bool) :
  flag_after atype prev false = flag_kept atype prev.
Proof. reflexivity. Qed.

Lemma flag_kept_twice (atype : str) (prev : bool) :
  flag_kept atype (flag_kept atype prev) = flag_kept atype prev.
Proof. unfold flag_kept. destruct (bool_decide (atype = ATYPE_MOD)); reflexivity. Qed.

(** The ascriptions of a write without marks and without separator, after
    the ascription [a]. *)
Lemma repeats_chain (amsg : Message) (w : write) (a : Ascription) (atags : list str) :
  forall (base : Message) (pf po : bool),
    flag_kept (w_type w) pf = flag_kept (w_type w) (fuzzy (a_msg a)) ->
    flag_kept (w_type w) po = flag_kept (w_type w) (obsolete (a_msg a)) ->
    set_obsolete (set_fuzzy base false) false =
      set_obsolete (set_fuzzy (a_msg a) false) false ->
    Forall2 (repeats w a) atags
      (entries amsg
         (chain_flags base
            (tag_tuples (w_user w) (w_type w) (w_date w) atags 0 false false pf po))).
Proof.
  induction atags as [|atag rest IH]; intros base pf po Hf Ho Hbase; [constructor|].
  cbn [tag_tuples chain_flags entries map]. rewrite !flag_after_kept.
  assert (Hm : with_flags base
                 (mkAsc (w_user w) (w_type w) atag (w_date w) 0
                    (flag_kept (w_type w) pf) (flag_kept (w_type w) po)) =
               set_obsolete
                 (set_fuzzy (a_msg a) (flag_kept (w_type w) (fuzzy (a_msg a))))
                 (flag_kept (w_type w) (obsolete (a_msg a)))).
  { rewrite Hf, Ho. unfold with_flags. cbn [t_isfuzz t_isobs].
    apply (f_equal (fun m => set_obsolete
                               (set_fuzzy m (flag_kept (w_type w) (fuzzy (a_msg a))))
                               (flag_kept (w_type w) (obsolete (a_msg a))))) in Hbase.
    exact Hbase. }
  constructor.
  - unfold records, repeats. cbn [fst snd entry_of a_user a_type a_tag a_date a_slen a_msg].
    repeat split. exact Hm.
  - apply IH.
    + rewrite flag_kept_twice. exact Hf.
    + rewrite flag_kept_twice. exact Ho.
    + rewrite <- Hbase. reflexivity.
Qed.

End NoChange.

(** ** The round trip *)



Ltac solve_clean :=
  split; [discriminate | split; [vm_compute; split; reflexivity |
    let H := fresh in intros H; cbn in H; intuition discriminate]].

Ltac solve_well_formed :=
  split; [solve_clean|];
  split; [let H := fresh in intros H; cbn in H; intuition discriminate|];
  split; [let a := fresh in let H := fresh in
          intros a H; cbn in H;
          repeat (destruct H as [<- | H]; [right; solve_clean|]); destruct H|];
  split; [solve_clean|];
  split; [reflexivity|];
  split; [reflexivity|];
  split; [vm_compute; reflexivity|];
  split; [let s := fresh in let H := fresh in intros s H; destruct H
         | vm_compute; reflexivity].


(** ** Ascribing without a change *)

Section Unchanged.

Variable config : Config.

Lemma state_flags (a b : Message) :
  state a = state b -> fuzzy a = fuzzy b /\ obsolete a = obsolete b.
Proof.
  unfold state.
  destruct (obsolete a), (fuzzy a), (obsolete b), (fuzzy b);
    repeat match goal with
    | |- context [existsb ?p ?l] => destruct (existsb p l)
    end;
    cbn; intros E; try discriminate E; split; reflexivity.
Qed.

Lemma flags_again (m : Message) : set_obsolete (set_fuzzy m (fuzzy m)) (obsolete m) = m.
Proof. destruct m; reflexivity. Qed.

(** Where the flags are left to the comment before, the ascriptions of a
    write that found nothing changed carry the newest message itself. *)
Lemma repeats_same_again (w : write) (a : Ascription) (atags : list str)
    (news : list Ascription) :
  state (a_msg a) = state (w_msg w) -> plain_state w ->
  Forall2 (repeats w a) atags news -> Forall2 (same_again w a) atags news.
Proof.
  intros Hstate Hplain Hrep.
  destruct (state_flags _ _ Hstate) as [Hf Ho].
  assert (Hkf : flag_kept (w_type w) (fuzzy (a_msg a)) = fuzzy (a_msg a)).
  { unfold flag_kept. destruct (bool_decide (w_type w = ATYPE_MOD)) eqn:E;
      [|reflexivity].
    apply bool_decide_eq_true in E. destruct (Hplain E) as [H _]. congruence. }
  assert (Hko : flag_kept (w_type w) (obsolete (a_msg a)) = obsolete (a_msg a)).
  { unfold flag_kept. destruct (bool_decide (w_type w = ATYPE_MOD)) eqn:E;
      [|reflexivity].
    apply bool_decide_eq_true in E. destruct (Hplain E) as [_ H]. congruence. }
  induction Hrep as [|atag n atags news Hn _ IH]; constructor; [|exact IH].
  destruct Hn as (H1 & H2 & H3 & H4 & H5 & H6).
  unfold same_again. rewrite H6, Hkf, Hko, flags_again.
  repeat split; assumption.
Qed.

Lemma entries_rmsg (a b : Message) (P : list (asc_tuple * Message)) :
  entries b P = map (set_a_rmsg b) (entries a P).
Proof. unfold entries. rewrite map_map. reflexivity. Qed.

Lemma differs_newest (amsg : Message) (P : list (asc_tuple * Message))
    (a : Ascription) (older : list Ascription) (msg : Message) :
  rev (entries amsg P) = a :: older ->
  state (a_msg a) = state msg -> has_nonid_diff (a_msg a) msg = false ->
  exists p, last P = Some p /\ a = entry_of amsg (fst p) (snd p) /\
            differs_nonid P msg = false /\ differs P msg = false.
Proof.
  intros Hrev Hstate Hnonid.
  destruct P as [|p P _] using rev_ind; [discriminate|].
  unfold entries in Hrev. rewrite map_app, rev_app_distr in Hrev.
  injection Hrev as <- _. exists p. rewrite last_snoc.
  split; [reflexivity|]. split; [reflexivity|].
  unfold differs, differs_nonid, differs_state. rewrite last_snoc.
  cbn [entry_of a_msg] in *. rewrite Hnonid.
  rewrite bool_decide_eq_true_2 by exact Hstate. split; reflexivity.
Qed.

(** A write that finds nothing changed appends its comments, without a
    trailing block, and sets the flags of the record. *)
Lemma ascribe_amsg_unchanged_value (amsg : Message) (P : list (asc_tuple * Message))
    (w : write) (a : Ascription) (older : list Ascription) (dtstr : str) :
  record_of config amsg P ->
  forallb Py.is_ascii (w_user w) = true ->
  format_datetime (w_date w) = Ok dtstr ->
  forallb Py.is_ascii dtstr = true ->
  rev (entries amsg P) = a :: older ->
  state (a_msg a) = state (w_msg w) ->
  has_nonid_diff (a_msg a) (w_msg w) = false ->
  ascribe_amsg (w_msg w) amsg (w_type w) (w_tags w) (w_user w) config (w_date w) =
  Ok (set_obsolete
        (set_fuzzy
           (set_multiple amsg F_auto_comment
              (auto_comment amsg
               ++ map (fun atag => plain_comment (w_type w) atag (w_user w) dtstr)
                    (tags_or_default (w_tags w))))
           (fuzzy (w_msg w))) (obsolete (w_msg w))).
Proof.
  intros Hrec Hua Hfmt Hda Hrev Hstate Hnonid.
  destruct (differs_newest amsg P a older (w_msg w) Hrev Hstate Hnonid)
    as (p & Hlast & Ha & Hdn & Hd).
  destruct (needed_separator_length_loop_total (w_msg w)
              (S (longest (tracked_values (w_msg w))))) as (L & HL & H1 & _); [lia|].
  change (needed_separator_length (w_msg w) = Ok L) in HL.
  pose proof (ascribe_amsg_on_record config amsg P (w_msg w) (w_type w) (w_tags w)
                (w_user w) (w_date w) dtstr L Hrec Hua Hfmt Hda HL ltac:(lia)) as Hasc.
  assert (Hlines : write_lines P (w_msg w) (w_type w) (w_tags w) (w_user w) dtstr L =
                   map (fun atag => plain_comment (w_type w) atag (w_user w) dtstr)
                     (tags_or_default (w_tags w))).
  { unfold write_lines, write_block. rewrite Hdn, Hd. cbn [andb].
    change (comment_tail (written_block [] false false)) with (@nil ascii).
    rewrite app_nil_r. apply tag_lines_plain. }
  rewrite Hdn, Hlines in Hasc. exact Hasc.
Qed.

(** The history of the record after a write that found nothing changed:
    the history before it, under the ascriptions of the write, which
    repeat the newest message. *)
Lemma ascribe_amsg_unchanged_history (amsg amsg' : Message)
    (P : list (asc_tuple * Message)) (w : write) (a : Ascription)
    (older : list Ascription) :
  record_of config amsg P ->
  record_of config amsg'
    (P ++ write_pairs amsg P (w_msg w) (w_type w) (w_tags w) (w_user w) (w_date w)
            (seplen_of (w_msg w))) ->
  rev (entries amsg P) = a :: older ->
  state (a_msg a) = state (w_msg w) ->
  has_nonid_diff (a_msg a) (w_msg w) = false ->
  exists news,
    asc_collect_history_single amsg' config =
      Ok (rev news ++ map (set_a_rmsg amsg') (a :: older)) /\
    Forall2 (repeats w a) (tags_or_default (w_tags w)) news.
Proof.
  intros Hrec Hrec' Hrev Hstate Hnonid.
  destruct (differs_newest amsg P a older (w_msg w) Hrev Hstate Hnonid)
    as (p & Hlast & Ha & Hdn & Hd).
  exists (entries amsg'
            (write_pairs amsg P (w_msg w) (w_type w) (w_tags w) (w_user w) (w_date w)
               (seplen_of (w_msg w)))).
  split.
  - rewrite (record_history config amsg' _ Hrec').
    unfold entries at 1. rewrite map_app, rev_app_distr. f_equal. f_equal.
    fold (entries amsg' P). rewrite (entries_rmsg amsg amsg'), <- map_rev, Hrev.
    reflexivity.
  - unfold write_pairs. rewrite Hdn, Hd, Hlast. cbn [andb].
    destruct Hrec as (_ & _ & _ & Hr & _).
    destruct (reconstructs_last amsg P None p Hr Hlast) as [Hf Ho].
    apply repeats_chain; rewrite Ha; cbn [entry_of a_msg];
      [rewrite Hf | rewrite Ho |]; reflexivity.
Qed.

End Unchanged.




(** ** The round trip for messages with previous fields only while fuzzy *)

Lemma tracked_value_get (msg : Message) (f : field) :
  previous_only_fuzzy msg -> tracked_value msg f = get msg f.
Proof.
  unfold tracked_value. intros [-> | (H1 & H2 & H3)]; [reflexivity|].
  destruct (fuzzy msg); [reflexivity|].
  destruct f; cbn; rewrite ?H1, ?H2, ?H3; reflexivity.
Qed.

Lemma write_tags_fst (ws : list write) (wt : write * str) :
  In wt (write_tags ws) -> In (fst wt) ws.
Proof.
  unfold write_tags. rewrite in_flat_map. intros (w & Hw & Hin).
  apply in_map_iff in Hin as (atag & <- & _). exact Hw.
Qed.

Lemma records_exact (wts : list (write * str)) (l : list Ascription) :
  Forall2 records wts l ->
  (forall wt, In wt wts -> previous_only_fuzzy (w_msg (fst wt))) ->
  Forall2 records_exactly wts l.
Proof.
  induction 1 as [|wt a wts l Hr Hrest IH]; intros Hall; constructor.
  - destruct Hr as (H1 & H2 & H3 & H4 & H5). repeat split; try assumption.
    intros f Hf. rewrite (H5 f Hf). apply tracked_value_get, Hall. left. reflexivity.
  - apply IH. intros x Hx. apply Hall. right. exact Hx.
Qed.



(** * Further properties of the ascription engine *)

(** ** Equality from the ascription viewpoint *)

Section AscriptionEquality.

Lemma fields_eq_sym (a b : Message) (fs : list field) :
  forallb (fun f => bool_decide (get a f = get b f)) fs =
  forallb (fun f => bool_decide (get b f = get a f)) fs.
Proof.
  induction fs as [|f fs IH]; [reflexivity|]. cbn [forallb]. rewrite IH. f_equal.
  apply bool_decide_ext. split; intros E; symmetry; exact E.
Qed.

Lemma fields_eq_trans (a b c : Message) (fs : list field) :
  forallb (fun f => bool_decide (get a f = get b f)) fs = true ->
  forallb (fun f => bool_decide (get b f = get c f)) fs = true ->
  forallb (fun f => bool_decide (get a f = get c f)) fs = true.
Proof.
  rewrite !forallb_forall. intros H1 H2 f Hf.
  specialize (H1 f Hf). specialize (H2 f Hf).
  apply bool_decide_eq_true_1 in H1, H2. apply bool_decide_eq_true_2. congruence.
Qed.

Lemma asc_eq_true (a b : Message) :
  asc_eq a b = true <->
  state a = state b /\
  forallb (fun f => bool_decide (get a f = get b f))
    (if fuzzy a then _nonid_fields_eq_fuzzy else _nonid_fields_eq_nonfuzzy) = true.
Proof.
  unfold asc_eq. destruct (decide (state a = state b)) as [E | E].
  - rewrite bool_decide_eq_true_2 by exact E. cbn [negb]. tauto.
  - rewrite bool_decide_eq_false_2 by exact E. cbn [negb].
    split; [discriminate | tauto].
Qed.

(** [asc_eq] is an equivalence: although the fields compared are chosen
    by the fuzzy flag of the first message alone, equal states make the
    flags of both messages agree. *)
Theorem asc_eq_equivalence :
  (forall a, asc_eq a a = true) /\
  (forall a b, asc_eq a b = asc_eq b a) /\
  (forall a b c, asc_eq a b = true -> asc_eq b c = true -> asc_eq a c = true).
Proof.
  split; [|split].
  - intros a. apply asc_eq_true. split; [reflexivity|].
    apply forallb_forall. intros f _. apply bool_decide_eq_true_2. reflexivity.
  - intros a b. unfold asc_eq.
    destruct (decide (state a = state b)) as [E | E].
    + rewrite (bool_decide_eq_true_2 _ E), (bool_decide_eq_true_2 _ (eq_sym E)).
      cbn [negb]. destruct (state_flags a b E) as [-> _]. apply fields_eq_sym.
    + rewrite (bool_decide_eq_false_2 _ E).
      rewrite bool_decide_eq_false_2 by congruence. reflexivity.
  - intros a b c [E1 F1]%asc_eq_true [E2 F2]%asc_eq_true.
    apply asc_eq_true. split; [congruence|].
    destruct (state_flags a b E1) as [Hf _]. rewrite <- Hf in F2.
    eapply fields_eq_trans; eassumption.
Qed.

End AscriptionEquality.

Lemma asc_eq_equivalence_witness : asc_eq msg_first msg_first = true.
Proof.
  apply (proj2 (proj2 asc_eq_equivalence) msg_first msg_first msg_first);
    vm_compute; reflexivity.
Defined.

(** ** Derivation by merging *)

Section Merging.

Lemma fields_eq_refl (a : Message) (fs : list field) :
  forallb (fun f => bool_decide (get a f = get a f)) fs = true.
Proof.
  apply forallb_forall. intros f _. apply bool_decide_eq_true_2. reflexivity.
Qed.

(** [merge_modified]: every message is derived from itself, and between
    two messages without the fuzzy flag only what a merge cannot touch may
    agree: a positive answer means the same context, id, plural id,
    translation and translator comments. *)
Theorem merge_modified_nonfuzzy :
  (forall m, merge_modified m m = Ok true) /\
  (forall m1 m2,
     fuzzy m1 = false -> fuzzy m2 = false ->
     merge_modified m1 m2 =
     Ok (bool_decide (manual_comment m1 = manual_comment m2 /\
                      msgctxt m1 = msgctxt m2 /\ msgid m1 = msgid m2 /\
                      msgid_plural m1 = msgid_plural m2 /\
                      msgstr m1 = msgstr m2))).
Proof.
  split.
  - intros m. unfold merge_modified.
    rewrite (bool_decide_eq_true_2 (manual_comment m = manual_comment m)) by reflexivity.
    rewrite (bool_decide_eq_true_2 (fuzzy m = fuzzy m)) by reflexivity.
    cbn [negb]. rewrite fields_eq_refl. cbn [negb].
    rewrite bool_decide_eq_true_2 by reflexivity.
    rewrite bool_decide_eq_true_2 by reflexivity. reflexivity.
  - intros m1 m2 F1 F2. unfold merge_modified. rewrite F1, F2.
    rewrite (bool_decide_eq_true_2 (false = false)) by reflexivity.
    destruct (decide (manual_comment m1 = manual_comment m2)) as [Ec | Ec].
    2:{ rewrite (bool_decide_eq_false_2 _ Ec). cbn [negb].
        rewrite bool_decide_eq_false_2 by tauto. reflexivity. }
    rewrite (bool_decide_eq_true_2 _ Ec). cbn [negb forallb _fields_current get].
    destruct (decide (msgctxt m1 = msgctxt m2)) as [E1 | E1].
    2:{ rewrite (bool_decide_eq_false_2 (of_opt (msgctxt m1) = of_opt (msgctxt m2))).
        - cbn. rewrite bool_decide_eq_false_2 by tauto. reflexivity.
        - intros E. apply E1. destruct (msgctxt m1), (msgctxt m2); cbn in E; congruence. }
    rewrite (bool_decide_eq_true_2 (of_opt (msgctxt m1) = of_opt (msgctxt m2)))
      by (rewrite E1; reflexivity).
    destruct (decide (msgid m1 = msgid m2)) as [E2 | E2].
    2:{ rewrite (bool_decide_eq_false_2 (VStr (msgid m1) = VStr (msgid m2)))
          by congruence.
        cbn. rewrite bool_decide_eq_false_2 by tauto. reflexivity. }
    rewrite (bool_decide_eq_true_2 (VStr (msgid m1) = VStr (msgid m2)))
      by (rewrite E2; reflexivity).
    destruct (decide (msgid_plural m1 = msgid_plural m2)) as [E3 | E3].
    2:{ rewrite (bool_decide_eq_false_2
                   (of_opt (msgid_plural m1) = of_opt (msgid_plural m2))).
        - cbn. rewrite bool_decide_eq_false_2 by tauto. reflexivity.
        - intros E. apply E3.
          destruct (msgid_plural m1), (msgid_plural m2); cbn in E; congruence. }
    rewrite (bool_decide_eq_true_2 (of_opt (msgid_plural m1) = of_opt (msgid_plural m2)))
      by (rewrite E3; reflexivity).
    cbn [andb negb]. rewrite E3.
    rewrite bool_decide_eq_true_2 by reflexivity.
    f_equal. apply bool_decide_ext. tauto.
Qed.

End Merging.

Lemma merge_modified_nonfuzzy_witness :
  merge_modified msg_first msg_second =
  Ok (bool_decide (manual_comment msg_first = manual_comment msg_second /\
                   msgctxt msg_first = msgctxt msg_second /\
                   msgid msg_first = msgid msg_second /\
                   msgid_plural msg_first = msgid_plural msg_second /\
                   msgstr msg_first = msgstr msg_second)).
Proof.
  exact (proj2 merge_modified_nonfuzzy msg_first msg_second eq_refl eq_refl).
Defined.

(** ** Elimination of clean merges *)

Section CleanMerges.

Lemma eliminate_clean_merges_cons (a ao : Ascription) (rest : list Ascription) :
  eliminate_clean_merges (a :: ao :: rest) =
  (keep <- (if negb (user_is a UFUZZ) then Ok true
            else m <- merge_modified (a_msg ao) (a_msg a) ;; Ok (negb m)) ;;
   history_r <- eliminate_clean_merges (ao :: rest) ;;
   Ok (if keep : bool then a :: history_r else history_r)).
Proof. reflexivity. Qed.

Lemma eliminate_clean_merges_one (a : Ascription) :
  eliminate_clean_merges [a] = Ok (if negb (user_is a UFUZZ) then [a] else []).
Proof. reflexivity. Qed.

Lemma user_is_false (a : Ascription) (u : str) :
  a_user a <> Some u -> user_is a u = false.
Proof. intros H. unfold user_is. apply bool_decide_eq_false_2. exact H. Qed.

(** With [nomrg], the history is only thinned out: what is left is a
    sub-list of the history in the same order, every ascription that is
    not by the merge user [UFUZZ] is left, and a history without
    ascriptions of the merge user comes back as it is.  An empty history
    is an [IndexError]. *)
Theorem eliminate_clean_merges_keeps :
  eliminate_clean_merges [] = Raise IndexError /\
  (forall h, h <> [] -> Forall (fun a => a_user a <> Some UFUZZ) h ->
     eliminate_clean_merges h = Ok h) /\
  (forall h r, eliminate_clean_merges h = Ok r ->
     sublist r h /\
     forall a, In a h -> a_user a <> Some UFUZZ -> In a r).
Proof.
  split; [reflexivity|]. split.
  - induction h as [|a h IH]; intros Hne Hall; [congruence|].
    inversion Hall as [|? ? Ha Hh]; subst.
    destruct h as [|ao rest].
    + rewrite eliminate_clean_merges_one, (user_is_false a UFUZZ Ha). reflexivity.
    + rewrite eliminate_clean_merges_cons, (user_is_false a UFUZZ Ha).
      cbn [negb bind]. rewrite IH by (try assumption; discriminate). reflexivity.
  - induction h as [|a h IH]; intros r; [discriminate|].
    destruct h as [|ao rest].
    + rewrite eliminate_clean_merges_one. intros [= <-].
      destruct (user_is a UFUZZ) eqn:E; cbn [negb].
      * split; [apply sublist_cons, sublist_nil|].
        intros x [<- | []] Hx. rewrite (user_is_false a UFUZZ Hx) in E. discriminate.
      * split; [reflexivity|]. intros x Hx _. exact Hx.
    + rewrite eliminate_clean_merges_cons.
      destruct (if negb (user_is a UFUZZ) then Ok true
                else m <- merge_modified (a_msg ao) (a_msg a) ;; Ok (negb m))
        as [keep | |] eqn:Ek; cbn [bind]; try discriminate.
      destruct (eliminate_clean_merges (ao :: rest)) as [hr | |] eqn:Er;
        cbn [bind]; try discriminate.
      intros [= <-]. destruct (IH hr eq_refl) as [Hsub Hin].
      destruct keep.
      * split; [apply sublist_skip, Hsub|].
        intros x [<- | Hx] Hu; [left; reflexivity | right; apply Hin; assumption].
      * split; [apply sublist_cons, Hsub|].
        intros x [<- | Hx] Hu; [|apply Hin; assumption].
        rewrite (user_is_false a UFUZZ Hu) in Ek. discriminate.
Qed.

End CleanMerges.

Lemma eliminate_clean_merges_keeps_witness :
  eliminate_clean_merges [entry_newer; entry_older] = Ok [entry_newer; entry_older].
Proof.
  apply (proj1 (proj2 eliminate_clean_merges_keeps)).
  - discriminate.
  - repeat constructor; discriminate.
Defined.

(** ** Elimination of modifications equal under the filter *)

Section FilteredHistory.

Context {Inv : Type} `{EqDecision Inv}.
Variable inv : Message -> Inv.
Variable hfilter : str -> str.

Lemma eliminate_equal_sublist (history : list Ascription) :
  forall prevmod, sublist (eliminate_equal inv hfilter history prevmod) history.
Proof.
  induction history as [|a rest IH]; intros prevmod; [constructor|].
  cbn [eliminate_equal].
  destruct (negb (bool_decide (a_type a = ATYPE_MOD)) || _).
  - apply sublist_skip, IH.
  - apply sublist_cons, IH.
Qed.

Lemma eliminate_equal_reviews (history : list Ascription) :
  forall prevmod a, In a history -> a_type a <> ATYPE_MOD ->
    In a (eliminate_equal inv hfilter history prevmod).
Proof.
  induction history as [|x rest IH]; intros prevmod a; [intros []|].
  intros [<- | Hin] Hty; cbn [eliminate_equal].
  - rewrite (bool_decide_eq_false_2 _ Hty). cbn [negb orb]. left. reflexivity.
  - destruct (negb (bool_decide (a_type x = ATYPE_MOD)) || _);
      [right|]; apply IH; assumption.
Qed.

Lemma eliminate_equal_distinct (history : list Ascription) :
  forall prevmod,
    distinct_under (fun a => inv (flt hfilter (a_msg a)))
      (option_map (fun p => inv (a_msg p)) prevmod)
      (List.filter is_mod (eliminate_equal inv hfilter history prevmod)).
Proof.
  induction history as [|a rest IH]; intros prevmod; [exact I|].
  cbn [eliminate_equal]. unfold is_mod.
  destruct (decide (a_type a = ATYPE_MOD)) as [Ety | Ety].
  - rewrite (bool_decide_eq_true_2 _ Ety). cbn [negb orb].
    destruct prevmod as [p|].
    + destruct (decide (inv (flt hfilter (a_msg a)) = inv (a_msg p))) as [E | E].
      * rewrite (bool_decide_eq_true_2 _ E). cbn [negb]. apply IH.
      * rewrite (bool_decide_eq_false_2 _ E). cbn [negb List.filter].
        fold (is_mod a). unfold is_mod at 1.
        rewrite (bool_decide_eq_true_2 _ Ety). split; [exact E|].
        apply (IH (Some (set_a_msg a (flt hfilter (a_msg a))))).
    + cbn [List.filter]. fold (is_mod a). unfold is_mod at 1.
      rewrite (bool_decide_eq_true_2 _ Ety). split; [exact I|].
      apply (IH (Some (set_a_msg a (flt hfilter (a_msg a))))).
  - rewrite (bool_decide_eq_false_2 _ Ety). cbn [negb orb List.filter].
    fold (is_mod a). unfold is_mod at 1.
    rewrite (bool_decide_eq_false_2 _ Ety). apply IH.
Qed.

(** Under a history filter, the pass over the history from oldest to
    newest only drops modifications: the result is a sub-list in the same
    order, every ascription that is not a modification is left, the oldest
    modification is left, and no modification left has, under the filter,
    the invariant of the modification left before it. *)
Theorem eliminate_equal_keeps (history : list Ascription) :
  sublist (eliminate_equal inv hfilter history None) history /\
  (forall a, In a history -> a_type a <> ATYPE_MOD ->
     In a (eliminate_equal inv hfilter history None)) /\
  (forall pre a post, history = pre ++ a :: post ->
     Forall (fun x => a_type x <> ATYPE_MOD) pre -> a_type a = ATYPE_MOD ->
     In a (eliminate_equal inv hfilter history None)) /\
  distinct_under (fun a => inv (flt hfilter (a_msg a))) None
    (List.filter is_mod (eliminate_equal inv hfilter history None)).
Proof.
  split; [apply eliminate_equal_sublist|].
  split; [apply eliminate_equal_reviews|].
  split; [|apply (eliminate_equal_distinct history None)].
  intros pre a post -> Hpre Hty.
  induction Hpre as [|x pre Hx _ IH].
  - cbn [app eliminate_equal]. rewrite orb_true_r. left. reflexivity.
  - cbn [app eliminate_equal]. rewrite (bool_decide_eq_false_2 _ Hx).
    cbn [negb orb]. right. exact IH.
Qed.

End FilteredHistory.

(** ** Position markers *)

Section Positions.

Context {Inv : Type} `{EqDecision Inv}.
Variable inv : Message -> Inv.
Variable msg_ediff : Message -> Message -> str -> Message.

Lemma sublist_rev {A} (l1 l2 : list A) : sublist l1 l2 -> sublist (rev l1) (rev l2).
Proof.
  induction 1 as [|x l1 l2 _ IH | x l1 l2 _ IH]; cbn [rev].
  - constructor.
  - apply sublist_app; [exact IH | reflexivity].
  - apply sublist_inserts_r, IH.
Qed.

Lemma sublist_map {A B} (f : A -> B) (l1 l2 : list A) :
  sublist l1 l2 -> sublist (map f l1) (map f l2).
Proof. induction 1; cbn [map]; constructor; assumption. Qed.

Lemma assign_positions_pos (history : list Ascription) (p : Z) :
  map a_pos (assign_positions history p) =
  map (fun i => Some (p + Z.of_nat i)) (seq 0 (length history)).
Proof.
  revert p. induction history as [|a rest IH]; intros p; [reflexivity|].
  cbn [assign_positions map length seq a_pos set_a_pos]. f_equal.
  - f_equal. lia.
  - rewrite IH, <- seq_shift, map_map. apply map_ext. intros i. f_equal. lia.
Qed.

Lemma reduce_to_diff_pos (addrem : str) (history : list Ascription) :
  map a_pos (reduce_to_diff msg_ediff addrem history) = map a_pos history.
Proof.
  induction history as [|a rest IH]; [reflexivity|].
  cbn [reduce_to_diff map]. rewrite IH. f_equal.
  destruct (bool_decide (a_type a = ATYPE_MOD)); [|reflexivity].
  destruct (List.find _ rest); reflexivity.
Qed.

Lemma reduce_loop_pos (addrem : str) (history : list Ascription) :
  map a_pos (reduce_loop msg_ediff addrem history [] None) = map a_pos history.
Proof.
  rewrite reduce_loop_settle by (intros j H; discriminate H).
  apply reduce_to_diff_pos.
Qed.

(** The position markers of a history count the ascriptions from 1 before
    anything is eliminated: the markers of the history returned are a
    sub-list of 1, 2, ..., n in this order, so that they increase and show
    a gap wherever an ascription was eliminated; without elimination of
    merges and without history filter they are 1, 2, ..., n. *)
Theorem asc_collect_history_positions (fuel : nat) (msg : Message) (acat : Catalog)
    (config : Config) (nomrg : bool) (hfilter : option (str -> str))
    (shallow : bool) (addrem : option str) (history : list Ascription) :
  asc_collect_history inv msg_ediff fuel msg acat config nomrg hfilter shallow addrem
    = Ok history ->
  exists n : nat,
    sublist (map a_pos history) (map (fun i => Some (1 + Z.of_nat i)) (seq 0 n)) /\
    (nomrg = false -> hfilter = None ->
     map a_pos history = map (fun i => Some (1 + Z.of_nat i)) (seq 0 n) /\
     n = length history).
Proof.
  unfold asc_collect_history.
  destruct (asc_collect_history_w fuel msg acat config None ∅ shallow) as [r | |];
    cbn [bind]; try discriminate.
  set (h0 := match fst r with
             | [] => [unascribed msg]
             | a :: _ => if negb (asc_eq msg (a_msg a)) then unascribed msg :: fst r
                         else fst r
             end).
  set (h1 := assign_positions h0 1).
  assert (Hred : forall l : list Ascription,
            map a_pos (match addrem with
                       | Some ((_ :: _) as ar) => reduce_loop msg_ediff ar l [] None
                       | _ => l
                       end) = map a_pos l).
  { intros l. destruct addrem as [[|c ar]|]; try reflexivity. apply reduce_loop_pos. }
  intros Hres. exists (length h0).
  rewrite <- (assign_positions_pos h0 1). fold h1.
  destruct nomrg.
  - destruct (eliminate_clean_merges h1) as [h2 | |] eqn:E2; cbn [bind] in Hres;
      try discriminate.
    injection Hres as <-. rewrite Hred.
    destruct (proj2 (proj2 eliminate_clean_merges_keeps) h1 h2 E2) as [Hsub _].
    split; [|discriminate].
    destruct hfilter as [hf|].
    + apply sublist_map. etransitivity; [|exact Hsub].
      rewrite <- (rev_involutive h2) at 2. apply sublist_rev, eliminate_equal_sublist.
    + apply sublist_map, Hsub.
  - cbn [bind] in Hres. injection Hres as <-. rewrite Hred. split.
    + destruct hfilter as [hf|]; [|reflexivity].
      apply sublist_map. rewrite <- (rev_involutive h1) at 2.
      apply sublist_rev, eliminate_equal_sublist.
    + intros _ ->. split; [reflexivity|].
      pose proof (f_equal (@length _) (Hred h1)) as E.
      rewrite !length_map in E. rewrite E.
      unfold h1. clear. generalize 1. induction h0 as [|a l IH]; intros p; [reflexivity|].
      cbn [assign_positions length]. rewrite <- IH. reflexivity.
Qed.

End Positions.

Lemma eliminate_equal_keeps_witness :
  In entry_older (eliminate_equal demo_inv (fun s => s) [entry_older; entry_newer] None).
Proof.
  apply (proj1 (proj2 (proj2 (eliminate_equal_keeps demo_inv (fun s => s)
                                [entry_older; entry_newer])))
           [] entry_older [entry_newer]).
  - reflexivity.
  - constructor.
  - reflexivity.
Defined.

Lemma asc_collect_history_positions_witness :
  exists n : nat,
    sublist (map a_pos [set_a_pos (unascribed msg_never_ascribed) 1])
      (map (fun i => Some (1 + Z.of_nat i)) (seq 0 n)) /\
    (false = false -> @None (str -> str) = None ->
     map a_pos [set_a_pos (unascribed msg_never_ascribed) 1] =
       map (fun i => Some (1 + Z.of_nat i)) (seq 0 n) /\
     n = length [set_a_pos (unascribed msg_never_ascribed) 1]).
Proof.
  apply (asc_collect_history_positions demo_inv demo_ediff 1 msg_never_ascribed
           acat_cycle demo_config false None false None).
  vm_compute. reflexivity.
Defined.

(** ** The order of a reconstructed history *)

Section HistoryOrder.

Lemma key_le_total (x y : Ascription * nat) : key_le x y = false -> key_le y x = true.
Proof.
  unfold key_le. rewrite orb_false_iff, orb_true_iff, andb_false_iff, andb_true_iff.
  rewrite !Z.ltb_lt, !Z.ltb_ge, !Z.eqb_eq, Z.eqb_neq, Nat.leb_le, Nat.leb_gt.
  lia.
Qed.

Lemma key_le_trans (x y z : Ascription * nat) :
  key_le x y = true -> key_le y z = true -> key_le x z = true.
Proof.
  unfold key_le. rewrite !orb_true_iff, !andb_true_iff.
  rewrite !Z.ltb_lt, !Z.eqb_eq, !Nat.leb_le. lia.
Qed.

Lemma insert_sorted_perm (x : Ascription * nat) (l : list (Ascription * nat)) :
  Permutation (insert_sorted x l) (x :: l).
Proof.
  induction l as [|y l IH]; [reflexivity|]. cbn [insert_sorted].
  destruct (key_le x y); [reflexivity|].
  rewrite IH. apply perm_swap.
Qed.

Lemma insert_sorted_sorted (x : Ascription * nat) (l : list (Ascription * nat)) :
  ordered_by (fun a b => key_le a b = true) l ->
  ordered_by (fun a b => key_le a b = true) (insert_sorted x l).
Proof.
  induction l as [|y l IH]; [intros _; repeat constructor|].
  intros [Hy Hl]. cbn [insert_sorted]. destruct (key_le x y) eqn:E.
  - split; [|split; assumption].
    constructor; [exact E|].
    eapply List.Forall_impl; [|exact Hy]. intros z Hz. eapply key_le_trans; eassumption.
  - split; [|apply IH, Hl].
    apply List.Forall_forall. intros z Hz.
    apply (Permutation_in _ (insert_sorted_perm x l)) in Hz.
    destruct Hz as [<- | Hz]; [apply key_le_total, E|].
    rewrite List.Forall_forall in Hy. apply Hy, Hz.
Qed.

Lemma sort_ord_perm (l : list (Ascription * nat)) : Permutation (sort_ord l) l.
Proof.
  induction l as [|x l IH]; [reflexivity|].
  unfold sort_ord in *. cbn [fold_right]. rewrite insert_sorted_perm, IH. reflexivity.
Qed.

Lemma sort_ord_sorted (l : list (Ascription * nat)) :
  ordered_by (fun a b => key_le a b = true) (sort_ord l).
Proof.
  induction l as [|x l IH]; [exact I|].
  unfold sort_ord in *. cbn [fold_right]. apply insert_sorted_sorted, IH.
Qed.

Lemma ordered_by_snoc {A} (R : A -> A -> Prop) (l : list A) (x : A) :
  ordered_by R l -> Forall (fun y => R y x) l -> ordered_by R (l ++ [x]).
Proof.
  induction l as [|y l IH]; intros Hl Hx; [repeat constructor|].
  destruct Hl as [Hy Hl]. inversion Hx as [|? ? Hyx Hlx]; subst.
  cbn [app ordered_by]. split; [|apply IH; assumption].
  apply List.Forall_app. split; [exact Hy | constructor; [exact Hyx | constructor]].
Qed.

Lemma ordered_by_rev {A} (R : A -> A -> Prop) (l : list A) :
  ordered_by R l -> ordered_by (fun a b => R b a) (rev l).
Proof.
  induction l as [|x l IH]; [intros _; exact I|].
  intros [Hx Hl]. cbn [rev]. apply ordered_by_snoc; [apply IH, Hl|].
  apply List.Forall_forall. intros y Hy. apply in_rev in Hy.
  rewrite List.Forall_forall in Hx. apply Hx, Hy.
Qed.

Lemma ordered_by_map {A B} (f : A -> B) (R : B -> B -> Prop) (l : list A) :
  ordered_by (fun a b => R (f a) (f b)) l -> ordered_by R (map f l).
Proof.
  induction l as [|x l IH]; [intros _; exact I|].
  intros [Hx Hl]. cbn [map ordered_by]. split; [|apply IH, Hl].
  apply List.Forall_forall. intros y Hy. apply in_map_iff in Hy as (z & <- & Hz).
  rewrite List.Forall_forall in Hx. apply Hx, Hz.
Qed.

Lemma ordered_by_impl {A} (R S : A -> A -> Prop) (l : list A) :
  (forall a b, R a b -> S a b) -> ordered_by R l -> ordered_by S l.
Proof.
  intros HRS. induction l as [|x l IH]; [intros _; exact I|].
  intros [Hx Hl]. split; [|apply IH, Hl].
  eapply List.Forall_impl; [|exact Hx]. intros y. apply HRS.
Qed.

Lemma key_le_date (x y : Ascription * nat) :
  key_le x y = true -> date_key (fst x) <= date_key (fst y).
Proof.
  unfold key_le. rewrite orb_true_iff, andb_true_iff, Z.ltb_lt, Z.eqb_eq. lia.
Qed.

(** What [asc_collect_history_single] returns is the list of the
    ascriptions in the order of the comments, each taken with its place
    there, rearranged so that every ascription stands before those of an
    earlier time stamp and, at the same time stamp, before those of
    earlier comments: the newest ascription comes first. *)
Theorem asc_collect_history_single_order (amsg : Message) (config : Config)
    (history : list Ascription) :
  asc_collect_history_single amsg config = Ok history ->
  exists unsorted ord,
    asc_collect_history_unsorted amsg config = Ok unsorted /\
    history = map fst ord /\
    Permutation ord (combine unsorted (seq 0 (length unsorted))) /\
    ordered_by (fun x y => key_le y x = true) ord /\
    ordered_by (fun a b => date_key b <= date_key a) history.
Proof.
  intros (u & Hu & -> & _)%asc_collect_history_single_sorted.
  exists u, (rev (sort_ord (combine u (seq 0 (length u))))).
  split; [exact Hu|]. split; [reflexivity|]. split; [|split].
  - rewrite <- Permutation_rev. apply sort_ord_perm.
  - apply (ordered_by_rev (fun a b => key_le a b = true)), sort_ord_sorted.
  - unfold sort_history. cbv zeta. apply ordered_by_map.
    apply (ordered_by_impl (fun x y => key_le y x = true)).
    + intros a b. apply key_le_date.
    + apply (ordered_by_rev (fun a b => key_le a b = true)), sort_ord_sorted.
Qed.

End HistoryOrder.

Lemma asc_collect_history_single_order_witness :
  exists unsorted ord,
    asc_collect_history_unsorted rec_two_writes demo_config = Ok unsorted /\
    history_two_writes = map fst ord /\
    Permutation ord (combine unsorted (seq 0 (length unsorted))) /\
    ordered_by (fun x y => key_le y x = true) ord /\
    ordered_by (fun a b => date_key b <= date_key a) history_two_writes.
Proof.
  apply (asc_collect_history_single_order rec_two_writes demo_config).
  vm_compute. reflexivity.
Defined.

(** ** What the parser accepts *)

Section ParserAccounts.

Variable config : Config.

Lemma str_in_In (x : str) (l : list str) : str_in x l = true <-> In x l.
Proof.
  unfold str_in. rewrite existsb_exists. split.
  - intros (y & Hy & E). apply bool_decide_eq_true_1 in E. congruence.
  - intros H. exists x. split; [exact H | apply bool_decide_eq_true_2; reflexivity].
Qed.

Lemma asc_comment_head_user (cmnt : str) (h : comment_head) :
  asc_comment_head config cmnt = Ok (inr h) ->
  h_user h <> [] /\ In (h_user h) (users config).
Proof.
  unfold asc_comment_head.
  destruct (Py.find cmnt fld_sep 0 <? 0); [discriminate|].
  match goal with
  | |- context [match ?m with (_, _) => _ end] => destruct m as [atype atag]
  end.
  destruct (_ || _); [discriminate|].
  destruct (Py.split "|" _) as [|l0 lst]; [discriminate|].
  destruct (bool_decide (Py.strip l0 = [])) eqn:E1; [discriminate|].
  destruct (str_in (Py.strip l0) (users config)) eqn:E2; cbn [negb]; [|discriminate].
  destruct lst as [|l1 lst]; [discriminate|].
  destruct (parse_datetime (Py.strip l1)); try discriminate.
  intros [= <-]. cbn [h_user]. split.
  - apply bool_decide_eq_false_1 in E1. exact E1.
  - apply str_in_In, E2.
Qed.

Lemma asc_parse_comment_cases (st st' : parse_state) (cmnt : str) :
  asc_parse_comment config st cmnt = Ok st' ->
  (ascripts st' = ascripts st /\ exists w, warnings st' = warnings st ++ [(w, cmnt)]) \/
  (warnings st' = warnings st /\
   exists t, ascripts st' = ascripts st ++ [t] /\
             t_user t <> [] /\ In (t_user t) (users config)).
Proof.
  unfold asc_parse_comment.
  destruct (asc_comment_head config cmnt) as [[w | h] | |] eqn:Eh; cbn [bind];
    try discriminate.
  - intros [= <-]. left. split; [reflexivity|]. exists w. reflexivity.
  - destruct (asc_comment_head_user cmnt h Eh) as [Hne Hin].
    rewrite asc_comment_state_cases. cbv zeta.
    destruct (block_seplen h) as [n | |].
    + unfold asc_append.
      repeat match goal with
      | |- context [match ?o with Some _ => _ | None => _ end] => destruct o
      end; try discriminate;
      intros [= <-]; right; (split; [reflexivity|]); eexists;
        (split; [reflexivity|]); split; assumption.
    + intros [= <-]. left. split; [reflexivity|]. eexists. reflexivity.
    + intros [= <-]. left. split; [reflexivity|]. eexists. reflexivity.
Qed.

Lemma asc_parse_loop_accounts (cmnts : list str) :
  forall st st',
    asc_parse_loop config st cmnts = Ok st' ->
    exists ts ws,
      ascripts st' = ascripts st ++ ts /\ warnings st' = warnings st ++ ws /\
      (length ts + length ws = length cmnts)%nat /\
      Forall (fun t => t_user t <> [] /\ In (t_user t) (users config)) ts /\
      Forall (fun w => In (snd w) cmnts) ws.
Proof.
  induction cmnts as [|c rest IH]; intros st st'.
  - intros [= <-]. exists [], []. rewrite !app_nil_r.
    repeat split; constructor.
  - cbn [asc_parse_loop].
    destruct (asc_parse_comment config st c) as [st1 | |] eqn:E1; cbn [bind];
      try discriminate.
    intros Hrest. destruct (IH st1 st' Hrest) as (ts & ws & Hts & Hws & Hlen & Hu & Hw).
    assert (Hw' : Forall (fun w => In (snd w) (c :: rest)) ws).
    { eapply List.Forall_impl; [|exact Hw]. intros w H. right. exact H. }
    destruct (asc_parse_comment_cases st st1 c E1)
      as [[Ha (w & Hwn)] | [Hwn (t & Ha & Ht)]].
    + exists ts, ((w, c) :: ws). rewrite Hts, Hws, Ha, Hwn, <- app_assoc.
      repeat split; try assumption; [cbn [length]; lia|].
      constructor; [left; reflexivity | exact Hw'].
    + exists (t :: ts), ws. rewrite Hts, Hws, Ha, Hwn, <- app_assoc.
      repeat split; try assumption; [cbn [length]; lia|].
      constructor; assumption.
Qed.

(** Every ascription comment of a record is accounted for: when
    [asc_parse_ascriptions] returns, each comment gave either one tuple
    or one warning, and every tuple has a user that is not empty and is
    listed in the configuration. *)
Theorem asc_parse_ascriptions_accounts (amsg : Message) (ts : list asc_tuple)
    (ws : list (parse_warning * str)) :
  asc_parse_ascriptions_w amsg config = Ok (ts, ws) ->
  (length ts + length ws = length (auto_comment amsg))%nat /\
  Forall (fun t => t_user t <> [] /\ In (t_user t) (users config)) ts /\
  Forall (fun w => In (snd w) (auto_comment amsg)) ws.
Proof.
  unfold asc_parse_ascriptions_w.
  destruct (asc_parse_loop config parse_state_init (auto_comment amsg))
    as [st | |] eqn:E; cbn [bind]; try discriminate.
  intros [= <- <-].
  destruct (asc_parse_loop_accounts _ _ _ E) as (ts & ws & Hts & Hws & Hlen & Hu & Hw).
  cbn [ascripts warnings parse_state_init app] in Hts, Hws. rewrite Hts, Hws.
  auto.
Qed.

End ParserAccounts.

Lemma asc_parse_ascriptions_accounts_witness :
  (length [mkAsc (lit "alice") ATYPE_MOD [] (mkDatetime 2020 1 2 10 30 15 60) 1 true false;
           mkAsc (lit "bob") ATYPE_REV [] (mkDatetime 2020 1 3 8 0 0 60) 0 true false]
   + length (@nil (parse_warning * str))
   = length (auto_comment amsg_mod_then_review))%nat /\
  Forall (fun t => t_user t <> [] /\ In (t_user t) (users demo_config))
    [mkAsc (lit "alice") ATYPE_MOD [] (mkDatetime 2020 1 2 10 30 15 60) 1 true false;
     mkAsc (lit "bob") ATYPE_REV [] (mkDatetime 2020 1 3 8 0 0 60) 0 true false] /\
  Forall (fun w => In (snd w) (auto_comment amsg_mod_then_review))
    (@nil (parse_warning * str)).
Proof.
  apply (asc_parse_ascriptions_accounts demo_config amsg_mod_then_review).
  vm_compute. reflexivity.
Defined.

(** ** What every reconstructed ascription carries *)

Section Entries.

Variable config : Config.

Lemma decode_fields_identity (shead : str) (amsg : Message) (fields : list field) :
  Forall (fun f => f <> F_msgctxt) fields ->
  forall ds pmsg pmsg' ds',
    decode_fields shead amsg fields ds pmsg = Ok (pmsg', ds') ->
    msgctxt pmsg' = msgctxt pmsg /\ msgid pmsg' = msgid pmsg /\
    fuzzy pmsg' = fuzzy pmsg /\ obsolete pmsg' = obsolete pmsg.
Proof.
  induction 1 as [|f fields Hf _ IH]; intros ds pmsg pmsg' ds'.
  - intros [= <- <-]. auto.
  - cbn [decode_fields].
    destruct (decode_items shead (get_as_sequence amsg f true) 0 (spos ds f)
                (pvals ds f) []) as [[[pseq sp] pv] | |]; cbn [bind]; try discriminate.
    intros Hrest. apply IH in Hrest as (H1 & H2 & H3 & H4).
    destruct (set_from_sequence_flags pmsg f pseq) as (F1 & F2 & _ & F4 & F5).
    rewrite bool_decide_eq_false_2 in F4 by exact Hf.
    repeat split; congruence.
Qed.

Lemma asc_collect_step_entry (amsg : Message) (t : asc_tuple)
    (history history' : list Ascription) (ds ds' : decode_state) :
  t_user t <> [] -> In (t_user t) (users config) ->
  Forall (entry_from config amsg) history ->
  asc_collect_step amsg t history ds = Ok (history', ds') ->
  Forall (entry_from config amsg) history' /\ length history' = S (length history).
Proof.
  intros Hne Hin Hall. unfold asc_collect_step.
  match goal with
  | |- bind ?r _ = _ -> _ =>
      assert (Hid : forall pmsg d, r = Ok (pmsg, d) ->
                msgctxt pmsg = msgctxt amsg /\ msgid pmsg = msgid amsg);
        [|destruct r as [[pmsg d] | |]; cbn [bind]; try discriminate]
  end.
  { intros pmsg d. destruct (negb (t_seplen t =? 0)).
    - intros Hd. apply decode_fields_identity in Hd as (H1 & H2 & _).
      + split; [exact H1 | exact H2].
      + repeat constructor; discriminate.
    - unfold last_res. destruct history as [|x l _] using rev_ind; [discriminate|].
      rewrite rev_app_distr. cbn [rev app bind]. intros [= <- <-].
      apply List.Forall_app in Hall as [_ Hx]. inversion Hx as [|? ? Hx' _]; subst.
      destruct Hx' as (_ & _ & _ & _ & _ & _ & _ & H1 & H2). split; assumption. }
  destruct (Hid pmsg d eq_refl) as [H1 H2].
  intros [= <- <-]. split; [|rewrite length_app; cbn [length]; lia].
  apply List.Forall_app. split; [exact Hall|]. constructor; [|constructor].
  unfold entry_from. cbn.
  split; [reflexivity|]. split; [exists (t_user t); auto|].
  repeat split; try discriminate; assumption.
Qed.

Lemma asc_collect_loop_entries (amsg : Message) (ts : list asc_tuple) :
  Forall (fun t => t_user t <> [] /\ In (t_user t) (users config)) ts ->
  forall history ds history' ds',
    Forall (entry_from config amsg) history ->
    asc_collect_loop amsg ts history ds = Ok (history', ds') ->
    Forall (entry_from config amsg) history' /\
    length history' = (length history + length ts)%nat.
Proof.
  induction 1 as [|t ts [Hne Hin] _ IH]; intros history ds history' ds' Hall.
  - intros [= <- <-]. split; [exact Hall | cbn; lia].
  - cbn [asc_collect_loop].
    destruct (asc_collect_step amsg t history ds) as [[h1 ds1] | |] eqn:E;
      cbn [bind]; try discriminate.
    destruct (asc_collect_step_entry amsg t history h1 ds ds1 Hne Hin Hall E)
      as [Hall1 Hlen1].
    cbn [fst snd]. intros Hrest.
    destruct (IH h1 ds1 history' ds' Hall1 Hrest) as [Hall' Hlen'].
    split; [exact Hall' | cbn [length]; lia].
Qed.

(** Every ascription [asc_collect_history_single] returns comes from one
    accepted comment of the record: there are as many ascriptions as
    tuples parsed, and each refers to the record, has a user listed in
    the configuration, a time stamp and a separator length, no position
    yet, and a message with the identity of the record and the state
    flags of the ascription. *)
Theorem asc_collect_history_single_entries (amsg : Message)
    (history : list Ascription) :
  asc_collect_history_single amsg config = Ok history ->
  Forall (entry_from config amsg) history /\
  exists ts, asc_parse_ascriptions amsg config = Ok ts /\
             length history = length ts.
Proof.
  intros (u0 & Hu & -> & _)%asc_collect_history_single_sorted. revert Hu.
  unfold asc_collect_history_unsorted.
  destruct (asc_parse_ascriptions amsg config) as [ts | |] eqn:Ep; cbn [bind];
    try discriminate.
  destruct (asc_collect_loop amsg ts [] decode_state_init) as [[u ds] | |] eqn:El;
    cbn [bind]; try discriminate.
  intros [= <-].
  assert (Hts : Forall (fun t => t_user t <> [] /\ In (t_user t) (users config)) ts).
  { unfold asc_parse_ascriptions in Ep.
    destruct (asc_parse_ascriptions_w amsg config) as [[ts' ws] | |] eqn:Ew;
      cbn [bind] in Ep; try discriminate.
    injection Ep as <-. apply (asc_parse_ascriptions_accounts config amsg ts' ws Ew). }
  destruct (asc_collect_loop_entries amsg ts Hts [] _ u ds ltac:(constructor) El)
    as [Hall Hlen].
  split.
  - apply List.Forall_forall. intros a Ha. apply sort_history_In in Ha.
    rewrite List.Forall_forall in Hall. apply Hall, Ha.
  - exists ts. split; [reflexivity|].
    unfold sort_history. rewrite length_map, length_rev.
    rewrite (Permutation_length (sort_ord_perm _)), length_combine, length_seq.
    cbn [fst length] in *. lia.
Qed.

End Entries.

Lemma asc_collect_history_single_entries_witness :
  Forall (entry_from demo_config rec_two_writes) history_two_writes /\
  exists ts, asc_parse_ascriptions rec_two_writes demo_config = Ok ts /\
             length history_two_writes = length ts.
Proof.
  apply (asc_collect_history_single_entries demo_config rec_two_writes).
  vm_compute. reflexivity.
Defined.

(** ** What a write does to the record *)

Section WriteShape.

Variable config : Config.

Lemma tag_lines_first (atype user dtstr tail : str) (atag : str) (rest : list str) :
  tag_lines atype (atag :: rest) ((user ++ lit " | " ++ dtstr) ++ tail)
    (user ++ lit " | " ++ dtstr) true =
  (plain_comment atype atag user dtstr ++ tail)
  :: map (fun t => plain_comment atype t user dtstr) rest.
Proof.
  cbn [tag_lines]. f_equal.
  - unfold plain_comment. rewrite <- !app_assoc. reflexivity.
  - generalize ((user ++ lit " | " ++ dtstr) ++ tail). intros mw.
    induction rest as [|t rest IH]; [reflexivity|].
    cbn [tag_lines map]. rewrite IH. reflexivity.
Qed.

(** The record after [ascribe_msg_any], whenever it returns. *)
Lemma ascribe_amsg_shape (msg amsg amsg' : Message) (atype : str)
    (atags : list str) (user : str) (dt : datetime) :
  ascribe_amsg msg amsg atype atags user config dt = Ok amsg' ->
  exists dtstr tail (nonid : bool) seplen rhistory,
    format_datetime dt = Ok dtstr /\
    amsg' =
    set_obsolete
      (set_fuzzy
         (if nonid
          then add_nonid
                 (set_multiple amsg F_auto_comment
                    (auto_comment amsg
                     ++ tag_lines atype (tags_or_default atags)
                          ((user ++ lit " | " ++ dtstr) ++ tail)
                          (user ++ lit " | " ++ dtstr) true))
                 msg seplen rhistory
          else set_multiple amsg F_auto_comment
                 (auto_comment amsg
                  ++ tag_lines atype (tags_or_default atags)
                       ((user ++ lit " | " ++ dtstr) ++ tail)
                       (user ++ lit " | " ++ dtstr) true))
         (fuzzy msg)) (obsolete msg).
Proof.
  unfold ascribe_amsg.
  destruct (asc_collect_history_single amsg config) as [h | |]; cbn [bind];
    try discriminate.
  match goal with
  | |- context [match ?m with (_, _) => _ end] => destruct m as [hs hn]
  end.
  destruct (format_datetime dt) as [s | |]; cbn [bind]; try discriminate.
  match goal with
  | |- context [bind ?r _] => destruct r as [n | |]
  end; cbn [bind]; try discriminate.
  destruct (append_tag_lines _ _ _ _ _ _) as [a1 | |] eqn:Ea; cbn [bind];
    try discriminate.
  apply append_tag_lines_inv in Ea. subst a1.
  intros [= <-].
  exists s.
  exists (if hn || hs
          then comment_tail ((if hn then Py.str_of_int n else [])
                             ++ (if obsolete msg then [_mark_obs] else [])
                             ++ (if fuzzy msg then [_mark_fuzz] else []))
          else []).
  exists hn, n, (rev h). split; [reflexivity|].
  fold (tags_or_default atags).
  destruct (hn || hs).
  - rewrite modstr_tail. destruct hn; reflexivity.
  - rewrite app_nil_r. destruct hn; reflexivity.
Qed.

(** A write only appends.  When [ascribe_msg_any] returns, the record
    has kept its identity and has the flags of the live message; its
    comments are the comments it had, followed by one comment per tag (one
    when no tag is given), each starting with type, tag, user and time
    stamp, and only the first one continued by a trailing block; and every
    stored text of a tracked field starts with the text stored before. *)
Theorem ascribe_msg_any_appends (msg amsg amsg' : Message) (atype : str)
    (atags : list str) (user : str) (dt : datetime) :
  ascribe_amsg msg amsg atype atags user config dt = Ok amsg' ->
  msgctxt amsg' = msgctxt amsg /\ msgid amsg' = msgid amsg /\
  fuzzy amsg' = fuzzy msg /\ obsolete amsg' = obsolete msg /\
  (exists dtstr tail,
     format_datetime dt = Ok dtstr /\
     auto_comment amsg' =
     auto_comment amsg
     ++ (plain_comment atype (hd [] (tags_or_default atags)) user dtstr ++ tail)
        :: map (fun t => plain_comment atype t user dtstr)
             (tl (tags_or_default atags))) /\
  (forall f i old,
     In f _nonid_fields_tracked ->
     nth_error (get_as_sequence amsg f true) i = Some old ->
     exists added,
       nth_error (get_as_sequence amsg' f true) i = Some (old ++ added)).
Proof.
  intros Hasc.
  destruct (ascribe_amsg_shape _ _ _ _ _ _ _ Hasc)
    as (dtstr & tail & nonid & seplen & rh & Hfmt & ->).
  destruct (tags_or_default_cons atags) as (atag & rest & Htags).
  rewrite Htags, tag_lines_first. cbn [hd tl].
  split; [destruct nonid; reflexivity|]. split; [destruct nonid; reflexivity|].
  split; [reflexivity|]. split; [reflexivity|]. split.
  - exists dtstr, tail. split; [exact Hfmt|]. destruct nonid; reflexivity.
  - intros f i old Hf Hold. rewrite flags_sequence. destruct nonid.
    + rewrite add_nonid_field, comments_sequence by exact Hf.
      unfold add_nonid_items. rewrite add_items_nth.
      rewrite nth_error_app1 by (apply nth_error_Some; congruence).
      rewrite Hold. cbn [option_map].
      destruct old as [|c old'].
      * eexists. cbn [app]. reflexivity.
      * eexists. rewrite <- app_assoc. reflexivity.
    + rewrite comments_sequence by exact Hf. exists []. rewrite app_nil_r. exact Hold.
Qed.

End WriteShape.

Lemma ascribe_msg_any_appends_witness :
  msgctxt rec_two_writes = msgctxt (base_message msg_first) /\
  msgid rec_two_writes = msgid (base_message msg_first) /\
  fuzzy rec_two_writes = fuzzy msg_second /\
  obsolete rec_two_writes = obsolete msg_second /\
  (exists dtstr tail,
     format_datetime (day 2) = Ok dtstr /\
     auto_comment rec_two_writes =
     [lit "modified: alice | 2020-01-01 10:30:15+0100 | 1"]
     ++ (plain_comment ATYPE_MOD (hd [] (tags_or_default [])) (lit "bob") dtstr ++ tail)
        :: map (fun t => plain_comment ATYPE_MOD t (lit "bob") dtstr)
             (tl (tags_or_default []))) /\
  (forall f i old,
     In f _nonid_fields_tracked ->
     nth_error
       (get_as_sequence
          (mkMessage None (lit "greeting") None [lit "first|~"] None None None []
             [lit "modified: alice | 2020-01-01 10:30:15+0100 | 1"] false false)
          f true) i = Some old ->
     exists added,
       nth_error (get_as_sequence rec_two_writes f true) i = Some (old ++ added)).
Proof.
  apply (ascribe_msg_any_appends demo_config msg_second
           (mkMessage None (lit "greeting") None [lit "first|~"] None None None []
              [lit "modified: alice | 2020-01-01 10:30:15+0100 | 1"] false false)
           rec_two_writes ATYPE_MOD [] (lit "bob") (day 2)).
  vm_compute. reflexivity.
Defined.

(** ** What a write does to the catalog *)

Section CatalogShape.

Variable config : Config.

Lemma cat_get_key (acat : Catalog) (msg amsg : Message) :
  cat_get acat msg = Some amsg -> key amsg = key msg /\ In amsg acat.
Proof.
  unfold cat_get. intros H. apply find_some in H as [Hin E].
  apply bool_decide_eq_true_1 in E. split; assumption.
Qed.

Lemma cat_put_keys (acat : Catalog) (amsg : Message) :
  map key (cat_put acat amsg) = map key acat.
Proof.
  induction acat as [|m acat IH]; [reflexivity|]. cbn [cat_put].
  destruct (decide (key m = key amsg)) as [E | E].
  - rewrite (bool_decide_eq_true_2 _ E). cbn [map]. rewrite E. reflexivity.
  - rewrite (bool_decide_eq_false_2 _ E). cbn [map]. rewrite IH. reflexivity.
Qed.

Lemma cat_put_other (acat : Catalog) (amsg m : Message) :
  key m <> key amsg -> cat_get (cat_put acat amsg) m = cat_get acat m.
Proof.
  intros Hne. unfold cat_get. induction acat as [|x acat IH]; [reflexivity|].
  cbn [cat_put]. destruct (decide (key x = key amsg)) as [E | E].
  - rewrite (bool_decide_eq_true_2 _ E). cbn [List.find].
    rewrite !bool_decide_eq_false_2 by congruence. reflexivity.
  - rewrite (bool_decide_eq_false_2 _ E). cbn [List.find].
    destruct (bool_decide (key x = key m)); [reflexivity | exact IH].
Qed.

Lemma cat_get_add_last_other (acat : Catalog) (amsg m : Message) :
  key m <> key amsg -> cat_get (add_last acat amsg) m = cat_get acat m.
Proof.
  intros Hne. unfold cat_get, add_last. induction acat as [|x acat IH].
  - cbn. rewrite bool_decide_eq_false_2 by congruence. reflexivity.
  - cbn [app List.find]. destruct (bool_decide (key x = key m)); [reflexivity | exact IH].
Qed.

(** [ascribe_msg_any] touches one record.  When it returns, the catalog
    has its records in the places they had, with one record of the
    identity of the message added at the end if there was none; the
    records of other identities are found as before; and the record of
    the message is what the write made of the record found, or of a new
    record with nothing but the identity of the message. *)
Theorem ascribe_msg_any_one_record (msg : Message) (acat acat' : Catalog)
    (atype : str) (atags : list str) (user : str) (dt : datetime) :
  ascribe_msg_any msg acat atype atags user config dt = Ok acat' ->
  map key acat' = map key acat ++ (if cat_in msg acat then [] else [key msg]) /\
  (forall m, key m <> key msg -> cat_get acat' m = cat_get acat m) /\
  exists amsg',
    cat_get acat' msg = Some amsg' /\
    ascribe_amsg msg
      (match cat_get acat msg with Some amsg => amsg | None => base_message msg end)
      atype atags user config dt = Ok amsg'.
Proof.
  unfold ascribe_msg_any, cat_in.
  destruct (cat_get acat msg) as [amsg|] eqn:Hget.
  - destruct (ascribe_amsg msg amsg atype atags user config dt) as [amsg' | |] eqn:Hasc;
      cbn [bind]; try discriminate.
    intros [= <-]. destruct (cat_get_key acat msg amsg Hget) as [Hkey _].
    pose proof (ascribe_amsg_key config _ _ _ _ _ _ _ Hasc) as Hkey'.
    split; [rewrite cat_put_keys, app_nil_r; reflexivity|].
    split; [intros m Hm; apply cat_put_other; congruence|].
    exists amsg'. split; [|reflexivity].
    apply (cat_put_get acat amsg); [exact Hget | congruence].
  - change (mkMessage (msgctxt msg) (msgid msg) None [] None None None [] [] false false)
      with (base_message msg).
    destruct (ascribe_amsg msg (base_message msg) atype atags user config dt)
      as [amsg' | |] eqn:Hasc; cbn [bind]; try discriminate.
    intros [= <-].
    pose proof (ascribe_amsg_key config _ _ _ _ _ _ _ Hasc) as Hkey'.
    split; [|split].
    + rewrite cat_put_keys. unfold add_last. rewrite map_app. reflexivity.
    + intros m Hm. rewrite cat_put_other by (rewrite Hkey'; exact Hm).
      apply cat_get_add_last_other. exact Hm.
    + exists amsg'. split; [|reflexivity].
      apply (ascribe_msg_any_new config acat msg amsg' atype atags user dt Hget Hasc).
Qed.

End CatalogShape.

Lemma ascribe_msg_any_one_record_witness :
  map key [rec_two_writes] =
    map key [mkMessage None (lit "greeting") None [lit "first|~"] None None None []
               [lit "modified: alice | 2020-01-01 10:30:15+0100 | 1"] false false]
    ++ (if cat_in msg_second
             [mkMessage None (lit "greeting") None [lit "first|~"] None None None []
                [lit "modified: alice | 2020-01-01 10:30:15+0100 | 1"] false false]
        then [] else [key msg_second]) /\
  (forall m, key m <> key msg_second ->
     cat_get [rec_two_writes] m =
     cat_get [mkMessage None (lit "greeting") None [lit "first|~"] None None None []
                [lit "modified: alice | 2020-01-01 10:30:15+0100 | 1"] false false] m) /\
  exists amsg',
    cat_get [rec_two_writes] msg_second = Some amsg' /\
    ascribe_amsg msg_second
      (match cat_get
               [mkMessage None (lit "greeting") None [lit "first|~"] None None None []
                  [lit "modified: alice | 2020-01-01 10:30:15+0100 | 1"] false false]
               msg_second
       with Some amsg => amsg | None => base_message msg_second end)
      ATYPE_MOD [] (lit "bob") demo_config (day 2) = Ok amsg'.
Proof.
  apply (ascribe_msg_any_one_record demo_config msg_second
           [mkMessage None (lit "greeting") None [lit "first|~"] None None None []
              [lit "modified: alice | 2020-01-01 10:30:15+0100 | 1"] false false]
           [rec_two_writes] ATYPE_MOD [] (lit "bob") (day 2)).
  vm_compute. reflexivity.
Defined.

(** ** Ascribing a modification makes the message ascribed *)

Section ModificationAscribed.

Variable config : Config.

Lemma tracked_value_eq_fields (msg : Message) (f : field) :
  In f (if fuzzy msg then _nonid_fields_eq_fuzzy else _nonid_fields_eq_nonfuzzy) ->
  In f _nonid_fields_tracked /\ tracked_value msg f = get msg f.
Proof.
  unfold tracked_value. destruct (fuzzy msg); cbn.
  - intros H. split; [|reflexivity]. intuition.
  - intros [<- | [<- | [<- | []]]]; (split; [intuition | reflexivity]).
Qed.

(** A message that has, on the tracked fields, what a write sees on the
    live message, and the flags of the live message, is equal to it from
    the ascription viewpoint. *)
Lemma asc_eq_snapshot (msg m : Message) :
  (forall f, In f _nonid_fields_tracked -> get m f = tracked_value msg f) ->
  fuzzy m = fuzzy msg -> obsolete m = obsolete msg ->
  asc_eq msg m = true.
Proof.
  intros Hget Hf Ho. apply asc_eq_true. split.
  - assert (Hs : msgstr m = msgstr msg).
    { assert (E : get m F_msgstr = tracked_value msg F_msgstr)
        by (apply Hget; cbn; auto).
      unfold tracked_value in E. cbn in E. rewrite andb_false_r in E.
      injection E as E. exact E. }
    unfold state. rewrite Hf, Ho, Hs. reflexivity.
  - apply forallb_forall. intros f Hin. apply bool_decide_eq_true_2.
    destruct (tracked_value_eq_fields msg f Hin) as [Ht Hv].
    rewrite (Hget f Ht). symmetry. exact Hv.
Qed.

Lemma asc_eq_differs (P : list (asc_tuple * Message)) (msg : Message)
    (p : asc_tuple * Message) :
  last P = Some p -> asc_eq msg (snd p) = false -> differs P msg = true.
Proof.
  intros Hlast Hneq. unfold differs, differs_nonid, differs_state. rewrite Hlast.
  destruct (has_nonid_diff (snd p) msg) eqn:Hn; [reflexivity|]. cbn [orb].
  destruct (decide (state (snd p) = state msg)) as [Es | Es].
  - exfalso. destruct (state_flags _ _ Es) as [Hf Ho].
    rewrite asc_eq_snapshot in Hneq; [discriminate | | assumption | assumption].
    apply has_nonid_diff_values. exact Hn.
  - rewrite (bool_decide_eq_false_2 _ Es). reflexivity.
Qed.

(** The newest ascription after a modification without tags that found a
    difference. *)
Lemma write_pairs_modification (amsg : Message) (P : list (asc_tuple * Message))
    (w : write) (seplen : Z) :
  w_type w = ATYPE_MOD -> w_tags w = [] ->
  one_line_comments (w_msg w) ->
  differs P (w_msg w) = true ->
  exists t m,
    write_pairs amsg P (w_msg w) (w_type w) (w_tags w) (w_user w) (w_date w) seplen
      = [(t, m)] /\
    t_user t = w_user w /\ t_type t = ATYPE_MOD /\
    asc_eq (w_msg w) m = true.
Proof.
  intros Hty Htags Hone Hd. unfold write_pairs.
  rewrite Hty, Htags, Hd. cbn [tags_or_default tag_tuples chain_flags andb].
  eexists. eexists. split; [reflexivity|]. split; [reflexivity|].
  split; [reflexivity|].
  apply asc_eq_snapshot.
  - intros f Hf. rewrite with_flags_get.
    destruct (differs_nonid P (w_msg w)) eqn:E.
    + apply snapshot_value; assumption.
    + unfold differs_nonid in E. destruct (last P) as [p|]; [|discriminate E].
      apply has_nonid_diff_values; assumption.
  - unfold with_flags, flag_after. cbn.
    rewrite bool_decide_eq_true_2 by reflexivity. destruct (fuzzy (w_msg w)); reflexivity.
  - unfold with_flags, flag_after. cbn.
    rewrite bool_decide_eq_true_2 by reflexivity.
    destruct (obsolete (w_msg w)); reflexivity.
Qed.


End ModificationAscribed.


(** ** Time stamps written and read *)

Section TimeStamps.

Lemma run_app (p : ascii -> bool) (ds rest : str) :
  forallb p ds = true -> stops p rest -> Rx.run p (ds ++ rest) = length ds.
Proof.
  induction ds as [|c ds IH]; intros Hall Hstop.
  - destruct rest as [|d rest]; [reflexivity|]. cbn in *. rewrite Hstop. reflexivity.
  - cbn in Hall. apply andb_true_iff in Hall as [Hc Hds].
    cbn [app Rx.run length]. rewrite Hc, IH by assumption. reflexivity.
Qed.

Lemma first_down_first {A} (k : nat -> option A) (lo n : nat) (r : A) :
  k n = Some r -> Rx.first_down k lo n = Some r.
Proof. intros E. destruct n; cbn [Rx.first_down]; rewrite E; reflexivity. Qed.

Lemma matches_digits (pat : list rx_item) (ds rest : str) (g : list str) :
  ds <> [] -> forallb Py.isdigit ds = true -> stops Py.isdigit rest ->
  Rx.matches pat rest = Some g ->
  Rx.matches (RxDigits :: pat) (ds ++ rest) = Some (ds :: g).
Proof.
  intros Hne Hall Hstop Hg. cbn [Rx.matches].
  rewrite run_app by assumption.
  destruct (length ds) as [|n] eqn:El; [destruct ds; [congruence | discriminate]|].
  apply first_down_first. rewrite <- El.
  rewrite take_app_length, drop_app_length, Hg. reflexivity.
Qed.

Lemma matches_lit (pat : list rx_item) (c : ascii) (rest : str) :
  Rx.matches (RxLit c :: pat) (c :: rest) = Rx.matches pat rest.
Proof. cbn [Rx.matches]. rewrite Ascii.eqb_refl. reflexivity. Qed.

Lemma matches_spaces (pat : list rx_item) (sp rest : str) (g : list str) :
  forallb Rx.is_space sp = true -> stops Rx.is_space rest ->
  Rx.matches pat rest = Some g ->
  Rx.matches (RxSpaces :: pat) (sp ++ rest) = Some g.
Proof.
  intros Hall Hstop Hg. cbn [Rx.matches]. rewrite run_app by assumption.
  apply first_down_first. rewrite drop_app_length. exact Hg.
Qed.

Lemma matches_signed (pat : list rx_item) (d : ascii) (ds rest : str) (g : list str) :
  Rx.is_sign d = true ->
  ds <> [] -> forallb Py.isdigit ds = true -> stops Py.isdigit rest ->
  Rx.matches pat rest = Some g ->
  Rx.matches (RxSigned :: pat) (d :: ds ++ rest) = Some ((d :: ds) :: g).
Proof.
  intros Hd Hne Hall Hstop Hg. cbn [Rx.matches]. rewrite Hd.
  rewrite run_app by assumption.
  destruct (length ds) as [|n] eqn:El; [destruct ds; [congruence | discriminate]|].
  apply first_down_first. rewrite <- El.
  rewrite take_app_length, drop_app_length, Hg. reflexivity.
Qed.

Lemma pad2_two (n : Z) :
  0 <= n < 100 ->
  exists c1 c2, Datetime.pad2 n = [c1; c2] /\
                Py.isdigit c1 = true /\ Py.isdigit c2 = true /\
                Py.digits_val [c1; c2] = n.
Proof.
  intros Hn.
  assert (Hall : forallb
                   (fun k => match Datetime.pad2 (Z.of_nat k) with
                             | [c1; c2] => Py.isdigit c1 && Py.isdigit c2
                                           && (Py.digits_val [c1; c2] =? Z.of_nat k)
                             | _ => false
                             end) (seq 0 100) = true)
    by (vm_compute; reflexivity).
  rewrite forallb_forall in Hall. specialize (Hall (Z.to_nat n)).
  rewrite Z2Nat.id in Hall by lia.
  destruct (Datetime.pad2 n) as [|c1 [|c2 [|c3 l]]];
    try (discriminate Hall; apply in_seq; lia).
  exists c1, c2. specialize (Hall ltac:(apply in_seq; lia)).
  apply andb_true_iff in Hall as [[H1 H2]%andb_true_iff H3].
  apply Z.eqb_eq in H3. auto.
Qed.

Lemma int_signed (d : ascii) (ds : str) :
  Rx.is_sign d = true -> ds <> [] -> forallb Py.isdigit ds = true ->
  Py.int (d :: ds) =
  Ok (if Ascii.eqb d "-" then - Py.digits_val ds else Py.digits_val ds).
Proof.
  intros Hd Hne Hall. unfold Py.int.
  rewrite strip_visible.
  2:{ apply all_visible. cbn [forallb]. apply andb_true_iff. split.
      - unfold Rx.is_sign in Hd. apply orb_true_iff in Hd as [E | E];
          apply Ascii.eqb_eq in E; subst d; reflexivity.
      - rewrite forallb_forall in *. intros c Hc.
        apply negb_true_iff, isdigit_not_space, Hall, Hc. }
  unfold Rx.is_sign in Hd.
  destruct (Ascii.eqb d "-") eqn:E1.
  - destruct ds; [congruence|]. rewrite Hall. reflexivity.
  - cbn [orb] in Hd. rewrite orb_false_r in Hd. rewrite Hd.
    destruct ds; [congruence|]. rewrite Hall. reflexivity.
Qed.

Lemma digit_not_blank (c : ascii) : Py.isdigit c = true -> Rx.is_space c = false.
Proof.
  intros Hc. unfold Rx.is_space. destruct (Ascii.eqb c " ") eqn:E; [|reflexivity].
  apply Ascii.eqb_eq in E. subst c. discriminate Hc.
Qed.

Lemma digits_val_four (o1 o2 p1 p2 : ascii) :
  Py.digits_val [o1; o2; p1; p2] = 100 * Py.digits_val [o1; o2] + Py.digits_val [p1; p2].
Proof. unfold Py.digits_val. cbn [fold_left]. lia. Qed.

Lemma offset_split (off : Z) :
  -1440 < off < 1440 ->
  let n := if off <? 0
           then - (100 * (Z.abs off / 60) + Z.abs off mod 60)
           else 100 * (Z.abs off / 60) + Z.abs off mod 60 in
  n / 100 * 60 + n mod 100 =
  if (off <? 0) && negb (off mod 60 =? 0) then off + 40 else off.
Proof.
  intros Hoff. cbv zeta.
  pose proof (Z.div_mod (Z.abs off) 60 ltac:(lia)) as Hdm.
  pose proof (Z.mod_pos_bound (Z.abs off) 60 ltac:(lia)) as Hb.
  assert (Ha : 0 <= Z.abs off / 60) by (apply Z.div_pos; lia).
  set (A := Z.abs off / 60) in *. set (B := Z.abs off mod 60) in *.
  destruct (off <? 0) eqn:Eneg.
  - apply Z.ltb_lt in Eneg. cbn [andb].
    assert (Habs : Z.abs off = - off) by lia.
    destruct (Z.eq_dec B 0) as [EB | EB].
    + assert (Hm : off mod 60 = 0).
      { symmetry. apply (Z.mod_unique off 60 (- A) 0); lia. }
      rewrite Hm. cbn [Z.eqb negb]. rewrite EB.
      replace (- (100 * A + 0)) with ((- A) * 100) by lia.
      rewrite Z.div_mul, Z.mod_mul by lia. lia.
    + assert (Hm : off mod 60 <> 0).
      { intros Hm. apply EB.
        assert (E : off mod 60 = 60 - B)
          by (symmetry; apply (Z.mod_unique off 60 (- A - 1) (60 - B)); lia).
        lia. }
      apply Z.eqb_neq in Hm. rewrite Hm. cbn [negb].
      assert (Hq : - (100 * A + B) / 100 = - A - 1)
        by (symmetry; apply (Z.div_unique (- (100 * A + B)) 100 (- A - 1) (100 - B)); lia).
      assert (Hr : - (100 * A + B) mod 100 = 100 - B)
        by (symmetry; apply (Z.mod_unique (- (100 * A + B)) 100 (- A - 1) (100 - B)); lia).
      rewrite Hq, Hr. lia.
  - apply Z.ltb_ge in Eneg. cbn [andb].
    assert (Habs : Z.abs off = off) by lia.
    assert (Hq : (100 * A + B) / 100 = A)
      by (symmetry; apply (Z.div_unique (100 * A + B) 100 A B); lia).
    assert (Hr : (100 * A + B) mod 100 = B)
      by (symmetry; apply (Z.mod_unique (100 * A + B) 100 A B); lia).
    rewrite Hq, Hr. lia.
Qed.

End TimeStamps.

Section ReadBack.

Lemma days_in_month_le (y m : Z) : Datetime.days_in_month y m <= 31.
Proof.
  unfold Datetime.days_in_month.
  destruct (m =? 2); [destruct (Datetime.is_leap y); lia|].
  destruct (_ || _); lia.
Qed.

Lemma matches_stamp (Y : str) (m1 m2 d1 d2 h1 h2 i1 i2 s1 s2 sg o1 o2 p1 p2 : ascii) :
  Y <> [] -> forallb Py.isdigit Y = true ->
  forallb Py.isdigit [m1; m2; d1; d2; h1; h2; i1; i2; s1; s2; o1; o2; p1; p2] = true ->
  Rx.is_sign sg = true ->
  Rx.matches
    (_rx_date ++ _rx_hm ++ [RxLit ":"; RxDigits; RxSpaces; RxSigned; RxSpaces])
    (Y ++ "-"%char :: [m1; m2] ++ "-"%char :: [d1; d2] ++ " "%char :: [h1; h2]
       ++ ":"%char :: [i1; i2] ++ ":"%char :: [s1; s2] ++ [sg] ++ [o1; o2] ++ [p1; p2])
  = Some [Y; [m1; m2]; [d1; d2]; [h1; h2]; [i1; i2]; [s1; s2]; sg :: [o1; o2; p1; p2]].
Proof.
  intros HY HYd Hall Hsg.
  cbn [forallb] in Hall.
  repeat (apply andb_true_iff in Hall as [? Hall]).
  assert (Hsgd : Py.isdigit sg = false).
  { unfold Rx.is_sign in Hsg. apply orb_true_iff in Hsg as [E | E];
      apply Ascii.eqb_eq in E; subst sg; reflexivity. }
  assert (Hsgs : Rx.is_space sg = false).
  { unfold Rx.is_sign in Hsg. apply orb_true_iff in Hsg as [E | E];
      apply Ascii.eqb_eq in E; subst sg; reflexivity. }
  assert (Hpair : forall a b : ascii, Py.isdigit a = true -> Py.isdigit b = true ->
                    forallb Py.isdigit [a; b] = true)
    by (intros a b Ha Hb; cbn; rewrite Ha, Hb; reflexivity).
  unfold _rx_date, _rx_hm. cbn [app].
  (* leading blanks: none *)
  apply (matches_spaces _ [] _ _ eq_refl).
  { destruct Y as [|c Y']; [congruence|]. cbn [app stops].
    apply digit_not_blank. cbn in HYd. apply andb_true_iff in HYd. tauto. }
  apply matches_digits; [exact HY | exact HYd | reflexivity |].
  rewrite matches_lit.
  apply (matches_digits _ [m1; m2]); [discriminate | auto | reflexivity |].
  rewrite matches_lit.
  apply (matches_digits _ [d1; d2]); [discriminate | auto | reflexivity |].
  apply (matches_spaces _ [" "%char] _ _ eq_refl).
  { cbn [app stops]. apply digit_not_blank. assumption. }
  apply (matches_digits _ [h1; h2]); [discriminate | auto | reflexivity |].
  rewrite matches_lit.
  apply (matches_digits _ [i1; i2]); [discriminate | auto | reflexivity |].
  rewrite matches_lit.
  apply (matches_digits _ [s1; s2]); [discriminate | auto | exact Hsgd |].
  apply (matches_spaces _ [] _ _ eq_refl); [exact Hsgs|].
  cbn [app].
  change (sg :: o1 :: o2 :: [p1; p2]) with (sg :: [o1; o2; p1; p2] ++ []).
  apply matches_signed; [exact Hsg | discriminate | | exact I |].
  { cbn. repeat match goal with H : Py.isdigit _ = true |- _ => rewrite H; clear H end.
    reflexivity. }
  apply (matches_spaces _ [] [] _ eq_refl I). reflexivity.
Qed.

(** A time stamp written by [format_datetime] and parsed by
    [parse_datetime] comes back as it was, with one exception: an offset
    west of UTC that is not a whole number of hours comes back 40 minutes
    further east, since the number read after the sign is taken apart by
    floor division.  (Years before 1900 cannot be written.) *)
Theorem read_back_time_stamp (dt : datetime) :
  Datetime.valid dt = true -> 1900 <= dt_year dt ->
  read_back dt = Ok (reads_back_as dt).
Proof.
  destruct dt as [y mo d h mi s off].
  unfold Datetime.valid, read_back, format_datetime, Datetime.strftime, reads_back_as.
  cbn [dt_year dt_month dt_day dt_hour dt_minute dt_second dt_utcoffset].
  rewrite !andb_true_iff, !Z.leb_le, !Z.ltb_lt.
  intros Hv Hy.
  pose proof (days_in_month_le y mo) as Hdim.
  destruct (y <? 1900) eqn:Ey; [apply Z.ltb_lt in Ey; lia|].
  assert (Hoff : Datetime.offset_ok (mkDatetime y mo d h mi s off) = true)
    by (unfold Datetime.offset_ok; cbn [dt_utcoffset];
        rewrite andb_true_iff, !Z.ltb_lt; lia).
  rewrite Hoff. cbn [negb bind].
  destruct (str_of_int_digits y ltac:(lia)) as (HY & HYd & HYv).
  destruct (pad2_two mo ltac:(lia)) as (m1 & m2 & -> & Hm1 & Hm2 & Hmv).
  destruct (pad2_two d ltac:(lia)) as (d1 & d2 & -> & Hd1 & Hd2 & Hdv).
  destruct (pad2_two h ltac:(lia)) as (h1 & h2 & -> & Hh1 & Hh2 & Hhv).
  destruct (pad2_two mi ltac:(lia)) as (i1 & i2 & -> & Hi1 & Hi2 & Hiv).
  destruct (pad2_two s ltac:(lia)) as (s1 & s2 & -> & Hs1 & Hs2 & Hsv).
  assert (HA : 0 <= Z.abs off / 60 < 100).
  { split; [apply Z.div_pos; lia|]. apply Z.div_lt_upper_bound; lia. }
  assert (HB : 0 <= Z.abs off mod 60 < 100)
    by (pose proof (Z.mod_pos_bound (Z.abs off) 60 ltac:(lia)); lia).
  destruct (pad2_two _ HA) as (o1 & o2 & -> & Ho1 & Ho2 & Hov).
  destruct (pad2_two _ HB) as (p1 & p2 & -> & Hp1 & Hp2 & Hpv).
  set (sg := if off <? 0 then "-"%char else "+"%char).
  assert (Hsg : Rx.is_sign sg = true) by (unfold sg; destruct (off <? 0); reflexivity).
  assert (Hstr : Py.str_of_int y ++ lit "-" ++ [m1; m2] ++ lit "-" ++ [d1; d2]
                 ++ lit " " ++ [h1; h2] ++ lit ":" ++ [i1; i2] ++ lit ":" ++ [s1; s2]
                 ++ (if off <? 0 then lit "-" else lit "+") ++ [o1; o2] ++ [p1; p2]
                 = Py.str_of_int y ++ "-"%char :: [m1; m2] ++ "-"%char :: [d1; d2]
                   ++ " "%char :: [h1; h2] ++ ":"%char :: [i1; i2]
                   ++ ":"%char :: [s1; s2] ++ [sg] ++ [o1; o2] ++ [p1; p2])
    by (unfold sg; destruct (off <? 0); reflexivity).
  rewrite Hstr.
  pose proof (matches_stamp (Py.str_of_int y) m1 m2 d1 d2 h1 h2 i1 i2 s1 s2 sg
                o1 o2 p1 p2 HY HYd) as Hmatch.
  specialize (Hmatch ltac:(cbn [forallb];
    rewrite Hm1, Hm2, Hd1, Hd2, Hh1, Hh2, Hi1, Hi2, Hs1, Hs2, Ho1, Ho2, Hp1, Hp2;
    reflexivity) Hsg).
  unfold parse_datetime, _parse_date_rxs. cbn [List.find]. rewrite Hmatch.
  cbv iota beta. rewrite Hmatch. cbn [group_ints].
  assert (Hint2 : forall a b : ascii, Py.isdigit a = true -> Py.isdigit b = true ->
                    group_int [a; b] = Ok (Py.digits_val [a; b])).
  { intros a b Ha Hb. unfold group_int. apply int_digits; [discriminate|].
    cbn. rewrite Ha, Hb. reflexivity. }
  assert (HintY : group_int (Py.str_of_int y) = Ok y).
  { unfold group_int. destruct (Py.str_of_int y) eqn:E; [congruence|].
    rewrite <- E. apply int_str_of_int. lia. }
  assert (Hints : group_int (sg :: [o1; o2; p1; p2]) =
                  Ok (if off <? 0
                      then - (100 * (Z.abs off / 60) + Z.abs off mod 60)
                      else 100 * (Z.abs off / 60) + Z.abs off mod 60)).
  { unfold group_int. rewrite int_signed; [| exact Hsg | discriminate |].
    - rewrite digits_val_four, Hov, Hpv. unfold sg. destruct (off <? 0); reflexivity.
    - cbn. rewrite Ho1, Ho2, Hp1, Hp2. reflexivity. }
  rewrite HintY, !Hint2, Hints by assumption. cbn [bind length repeat app Nat.sub].
  rewrite Hmv, Hdv, Hhv, Hiv, Hsv.
  rewrite (offset_split off ltac:(lia)).
  assert (Hvalid : Datetime.constructible
                     (mkDatetime y mo d h mi s
                        (if (off <? 0) && negb (off mod 60 =? 0) then off + 40 else off))
                   = true).
  { unfold Datetime.constructible.
    cbn [dt_year dt_month dt_day dt_hour dt_minute dt_second dt_utcoffset].
    rewrite !andb_true_iff, !Z.leb_le. repeat split; lia. }
  rewrite Hvalid.
  assert (Hdelta : Datetime.timedelta_ok
                     (if (off <? 0) && negb (off mod 60 =? 0) then off + 40 else off)
                   = true).
  { unfold Datetime.timedelta_ok. rewrite andb_true_iff, !Z.leb_le.
    destruct ((off <? 0) && negb (off mod 60 =? 0)); split;
      first [apply Z.div_le_lower_bound; lia | apply Z.div_le_upper_bound; lia]. }
  rewrite Hdelta. cbn [andb].
  destruct ((off <? 0) && negb (off mod 60 =? 0)); reflexivity.
Qed.

End ReadBack.

Lemma read_back_time_stamp_witness :
  read_back (mkDatetime 1999 12 31 23 59 59 (-330)) =
  Ok (reads_back_as (mkDatetime 1999 12 31 23 59 59 (-330))).
Proof.
  apply read_back_time_stamp; [reflexivity | vm_compute; discriminate].
Defined.

(** ** Users and tags of a selector *)

Section FixedSets.

Lemma parse_fixed_set_nonempty (c : ascii) (s : str) (knownels : gset str) :
  parse_fixed_set (Some (c :: s)) knownels =
  let t := remove_spaces (c :: s) in
  let inverted := Py.startswith t (lit "~") in
  let els : gset str :=
    list_to_set (Py.split "," (if inverted then Py.slice_from t 1 else t)) in
  if forallb (fun el => bool_decide (el ∈ knownels)) (elements els)
  then Ok (if inverted then knownels ∖ els else els)
  else Raise SelectorError.
Proof.
  unfold parse_fixed_set. cbv zeta.
  destruct (Py.startswith (remove_spaces (c :: s)) (lit "~")); reflexivity.
Qed.

Lemma all_known_subset (els knownels : gset str) :
  forallb (fun el => bool_decide (el ∈ knownels)) (elements els) = true <->
  els ⊆ knownels.
Proof.
  rewrite forallb_forall. split.
  - intros H x Hx. specialize (H x).
    rewrite bool_decide_eq_true in H. apply H.
    apply list_elem_of_In, elem_of_elements, Hx.
  - intros H x Hx. apply bool_decide_eq_true, H.
    apply elem_of_elements, list_elem_of_In, Hx.
Qed.

Lemma parse_fixed_set_cases (elstr : option str) (knownels : gset str) :
  (exists els, parse_fixed_set elstr knownels = Ok els /\ els ⊆ knownels) \/
  parse_fixed_set elstr knownels = Raise SelectorError.
Proof.
  destruct elstr as [[|c s]|].
  - left. exists ∅. split; [reflexivity | set_solver].
  - rewrite parse_fixed_set_nonempty. cbv zeta.
    match goal with |- context [forallb ?f ?l] => destruct (forallb f l) eqn:E end.
    + left. apply all_known_subset in E. eexists. split; [reflexivity|].
      destruct (Py.startswith _ _); [|exact E].
      intros x Hx. apply elem_of_difference in Hx. tauto.
    + right. reflexivity.
  - left. exists ∅. split; [reflexivity | set_solver].
Qed.

Lemma slice_from_1 (c : ascii) (s : str) : Py.slice_from (c :: s) 1 = s.
Proof.
  unfold Py.slice_from, Py.clamp, Py.len. cbn [length].
  replace (1 <? 0) with false by reflexivity.
  replace (Z.max 0 (Z.min (Z.of_nat (S (length s))) 1)) with 1 by lia.
  reflexivity.
Qed.

Lemma startswith_tilde (t : str) :
  Py.startswith t (lit "~") = true -> exists r, t = "~"%char :: r.
Proof.
  destruct t as [|c r]; intros H; [discriminate|].
  change (Ascii.eqb "~" c && true = true) in H.
  apply andb_true_iff in H as [E _].
  apply Ascii.eqb_eq in E. subst. eauto.
Qed.

Lemma remove_spaces_tilde (s : str) :
  remove_spaces ("~"%char :: s) = "~"%char :: remove_spaces s.
Proof. reflexivity. Qed.

(** Users and tags that are not known abort the run, and nothing else
    goes wrong; the users parsed are users of the configuration, and the
    tags parsed are never none: they are known tags, or the empty tag
    alone. *)
Theorem parse_users_tags_known (spec : option str) (config : Config)
    (review_tags : gset str) :
  ((exists us, parse_users spec config = Ok us /\
               forall u, u ∈ us -> In u (users config)) \/
   parse_users spec config = Raise SelectorError) /\
  ((exists tags, parse_tags spec review_tags = Ok tags /\ tags <> ∅ /\
                 (tags ⊆ review_tags \/ tags = {[ [] ]})) \/
   parse_tags spec review_tags = Raise SelectorError).
Proof.
  split.
  - unfold parse_users.
    destruct (parse_fixed_set_cases spec (list_to_set (users config)))
      as [(els & -> & Hsub) | ->]; [left | right; reflexivity].
    exists els. split; [reflexivity|].
    intros u Hu. apply list_elem_of_In. apply Hsub in Hu.
    apply elem_of_list_to_set in Hu. exact Hu.
  - unfold parse_tags.
    destruct (parse_fixed_set_cases spec review_tags)
      as [(els & -> & Hsub) | ->]; [left | right; reflexivity].
    cbn [bind]. eexists. split; [reflexivity|].
    destruct (bool_decide (els = ∅)) eqn:E.
    + split; [|right; reflexivity].
      intros H. assert (Hin : ([] : str) ∈ ({[ [] ]} : gset str)) by set_solver.
      rewrite H in Hin. set_solver.
    + apply bool_decide_eq_false in E. split; [exact E | left; exact Hsub].
Qed.

(** A list that starts with a tilde selects what the list without the
    tilde leaves of the known elements: the two selections have no
    element in common and together are the known elements. *)
Theorem parse_fixed_set_inverted (s : str) (knownels els : gset str) :
  s <> [] ->
  Py.startswith (remove_spaces s) (lit "~") = false ->
  parse_fixed_set (Some s) knownels = Ok els ->
  parse_fixed_set (Some ("~"%char :: s)) knownels = Ok (knownels ∖ els) /\
  els ∪ (knownels ∖ els) = knownels /\ els ∩ (knownels ∖ els) = ∅.
Proof.
  intros Hne Hst Hp.
  destruct s as [|c s]; [congruence|].
  rewrite parse_fixed_set_nonempty in Hp. cbv zeta in Hp. rewrite Hst in Hp.
  rewrite parse_fixed_set_nonempty. cbv zeta.
  rewrite remove_spaces_tilde.
  replace (Py.startswith ("~"%char :: remove_spaces (c :: s)) (lit "~"))
    with true by reflexivity.
  rewrite slice_from_1.
  match type of Hp with context [forallb ?f ?l] => destruct (forallb f l) eqn:E end;
    [|discriminate].
  injection Hp as <-. split; [reflexivity|].
  apply all_known_subset in E.
  split;
    [|apply set_eq; intros x;
      rewrite elem_of_intersection, elem_of_difference, elem_of_empty; tauto].
  apply set_eq. intros x. rewrite elem_of_union, elem_of_difference.
  split; [intros [H | [H _]]; auto|].
  intros H. destruct (decide (x ∈ (list_to_set (Py.split "," (remove_spaces (c :: s))) : gset str)));
    [left | right]; auto.
Qed.

End FixedSets.

Lemma parse_fixed_set_inverted_witness :
  parse_fixed_set (Some (lit "~bob")) (list_to_set (users demo_config)) =
    Ok (list_to_set (users demo_config) ∖ {[ lit "bob" ]}).
Proof.
  assert (H : parse_fixed_set (Some (lit "bob")) (list_to_set (users demo_config))
              = Ok {[ lit "bob" ]}) by (vm_compute; reflexivity).
  exact (proj1 (parse_fixed_set_inverted (lit "bob") _ _
                  ltac:(discriminate) eq_refl H)).
Defined.

(** ** History selectors *)

Section FirstMatch.

Lemma first_at_where (p : Ascription -> bool) (history : list Ascription) (i : Z) :
  0 <= i ->
  (first_at p history i = 0 /\ Forall (fun a => p a = false) history) \/
  (exists pre a post, history = pre ++ a :: post /\
     first_at p history i = i + Z.of_nat (length pre) + 1 /\ p a = true /\
     Forall (fun b => p b = false) pre).
Proof.
  revert i. induction history as [|a rest IH]; intros i Hi; cbn [first_at].
  - left. split; [reflexivity | constructor].
  - destruct (p a) eqn:E.
    + right. exists [], a, rest. cbn. repeat split; [lia | exact E | constructor].
    + destruct (IH (i + 1) ltac:(lia)) as [[H0 Hall] | (pre & b & post & -> & Hn & Hb & Hpre)].
      * left. split; [exact H0 | constructor; assumption].
      * right. exists (a :: pre), b, post. cbn [length app].
        repeat split; [lia | exact Hb | constructor; assumption].
Qed.

Lemma first_at_first_where (p : Ascription -> bool) (history : list Ascription) :
  first_where p history (first_at p history 0).
Proof.
  destruct (first_at_where p history 0 ltac:(lia))
    as [[H0 Hall] | (pre & b & post & -> & Hn & Hb & Hpre)].
  - left. split; assumption.
  - right. exists pre, b, post. repeat split; [lia | assumption | assumption].
Qed.

Lemma on_ascribed_run (history : list Ascription) (k : Res Z) :
  ascribed history -> on_ascribed history k = k.
Proof.
  intros (a & rest & u & -> & Hu). unfold on_ascribed, nth_res.
  change (Z.to_nat 0) with 0%nat. cbn [Z.ltb Z.compare nth_error bind].
  rewrite Hu. reflexivity.
Qed.

Variable review_tags : gset str.

(** On a history that starts with an ascription, with users and tags
    that are known, the selectors [asc], [mod] and [rev] answer the
    position of the newest ascription of their kind: 1 plus the number of
    entries in front of the first one that is by one of the users (by
    anybody when no user is given) and, for [mod], a modification, for
    [rev], a review under one of the tags; and 0 when there is none. *)
Theorem selectors_newest_match (user_spec atag_spec : option str) (args : sel_args)
    (users atags : gset str) :
  ascribed (s_history args) ->
  parse_users user_spec (s_config args) = Ok users ->
  parse_tags atag_spec review_tags = Ok atags ->
  (exists n, selector_asc user_spec args = Ok n /\
             first_where (any_or_in users) (s_history args) n) /\
  (exists n, selector_mod user_spec args = Ok n /\
             first_where (fun a => nonempty (a_user a) &&
                                   (is_mod a && any_or_in users a))
               (s_history args) n) /\
  (exists n, selector_rev review_tags user_spec atag_spec args = Ok n /\
             first_where (fun a => is_rev a && bool_decide (a_tag a ∈ atags)
                                   && any_or_in users a)
               (s_history args) n).
Proof.
  intros Hasc Hu Ht.
  unfold selector_asc, selector_mod, selector_rev.
  rewrite !on_ascribed_run by exact Hasc. rewrite Hu, Ht. cbn [bind].
  split; [|split]; eexists; (split; [reflexivity | apply first_at_first_where]).
Qed.

End FirstMatch.

Lemma selectors_newest_match_witness :
  (exists n, selector_asc (Some (lit "alice")) args_reviewed = Ok n /\
             first_where (any_or_in {[ lit "alice" ]}) (s_history args_reviewed) n) /\
  (exists n, selector_mod (Some (lit "alice")) args_reviewed = Ok n /\
             first_where (fun a => nonempty (a_user a) &&
                                   (is_mod a && any_or_in {[ lit "alice" ]} a))
               (s_history args_reviewed) n) /\
  (exists n, selector_rev {[ [] ]} (Some (lit "alice")) None args_reviewed = Ok n /\
             first_where (fun a => is_rev a && bool_decide (a_tag a ∈ ({[ [] ]} : gset str))
                                   && any_or_in {[ lit "alice" ]} a)
               (s_history args_reviewed) n).
Proof.
  apply (selectors_newest_match {[ [] ]} (Some (lit "alice")) None args_reviewed).
  - exists entry_third, [entry_second; entry_review; entry_first], (lit "bob").
    split; reflexivity.
  - vm_compute. reflexivity.
  - vm_compute. reflexivity.
Defined.

Section FirstAfter.

Lemma merge_modified_total (msg1 msg2 : Message) :
  msgstr msg1 <> [] -> msgstr msg2 <> [] ->
  exists b, merge_modified msg1 msg2 = Ok b.
Proof.
  intros H1 H2. unfold merge_modified.
  destruct (negb (bool_decide (manual_comment msg1 = manual_comment msg2)));
    [eauto|].
  match goal with |- context [if negb ?c then _ else _] => destruct (negb c) end;
    [eauto|].
  cbv zeta.
  match goal with |- context [if bool_decide ?c then _ else _] =>
    destruct (bool_decide c) end; [eauto|].
  destruct (negb (fuzzy msg1) && negb (fuzzy msg2)); [eauto|].
  destruct (msgstr msg1) as [|s1 r1]; [congruence|].
  destruct (msgstr msg2) as [|s2 r2]; [congruence|].
  unfold nth_res. change (Z.to_nat 0) with 0%nat.
  cbn [Z.ltb Z.compare nth_error bind].
  destruct (msgid_plural msg1); eauto.
Qed.

Lemma no_candidate_total (tronly : bool) (a : Ascription) (ae : option Ascription) :
  msgstr (a_msg a) <> [] ->
  match ae with Some e => msgstr (a_msg e) <> [] | None => True end ->
  exists b, no_candidate tronly a ae = Ok b.
Proof.
  intros Ha He. unfold no_candidate.
  destruct (user_is a UFUZZ).
  - destruct ae as [e|].
    + destruct (merge_modified_total (a_msg e) (a_msg a) He Ha) as [b ->].
      cbn [bind]. destruct b; eauto.
    + cbn [bind]. eauto.
  - cbn [bind]. eauto.
Qed.

Lemma nth_error_0_hd {A} (l : list A) : nth_error l 0 = hd_error l.
Proof. destruct l; reflexivity. Qed.

Variables (amod arev tronly : bool) (musers rmusers atags : gset str).

Lemma candidate_at_S (a : Ascription) (rest : list Ascription) (k : nat) :
  (candidate_at tronly musers rmusers) (a :: rest) (S k) <-> (candidate_at tronly musers rmusers) rest k.
Proof. unfold candidate_at. cbn [nth_error]. tauto. Qed.

Lemma modax_loop_last (history : list Ascription) (i hi_sel : Z) :
  Forall (fun a => msgstr (a_msg a) <> []) history ->
  exists n,
    modax_loop amod arev tronly musers rmusers atags history i hi_sel = Ok n /\
    exists live rest,
      history = live ++ rest /\
      Forall (fun a => (cancels amod arev musers rmusers atags) a = false) live /\
      match rest with
      | [] => True
      | c :: _ => (cancels amod arev musers rmusers atags) c = true
      end /\
      ((n = hi_sel /\ forall k, (k < length live)%nat -> ~ (candidate_at tronly musers rmusers) history k) \/
       (exists k, n = i + Z.of_nat k + 1 /\ (k < length live)%nat /\
                  (candidate_at tronly musers rmusers) history k /\
                  forall j, (k < j < length live)%nat -> ~ (candidate_at tronly musers rmusers) history j)).
Proof.
  revert i hi_sel.
  induction history as [|a rest IH]; intros i hi_sel Hne; cbn [modax_loop].
  - exists hi_sel. split; [reflexivity|]. exists [], []. 
    repeat split; [constructor|]. left. split; [reflexivity|].
    intros k Hk. cbn in Hk. lia.
  - apply List.Forall_cons_iff in Hne as [Ha Hrest].
    destruct (cancels amod arev musers rmusers atags a) eqn:Ec.
    + exists hi_sel. split; [reflexivity|]. exists [], (a :: rest).
      repeat split; [constructor | exact Ec |]. left. split; [reflexivity|].
      intros k Hk. cbn in Hk. lia.
    + assert (Hae : match hd_error rest with
                    | Some e => msgstr (a_msg e) <> []
                    | None => True
                    end).
      { destruct rest as [|e r]; [exact I|].
        apply List.Forall_cons_iff in Hrest as [He _]. exact He. }
      destruct (no_candidate_total tronly a (hd_error rest) Ha Hae) as [skip Hskip].
      assert (Hzero : (candidate_at tronly musers rmusers) (a :: rest) 0 <->
                      admissible musers rmusers a = true /\ skip = false).
      { unfold candidate_at.
        change (nth_error (a :: rest) 0) with (Some a).
        change (nth_error (a :: rest) 1) with (nth_error rest 0).
        rewrite nth_error_0_hd.
        split.
        - intros (b & [= <-] & Hadm & Hc). rewrite Hskip in Hc.
          injection Hc as ->. auto.
        - intros [Hadm ->]. exists a. auto. }
      set (hi' := if admissible musers rmusers a
                  then (if skip then hi_sel else i + 1) else hi_sel).
      destruct (IH (i + 1) hi' Hrest)
        as (n & Hn & live & rest' & Hsplit & Hlive & Hrest' & Hsel).
      exists n. split.
      { destruct (admissible musers rmusers a); [rewrite Hskip; cbn [bind]|];
          exact Hn. }
      exists (a :: live), rest'. split; [rewrite Hsplit; reflexivity|].
      split; [constructor; assumption|]. split; [exact Hrest'|].
      destruct Hsel as [[Hhi Hnone] | (k & Hk & Hlt & Hcand & Hlater)].
      * destruct (admissible musers rmusers a) eqn:Eadm;
          [destruct skip eqn:Es|]; unfold hi' in Hhi.
        -- left. split; [exact Hhi|]. intros [|k] Hk.
           ++ rewrite Hzero. intros [_ ?]. discriminate.
           ++ rewrite candidate_at_S. apply Hnone. cbn in Hk. lia.
        -- right. exists 0%nat. split; [lia|]. split; [cbn; lia|].
           split; [apply Hzero; auto|].
           intros [|j] Hj; [lia|]. rewrite candidate_at_S. apply Hnone.
           cbn in Hj. lia.
        -- left. split; [exact Hhi|]. intros [|k] Hk.
           ++ rewrite Hzero. intros [? _]. discriminate.
           ++ rewrite candidate_at_S. apply Hnone. cbn in Hk. lia.
      * right. exists (S k). split; [lia|]. split; [cbn; lia|].
        split; [apply candidate_at_S; exact Hcand|].
        intros [|j] Hj; [lia|]. rewrite candidate_at_S. apply Hlater.
        cbn in Hj. lia.
Qed.

Variable review_tags : gset str.

(** The selectors [modar], [modam], [modarm] and [tmodar], on a history
    that starts with an ascription and whose messages have a translation,
    with users and tags that are known: the history is passed from the
    newest entry to the first one that cancels, and the answer is the
    position of the last, that is the oldest, admissible modification in
    front of it which can be a candidate; 0 when there is none. *)
Theorem w_selector_modax_oldest (muser_spec rmuser_spec atag_spec : option str)
    (args : sel_args) :
  ascribed (s_history args) ->
  Forall (fun a => msgstr (a_msg a) <> []) (s_history args) ->
  parse_users muser_spec (s_config args) = Ok musers ->
  parse_users rmuser_spec (s_config args) = Ok rmusers ->
  parse_tags atag_spec review_tags = Ok atags ->
  exists n,
    w_selector_modax review_tags amod arev muser_spec rmuser_spec atag_spec
      tronly args = Ok n /\
    last_before (cancels amod arev musers rmusers atags)
      (candidate_at tronly musers rmusers (s_history args)) (s_history args) n.
Proof.
  intros Hasc Hne Hm Hr Ht. unfold w_selector_modax.
  rewrite on_ascribed_run by exact Hasc. rewrite Hm, Hr, Ht. cbn [bind].
  destruct (modax_loop_last (s_history args) 0 0 Hne)
    as (n & Hn & live & rest & Hsplit & Hlive & Hrest & Hsel).
  exists n. split; [exact Hn|]. exists live, rest.
  split; [exact Hsplit|]. split; [exact Hlive|]. split; [exact Hrest|].
  destruct Hsel as [[-> Hnone] | (k & -> & Hlt & Hcand & Hlater)].
  - left. split; [reflexivity | exact Hnone].
  - right. exists k. split; [lia|]. auto.
Qed.

End FirstAfter.

Lemma w_selector_modax_oldest_witness :
  exists n,
    selector_modar {[ [] ]} None None None args_reviewed = Ok n /\
    last_before (cancels false true ∅ ∅ {[ [] ]})
      (candidate_at false ∅ ∅ (s_history args_reviewed))
      (s_history args_reviewed) n.
Proof.
  apply (w_selector_modax_oldest false true false ∅ ∅ {[ [] ]} {[ [] ]}
           None None None args_reviewed).
  - exists entry_third, [entry_second; entry_review; entry_first], (lit "bob").
    split; reflexivity.
  - repeat constructor; discriminate.
  - vm_compute. reflexivity.
  - vm_compute. reflexivity.
  - vm_compute. reflexivity.
Defined.

Section ReviewBefore.

Variables (rusers musers atags : gset str).

Lemma review_no_modification (a : Ascription) :
  revbm_review rusers musers atags a = true ->
  revbm_modification rusers musers a = false.
Proof.
  unfold revbm_review, revbm_modification, is_rev, is_mod.
  rewrite !andb_true_iff, bool_decide_eq_true. intros [[[Ht _] _] _].
  rewrite Ht. reflexivity.
Qed.

Lemma revbm_loop_first (history : list Ascription) (i : Z) (can_select : bool) :
  0 <= i ->
  (revbm_loop rusers musers atags history i can_select = 0 /\
   Forall (fun a => revbm_review rusers musers atags a = false) history) \/
  (exists pre r post,
     history = pre ++ r :: post /\
     revbm_review rusers musers atags r = true /\
     Forall (fun a => revbm_review rusers musers atags a = false) pre /\
     revbm_loop rusers musers atags history i can_select =
       if can_select || existsb (revbm_modification rusers musers) pre
       then i + Z.of_nat (length pre) + 1 else 0).
Proof.
  revert i can_select.
  induction history as [|a rest IH]; intros i can_select Hi; cbn [revbm_loop].
  - left. split; [reflexivity | constructor].
  - cbv zeta. fold (revbm_modification rusers musers a).
    fold (revbm_review rusers musers atags a).
    destruct (revbm_review rusers musers atags a) eqn:Er.
    + right. exists [], a, rest. rewrite (review_no_modification a Er).
      cbn [existsb length app]. rewrite orb_false_r.
      split; [reflexivity|]. split; [exact Er|]. split; [constructor|].
      destruct can_select; [cbn [Z.of_nat]; lia | reflexivity].
    + set (cs := if revbm_modification rusers musers a then true else can_select).
      destruct (IH (i + 1) cs ltac:(lia))
        as [[H0 Hall] | (pre & r & post & -> & Hr & Hpre & Hn)].
      * left. split; [exact H0 | constructor; assumption].
      * right. exists (a :: pre), r, post.
        split; [reflexivity|]. split; [exact Hr|].
        split; [constructor; assumption|].
        rewrite Hn. cbn [existsb length]. unfold cs.
        replace ((if revbm_modification rusers musers a then true else can_select)
                 || existsb (revbm_modification rusers musers) pre)
          with (can_select || (revbm_modification rusers musers a
                               || existsb (revbm_modification rusers musers) pre))
          by (destruct (revbm_modification rusers musers a), can_select; reflexivity).
        destruct (can_select || _); [lia | reflexivity].
Qed.

Variable review_tags : gset str.

(** The selector [revbm], on a history that starts with an ascription,
    with users and tags that are known: it stops at the newest review of
    its kind, and answers its position when a modification of its kind
    stands in front of it, that is, is newer; it answers 0 when there is
    no such review, or no such modification in front of the newest one. *)
Theorem selector_revbm_first_review (ruser_spec muser_spec atag_spec : option str)
    (args : sel_args) :
  ascribed (s_history args) ->
  parse_users ruser_spec (s_config args) = Ok rusers ->
  parse_users muser_spec (s_config args) = Ok musers ->
  parse_tags atag_spec review_tags = Ok atags ->
  exists n,
    selector_revbm review_tags ruser_spec muser_spec atag_spec args = Ok n /\
    ((n = 0 /\
      Forall (fun a => revbm_review rusers musers atags a = false) (s_history args)) \/
     (exists pre r post,
        s_history args = pre ++ r :: post /\
        revbm_review rusers musers atags r = true /\
        Forall (fun a => revbm_review rusers musers atags a = false) pre /\
        n = if existsb (revbm_modification rusers musers) pre
            then Z.of_nat (length pre) + 1 else 0)).
Proof.
  intros Hasc Hr Hm Ht. unfold selector_revbm.
  rewrite on_ascribed_run by exact Hasc. rewrite Hr, Hm, Ht. cbn [bind].
  eexists. split; [reflexivity|].
  destruct (revbm_loop_first (s_history args) 0 false ltac:(lia))
    as [[H0 Hall] | (pre & r & post & Hsplit & Hrev & Hpre & Hn)].
  - left. split; assumption.
  - right. exists pre, r, post. rewrite Hn. cbn [orb].
    split; [exact Hsplit|]. split; [exact Hrev|]. split; [exact Hpre|].
    destruct (existsb _ pre); [lia | reflexivity].
Qed.

End ReviewBefore.

Lemma selector_revbm_first_review_witness :
  exists n,
    selector_revbm {[ [] ]} None None None args_reviewed = Ok n /\
    ((n = 0 /\
      Forall (fun a => revbm_review ∅ ∅ {[ [] ]} a = false) (s_history args_reviewed)) \/
     (exists pre r post,
        s_history args_reviewed = pre ++ r :: post /\
        revbm_review ∅ ∅ {[ [] ]} r = true /\
        Forall (fun a => revbm_review ∅ ∅ {[ [] ]} a = false) pre /\
        n = if existsb (revbm_modification ∅ ∅) pre
            then Z.of_nat (length pre) + 1 else 0)).
Proof.
  apply (selector_revbm_first_review ∅ ∅ {[ [] ]} {[ [] ]} None None None
           args_reviewed).
  - exists entry_third, [entry_second; entry_review; entry_first], (lit "bob").
    split; reflexivity.
  - vm_compute. reflexivity.
  - vm_compute. reflexivity.
  - vm_compute. reflexivity.
Defined.

Section ModifiedAfter.

Variables (users : gset str) (date : datetime).

Hypothesis Hdate_ok : Datetime.offset_ok date = true.

Lemma modafter_loop_last (rhistory : list Ascription) (i : Z) :
  Forall (fun a => a_date a <> None) rhistory ->
  Forall (fun a => comparable a = true) rhistory ->
  i = Z.of_nat (length rhistory) - 1 ->
  exists n,
    modafter_loop users date rhistory i = Ok n /\
    ((n = 0 /\ Forall (fun a => modified_from users date a = false) rhistory) \/
     (exists pre a post,
        rhistory = pre ++ a :: post /\ n = Z.of_nat (length post) + 1 /\
        modified_from users date a = true /\ Forall (fun b => modified_from users date b = false) pre)).
Proof.
  revert i. induction rhistory as [|a rest IH]; intros i Hd Hc Hi; cbn [modafter_loop].
  - exists 0. split; [reflexivity|]. left. split; [reflexivity | constructor].
  - apply List.Forall_cons_iff in Hd as [Ha Hrest].
    apply List.Forall_cons_iff in Hc as [Hca Hcrest].
    assert (Hhit : (if is_mod a && any_or_in users a
                    then date_ge (a_date a) date else Ok false) = Ok (modified_from users date a)).
    { unfold modified_from, dated_from, date_ge, date_le. unfold comparable in Hca.
      destruct (a_date a) as [d|]; [|congruence].
      rewrite Hdate_ok, Hca. cbn [andb].
      destruct (is_mod a && any_or_in users a); reflexivity. }
    rewrite Hhit. cbn [bind]. destruct (modified_from users date a) eqn:Eh.
    + exists (i + 1). split; [reflexivity|]. right. exists [], a, rest.
      cbn [length] in Hi. repeat split; [lia | exact Eh | constructor].
    + cbn [length] in Hi.
      destruct (IH (i - 1) Hrest Hcrest ltac:(lia))
        as (n & Hn & [[H0 Hall] | (pre & b & post & -> & Hnb & Hb & Hpre)]).
      * exists n. split; [exact Hn|]. left. split; [exact H0|].
        constructor; assumption.
      * exists n. split; [exact Hn|]. right. exists (a :: pre), b, post.
        repeat split; [exact Hnb | exact Hb | constructor; assumption].
Qed.


End ModifiedAfter.


Section ExcludedUsers.

Lemma parse_fixed_set_tilde (s : str) (knownels els : gset str) :
  s <> [] ->
  Py.startswith (remove_spaces s) (lit "~") = false ->
  parse_fixed_set (Some s) knownels = Ok els ->
  parse_fixed_set (Some ("~"%char :: s)) knownels = Ok (knownels ∖ els).
Proof.
  intros Hne Hst Hp.
  destruct s as [|c s]; [congruence|].
  rewrite parse_fixed_set_nonempty in Hp. cbv zeta in Hp. rewrite Hst in Hp.
  rewrite parse_fixed_set_nonempty. cbv zeta.
  rewrite remove_spaces_tilde.
  replace (Py.startswith ("~"%char :: remove_spaces (c :: s)) (lit "~"))
    with true by reflexivity.
  rewrite slice_from_1.
  match type of Hp with context [forallb ?f ?l] => destruct (forallb f l) end;
    [|discriminate].
  injection Hp as <-. reflexivity.
Qed.

(** A user list that excludes every user of the configuration leaves no
    user to select by, and a selector takes an empty selection of users
    for no restriction at all: [asc] and [mod] then answer as they do
    without a user list, so on a history that starts with an ascription
    [asc] answers 1, the newest entry, whoever made it. *)
Theorem excluding_all_users_selects_any (s : str) (args : sel_args)
    (els : gset str) :
  s <> [] ->
  Py.startswith (remove_spaces s) (lit "~") = false ->
  parse_users (Some s) (s_config args) = Ok els ->
  (forall u, In u (users (s_config args)) -> u ∈ els) ->
  parse_users (Some ("~"%char :: s)) (s_config args) = Ok ∅ /\
  selector_asc (Some ("~"%char :: s)) args = selector_asc None args /\
  selector_mod (Some ("~"%char :: s)) args = selector_mod None args /\
  (ascribed (s_history args) ->
   selector_asc (Some ("~"%char :: s)) args = Ok 1).
Proof.
  intros Hne Hst Hp Hall.
  assert (Hinv : parse_users (Some ("~"%char :: s)) (s_config args) = Ok ∅).
  { unfold parse_users in *.
    rewrite (parse_fixed_set_tilde s _ els Hne Hst Hp). f_equal.
    apply set_eq. intros x.
    rewrite elem_of_difference, elem_of_list_to_set, elem_of_empty.
    split; [|tauto]. intros [Hin Hout]. apply Hout, Hall, list_elem_of_In, Hin. }
  assert (Hnone : parse_users None (s_config args) = Ok ∅) by reflexivity.
  split; [exact Hinv|].
  unfold selector_asc, selector_mod. rewrite Hinv, Hnone.
  split; [reflexivity|]. split; [reflexivity|].
  intros Hasc. rewrite on_ascribed_run by exact Hasc. cbn [bind].
  destruct Hasc as (a & rest & u & -> & _). reflexivity.
Qed.

End ExcludedUsers.

Lemma excluding_all_users_selects_any_witness :
  parse_users (Some (lit "~alice,bob")) (s_config args_reviewed) = Ok ∅ /\
  selector_asc (Some (lit "~alice,bob")) args_reviewed =
    selector_asc None args_reviewed /\
  selector_mod (Some (lit "~alice,bob")) args_reviewed =
    selector_mod None args_reviewed /\
  (ascribed (s_history args_reviewed) ->
   selector_asc (Some (lit "~alice,bob")) args_reviewed = Ok 1).
Proof.
  apply (excluding_all_users_selects_any (lit "alice,bob") args_reviewed
           {[ lit "alice"; lit "bob" ]}).
  - discriminate.
  - reflexivity.
  - vm_compute. reflexivity.
  - intros u [<- | [<- | []]]; set_solver.
Defined.

Section PartialDates.

Lemma first_down_none {A} (k : nat -> option A) (lo n : nat) :
  (forall m, (m <= n)%nat -> k m = None) -> Rx.first_down k lo n = None.
Proof.
  induction n as [|n IH]; intros H; cbn [Rx.first_down].
  - rewrite (H 0%nat) by lia. reflexivity.
  - rewrite (H (S n)) by lia. destruct (n <? lo)%nat; [reflexivity|].
    apply IH. intros m Hm. apply H. lia.
Qed.

Lemma skipn_digits (ds : str) (k : nat) :
  forallb Py.isdigit ds = true -> forallb Py.isdigit (skipn k ds) = true.
Proof.
  intros H. rewrite forallb_forall in H |- *. intros c Hc. apply H.
  apply list_elem_of_In. apply list_elem_of_In in Hc.
  eapply (subseteq_drop k ds). exact Hc.
Qed.

Lemma matches_spaces_eq (pat : list rx_item) (s : str) :
  Rx.matches (RxSpaces :: pat) s =
  Rx.first_down (fun k => Rx.matches pat (skipn k s)) 0 (Rx.run Rx.is_space s).
Proof. reflexivity. Qed.

Lemma matches_digits_eq (pat : list rx_item) (s : str) :
  Rx.matches (RxDigits :: pat) s =
  match Rx.run Py.isdigit s with
  | O => None
  | n => Rx.first_down
           (fun k => option_map (cons (firstn k s)) (Rx.matches pat (skipn k s)))
           1 n
  end.
Proof. reflexivity. Qed.

Lemma matches_lit_none (pat : list rx_item) (c : ascii) (s : str) :
  stops (Ascii.eqb c) s -> Rx.matches (RxLit c :: pat) s = None.
Proof.
  destruct s as [|d t]; [reflexivity|]. cbn [stops]. intros H.
  change (Rx.matches (RxLit c :: pat) (d :: t))
    with (if Ascii.eqb c d then Rx.matches pat t else None).
  rewrite H. reflexivity.
Qed.

(** A text of digits does not match a pattern that wants a dash after
    the first number. *)
Lemma no_dash (pat : list rx_item) (ds : str) :
  ds <> [] -> forallb Py.isdigit ds = true ->
  Rx.matches (RxSpaces :: RxDigits :: RxLit "-" :: pat) ds = None.
Proof.
  intros Hne Hd.
  assert (Hsp : Rx.run Rx.is_space ds = 0%nat).
  { destruct ds as [|c ds]; [congruence|]. cbn in Hd |- *.
    apply andb_true_iff in Hd as [Hc _]. rewrite (digit_not_blank c Hc). reflexivity. }
  rewrite matches_spaces_eq, Hsp. cbn [Rx.first_down skipn].
  assert (Hdash : Rx.matches (RxDigits :: RxLit "-" :: pat) ds = None).
  { rewrite matches_digits_eq, run_all by exact Hd.
    destruct (length ds) as [|n]; [reflexivity|].
    apply first_down_none. intros m _.
    rewrite matches_lit_none; [reflexivity|].
    pose proof (skipn_digits ds m Hd) as Hs.
    destruct (skipn m ds) as [|d t]; [exact I|].
    cbn in Hs. apply andb_true_iff in Hs as [Hdig _]. cbn [stops].
    destruct (Ascii.eqb "-" d) eqn:E; [|reflexivity].
    apply Ascii.eqb_eq in E. subst d. discriminate. }
  change (drop 0 ds) with ds. rewrite Hdash. reflexivity.
Qed.

Lemma year_only (ds : str) :
  ds <> [] -> forallb Py.isdigit ds = true ->
  Rx.matches [RxSpaces; RxDigits; RxSpaces] ds = Some [ds].
Proof.
  intros Hne Hd.
  change ds with ([] ++ ds) at 1. apply matches_spaces; [reflexivity | |].
  { destruct ds as [|c ds]; [exact I|]. cbn in Hd |- *.
    apply andb_true_iff in Hd as [Hc _]. exact (digit_not_blank c Hc). }
  rewrite <- (app_nil_r ds) at 1. apply matches_digits; [exact Hne | exact Hd | exact I |].
  reflexivity.
Qed.

(** A time given as a year alone, in digits, is read as the first
    moment of that year at UTC: month and day default to 1, the time of
    day and the offset to 0.  Years that the calendar does not have, 0
    and those above 9999, are an error. *)
Theorem parse_datetime_year (ds : str) :
  ds <> [] -> forallb Py.isdigit ds = true ->
  parse_datetime ds =
    if (1 <=? Py.digits_val ds) && (Py.digits_val ds <=? 9999)
    then Ok (mkDatetime (Py.digits_val ds) 1 1 0 0 0 0)
    else Raise ValueError.
Proof.
  intros Hne Hd. unfold parse_datetime, _parse_date_rxs, _rx_date, _rx_hm.
  cbn [app List.find].
  rewrite !no_dash by assumption. rewrite year_only by assumption.
  cbv iota beta. rewrite year_only by assumption.
  cbn [group_ints]. unfold group_int.
  rewrite int_digits by assumption.
  destruct ds as [|c ds']; [congruence|]. set (y := Py.digits_val (c :: ds')).
  cbn [bind length app repeat Nat.sub].
  change (Datetime.timedelta_ok (0 / 100 * 60 + 0 mod 100)) with true.
  unfold Datetime.constructible.
  cbn [dt_year dt_month dt_day dt_hour dt_minute dt_second dt_utcoffset andb].
  destruct ((1 <=? y) && (y <=? 9999)); reflexivity.
Qed.

End PartialDates.

Lemma parse_datetime_year_witness :
  parse_datetime (lit "2020") = Ok (mkDatetime 2020 1 1 0 0 0 0).
Proof.
  exact (parse_datetime_year (lit "2020") ltac:(discriminate) eq_refl).
Defined.
